(** * CPP_Parser: a recursive-descent syntax checker over a token file

    Shallow embedding of [src/cpp_parser.py] and [src/new_parse.py].

    Both files define the same three things: a reader turning the lines
    of a token file into [Token]s, a [Parser] object (token list, cursor,
    diagnostics, main-flag) with one method per grammar rule, and the
    entry function [parse_cpp_tokens].

    Modelling choices.
    - A Python [str] is a [string]; a [Token] is a record of two strings
      (the readers accept any text for both fields).
    - The [Parser] object is the record of its three mutable attributes;
      the token list never changes and is a section variable.
    - An optional argument is an [option string]; Python truthiness of
      such an argument ([None] and the empty string are false) is
      [truthy].
    - A method is a function on [Parser]; a recursive method receives its
      own recursive occurrence as the argument [self_...] and the knot is
      tied by a counter ([..._at]).  A [while] loop is [loop] with a
      budget of iterations.  [None] means that a counter or a budget ran
      out; the theorems show that this never happens for the budget used
      by [parse].
    - The interpreter's call stack is taken to be unbounded.  CPython
      raises [RecursionError] when the rules nest deeper than its
      recursion limit allows (with the default limit, at about a hundred
      nested parentheses); the [except] clause of [parse] turns this
      fault into the [Raised] outcome of [pass_outcome], which [finish]
      covers.  What is stated of the value a rule or the loop of [parse]
      returns is therefore stated of the calls that return.
    - A character is an [ascii]; [is_space] holds the white space of
      [str.strip()] among the ASCII characters.  [str.strip()] also
      removes the white space of Unicode beyond ASCII, so what depends
      on the characters stripped is stated of ASCII lines. *)

From Stdlib Require Import String Ascii List Bool Arith Lia DecimalString.
Import ListNotations.
Open Scope string_scope.

(** ** Tokens and Python strings *)

Record Token : Type := mkToken { type : string; value : string }.

(** [x in [a, b, ...]] on strings. *)
Definition str_in (x : string) (l : list string) : bool :=
  existsb (String.eqb x) l.

(** Truthiness of an optional string argument. *)
Definition truthy (o : option string) : bool :=
  match o with
  | None => false
  | Some s => negb (String.eqb s "")
  end.

(** [o or d] for an optional string [o] and a string [d]. *)
Definition or_default (o : option string) (d : string) : string :=
  match o with
  | Some s => if String.eqb s "" then d else s
  | None => d
  end.

(** [str(n)] for a non-negative integer. *)
Definition str_of_nat (n : nat) : string :=
  NilZero.string_of_uint (Nat.to_uint n).

(** Characters removed by [str.strip()], among the ASCII ones: tab to
    carriage return, the four separators and the space.  Beyond ASCII
    [str.strip()] also removes U+0085, U+00A0 and the further white space
    of Unicode, which this predicate does not hold. *)
Definition is_space (c : ascii) : bool :=
  let n := nat_of_ascii c in
  (((9 <=? n) && (n <=? 13)) || ((28 <=? n) && (n <=? 32)))%nat.

Fixpoint lstrip (s : string) : string :=
  match s with
  | String c r => if is_space c then lstrip r else s
  | EmptyString => EmptyString
  end.

Fixpoint rstrip (s : string) : string :=
  match s with
  | String c r =>
      match rstrip r with
      | EmptyString => if is_space c then EmptyString else String c EmptyString
      | r' => String c r'
      end
  | EmptyString => EmptyString
  end.

Definition strip (s : string) : string := rstrip (lstrip s).

Definition startswith (s : string) (c : ascii) : bool :=
  match s with
  | String d _ => Ascii.eqb d c
  | EmptyString => false
  end.

Fixpoint endswith (s : string) (c : ascii) : bool :=
  match s with
  | String d EmptyString => Ascii.eqb d c
  | String _ r => endswith r c
  | EmptyString => false
  end.

(** [s[:-1]]. *)
Fixpoint drop_last (s : string) : string :=
  match s with
  | String _ EmptyString => EmptyString
  | String d r => String d (drop_last r)
  | EmptyString => EmptyString
  end.

(** [s[1:-1]]. *)
Definition inner (s : string) : string :=
  match s with
  | String _ r => drop_last r
  | EmptyString => EmptyString
  end.

(** [s.split(',', 1)]: one part when [s] has no comma, else the text
    before the first comma and the text after it. *)
Fixpoint split_comma (s : string) : string * option string :=
  match s with
  | EmptyString => (EmptyString, None)
  | String c r =>
      if Ascii.eqb c ","%char then (EmptyString, Some r)
      else let (a, b) := split_comma r in (String c a, b)
  end.

(** ** The parser object *)

Record Parser : Type := mkParser {
  pos : nat;
  errors : list string;
  has_main : bool
}.

(** [Parser(tokens)]. *)
Definition init : Parser := mkParser 0 [] false.

Definition set_pos (p : Parser) (n : nat) : Parser :=
  mkParser n (errors p) (has_main p).

(** [self.errors.append(m)]. *)
Definition append_error (p : Parser) (m : string) : Parser :=
  mkParser (pos p) (errors p ++ [m]) (has_main p).

(** [self.has_main = True]. *)
Definition set_main (p : Parser) : Parser :=
  mkParser (pos p) (errors p) true.

(** ** Control *)

(** One round of a [while] loop: go on from a new state, or leave the
    loop (by [break], by a false condition or by [return]) with a
    result. *)
Inductive round (R : Type) : Type :=
  | Again (p : Parser)
  | Leave (r : R).
Arguments Again {R} p.
Arguments Leave {R} r.

Fixpoint loop {R : Type} (budget : nat) (body : Parser -> option (round R))
    (p : Parser) : option R :=
  match budget with
  | 0 => None
  | S b =>
      match body p with
      | None => None
      | Some (Again p') => loop b body p'
      | Some (Leave r) => Some r
      end
  end.

Definition bind {A B : Type} (m : option A) (f : A -> option B) : option B :=
  match m with
  | Some a => f a
  | None => None
  end.

Notation "x <- m ;; k" := (bind m (fun x => k))
  (at level 61, m at next level, right associativity).
Notation "' pat <- m ;; k" := (bind m (fun x => match x with pat => k end))
  (at level 61, pat pattern, m at next level, right associativity).

(** What the structural pass of [Parser.parse] ends with: it ran to its
    end in state [p], or a fault with text [e] was raised in state [p]. *)
Inductive pass_outcome : Type :=
  | Completed (p : Parser)
  | Raised (p : Parser) (e : string).

(** What opening and reading the token file gives. *)
Inductive file_read : Type :=
  | FileNotFound
  | ReadFault (e : string)
  | FileLines (lines : list string).

Definition KEYWORD := "KEYWORD".
Definition IDENTIFIER := "IDENTIFIER".
Definition NUMBER := "NUMBER".
Definition STRING := "STRING".
Definition OPERATOR := "OPERATOR".
Definition SPECIAL := "SPECIAL CHARACTER".
Definition datatypes : list string := ["int"; "float"; "double"; "char"].

(** [o and s != o]: the filter [o] is given and the text [s] differs from
    it. *)
Definition differs (o : option string) (s : string) : bool :=
  match o with
  | Some e => negb (String.eqb e "") && negb (String.eqb s e)
  | None => false
  end.

(** The text of a given optional argument inside an f-string. *)
Definition text (o : option string) : string :=
  match o with
  | Some s => s
  | None => "None"
  end.

Definition is_some {A : Type} (o : option A) : bool :=
  match o with
  | Some _ => true
  | None => false
  end.

(** [while cond: body]. *)
Definition while_ (budget : nat) (cond : Parser -> bool)
    (body : Parser -> option Parser) (p : Parser) : option Parser :=
  loop budget
    (fun q => if cond q then q' <- body q ;; Some (Again q')
              else Some (Leave q)) p.

(** * src/new_parse.py *)

Module NewParse.

(** [read_tokens_from_file], on the lines of the file.  Unpacking the
    result of [split] into two names raises [ValueError] when the text
    between the brackets has no comma: [inl] carries the text of that
    fault. *)
Fixpoint read_tokens_from_file (lines : list string) : string + list Token :=
  match lines with
  | [] => inr []
  | l :: rest =>
      let line := strip l in
      if startswith line "<" && endswith line ">" then
        match split_comma (inner line) with
        | (_, None) => inl "not enough values to unpack (expected 2, got 1)"
        | (token_type, Some v) =>
            match read_tokens_from_file rest with
            | inl e => inl e
            | inr tokens => inr (mkToken (strip token_type) (strip v) :: tokens)
            end
        end
      else read_tokens_from_file rest
  end.

Section Grammar.

Variable tokens : list Token.

(** Iterations granted to each loop and depth granted to each recursive
    rule. *)
Definition budget : nat := S (length tokens).

(** *** Token navigation *)

Definition current (p : Parser) : option Token := nth_error tokens (pos p).

Definition peek (offset : nat) (p : Parser) : option Token :=
  nth_error tokens (pos p + offset).

Definition advance (p : Parser) : Parser := set_pos p (pos p + 1).

Definition match_ (token_type v : option string) (p : Parser) : bool :=
  match current p with
  | None => false
  | Some tok =>
      if differs token_type (type tok) then false
      else if differs v (value tok) then false
      else true
  end.

Definition consume (token_type v error_msg : option string) (p : Parser)
    : bool * Parser :=
  if match_ token_type v p then (true, advance p)
  else
    let msg :=
      if truthy error_msg then text error_msg
      else match current p with
           | None => "Unexpected end of file"
           | Some tok =>
               if truthy token_type && truthy v then
                 "Expected " ++ text token_type ++ " '" ++ text v ++ "', got "
                   ++ type tok ++ " '" ++ value tok ++ "'"
               else if truthy token_type then
                 "Expected " ++ text token_type ++ ", got " ++ type tok
               else
                 "Unexpected token: " ++ type tok ++ " '" ++ value tok ++ "'"
           end in
    (false, append_error p ("At position " ++ str_of_nat (pos p) ++ ": " ++ msg)).

(** [self.current().value in l], evaluated only after a successful
    [match]. *)
Definition current_value_in (l : list string) (p : Parser) : bool :=
  match current p with
  | Some tok => str_in (value tok) l
  | None => false
  end.

(** [self.peek(k) and self.peek(k).type == ty and self.peek(k).value == v]. *)
Definition peek_is (offset : nat) (ty v : string) (p : Parser) : bool :=
  match peek offset p with
  | Some tok => String.eqb (type tok) ty && String.eqb (value tok) v
  | None => false
  end.

(** *** Expressions *)

Section Rules.

(** The recursive occurrences [self.parse_expression()] and
    [self.parse_statement()]. *)
Variable self_parse_expression : Parser -> option Parser.
Variable self_parse_statement : Parser -> option Parser.

Definition parse_primary (p : Parser) : option Parser :=
  match current p with
  | None => Some (append_error p "Unexpected end of file in expression")
  | Some tok =>
      if str_in (type tok) [IDENTIFIER; NUMBER; STRING] then Some (advance p)
      else if match_ (Some SPECIAL) (Some "(") p then
        p1 <- self_parse_expression (advance p) ;;
        Some (snd (consume (Some SPECIAL) (Some ")") None p1))
      else
        Some (advance (append_error p
          ("Unexpected token in expression: " ++ type tok ++ " '"
             ++ value tok ++ "'")))
  end.

Definition parse_argument_list (p : Parser) : option Parser :=
  if match_ (Some SPECIAL) (Some ")") p then Some p
  else
    p1 <- self_parse_expression p ;;
    while_ budget (match_ (Some SPECIAL) (Some ","))
      (fun q => self_parse_expression (advance q)) p1.

Definition parse_postfix (p : Parser) : option Parser :=
  p1 <- parse_primary p ;;
  loop budget
    (fun q =>
       if is_some (current q) then
         if match_ (Some SPECIAL) (Some "[") q then
           q1 <- self_parse_expression (advance q) ;;
           Some (Again (snd (consume (Some SPECIAL) (Some "]") None q1)))
         else if match_ (Some SPECIAL) (Some "(") q then
           q1 <- parse_argument_list (advance q) ;;
           Some (Again (snd (consume (Some SPECIAL) (Some ")") None q1)))
         else if match_ (Some OPERATOR) None q
                 && current_value_in ["++"; "--"] q then
           Some (Again (advance q))
         else Some (Leave q)
       else Some (Leave q)) p1.

Fixpoint parse_unary (depth : nat) (p : Parser) : option Parser :=
  match depth with
  | 0 => None
  | S d =>
      if match_ (Some OPERATOR) None p
         && current_value_in ["+"; "-"; "++"; "--"; "!"] p then
        parse_unary d (advance p)
      else parse_postfix p
  end.

Definition parse_multiplicative (p : Parser) : option Parser :=
  p1 <- parse_unary budget p ;;
  while_ budget
    (fun q => match_ (Some OPERATOR) None q
              && current_value_in ["*"; "/"; "%"] q)
    (fun q => parse_unary budget (advance q)) p1.

Definition parse_additive (p : Parser) : option Parser :=
  p1 <- parse_multiplicative p ;;
  while_ budget
    (fun q => match_ (Some OPERATOR) None q && current_value_in ["+"; "-"] q)
    (fun q => parse_multiplicative (advance q)) p1.

Definition parse_relational (p : Parser) : option Parser :=
  p1 <- parse_additive p ;;
  while_ budget
    (fun q => match_ (Some OPERATOR) None q
              && current_value_in ["<"; ">"; "<="; ">="] q)
    (fun q => parse_additive (advance q)) p1.

Definition parse_equality (p : Parser) : option Parser :=
  p1 <- parse_relational p ;;
  while_ budget
    (fun q => match_ (Some OPERATOR) None q && current_value_in ["=="; "!="] q)
    (fun q => parse_relational (advance q)) p1.

Definition parse_logical_and (p : Parser) : option Parser :=
  p1 <- parse_equality p ;;
  while_ budget (match_ (Some OPERATOR) (Some "&&"))
    (fun q => parse_equality (advance q)) p1.

Definition parse_logical_or (p : Parser) : option Parser :=
  p1 <- parse_logical_and p ;;
  while_ budget (match_ (Some OPERATOR) (Some "||"))
    (fun q => parse_logical_and (advance q)) p1.

Definition parse_expression (p : Parser) : option Parser :=
  parse_logical_or p.

(** *** Statements *)

Definition parse_return_statement (p : Parser) : option Parser :=
  let p1 := advance p in
  p2 <- (if negb (match_ (Some SPECIAL) (Some ";") p1)
         then self_parse_expression p1 else Some p1) ;;
  Some (snd (consume (Some SPECIAL) (Some ";") None p2)).

Definition parse_assignment (p : Parser) : option Parser :=
  let '(has_datatype, p1) :=
    if match_ (Some KEYWORD) None p && current_value_in datatypes p
    then (true, advance p) else (false, p) in
  let p2 := snd (consume (Some IDENTIFIER) None None p1) in
  p3 <- (if has_datatype then
           while_ budget (match_ (Some SPECIAL) (Some ","))
             (fun q =>
                let q1 := snd (consume (Some IDENTIFIER) None None (advance q)) in
                if match_ (Some OPERATOR) (Some "=") q1
                then self_parse_expression (advance q1) else Some q1) p2
         else Some p2) ;;
  p4 <- (if match_ (Some OPERATOR) (Some "=") p3
         then self_parse_expression (advance p3) else Some p3) ;;
  Some (snd (consume (Some SPECIAL) (Some ";") None p4)).

(** The [return] inside the loop and the [consume] after it are the two
    ways out of the loop. *)
Definition parse_block (p : Parser) : option Parser :=
  let p1 := snd (consume (Some SPECIAL) (Some "{") None p) in
  loop budget
    (fun q =>
       if negb (match_ (Some SPECIAL) (Some "}") q) then
         if negb (is_some (current q)) then
           Some (Leave (append_error q "Expected '}' to close block"))
         else q1 <- self_parse_statement q ;; Some (Again q1)
       else Some (Leave (snd (consume (Some SPECIAL) (Some "}") None q)))) p1.

Definition parse_function (p : Parser) : option Parser :=
  let p1 := advance p in
  let p2 := match current p1 with
            | Some tok => if String.eqb (value tok) "main" then set_main p1
                          else p1
            | None => p1
            end in
  let p3 := snd (consume None None None p2) in
  let p4 := snd (consume (Some SPECIAL) (Some "(") None p3) in
  let p5 := snd (consume (Some SPECIAL) (Some ")") None p4) in
  parse_block p5.

(** A body of [if], [else], [while] or [for]. *)
Definition block_or_statement (p : Parser) : option Parser :=
  if match_ (Some SPECIAL) (Some "{") p then parse_block p
  else self_parse_statement p.

Definition parse_if_statement (p : Parser) : option Parser :=
  let p1 := advance p in
  let p2 := snd (consume (Some SPECIAL) (Some "(") None p1) in
  p3 <- self_parse_expression p2 ;;
  let p4 := snd (consume (Some SPECIAL) (Some ")") None p3) in
  p5 <- block_or_statement p4 ;;
  if match_ (Some KEYWORD) (Some "else") p5 then
    block_or_statement (advance p5)
  else Some p5.

Definition parse_while_statement (p : Parser) : option Parser :=
  let p1 := advance p in
  let p2 := snd (consume (Some SPECIAL) (Some "(") None p1) in
  p3 <- self_parse_expression p2 ;;
  let p4 := snd (consume (Some SPECIAL) (Some ")") None p3) in
  block_or_statement p4.

Definition parse_for_statement (p : Parser) : option Parser :=
  let p1 := advance p in
  let p2 := snd (consume (Some SPECIAL) (Some "(") None p1) in
  p3 <- (if match_ (Some KEYWORD) None p2 then parse_assignment p2
         else if negb (match_ (Some SPECIAL) (Some ";") p2) then
           q <- self_parse_expression p2 ;;
           Some (snd (consume (Some SPECIAL) (Some ";") None q))
         else Some (snd (consume (Some SPECIAL) (Some ";") None p2))) ;;
  p4 <- (if negb (match_ (Some SPECIAL) (Some ";") p3)
         then self_parse_expression p3 else Some p3) ;;
  let p5 := snd (consume (Some SPECIAL) (Some ";") None p4) in
  p6 <- (if negb (match_ (Some SPECIAL) (Some ")") p5)
         then self_parse_expression p5 else Some p5) ;;
  let p7 := snd (consume (Some SPECIAL) (Some ")") None p6) in
  block_or_statement p7.

Definition parse_statement (p : Parser) : option Parser :=
  match current p with
  | None => Some p
  | Some tok =>
      if String.eqb (type tok) KEYWORD && str_in (value tok) datatypes then
        if peek_is 2 SPECIAL "(" p then parse_function p
        else parse_assignment p
      else if String.eqb (type tok) KEYWORD && String.eqb (value tok) "if" then
        parse_if_statement p
      else if String.eqb (type tok) KEYWORD && String.eqb (value tok) "while" then
        parse_while_statement p
      else if String.eqb (type tok) KEYWORD && String.eqb (value tok) "for" then
        parse_for_statement p
      else if String.eqb (type tok) KEYWORD && String.eqb (value tok) "return" then
        parse_return_statement p
      else if String.eqb (type tok) IDENTIFIER then
        if peek_is 1 OPERATOR "=" p then parse_assignment p
        else
          p1 <- self_parse_expression p ;;
          Some (snd (consume (Some SPECIAL) (Some ";") None p1))
      else
        Some (advance (append_error p
          ("Invalid statement starting with " ++ type tok ++ " '"
             ++ value tok ++ "'")))
  end.

(** *** Top level *)

Definition parse_global_variable (p : Parser) : option Parser :=
  let p1 := advance p in
  let p2 := snd (consume (Some IDENTIFIER) None None p1) in
  p3 <- (if match_ (Some OPERATOR) (Some "=") p2
         then self_parse_expression (advance p2) else Some p2) ;;
  p4 <- while_ budget (match_ (Some SPECIAL) (Some ","))
          (fun q =>
             let q1 := snd (consume (Some IDENTIFIER) None None (advance q)) in
             if match_ (Some OPERATOR) (Some "=") q1
             then self_parse_expression (advance q1) else Some q1) p3 ;;
  Some (snd (consume (Some SPECIAL) (Some ";") None p4)).

Definition parse_global_declaration (p : Parser) : option Parser :=
  if negb (match_ (Some KEYWORD) None p)
     || negb (current_value_in datatypes p) then
    Some (advance (append_error p "Expected datatype for global declaration"))
  else if peek_is 2 SPECIAL "(" p then parse_function p
  else parse_global_variable p.

(** The loop of [parse]. *)
Definition declarations (p : Parser) : option Parser :=
  while_ budget (fun q => is_some (current q)) parse_global_declaration p.

End Rules.

(** The recursive rules, with their recursive occurrences unfolded
    [depth] times. *)
Fixpoint parse_expression_at (depth : nat) (p : Parser) : option Parser :=
  match depth with
  | 0 => None
  | S d => parse_expression (parse_expression_at d) p
  end.

Fixpoint parse_statement_at (depth : nat) (p : Parser) : option Parser :=
  match depth with
  | 0 => None
  | S d => parse_statement (parse_expression_at budget) (parse_statement_at d) p
  end.

(** What [parse] does with the outcome of its loop. *)
Definition finish (o : pass_outcome) : bool * Parser :=
  match o with
  | Completed p =>
      let p1 := if negb (has_main p)
                then append_error p "Missing main function" else p in
      (Nat.eqb (length (errors p1)) 0, p1)
  | Raised p e => (false, append_error p ("Parser exception: " ++ e))
  end.

(** The loop of [parse] from a fresh parser. *)
Definition structural_pass : option Parser :=
  declarations (parse_expression_at budget) (parse_statement_at budget) init.

Definition parse : option (bool * Parser) :=
  p <- structural_pass ;; Some (finish (Completed p)).

End Grammar.

Definition parse_cpp_tokens (filename : string) (f : file_read)
    : option (bool * list string) :=
  match f with
  | FileNotFound => Some (false, ["File not found: " ++ filename])
  | ReadFault e => Some (false, ["Error: " ++ e])
  | FileLines lines =>
      match read_tokens_from_file lines with
      | inl e => Some (false, ["Error: " ++ e])
      | inr [] => Some (false, ["No tokens found in file"])
      | inr tokens =>
          '(is_valid, parser) <- parse tokens ;;
          Some (is_valid, errors parser)
      end
  end.

End NewParse.

(** * src/cpp_parser.py *)

Module CppParser.

(** [read_tokens_from_file], on the lines of the file. *)
Fixpoint read_tokens_from_file (lines : list string) : list Token :=
  match lines with
  | [] => []
  | l :: rest =>
      let line := strip l in
      if String.eqb line "" then read_tokens_from_file rest
      else if startswith line "<" && endswith line ">" then
        match split_comma (inner line) with
        | (token_type, Some v) =>
            mkToken (strip token_type) (strip v) :: read_tokens_from_file rest
        | (_, None) => read_tokens_from_file rest
        end
      else read_tokens_from_file rest
  end.

Section Grammar.

Variable tokens : list Token.

(** Iterations granted to each loop and depth granted to each recursive
    rule. *)
Definition budget : nat := S (length tokens).

(** *** Token navigation *)

Definition current_token (p : Parser) : option Token :=
  nth_error tokens (pos p).

Definition peek_token (offset : nat) (p : Parser) : option Token :=
  nth_error tokens (pos p + offset).

(** [self.pos += 1]. *)
Definition next (p : Parser) : Parser := set_pos p (pos p + 1).

Definition consume (expected_type expected_value : option string)
    (p : Parser) : bool * Parser :=
  match current_token p with
  | None => (false, p)
  | Some token =>
      if differs expected_type (type token) then (false, p)
      else if differs expected_value (value token) then (false, p)
      else (true, next p)
  end.

Definition add_error (message : string) (p : Parser) : Parser :=
  match current_token p with
  | Some token =>
      append_error p
        ("At token " ++ str_of_nat (pos p) ++ " (" ++ type token ++ ", "
           ++ value token ++ "): " ++ message)
  | None => append_error p ("At end of file: " ++ message)
  end.

Definition expect (expected_type expected_value error_msg : option string)
    (p : Parser) : bool * Parser :=
  match current_token p with
  | None => (false, add_error (or_default error_msg "Unexpected end of file") p)
  | Some token =>
      if differs expected_type (type token) then
        (false,
         add_error
           (or_default error_msg
              ("Expected type " ++ text expected_type ++ ", got " ++ type token))
           p)
      else if differs expected_value (value token) then
        (false,
         add_error
           (or_default error_msg
              ("Expected '" ++ text expected_value ++ "', got '"
                 ++ value token ++ "'"))
           p)
      else (true, next p)
  end.

(** [token and token.type == ty and token.value == v]. *)
Definition tok_is (ty v : string) (o : option Token) : bool :=
  match o with
  | Some token => String.eqb (type token) ty && String.eqb (value token) v
  | None => false
  end.

(** [token and token.type == ty]. *)
Definition tok_type_is (ty : string) (o : option Token) : bool :=
  match o with
  | Some token => String.eqb (type token) ty
  | None => false
  end.

(** [token and token.type == ty and token.value in l]. *)
Definition tok_in (ty : string) (l : list string) (o : option Token) : bool :=
  match o with
  | Some token => String.eqb (type token) ty && str_in (value token) l
  | None => false
  end.

Section Rules.

(** The recursive occurrences [self.expression()] and [self.x()]. *)
Variable self_expression : Parser -> option (bool * Parser).
Variable self_x : Parser -> option (bool * Parser).

(** *** Expressions *)

Definition primary_expr (p : Parser) : option (bool * Parser) :=
  match current_token p with
  | None => Some (false, add_error "Unexpected end of file in expression" p)
  | Some token =>
      if String.eqb (type token) IDENTIFIER then Some (true, next p)
      else if String.eqb (type token) NUMBER then Some (true, next p)
      else if String.eqb (type token) STRING then Some (true, next p)
      else if String.eqb (type token) SPECIAL && String.eqb (value token) "("
      then
        '(_, p1) <- self_expression (next p) ;;
        let '(ok, p2) := expect (Some SPECIAL) (Some ")") None p1 in
        if negb ok then Some (false, p2) else Some (true, p2)
      else
        Some (false,
              add_error
                ("Unexpected token in expression: " ++ type token ++ " '"
                   ++ value token ++ "'") p)
  end.

Definition argument_list (p : Parser) : option (bool * Parser) :=
  if tok_is SPECIAL ")" (current_token p) then Some (true, p)
  else
    '(_, p1) <- self_expression p ;;
    loop budget
      (fun q =>
         if tok_is SPECIAL "," (current_token q) then
           '(_, q1) <- self_expression (next q) ;; Some (Again q1)
         else Some (Leave (true, q))) p1.

Definition postfix_expr (p : Parser) : option (bool * Parser) :=
  '(_, p1) <- primary_expr p ;;
  loop budget
    (fun q =>
       match current_token q with
       | None => Some (Leave (true, q))
       | Some token =>
           if String.eqb (type token) SPECIAL && String.eqb (value token) "["
           then
             '(_, q1) <- self_expression (next q) ;;
             Some (Again (snd (expect (Some SPECIAL) (Some "]") None q1)))
           else if String.eqb (type token) SPECIAL
                   && String.eqb (value token) "("
           then
             '(_, q1) <- argument_list (next q) ;;
             Some (Again (snd (expect (Some SPECIAL) (Some ")") None q1)))
           else if String.eqb (type token) OPERATOR
                   && str_in (value token) ["++"; "--"]
           then Some (Again (next q))
           else Some (Leave (true, q))
       end) p1.

Fixpoint unary_expr (depth : nat) (p : Parser) : option (bool * Parser) :=
  match depth with
  | 0 => None
  | S d =>
      if tok_in OPERATOR ["+"; "-"; "++"; "--"; "!"] (current_token p)
      then unary_expr d (next p)
      else postfix_expr p
  end.

Definition multiplicative_expr (p : Parser) : option (bool * Parser) :=
  '(_, p1) <- unary_expr budget p ;;
  loop budget
    (fun q =>
       if tok_in OPERATOR ["*"; "/"; "%"] (current_token q) then
         '(_, q1) <- unary_expr budget (next q) ;; Some (Again q1)
       else Some (Leave (true, q))) p1.

Definition additive_expr (p : Parser) : option (bool * Parser) :=
  '(_, p1) <- multiplicative_expr p ;;
  loop budget
    (fun q =>
       if tok_in OPERATOR ["+"; "-"] (current_token q) then
         '(_, q1) <- multiplicative_expr (next q) ;; Some (Again q1)
       else Some (Leave (true, q))) p1.

Definition relational_expr (p : Parser) : option (bool * Parser) :=
  '(_, p1) <- additive_expr p ;;
  loop budget
    (fun q =>
       if tok_in OPERATOR ["<"; ">"; "<="; ">="] (current_token q) then
         '(_, q1) <- additive_expr (next q) ;; Some (Again q1)
       else Some (Leave (true, q))) p1.

Definition equality_expr (p : Parser) : option (bool * Parser) :=
  '(_, p1) <- relational_expr p ;;
  loop budget
    (fun q =>
       if tok_in OPERATOR ["=="; "!="] (current_token q) then
         '(_, q1) <- relational_expr (next q) ;; Some (Again q1)
       else Some (Leave (true, q))) p1.

Definition logical_and_expr (p : Parser) : option (bool * Parser) :=
  '(_, p1) <- equality_expr p ;;
  loop budget
    (fun q =>
       if tok_is OPERATOR "&&" (current_token q) then
         '(_, q1) <- equality_expr (next q) ;; Some (Again q1)
       else Some (Leave (true, q))) p1.

Definition logical_or_expr (p : Parser) : option (bool * Parser) :=
  '(_, p1) <- logical_and_expr p ;;
  loop budget
    (fun q =>
       if tok_is OPERATOR "||" (current_token q) then
         '(_, q1) <- logical_and_expr (next q) ;; Some (Again q1)
       else Some (Leave (true, q))) p1.

Definition expression (p : Parser) : option (bool * Parser) :=
  logical_or_expr p.

(** *** Statements *)

Definition expression_statement (p : Parser) : option (bool * Parser) :=
  '(_, p1) <- self_expression p ;;
  let '(ok, p2) := expect (Some SPECIAL) (Some ";") None p1 in
  if negb ok then Some (false, p2) else Some (true, p2).

Definition return_statement (p : Parser) : option (bool * Parser) :=
  let p1 := next p in
  p2 <- (if is_some (current_token p1)
            && negb (tok_is SPECIAL ";" (current_token p1))
         then '(_, q) <- self_expression p1 ;; Some q else Some p1) ;;
  let '(ok, p3) := expect (Some SPECIAL) (Some ";") None p2 in
  if negb ok then Some (false, p3) else Some (true, p3).

(** [token.type] on a missing token is a fault: no value is returned.
    In the loop, [Leave (false, _)] is the [return False] and
    [Leave (true, _)] the end of the loop. *)
Definition assign (p : Parser) : option (bool * Parser) :=
  match current_token p with
  | None => None
  | Some token =>
      let '(has_datatype, p1) :=
        if String.eqb (type token) KEYWORD && str_in (value token) datatypes
        then (true, next p) else (false, p) in
      let '(ok, p2) := expect (Some IDENTIFIER) None None p1 in
      if negb ok then Some (false, p2)
      else
        '(go, p3) <-
          (if has_datatype then
             loop budget
               (fun q =>
                  if tok_is SPECIAL "," (current_token q) then
                    let '(ok1, q1) :=
                      expect (Some IDENTIFIER) None None (next q) in
                    if negb ok1 then Some (Leave (false, q1))
                    else if tok_is OPERATOR "=" (current_token q1) then
                      '(_, q2) <- self_expression (next q1) ;; Some (Again q2)
                    else Some (Again q1)
                  else Some (Leave (true, q))) p2
           else Some (true, p2)) ;;
        if negb go then Some (false, p3)
        else
          p4 <- (if tok_is OPERATOR "=" (current_token p3)
                 then '(_, q) <- self_expression (next p3) ;; Some q
                 else Some p3) ;;
          let '(ok2, p5) := expect (Some SPECIAL) (Some ";") None p4 in
          if negb ok2 then Some (false, p5) else Some (true, p5)
  end.

Definition block (p : Parser) : option (bool * Parser) :=
  let '(ok, p1) := expect (Some SPECIAL) (Some "{") None p in
  if negb ok then Some (false, p1)
  else
    loop budget
      (fun q =>
         match current_token q with
         | None => Some (Leave (false, add_error "Expected '}' to close block" q))
         | Some token =>
             if String.eqb (type token) SPECIAL && String.eqb (value token) "}"
             then Some (Leave (true, next q))
             else
               '(ok1, q1) <- self_x q ;;
               if negb ok1
               then Some (Leave (false, add_error "Invalid statement in block" q1))
               else Some (Again q1)
         end) p1.

Definition datatype (p : Parser) : bool * Parser :=
  if tok_in KEYWORD datatypes (current_token p) then (true, next p)
  else (false, p).

Definition func (p : Parser) : option (bool * Parser) :=
  match current_token p with
  | None => Some (false, p)
  | Some _ =>
      let '(ok, p1) := datatype p in
      if negb ok then Some (false, p1)
      else
        match current_token p1 with
        | None => Some (false, add_error "Expected function identifier" p1)
        | Some token =>
            if negb (str_in (type token) [IDENTIFIER; KEYWORD]) then
              Some (false, add_error "Expected function identifier" p1)
            else
              let p2 := if String.eqb (value token) "main" then set_main p1
                        else p1 in
              let p3 := next p2 in
              let '(ok1, p4) := expect (Some SPECIAL) (Some "(") None p3 in
              if negb ok1 then Some (false, p4)
              else
                let '(ok2, p5) := expect (Some SPECIAL) (Some ")") None p4 in
                if negb ok2 then Some (false, p5)
                else block p5
        end
  end.

(** A body of [if], [else], [while] or [for]; the value returned by the
    body is not looked at. *)
Definition block_or_x (p : Parser) : option Parser :=
  if tok_is SPECIAL "{" (current_token p)
  then '(_, q) <- block p ;; Some q
  else '(_, q) <- self_x p ;; Some q.

Definition if_statement (p : Parser) : option (bool * Parser) :=
  let p1 := next p in
  let '(ok, p2) := expect (Some SPECIAL) (Some "(") None p1 in
  if negb ok then Some (false, p2)
  else
    '(_, p3) <- self_expression p2 ;;
    let '(ok1, p4) := expect (Some SPECIAL) (Some ")") None p3 in
    if negb ok1 then Some (false, p4)
    else
      p5 <- block_or_x p4 ;;
      if tok_is KEYWORD "else" (current_token p5) then
        p6 <- block_or_x (next p5) ;; Some (true, p6)
      else Some (true, p5).

Definition while_statement (p : Parser) : option (bool * Parser) :=
  let p1 := next p in
  let '(ok, p2) := expect (Some SPECIAL) (Some "(") None p1 in
  if negb ok then Some (false, p2)
  else
    '(_, p3) <- self_expression p2 ;;
    let '(ok1, p4) := expect (Some SPECIAL) (Some ")") None p3 in
    if negb ok1 then Some (false, p4)
    else p5 <- block_or_x p4 ;; Some (true, p5).

Definition for_statement (p : Parser) : option (bool * Parser) :=
  let p1 := next p in
  let '(ok, p2) := expect (Some SPECIAL) (Some "(") None p1 in
  if negb ok then Some (false, p2)
  else
    p3 <- (if tok_type_is KEYWORD (current_token p2)
           then '(_, q) <- assign p2 ;; Some q
           else
             '(_, q) <- self_expression p2 ;;
             Some (snd (expect (Some SPECIAL) (Some ";") None q))) ;;
    p4 <- (if is_some (current_token p3)
              && negb (tok_is SPECIAL ";" (current_token p3))
           then '(_, q) <- self_expression p3 ;; Some q else Some p3) ;;
    let p5 := snd (expect (Some SPECIAL) (Some ";") None p4) in
    p6 <- (if is_some (current_token p5)
              && negb (tok_is SPECIAL ")" (current_token p5))
           then '(_, q) <- self_expression p5 ;; Some q else Some p5) ;;
    let '(ok1, p7) := expect (Some SPECIAL) (Some ")") None p6 in
    if negb ok1 then Some (false, p7)
    else p8 <- block_or_x p7 ;; Some (true, p8).

Definition x (p : Parser) : option (bool * Parser) :=
  match current_token p with
  | None => Some (false, p)
  | Some token =>
      if String.eqb (type token) KEYWORD && str_in (value token) datatypes then
        if tok_is SPECIAL "(" (peek_token 2 p) then func p else assign p
      else if String.eqb (type token) KEYWORD && String.eqb (value token) "if"
      then if_statement p
      else if String.eqb (type token) KEYWORD
              && String.eqb (value token) "while"
      then while_statement p
      else if String.eqb (type token) KEYWORD && String.eqb (value token) "for"
      then for_statement p
      else if String.eqb (type token) KEYWORD
              && String.eqb (value token) "return"
      then return_statement p
      else if String.eqb (type token) IDENTIFIER then
        if tok_is OPERATOR "=" (peek_token 1 p) then assign p
        else expression_statement p
      else Some (false, p)
  end.

(** *** Top level *)

Definition global_variable (p : Parser) : option (bool * Parser) :=
  let p1 := next p in
  let '(ok, p2) := expect (Some IDENTIFIER) None None p1 in
  if negb ok then Some (false, p2)
  else
    p3 <- (if tok_is OPERATOR "=" (current_token p2)
           then '(_, q) <- self_expression (next p2) ;; Some q
           else Some p2) ;;
    '(go, p4) <-
      loop budget
        (fun q =>
           if tok_is SPECIAL "," (current_token q) then
             let '(ok1, q1) := expect (Some IDENTIFIER) None None (next q) in
             if negb ok1 then Some (Leave (false, q1))
             else if tok_is OPERATOR "=" (current_token q1) then
               '(_, q2) <- self_expression (next q1) ;; Some (Again q2)
             else Some (Again q1)
           else Some (Leave (true, q))) p3 ;;
    if negb go then Some (false, p4)
    else
      let '(ok2, p5) := expect (Some SPECIAL) (Some ";") None p4 in
      if negb ok2 then Some (false, p5) else Some (true, p5).

Definition global_declaration (p : Parser) : option (bool * Parser) :=
  match current_token p with
  | None => Some (false, p)
  | Some token =>
      if negb (String.eqb (type token) KEYWORD
               && str_in (value token) datatypes)
      then Some (false, add_error "Expected datatype for global declaration" p)
      else
        match peek_token 1 p with
        | None => Some (false, add_error "Expected identifier after datatype" p)
        | Some next_token =>
            if negb (str_in (type next_token) [IDENTIFIER; KEYWORD]) then
              Some (false, add_error "Expected identifier after datatype" p)
            else if tok_is SPECIAL "(" (peek_token 2 p) then func p
            else global_variable p
        end
  end.

Definition program (p : Parser) : option Parser :=
  loop budget
    (fun q =>
       if is_some (current_token q) then
         '(ok, q1) <- global_declaration q ;;
         if negb ok then Some (Leave q1) else Some (Again q1)
       else Some (Leave q)) p.

End Rules.

(** The recursive rules, with their recursive occurrences unfolded
    [depth] times. *)
Fixpoint expression_at (depth : nat) (p : Parser) : option (bool * Parser) :=
  match depth with
  | 0 => None
  | S d => expression (expression_at d) p
  end.

Fixpoint x_at (depth : nat) (p : Parser) : option (bool * Parser) :=
  match depth with
  | 0 => None
  | S d => x (expression_at budget) (x_at d) p
  end.

(** What [parse] does with the outcome of [program]. *)
Definition finish (o : pass_outcome) : bool * Parser :=
  match o with
  | Completed p =>
      if negb (has_main p) then (false, add_error "Missing main function" p)
      else (Nat.eqb (length (errors p)) 0, p)
  | Raised p e => (false, add_error ("Parser exception: " ++ e) p)
  end.

(** [program] from a fresh parser. *)
Definition structural_pass : option Parser :=
  program (expression_at budget) (x_at budget) init.

Definition parse : option (bool * Parser) :=
  p <- structural_pass ;; Some (finish (Completed p)).

End Grammar.

Definition parse_cpp_tokens (filename : string) (f : file_read)
    : option (bool * list string) :=
  match f with
  | FileNotFound => Some (false, ["File not found: " ++ filename])
  | ReadFault e => Some (false, ["Error: " ++ e])
  | FileLines lines =>
      match read_tokens_from_file lines with
      | [] => Some (false, ["No tokens found in file"])
      | tokens =>
          '(is_valid, parser) <- parse tokens ;;
          Some (is_valid, errors parser)
      end
  end.

End CppParser.

(** * Vocabulary of the statements *)

(** A call returns, and its result satisfies [P]. *)
Definition returns {A : Type} (P : A -> Prop) (r : option A) : Prop :=
  exists a, r = Some a /\ P a.

Section Vocabulary.

Variable tokens : list Token.

(** A function named [main] starts at index [i]: a datatype keyword, a
    token whose lexeme is [main], an opening parenthesis. *)
Definition main_at (i : nat) : bool :=
  match nth_error tokens i, nth_error tokens (i + 1),
        nth_error tokens (i + 2) with
  | Some t0, Some t1, Some t2 =>
      String.eqb (type t0) KEYWORD && str_in (value t0) datatypes
      && String.eqb (value t1) "main"
      && (String.eqb (type t2) SPECIAL && String.eqb (value t2) "(")
  | _, _, _ => false
  end.

Definition declares_main : bool :=
  existsb main_at (seq 0 (length tokens)).

(** The cursor is a position of the stream, or its end. *)
Definition in_bounds (p : Parser) : Prop := pos p <= length tokens.

(** How a parser state may change while rules run: the cursor moves
    forward and stays in bounds, diagnostics are only appended, the
    main-flag is only raised, and only where a function named [main]
    starts. *)
Definition good (p p' : Parser) : Prop :=
  pos p <= pos p' /\ pos p' <= length tokens
  /\ (exists l, errors p' = (errors p ++ l)%list)
  /\ (has_main p = true -> has_main p' = true)
  /\ (has_main p' = true -> has_main p = true \/ declares_main = true).

(** A rule of src/new_parse.py that consumes at least one token whenever
    one is left. *)
Definition moved (q q' : Parser) : Prop :=
  good q q'
  /\ (is_some (NewParse.current tokens q) = true -> pos q < pos q').

(** An expression rule of src/cpp_parser.py: started at a semicolon, it
    records a diagnostic. *)
Definition parsed (p : Parser) (r : bool * Parser) : Prop :=
  good p (snd r)
  /\ (CppParser.tok_is SPECIAL ";" (CppParser.current_token tokens p) = true ->
      length (errors p) < length (errors (snd r))).

(** A rule of src/cpp_parser.py that returns a truth value: when it
    returns [True] the cursor has moved, when it returns [False] a
    diagnostic was recorded. *)
Definition ruled (p : Parser) (r : bool * Parser) : Prop :=
  good p (snd r)
  /\ (fst r = true -> pos p < pos (snd r))
  /\ (fst r = false -> length (errors p) < length (errors (snd r))).

(** The same for the statement rule [x], which can also return [False]
    and leave the parser as it was. *)
Definition ruled_x (p : Parser) (r : bool * Parser) : Prop :=
  good p (snd r)
  /\ (fst r = true -> pos p < pos (snd r))
  /\ (fst r = false ->
        length (errors p) < length (errors (snd r)) \/ snd r = p).

End Vocabulary.

(** Two runs from one state, one of each file, that both end with no
    diagnostic end in the same state. *)
Definition same (ro : option (bool * Parser)) (rn : option Parser) : Prop :=
  forall b po pn,
    ro = Some (b, po) -> rn = Some pn ->
    length (errors po) = 0 -> length (errors pn) = 0 -> po = pn.

(** The same for parts of rules of src/cpp_parser.py that give a state
    only. *)
Definition same_state (ro rn : option Parser) : Prop :=
  forall po pn,
    ro = Some po -> rn = Some pn ->
    length (errors po) = 0 -> length (errors pn) = 0 -> po = pn.

(** The structural pass returned and recorded no diagnostic. *)
Definition clean (o : option Parser) : bool :=
  match o with
  | Some p => Nat.eqb (length (errors p)) 0
  | None => false
  end.

(** The token is a datatype keyword. *)
Definition is_datatype (tok : Token) : bool :=
  String.eqb (type tok) KEYWORD && str_in (value tok) datatypes.

(** The token is one the statement dispatch has a production for. *)
Definition starts_statement (tok : Token) : bool :=
  is_datatype tok
  || (String.eqb (type tok) KEYWORD
      && str_in (value tok) ["if"; "while"; "for"; "return"])
  || String.eqb (type tok) IDENTIFIER.

(** The verdict of a run of [parse]. *)
Definition verdict (r : option (bool * Parser)) : option bool :=
  match r with
  | Some (accepted, _) => Some accepted
  | None => None
  end.

(** ** Inputs of the scenarios *)

Definition kw : string -> Token := mkToken KEYWORD.
Definition ident : string -> Token := mkToken IDENTIFIER.
Definition num : string -> Token := mkToken NUMBER.
Definition op : string -> Token := mkToken OPERATOR.
Definition sp : string -> Token := mkToken SPECIAL.

(** [int main ( ) { return 0 ; }] *)
Definition scenario_A : list Token :=
  [kw "int"; ident "main"; sp "("; sp ")"; sp "{";
   kw "return"; num "0"; sp ";"; sp "}"].

(** [int x ;] *)
Definition scenario_C : list Token := [kw "int"; ident "x"; sp ";"].

(** [1 + 2 * 3] *)
Definition sum_product : list Token :=
  [num "1"; op "+"; num "2"; op "*"; num "3"].

(** [1 < 2 && 3 > 4] *)
Definition comparison_and : list Token :=
  [num "1"; op "<"; num "2"; op "&&"; num "3"; op ">"; num "4"].

(** [int main ( ) { * 3 ; }] *)
Definition bare_star : list Token :=
  [kw "int"; ident "main"; sp "("; sp ")"; sp "{";
   op "*"; num "3"; sp ";"; sp "}"].

(** [int main ( ) { if ( a ) }] *)
Definition empty_if_body : list Token :=
  [kw "int"; ident "main"; sp "("; sp ")"; sp "{";
   kw "if"; sp "("; ident "a"; sp ")"; sp "}"].

(** The token file of [scenario_A]. *)
Definition scenario_A_lines : list string :=
  ["<KEYWORD, int>"; "<IDENTIFIER, main>"; "<SPECIAL CHARACTER, (>";
   "<SPECIAL CHARACTER, )>"; "<SPECIAL CHARACTER, {>"; "<KEYWORD, return>";
   "<NUMBER, 0>"; "<SPECIAL CHARACTER, ;>"; "<SPECIAL CHARACTER, }>"].

(** [int "main" ( ) { }], the name being a string literal. *)
Definition string_named_main : list Token :=
  [kw "int"; mkToken STRING "main"; sp "("; sp ")"; sp "{"; sp "}"].

(** [; int main ( ) { }], a stray semicolon before a correct program. *)
Definition stray_semicolon : list Token :=
  [sp ";"; kw "int"; ident "main"; sp "("; sp ")"; sp "{"; sp "}"].

(** ** Two declarations inside a function *)

(** [int f ( ) { int i = 0 , j ; }]: the first name has an initializer
    and a further name follows. *)
Definition initializer_first : list Token :=
  [kw "int"; ident "f"; sp "("; sp ")"; sp "{";
   kw "int"; ident "i"; op "="; num "0"; sp ","; ident "j"; sp ";"; sp "}"].

(** [int f ( ) { int i , j = 0 ; }]: the initializer is on the further
    name. *)
Definition initializer_last : list Token :=
  [kw "int"; ident "f"; sp "("; sp ")"; sp "{";
   kw "int"; ident "i"; sp ","; ident "j"; op "="; num "0"; sp ";"; sp "}"].

(** ** Token files *)

(** The text is ASCII: every character is below 128.  On such text
    [str.strip()] removes the characters of [is_space] and no other;
    beyond ASCII it also removes the white space of Unicode (U+0085,
    U+00A0 and further), which [is_space] does not hold.  What is proved
    of the readers and depends on what is stripped is therefore stated
    of ASCII lines. *)
Definition ascii_text (s : string) : bool :=
  forallb (fun c => Nat.ltb (nat_of_ascii c) 128) (list_ascii_of_string s).

(** The text has no comma. *)
Fixpoint no_comma (s : string) : bool :=
  match s with
  | EmptyString => true
  | String c r => negb (Ascii.eqb c ","%char) && no_comma r
  end.

(** The line, stripped, starts with [<] and ends with [>]. *)
Definition bracketed (l : string) : bool :=
  startswith (strip l) "<" && endswith (strip l) ">".

(** A bracketed line with no comma between its brackets. *)
Definition commaless (l : string) : bool :=
  bracketed l && no_comma (inner (strip l)).

(** The line [<TYPE, value>] of a token. *)
Definition token_line (t : Token) : string :=
  "<" ++ type t ++ ", " ++ value t ++ ">".

(** A token a token file can hold: no field starts or ends with white
    space, and the type has no comma. *)
Definition storable (t : Token) : Prop :=
  strip (type t) = type t /\ strip (value t) = value t
  /\ no_comma (type t) = true.

(** ** The grammar of expressions

    The docstrings of src/new_parse.py give the grammar the expression
    rules follow.  Each of the six binary levels is a list of operands of
    the next tighter level with operators of the level in between; an
    operand of the tightest level is a unary expression, which is a
    postfix expression after any number of prefix operators; a postfix
    expression is a primary followed by any number of subscripts, calls
    and step operators; a primary is an identifier, a number, a string or
    an expression in parentheses; the arguments of a call are expressions
    with commas in between, or nothing.  [derives n ts] says that the
    token list [ts] is a sentence of the nonterminal [n] of this
    grammar. *)

(** The six levels of binary operators, tightest first. *)
Inductive level : Type :=
  | Multiplicative | Additive | Relational | Equality | LogicalAnd | LogicalOr.

Definition operators (k : level) : list string :=
  match k with
  | Multiplicative => ["*"; "/"; "%"]
  | Additive => ["+"; "-"]
  | Relational => ["<"; ">"; "<="; ">="]
  | Equality => ["=="; "!="]
  | LogicalAnd => ["&&"]
  | LogicalOr => ["||"]
  end.

Definition prefix_operators : list string := ["+"; "-"; "++"; "--"; "!"].

Definition step_operators : list string := ["++"; "--"].

(** [Binary k] is an operand followed by [Rest k], any number of pairs of
    an operator of level [k] and an operand; [Suffixes] is what follows
    the primary of a postfix expression, and [MoreArguments] what follows
    the first argument of a call. *)
Inductive nonterminal : Type :=
  | Primary | Suffixes | Postfix | Arguments | MoreArguments | Unary
  | Binary (k : level) | Rest (k : level).

(** What stands on both sides of an operator of level [k]. *)
Definition operand (k : level) : nonterminal :=
  match k with
  | Multiplicative => Unary
  | Additive => Binary Multiplicative
  | Relational => Binary Additive
  | Equality => Binary Relational
  | LogicalAnd => Binary Equality
  | LogicalOr => Binary LogicalAnd
  end.

Definition Expression : nonterminal := Binary LogicalOr.

Inductive derives : nonterminal -> list Token -> Prop :=
  | d_atom t :
      str_in (type t) [IDENTIFIER; NUMBER; STRING] = true ->
      derives Primary [t]
  | d_parenthesis e :
      derives Expression e ->
      derives Primary (sp "(" :: e ++ [sp ")"])
  | d_postfix a s :
      derives Primary a -> derives Suffixes s -> derives Postfix (a ++ s)
  | d_no_suffix : derives Suffixes []
  | d_subscript e s :
      derives Expression e -> derives Suffixes s ->
      derives Suffixes (sp "[" :: e ++ sp "]" :: s)
  | d_call a s :
      derives Arguments a -> derives Suffixes s ->
      derives Suffixes (sp "(" :: a ++ sp ")" :: s)
  | d_step o s :
      str_in o step_operators = true -> derives Suffixes s ->
      derives Suffixes (op o :: s)
  | d_no_argument : derives Arguments []
  | d_arguments e m :
      derives Expression e -> derives MoreArguments m ->
      derives Arguments (e ++ m)
  | d_no_more : derives MoreArguments []
  | d_more e m :
      derives Expression e -> derives MoreArguments m ->
      derives MoreArguments (sp "," :: e ++ m)
  | d_prefix o u :
      str_in o prefix_operators = true -> derives Unary u ->
      derives Unary (op o :: u)
  | d_unary a : derives Postfix a -> derives Unary a
  | d_binary k a r :
      derives (operand k) a -> derives (Rest k) r ->
      derives (Binary k) (a ++ r)
  | d_no_rest k : derives (Rest k) []
  | d_rest k o a r :
      str_in o (operators k) = true ->
      derives (operand k) a -> derives (Rest k) r ->
      derives (Rest k) (op o :: a ++ r).

(** The token would make a postfix expression go on. *)
Definition continues_postfix (t : Token) : bool :=
  (String.eqb (type t) SPECIAL && str_in (value t) ["["; "("])
  || (String.eqb (type t) OPERATOR && str_in (value t) step_operators).

(** The operators of level [k] and of the tighter levels. *)
Fixpoint upto (ks : list level) : list string :=
  match ks with
  | [] => []
  | k :: r => operators k ++ upto r
  end.

Definition tighter (k : level) : list level :=
  match k with
  | Multiplicative => []
  | Additive => [Multiplicative]
  | Relational => [Additive; Multiplicative]
  | Equality => [Relational; Additive; Multiplicative]
  | LogicalAnd => [Equality; Relational; Additive; Multiplicative]
  | LogicalOr => [LogicalAnd; Equality; Relational; Additive; Multiplicative]
  end.

(** The token would make an expression of the levels in [ks] go on. *)
Definition continues (ks : list level) (t : Token) : bool :=
  continues_postfix t
  || (String.eqb (type t) OPERATOR && str_in (value t) (upto ks)).

(** What follows lets such an expression end: nothing, or a token that
    does not make it go on. *)
Definition ends (ks : list level) (rest : list Token) : bool :=
  match rest with
  | [] => true
  | t :: _ => negb (continues ks t)
  end.

(** What follows lets an expression end: nothing, or a token that is
    neither [[], [(], [++], [--] nor a binary operator. *)
Definition ends_expression (rest : list Token) : bool :=
  ends (LogicalOr :: tighter LogicalOr) rest.

(** The rules of src/new_parse.py, by level. *)
Definition new_binary (tokens : list Token) (k : level)
    (self : Parser -> option Parser) : Parser -> option Parser :=
  match k with
  | Multiplicative => NewParse.parse_multiplicative tokens self
  | Additive => NewParse.parse_additive tokens self
  | Relational => NewParse.parse_relational tokens self
  | Equality => NewParse.parse_equality tokens self
  | LogicalAnd => NewParse.parse_logical_and tokens self
  | LogicalOr => NewParse.parse_logical_or tokens self
  end.

Definition new_operand (tokens : list Token) (k : level)
    (self : Parser -> option Parser) : Parser -> option Parser :=
  match k with
  | Multiplicative =>
      NewParse.parse_unary tokens self (NewParse.budget tokens)
  | Additive => new_binary tokens Multiplicative self
  | Relational => new_binary tokens Additive self
  | Equality => new_binary tokens Relational self
  | LogicalAnd => new_binary tokens Equality self
  | LogicalOr => new_binary tokens LogicalAnd self
  end.

(** The rules of src/cpp_parser.py, by level. *)
Definition old_binary (tokens : list Token) (k : level)
    (self : Parser -> option (bool * Parser))
    : Parser -> option (bool * Parser) :=
  match k with
  | Multiplicative => CppParser.multiplicative_expr tokens self
  | Additive => CppParser.additive_expr tokens self
  | Relational => CppParser.relational_expr tokens self
  | Equality => CppParser.equality_expr tokens self
  | LogicalAnd => CppParser.logical_and_expr tokens self
  | LogicalOr => CppParser.logical_or_expr tokens self
  end.

Definition old_operand (tokens : list Token) (k : level)
    (self : Parser -> option (bool * Parser))
    : Parser -> option (bool * Parser) :=
  match k with
  | Multiplicative =>
      CppParser.unary_expr tokens self (CppParser.budget tokens)
  | Additive => old_binary tokens Multiplicative self
  | Relational => old_binary tokens Additive self
  | Equality => old_binary tokens Relational self
  | LogicalAnd => old_binary tokens Equality self
  | LogicalOr => old_binary tokens LogicalAnd self
  end.

(** The token can start a primary: an identifier, a number, a string or
    an opening parenthesis. *)
Definition starts_primary (t : Token) : bool :=
  str_in (type t) [IDENTIFIER; NUMBER; STRING]
  || (String.eqb (type t) SPECIAL && String.eqb (value t) "(").

(** The token can start an expression: the start of a primary, or a
    prefix operator. *)
Definition starts_expression (t : Token) : bool :=
  starts_primary t
  || (String.eqb (type t) OPERATOR && str_in (value t) prefix_operators).

(** One round of the loop of [parse_postfix]. *)
Definition new_suffix_round (tokens : list Token)
    (self : Parser -> option Parser) (q : Parser) : option (round Parser) :=
  if is_some (NewParse.current tokens q) then
    if NewParse.match_ tokens (Some SPECIAL) (Some "[") q then
      q1 <- self (NewParse.advance q) ;;
      Some (Again (snd (NewParse.consume tokens (Some SPECIAL) (Some "]")
                          None q1)))
    else if NewParse.match_ tokens (Some SPECIAL) (Some "(") q then
      q1 <- NewParse.parse_argument_list tokens self (NewParse.advance q) ;;
      Some (Again (snd (NewParse.consume tokens (Some SPECIAL) (Some ")")
                          None q1)))
    else if NewParse.match_ tokens (Some OPERATOR) None q
            && NewParse.current_value_in tokens ["++"; "--"] q then
      Some (Again (NewParse.advance q))
    else Some (Leave q)
  else Some (Leave q).

(** The condition of the loop of the rule of level [k]. *)
Definition new_goes_on (tokens : list Token) (k : level) (q : Parser)
    : bool :=
  match k with
  | Multiplicative =>
      NewParse.match_ tokens (Some OPERATOR) None q
      && NewParse.current_value_in tokens ["*"; "/"; "%"] q
  | Additive =>
      NewParse.match_ tokens (Some OPERATOR) None q
      && NewParse.current_value_in tokens ["+"; "-"] q
  | Relational =>
      NewParse.match_ tokens (Some OPERATOR) None q
      && NewParse.current_value_in tokens ["<"; ">"; "<="; ">="] q
  | Equality =>
      NewParse.match_ tokens (Some OPERATOR) None q
      && NewParse.current_value_in tokens ["=="; "!="] q
  | LogicalAnd => NewParse.match_ tokens (Some OPERATOR) (Some "&&") q
  | LogicalOr => NewParse.match_ tokens (Some OPERATOR) (Some "||") q
  end.

(** One round of the loop of [postfix_expr]. *)
Definition old_suffix_round (tokens : list Token)
    (self : Parser -> option (bool * Parser)) (q : Parser)
    : option (round (bool * Parser)) :=
  match CppParser.current_token tokens q with
  | None => Some (Leave (true, q))
  | Some token =>
      if String.eqb (type token) SPECIAL && String.eqb (value token) "["
      then
        '(_, q1) <- self (CppParser.next q) ;;
        Some (Again (snd (CppParser.expect tokens (Some SPECIAL) (Some "]")
                            None q1)))
      else if String.eqb (type token) SPECIAL
              && String.eqb (value token) "("
      then
        '(_, q1) <- CppParser.argument_list tokens self (CppParser.next q) ;;
        Some (Again (snd (CppParser.expect tokens (Some SPECIAL) (Some ")")
                            None q1)))
      else if String.eqb (type token) OPERATOR
              && str_in (value token) ["++"; "--"]
      then Some (Again (CppParser.next q))
      else Some (Leave (true, q))
  end.

(** The condition of the loop of the rule of level [k]. *)
Definition old_goes_on (tokens : list Token) (k : level) (q : Parser)
    : bool :=
  match k with
  | Multiplicative =>
      CppParser.tok_in OPERATOR ["*"; "/"; "%"]
        (CppParser.current_token tokens q)
  | Additive =>
      CppParser.tok_in OPERATOR ["+"; "-"] (CppParser.current_token tokens q)
  | Relational =>
      CppParser.tok_in OPERATOR ["<"; ">"; "<="; ">="]
        (CppParser.current_token tokens q)
  | Equality =>
      CppParser.tok_in OPERATOR ["=="; "!="]
        (CppParser.current_token tokens q)
  | LogicalAnd =>
      CppParser.tok_is OPERATOR "&&" (CppParser.current_token tokens q)
  | LogicalOr =>
      CppParser.tok_is OPERATOR "||" (CppParser.current_token tokens q)
  end.

(** One round of the loop of the rule of level [k]. *)
Definition old_binary_round (tokens : list Token) (k : level)
    (self : Parser -> option (bool * Parser)) (q : Parser)
    : option (round (bool * Parser)) :=
  if old_goes_on tokens k q then
    '(_, q1) <- old_operand tokens k self (CppParser.next q) ;;
    Some (Again q1)
  else Some (Leave (true, q)).

(** One round of the loop of [argument_list]. *)
Definition old_argument_round (tokens : list Token)
    (self : Parser -> option (bool * Parser)) (q : Parser)
    : option (round (bool * Parser)) :=
  if CppParser.tok_is SPECIAL "," (CppParser.current_token tokens q) then
    '(_, q1) <- self (CppParser.next q) ;; Some (Again q1)
  else Some (Leave (true, q)).

(** ** The grammar of statements and programs

    The sentences the statement rules of both files read without a
    diagnostic.  The shapes are those of the code: in a declaration
    inside a function the first name has an initializer only when it is
    the only name, in a declaration at the top level every name can have
    one; an assignment is a statement, not an expression; the parentheses
    of a function are empty. *)

(** Nothing, or [= expr]. *)
Inductive initializer : list Token -> Prop :=
  | i_none : initializer []
  | i_some e : derives Expression e -> initializer (op "=" :: e).

(** Nothing, or an expression. *)
Inductive optional_expression : list Token -> Prop :=
  | o_none : optional_expression []
  | o_some e : derives Expression e -> optional_expression e.

(** Any number of [, name] or [, name = expr]. *)
Inductive more_names : list Token -> Prop :=
  | n_none : more_names []
  | n_more x it r :
      initializer it -> more_names r ->
      more_names (sp "," :: ident x :: it ++ r).

(** [Statement o m], [Body o m], [Block m], [Statements m] and
    [Function m]: [o] tells that the sentence ends with an [if] that has
    no [else], so that an [else] after it would be taken as its own, and
    [m] that it holds a function whose name is [main].  [Statements] is
    what stands between the braces of a block, [Body] what [if], [else],
    [while] and [for] govern, [ForInit] the first part of the head of a
    [for], with its semicolon. *)
Inductive phrase : Type :=
  | Statement (o m : bool) | Body (o m : bool) | Block (m : bool)
  | Statements (m : bool) | Function (m : bool) | Declaration | ForInit.

Inductive sentence : phrase -> list Token -> Prop :=
  | s_declaration d x it :
      str_in d datatypes = true -> initializer it ->
      sentence Declaration (kw d :: ident x :: it ++ [sp ";"])
  | s_declarations d x ns :
      str_in d datatypes = true -> more_names ns ->
      sentence Declaration (kw d :: ident x :: ns ++ [sp ";"])
  | s_declare ts :
      sentence Declaration ts -> sentence (Statement false false) ts
  | s_assign x e :
      derives Expression e ->
      sentence (Statement false false) (ident x :: op "=" :: e ++ [sp ";"])
  | s_expression x l :
      derives Expression (ident x :: l) ->
      sentence (Statement false false) (ident x :: l ++ [sp ";"])
  | s_return e :
      optional_expression e ->
      sentence (Statement false false) (kw "return" :: e ++ [sp ";"])
  | s_if c b o m :
      derives Expression c -> sentence (Body o m) b ->
      sentence (Statement true m) (kw "if" :: sp "(" :: c ++ sp ")" :: b)
  | s_if_else c b1 m1 b2 o m2 :
      derives Expression c ->
      sentence (Body false m1) b1 -> sentence (Body o m2) b2 ->
      sentence (Statement o (m1 || m2))
        (kw "if" :: sp "(" :: c ++ sp ")" :: b1 ++ kw "else" :: b2)
  | s_while c b o m :
      derives Expression c -> sentence (Body o m) b ->
      sentence (Statement o m) (kw "while" :: sp "(" :: c ++ sp ")" :: b)
  | s_for h c u b o m :
      sentence ForInit h -> optional_expression c ->
      optional_expression u -> sentence (Body o m) b ->
      sentence (Statement o m)
        (kw "for" :: sp "(" :: h ++ c ++ sp ";" :: u ++ sp ")" :: b)
  | s_nested f m :
      sentence (Function m) f -> sentence (Statement false m) f
  | s_init_declaration ts :
      sentence Declaration ts -> sentence ForInit ts
  | s_init_expression e :
      derives Expression e -> sentence ForInit (e ++ [sp ";"])
  | s_body_block b m :
      sentence (Block m) b -> sentence (Body false m) b
  | s_body_statement s o m :
      sentence (Statement o m) s -> sentence (Body o m) s
  | s_block ss m :
      sentence (Statements m) ss ->
      sentence (Block m) (sp "{" :: ss ++ [sp "}"])
  | s_no_statement : sentence (Statements false) []
  | s_statements s o m1 ss m2 :
      sentence (Statement o m1) s -> sentence (Statements m2) ss ->
      sentence (Statements (m1 || m2)) (s ++ ss)
  | s_function d name b m :
      str_in d datatypes = true ->
      str_in (type name) [IDENTIFIER; KEYWORD] = true ->
      sentence (Block m) b ->
      sentence (Function (String.eqb (value name) "main" || m))
        (kw d :: name :: sp "(" :: sp ")" :: b).

(** [top_level m ts]: [ts] is a sequence of functions and of declarations
    of global variables, and [m] tells that one of the functions, nested
    ones included, is named [main]. *)
Inductive top_level : bool -> list Token -> Prop :=
  | p_end : top_level false []
  | p_function f m1 r m2 :
      sentence (Function m1) f -> top_level m2 r ->
      top_level (m1 || m2) (f ++ r)
  | p_variable d x it ns r m :
      str_in d datatypes = true -> initializer it -> more_names ns ->
      top_level m r ->
      top_level m (kw d :: ident x :: it ++ ns ++ sp ";" :: r).

(** What follows is not an [else]. *)
Definition not_else (rest : list Token) : bool :=
  match rest with
  | t :: _ => negb (String.eqb (type t) KEYWORD && String.eqb (value t) "else")
  | [] => true
  end.

(** One round of the loop of [parse_block]. *)
Definition new_block_round (tokens : list Token)
    (self_s : Parser -> option Parser) (q : Parser) : option (round Parser) :=
  if negb (NewParse.match_ tokens (Some SPECIAL) (Some "}") q) then
    if negb (is_some (NewParse.current tokens q)) then
      Some (Leave (append_error q "Expected '}' to close block"))
    else q1 <- self_s q ;; Some (Again q1)
  else
    Some (Leave (snd (NewParse.consume tokens (Some SPECIAL) (Some "}")
                        None q))).

(** The body of the loop over the further names of a declaration. *)
Definition new_name_round (tokens : list Token)
    (self_e : Parser -> option Parser) (q : Parser) : option Parser :=
  let q1 := snd (NewParse.consume tokens (Some IDENTIFIER) None None
                   (NewParse.advance q)) in
  if NewParse.match_ tokens (Some OPERATOR) (Some "=") q1
  then self_e (NewParse.advance q1) else Some q1.

(** One round of the loop over the further names of a declaration in
    [assign] and [global_variable]. *)
Definition old_name_round (tokens : list Token)
    (self : Parser -> option (bool * Parser)) (q : Parser)
    : option (round (bool * Parser)) :=
  if CppParser.tok_is SPECIAL "," (CppParser.current_token tokens q) then
    let '(ok1, q1) :=
      CppParser.expect tokens (Some IDENTIFIER) None None (CppParser.next q) in
    if negb ok1 then Some (Leave (false, q1))
    else if CppParser.tok_is OPERATOR "=" (CppParser.current_token tokens q1)
    then '(_, q2) <- self (CppParser.next q1) ;; Some (Again q2)
    else Some (Again q1)
  else Some (Leave (true, q)).

(** One round of the loop of [block]. *)
Definition old_block_round (tokens : list Token)
    (self_x : Parser -> option (bool * Parser)) (q : Parser)
    : option (round (bool * Parser)) :=
  match CppParser.current_token tokens q with
  | None =>
      Some (Leave (false,
                   CppParser.add_error tokens "Expected '}' to close block" q))
  | Some token =>
      if String.eqb (type token) SPECIAL && String.eqb (value token) "}"
      then Some (Leave (true, CppParser.next q))
      else
        '(ok1, q1) <- self_x q ;;
        if negb ok1
        then Some (Leave (false,
                          CppParser.add_error tokens
                            "Invalid statement in block" q1))
        else Some (Again q1)
  end.

(** One round of the loop of [program]. *)
Definition old_program_round (tokens : list Token)
    (self_e self_x : Parser -> option (bool * Parser)) (q : Parser)
    : option (round Parser) :=
  if is_some (CppParser.current_token tokens q) then
    '(ok, q1) <- CppParser.global_declaration tokens self_e self_x q ;;
    if negb ok then Some (Leave q1) else Some (Again q1)
  else Some (Leave q).

(** Between the cursors of [q] and [q'] stands a sentence of [n]. *)
Definition reads (tokens : list Token) (n : nonterminal) (q q' : Parser)
    : Prop :=
  exists ts, derives n ts
    /\ skipn (pos q) tokens = (ts ++ skipn (pos q') tokens)%list.

(** The run from [q] to [q'] recorded no diagnostic. *)
Definition quiet (q q' : Parser) : Prop := errors q' = errors q.

(** * Facts shared by the two parsers *)

Open Scope list_scope.

Lemma returns_bind {A B : Type} (m : option A) (k : A -> option B)
    (P : A -> Prop) (Q : B -> Prop) :
  returns P m -> (forall a, P a -> returns Q (k a)) -> returns Q (bind m k).
Proof.
  intros (a & -> & Ha) Hk. simpl. auto.
Qed.

Lemma returns_some {A : Type} (P : A -> Prop) (a : A) :
  P a -> returns P (Some a).
Proof.
  intros H. exists a. auto.
Qed.

Lemma returns_weaken {A : Type} (P Q : A -> Prop) (r : option A) :
  returns P r -> (forall a, P a -> Q a) -> returns Q r.
Proof.
  intros (a & -> & Ha) H. exists a. auto.
Qed.

Section Shared.

Variable tokens : list Token.


Lemma good_refl p : pos p <= length tokens -> good tokens p p.
Proof.
  intros H. unfold good. repeat split; auto.
  exists []. now rewrite app_nil_r.
Qed.

Lemma good_trans p q r : good tokens p q -> good tokens q r -> good tokens p r.
Proof.
  intros (H1 & H2 & (l1 & H3) & H4 & H5) (K1 & K2 & (l2 & K3) & K4 & K5).
  unfold good. repeat split; auto.
  - lia.
  - exists (l1 ++ l2). rewrite K3, H3. now rewrite app_assoc.
  - intros H. destruct (K5 H); auto.
Qed.

Lemma good_in_bounds p q : good tokens p q -> pos q <= length tokens.
Proof.
  intros H. apply H.
Qed.

Lemma good_le p q : good tokens p q -> pos p <= pos q.
Proof.
  intros H. apply H.
Qed.

Lemma good_errors_le p q :
  good tokens p q -> length (errors p) <= length (errors q).
Proof.
  intros (_ & _ & (l & ->) & _). rewrite length_app. lia.
Qed.

Lemma token_in_bounds p t : nth_error tokens (pos p) = Some t -> pos p < length tokens.
Proof.
  intros H. apply nth_error_Some. congruence.
Qed.

Lemma good_set_pos p t :
  nth_error tokens (pos p) = Some t -> good tokens p (set_pos p (pos p + 1)).
Proof.
  intros H. apply token_in_bounds in H.
  unfold good. simpl. repeat split; auto; try lia.
  exists []. now rewrite app_nil_r.
Qed.

Lemma good_append_error p m : pos p <= length tokens -> good tokens p (append_error p m).
Proof.
  intros H. unfold good. simpl. repeat split; auto.
  now exists [m].
Qed.

Lemma declares_main_at i : i < length tokens -> main_at tokens i = true ->
  declares_main tokens = true.
Proof.
  intros Hi H. unfold declares_main. apply existsb_exists.
  exists i. split; auto. apply in_seq. lia.
Qed.

Lemma good_set_main p :
  pos p <= length tokens -> declares_main tokens = true -> good tokens p (set_main p).
Proof.
  intros H D. unfold good. simpl. repeat split; auto.
  exists []. now rewrite app_nil_r.
Qed.

(** A loop whose rounds move the cursor forward returns before its
    budget is used up. *)
Lemma loop_returns {R : Type} (body : Parser -> option (round R))
    (I : Parser -> Prop) (Q : R -> Prop) :
  (forall q, I q -> pos q <= length tokens ->
     match body q with
     | Some (Again q') => I q' /\ pos q < pos q' /\ pos q' <= length tokens
     | Some (Leave r) => Q r
     | None => False
     end) ->
  forall n p, I p -> pos p <= length tokens -> length tokens - pos p < n -> returns Q (loop n body p).
Proof.
  intros Hbody. induction n as [|n IH]; intros p Hp Hb Hn.
  - lia.
  - simpl. specialize (Hbody p Hp Hb).
    destruct (body p) as [[q'|r]|]; try contradiction.
    + destruct Hbody as (HI & Hlt & Hb'). apply IH; auto. lia.
    + now apply returns_some.
Qed.

Lemma while_returns (cond : Parser -> bool) (body : Parser -> option Parser)
    (p0 : Parser) :
  (forall q, good tokens p0 q -> cond q = true ->
     returns (fun q' => good tokens q q' /\ pos q < pos q') (body q)) ->
  forall n p, good tokens p0 p -> length tokens - pos p < n ->
    returns (fun p' => good tokens p0 p' /\ cond p' = false) (while_ n cond body p).
Proof.
  intros Hbody n p Hp Hn. unfold while_.
  apply loop_returns with (I := good tokens p0); auto.
  - intros q Hq Hb. destruct (cond q) eqn:E.
    + destruct (Hbody q Hq E) as (q' & -> & Hg & Hlt). simpl.
      split; [|split]; auto.
      * eapply good_trans; eauto.
      * eapply good_in_bounds; eauto.
    + auto.
  - eapply good_in_bounds; eauto.
Qed.

End Shared.

(** * Facts about src/new_parse.py *)

Create HintDb parser.

Section NewFacts.

Variable tokens : list Token.

Import NewParse.

#[local] Arguments consume : simpl never.
#[local] Arguments match_ : simpl never.
#[local] Arguments current : simpl never.
#[local] Arguments advance : simpl never.
#[local] Arguments append_error : simpl never.
#[local] Arguments set_main : simpl never.
#[local] Arguments peek_is : simpl never.
#[local] Arguments current_value_in : simpl never.

Lemma match_current a b p :
  match_ tokens a b p = true -> exists t, current tokens p = Some t.
Proof.
  unfold match_. destruct (current tokens p) as [t|]; [eauto | discriminate].
Qed.

Lemma is_some_current p :
  is_some (current tokens p) = true -> exists t, current tokens p = Some t.
Proof.
  destruct (current tokens p) as [t|]; [eauto | discriminate].
Qed.

Lemma good_advance p q t :
  good tokens p q -> current tokens q = Some t ->
  good tokens p (advance q).
Proof.
  intros H Hc. eapply good_trans; eauto. eapply good_set_pos; eauto.
Qed.

Lemma good_advance_match p q a b :
  good tokens p q -> match_ tokens a b q = true ->
  good tokens p (advance q).
Proof.
  intros H Hm. destruct (match_current _ _ _ Hm). eapply good_advance; eauto.
Qed.

Lemma good_error p q m : good tokens p q -> good tokens p (append_error q m).
Proof.
  intros H. eapply good_trans; eauto. apply good_append_error.
  eapply good_in_bounds; eauto.
Qed.

Lemma good_consume p q a b c :
  good tokens p q -> good tokens p (snd (consume tokens a b c q)).
Proof.
  intros H. unfold consume. destruct (match_ tokens a b q) eqn:E; simpl.
  - eapply good_advance_match; eauto.
  - now apply good_error.
Qed.

Lemma pos_consume a b c p : pos p <= pos (snd (consume tokens a b c p)).
Proof.
  unfold consume. destruct (match_ tokens a b p); simpl; lia.
Qed.

Lemma current_append_error p m :
  current tokens (append_error p m) = current tokens p.
Proof. reflexivity. Qed.

Lemma current_set_main p : current tokens (set_main p) = current tokens p.
Proof. reflexivity. Qed.

Lemma pos_advance p : pos (advance p) = pos p + 1.
Proof. reflexivity. Qed.

Lemma current_in_bounds p t : current tokens p = Some t -> pos p < length tokens.
Proof. apply token_in_bounds. Qed.

#[local] Hint Resolve good_refl good_advance good_advance_match good_error
  good_consume good_in_bounds : parser.

(** ** Bookkeeping *)


Lemma good_consume_self a b c q :
  pos q <= length tokens -> good tokens q (snd (consume tokens a b c q)).
Proof.
  intros H. now apply good_consume, good_refl.
Qed.

Lemma good_advance_self q t :
  current tokens q = Some t -> good tokens q (advance q).
Proof.
  intros H. eapply good_advance; eauto. apply good_refl.
  apply current_in_bounds in H. lia.
Qed.

Ltac track :=
  repeat match goal with
  | H : good _ ?a ?b |- _ =>
      lazymatch goal with
      | _ : pos a <= pos b |- _ => fail
      | _ => pose proof (good_le _ _ _ H);
             pose proof (good_in_bounds _ _ _ H)
      end
  | H : current _ ?q = Some _ |- _ =>
      lazymatch goal with
      | _ : pos q < length _ |- _ => fail
      | _ => pose proof (current_in_bounds _ _ H)
      end
  end;
  unfold advance, set_pos, append_error, set_main in *; cbn [pos] in *.

Ltac chain :=
  solve [ eauto 8 using good_trans, good_consume_self, good_advance_self
            with parser ].

(** ** Expressions *)

Lemma moved_good (r : option Parser) q :
  returns (moved tokens q) r -> returns (good tokens q) r.
Proof.
  intros H. eapply returns_weaken; [exact H|]. now intros a (Ha & _).
Qed.

Lemma match_and_current a b (c : bool) p :
  match_ tokens a b p && c = true -> exists t, current tokens p = Some t.
Proof.
  intros H. apply andb_prop in H. eapply match_current. apply H.
Qed.

Section Expressions.

Variable d : nat.
Variable self : Parser -> option Parser.
Hypothesis Hself : forall q, pos q <= length tokens ->
  length tokens - pos q < d -> returns (good tokens q) (self q).

(** A recursive call after one token was consumed. *)
Lemma self_after q t :
  current tokens q = Some t -> length tokens - pos q < S d ->
  returns (fun q' => good tokens q q' /\ pos q < pos q') (self (advance q)).
Proof.
  intros Hc Hd. assert (H0 : good tokens q (advance q)) by chain.
  eapply returns_weaken; [apply Hself; track; lia|].
  intros a Ha. split; [chain | track; lia].
Qed.

Lemma parse_primary_moved p :
  pos p <= length tokens -> length tokens - pos p < S d ->
  returns (moved tokens p) (parse_primary tokens self p).
Proof.
  intros Hb Hd. unfold parse_primary, moved.
  destruct (current tokens p) as [tok|] eqn:Hc.
  - assert (H0 : good tokens p (advance p)) by chain.
    destruct (str_in (type tok) _).
    { apply returns_some. split; [chain | track; lia]. }
    destruct (match_ tokens _ _ p) eqn:Hm.
    + eapply returns_bind; [eapply self_after; eauto|].
      intros a (Ha & Hlt). apply returns_some.
      assert (H2 : good tokens a
        (snd (consume tokens (Some SPECIAL) (Some ")") None a))) by chain.
      split; [chain | track; lia].
    + apply returns_some. split; [|intros _; simpl; lia].
      eapply good_trans; [apply good_append_error; auto|].
      apply good_advance_self with (t := tok). exact Hc.
  - apply returns_some. split; [chain | discriminate].
Qed.

Lemma parse_argument_list_good p :
  pos p <= length tokens -> length tokens - pos p < d ->
  returns (good tokens p) (parse_argument_list tokens self p).
Proof.
  intros Hb Hd. unfold parse_argument_list.
  destruct (match_ tokens _ _ p).
  - apply returns_some. chain.
  - eapply returns_bind; [apply Hself; auto|].
    intros p1 H1. eapply returns_weaken.
    + apply while_returns with (p0 := p1).
      * intros q Hq Hm. destruct (match_current _ _ _ Hm) as (t & Hc).
        eapply self_after; eauto. track. lia.
      * chain.
      * unfold budget. lia.
    + intros a (Ha & _). chain.
Qed.

Lemma parse_postfix_moved p :
  pos p <= length tokens -> length tokens - pos p < S d ->
  returns (moved tokens p) (parse_postfix tokens self p).
Proof.
  intros Hb Hd. unfold parse_postfix.
  eapply returns_bind; [apply parse_primary_moved; auto|].
  intros p1 (H1 & Hlt1). eapply returns_weaken.
  - apply loop_returns with (tokens := tokens) (I := good tokens p1)
      (Q := good tokens p1).
    + intros q Hq Hqb.
      destruct (current tokens q) as [t|] eqn:Hc; simpl; auto.
      destruct (match_ tokens (Some SPECIAL) (Some "[") q).
      { destruct (self_after q t) as (q1 & -> & Hg1 & Hlt); auto;
          [track; lia|]. simpl.
        assert (H2 : good tokens q1
          (snd (consume tokens (Some SPECIAL) (Some "]") None q1))) by chain.
        split; [chain | track; lia]. }
      destruct (match_ tokens (Some SPECIAL) (Some "(") q).
      { assert (H0 : good tokens q (advance q)) by chain.
        destruct (parse_argument_list_good (advance q)) as (q1 & -> & Hg1);
          [track; lia ..|]. simpl.
        assert (H2 : good tokens q1
          (snd (consume tokens (Some SPECIAL) (Some ")") None q1))) by chain.
        split; [chain | track; lia]. }
      destruct (match_ tokens (Some OPERATOR) None q && _).
      { assert (H0 : good tokens q (advance q)) by chain.
        split; [chain | track; lia]. }
      assumption.
    + chain.
    + chain.
    + unfold budget. lia.
  - intros a Ha. split; [chain | intros K; specialize (Hlt1 K); track; lia].
Qed.

Lemma parse_unary_moved n p :
  pos p <= length tokens -> length tokens - pos p < n ->
  length tokens - pos p < S d ->
  returns (moved tokens p) (parse_unary tokens self n p).
Proof.
  revert p. induction n as [|n IH]; intros p Hb Hn Hd; [lia|]. simpl.
  destruct (match_ tokens (Some OPERATOR) None p && _) eqn:Hm.
  - destruct (match_and_current _ _ _ _ Hm) as (t & Hc).
    assert (H0 : good tokens p (advance p)) by chain.
    eapply returns_weaken; [apply IH; track; lia|].
    intros a (Ha & _). split; [chain | track; lia].
  - now apply parse_postfix_moved.
Qed.

(** One level of the ladder of binary operators. *)
Lemma level_moved (f : Parser -> option Parser) (cond : Parser -> bool) :
  (forall q, cond q = true -> exists t, current tokens q = Some t) ->
  (forall q, pos q <= length tokens -> length tokens - pos q < S d ->
     returns (moved tokens q) (f q)) ->
  forall p, pos p <= length tokens -> length tokens - pos p < S d ->
    returns (moved tokens p)
      (p1 <- f p ;; while_ (budget tokens) cond (fun q => f (advance q)) p1).
Proof.
  intros Hcond Hf p Hb Hd.
  eapply returns_bind; [apply Hf; auto|].
  intros p1 (H1 & Hlt1). eapply returns_weaken.
  - apply while_returns with (p0 := p1).
    + intros q Hq Hm. destruct (Hcond _ Hm) as (t & Hc).
      assert (H0 : good tokens q (advance q)) by chain.
      eapply returns_weaken; [apply Hf; track; lia|].
      intros a (Ha & _). split; [chain | track; lia].
    + chain.
    + unfold budget. lia.
  - intros a (Ha & _).
    split; [chain | intros K; specialize (Hlt1 K); track; lia].
Qed.

Lemma parse_multiplicative_moved p :
  pos p <= length tokens -> length tokens - pos p < S d ->
  returns (moved tokens p) (parse_multiplicative tokens self p).
Proof.
  apply level_moved.
  - intros q. apply match_and_current.
  - intros q Hb Hd. apply parse_unary_moved; auto. unfold budget. lia.
Qed.

Lemma parse_additive_moved p :
  pos p <= length tokens -> length tokens - pos p < S d ->
  returns (moved tokens p) (parse_additive tokens self p).
Proof.
  apply level_moved.
  - intros q. apply match_and_current.
  - apply parse_multiplicative_moved.
Qed.

Lemma parse_relational_moved p :
  pos p <= length tokens -> length tokens - pos p < S d ->
  returns (moved tokens p) (parse_relational tokens self p).
Proof.
  apply level_moved.
  - intros q. apply match_and_current.
  - apply parse_additive_moved.
Qed.

Lemma parse_equality_moved p :
  pos p <= length tokens -> length tokens - pos p < S d ->
  returns (moved tokens p) (parse_equality tokens self p).
Proof.
  apply level_moved.
  - intros q. apply match_and_current.
  - apply parse_relational_moved.
Qed.

Lemma parse_logical_and_moved p :
  pos p <= length tokens -> length tokens - pos p < S d ->
  returns (moved tokens p) (parse_logical_and tokens self p).
Proof.
  apply level_moved.
  - intros q. apply match_current.
  - apply parse_equality_moved.
Qed.

Lemma parse_logical_or_moved p :
  pos p <= length tokens -> length tokens - pos p < S d ->
  returns (moved tokens p) (parse_logical_or tokens self p).
Proof.
  apply level_moved.
  - intros q. apply match_current.
  - apply parse_logical_and_moved.
Qed.

End Expressions.

(** Every expression is parsed within a depth of one more than the
    number of tokens left. *)
Lemma parse_expression_at_moved d : forall p,
  pos p <= length tokens -> length tokens - pos p < d ->
  returns (moved tokens p) (parse_expression_at tokens d p).
Proof.
  induction d as [|d IH]; intros p Hb Hd; [lia|].
  simpl. unfold parse_expression.
  apply parse_logical_or_moved with (d := d); auto.
  intros q Hq Hdq. apply moved_good. now apply IH.
Qed.

Lemma parse_expression_moved p :
  pos p <= length tokens ->
  returns (moved tokens p) (parse_expression_at tokens (budget tokens) p).
Proof.
  intros Hb. apply parse_expression_at_moved; auto. unfold budget. lia.
Qed.

(** ** Statements *)

Section Statements.

Variable d : nat.
Variable self_e : Parser -> option Parser.
Variable self_s : Parser -> option Parser.
Hypothesis Hmoved : forall q, pos q <= length tokens ->
  returns (moved tokens q) (self_e q).
Hypothesis Hs : forall q, pos q <= length tokens ->
  length tokens - pos q < d ->
  returns (fun q' => good tokens q q'
                     /\ (is_some (current tokens q) = true -> pos q < pos q'))
    (self_s q).

Lemma He q : pos q <= length tokens -> returns (good tokens q) (self_e q).
Proof.
  intros Hb. now apply moved_good, Hmoved.
Qed.

(** An optional expression. *)
Lemma optional_expression_good (c : bool) q :
  pos q <= length tokens ->
  returns (good tokens q) (if c then self_e q else Some q).
Proof.
  intros Hb. destruct c; [now apply He | now apply returns_some, good_refl].
Qed.

(** An optional [= expression]. *)
Lemma initializer_good q :
  pos q <= length tokens ->
  returns (good tokens q)
    (if match_ tokens (Some OPERATOR) (Some "=") q
     then self_e (advance q) else Some q).
Proof.
  intros Hb. destruct (match_ tokens _ _ q) eqn:Hm.
  - destruct (match_current _ _ _ Hm) as (t & Hc).
    eapply returns_weaken; [apply He; track; lia|].
    intros a Ha. eapply good_trans; [|exact Ha]. chain.
  - now apply returns_some, good_refl.
Qed.

(** The loop over the further names of a declaration. *)
Lemma names_loop_good q :
  pos q <= length tokens ->
  returns (good tokens q)
    (while_ (budget tokens) (match_ tokens (Some SPECIAL) (Some ","))
       (fun q =>
          let q1 := snd (consume tokens (Some IDENTIFIER) None None (advance q)) in
          if match_ tokens (Some OPERATOR) (Some "=") q1
          then self_e (advance q1) else Some q1) q).
Proof.
  intros Hb. eapply returns_weaken.
  - apply while_returns with (p0 := q).
    + intros r Hr Hm. destruct (match_current _ _ _ Hm) as (t & Hc). cbv zeta.
      assert (H0 : good tokens r (advance r)) by chain.
      assert (H1 : good tokens (advance r)
                (snd (consume tokens (Some IDENTIFIER) None None (advance r))))
        by (apply good_consume_self; track; lia).
      eapply returns_weaken;
        [apply initializer_good; eauto with parser|].
      intros a Ha. split; [chain | track; lia].
    + now apply good_refl.
    + unfold budget. lia.
  - intros a (Ha & _). exact Ha.
Qed.

Lemma parse_return_statement_good p t :
  current tokens p = Some t ->
  returns (fun p' => good tokens p p' /\ pos p < pos p')
    (parse_return_statement tokens self_e p).
Proof.
  intros Hc. unfold parse_return_statement.
  assert (H1 : good tokens p (advance p)) by chain.
  eapply returns_bind; [apply optional_expression_good; eauto with parser|].
  intros p2 H2. apply returns_some.
  assert (H3 : good tokens p2 (snd (consume tokens (Some SPECIAL) (Some ";")
    None p2))) by chain.
  split; [chain | track; lia].
Qed.

Lemma parse_assignment_good p :
  pos p <= length tokens ->
  returns (fun p' => good tokens p p'
     /\ (match_ tokens (Some KEYWORD) None p
         && current_value_in tokens datatypes p = true
         \/ match_ tokens (Some IDENTIFIER) None p = true -> pos p < pos p'))
    (parse_assignment tokens self_e p).
Proof.
  intros Hb. unfold parse_assignment.
  destruct (match_ tokens (Some KEYWORD) None p && _) eqn:E.
  - destruct (match_and_current _ _ _ _ E) as (t & Hc).
    assert (H1 : good tokens p (advance p)) by chain.
    assert (H2 : good tokens (advance p)
      (snd (consume tokens (Some IDENTIFIER) None None (advance p)))) by chain.
    eapply returns_bind; [apply names_loop_good; eauto with parser|].
    intros p3 H3.
    eapply returns_bind; [apply initializer_good; eauto with parser|].
    intros p4 H4. apply returns_some.
    assert (H5 : good tokens p4 (snd (consume tokens (Some SPECIAL) (Some ";")
      None p4))) by chain.
    split; [chain | intros _; track; lia].
  - assert (H2 : good tokens p
      (snd (consume tokens (Some IDENTIFIER) None None p))) by chain.
    eapply returns_bind with (P := fun a => a = _);
      [apply returns_some; reflexivity|].
    intros p3 ->.
    eapply returns_bind; [apply initializer_good; eauto with parser|].
    intros p4 H4. apply returns_some.
    assert (H5 : good tokens p4 (snd (consume tokens (Some SPECIAL) (Some ";")
      None p4))) by chain.
    split; [chain|]. intros [K|K]; [discriminate|].
    assert (pos p < pos (snd (consume tokens (Some IDENTIFIER) None None p)))
      by (unfold consume; rewrite K; simpl; lia).
    track. lia.
Qed.


Lemma parse_block_good p :
  pos p <= length tokens -> length tokens - pos p < d ->
  returns (good tokens p) (parse_block tokens self_s p).
Proof.
  intros Hb Hd. unfold parse_block.
  assert (H1 : good tokens p (snd (consume tokens (Some SPECIAL) (Some "{")
    None p))) by chain.
  eapply returns_weaken.
  - apply loop_returns with (tokens := tokens)
      (I := good tokens (snd (consume tokens (Some SPECIAL) (Some "{") None p)))
      (Q := good tokens (snd (consume tokens (Some SPECIAL) (Some "{") None p))).
    + intros q Hq Hqb.
      destruct (match_ tokens (Some SPECIAL) (Some "}") q); simpl; [chain|].
      destruct (current tokens q) as [t|] eqn:Hc; simpl; [|chain].
      destruct (Hs q) as (q1 & -> & Hg & Hlt); [track; lia ..|].
      simpl. rewrite Hc in Hlt. specialize (Hlt eq_refl).
      split; [chain | split; [lia | eauto with parser]].
    + now apply good_refl; eauto with parser.
    + eauto with parser.
    + unfold budget. lia.
  - intros a Ha. chain.
Qed.

Lemma main_here p t0 t1 :
  current tokens p = Some t0 ->
  String.eqb (type t0) KEYWORD && str_in (value t0) datatypes = true ->
  peek_is tokens 2 SPECIAL "(" p = true ->
  current tokens (advance p) = Some t1 ->
  String.eqb (value t1) "main" = true ->
  declares_main tokens = true.
Proof.
  intros H0 Hk H2 H1 Hm.
  apply declares_main_at with (i := pos p).
  - now apply current_in_bounds in H0.
  - unfold main_at. unfold current in H0, H1. rewrite pos_advance in H1.
    unfold peek_is, peek in H2. rewrite H0, H1.
    destruct (nth_error tokens (pos p + 2)); [|discriminate].
    now rewrite Hk, Hm, H2.
Qed.

Lemma parse_function_good p t0 :
  current tokens p = Some t0 ->
  String.eqb (type t0) KEYWORD && str_in (value t0) datatypes = true ->
  peek_is tokens 2 SPECIAL "(" p = true ->
  length tokens - pos p < S d ->
  returns (fun p' => good tokens p p' /\ pos p < pos p')
    (parse_function tokens self_s p).
Proof.
  intros Hc Hk Hp Hd. unfold parse_function.
  assert (H1 : good tokens p (advance p)) by chain.
  set (p2 := match current tokens (advance p) with
             | Some tok => if String.eqb (value tok) "main"
                           then set_main (advance p) else advance p
             | None => advance p
             end).
  assert (H2 : good tokens (advance p) p2 /\ pos p2 = pos p + 1).
  { subst p2. destruct (current tokens (advance p)) as [t1|] eqn:Hc1.
    - destruct (String.eqb (value t1) "main") eqn:Hm.
      + split; [|reflexivity]. apply good_set_main; [eauto with parser|].
        eapply main_here with (p := p); eauto.
      + split; [|reflexivity]. apply good_refl. eauto with parser.
    - split; [|reflexivity]. apply good_refl. eauto with parser. }
  destruct H2 as (H2 & E2).
  assert (H3 : good tokens p2 (snd (consume tokens None None None p2)))
    by chain.
  assert (H4 : good tokens (snd (consume tokens None None None p2))
    (snd (consume tokens (Some SPECIAL) (Some "(") None
       (snd (consume tokens None None None p2))))) by chain.
  match type of H4 with good _ _ ?q =>
    assert (H5 : good tokens q
      (snd (consume tokens (Some SPECIAL) (Some ")") None q))) by chain
  end.
  eapply returns_weaken; [apply parse_block_good; [eauto with parser|]|].
  - track. lia.
  - intros a Ha. split; [chain | track; lia].
Qed.

Lemma block_or_statement_good p :
  pos p <= length tokens -> length tokens - pos p < d ->
  returns (good tokens p) (block_or_statement tokens self_s p).
Proof.
  intros Hb Hd. unfold block_or_statement.
  destruct (match_ tokens _ _ p).
  - now apply parse_block_good.
  - eapply returns_weaken; [apply Hs; auto|]. now intros a (Ha & _).
Qed.

Lemma parse_if_statement_good p t :
  current tokens p = Some t -> length tokens - pos p < S d ->
  returns (fun p' => good tokens p p' /\ pos p < pos p')
    (parse_if_statement tokens self_e self_s p).
Proof.
  intros Hc Hd. unfold parse_if_statement.
  assert (H1 : good tokens p (advance p)) by chain.
  assert (H2 : good tokens (advance p)
    (snd (consume tokens (Some SPECIAL) (Some "(") None (advance p))))
    by chain.
  eapply returns_bind; [apply He; eauto with parser|]. intros p3 H3.
  assert (H4 : good tokens p3
    (snd (consume tokens (Some SPECIAL) (Some ")") None p3))) by chain.
  eapply returns_bind;
    [apply block_or_statement_good; [eauto with parser | track; lia]|].
  intros p5 H5.
  destruct (match_ tokens (Some KEYWORD) (Some "else") p5) eqn:Hm.
  - destruct (match_current _ _ _ Hm) as (t5 & Hc5).
    assert (H6 : good tokens p5 (advance p5)) by chain.
    eapply returns_weaken;
      [apply block_or_statement_good; [eauto with parser | track; lia]|].
    intros a Ha. split; [chain | track; lia].
  - apply returns_some. split; [chain | track; lia].
Qed.

Lemma parse_while_statement_good p t :
  current tokens p = Some t -> length tokens - pos p < S d ->
  returns (fun p' => good tokens p p' /\ pos p < pos p')
    (parse_while_statement tokens self_e self_s p).
Proof.
  intros Hc Hd. unfold parse_while_statement.
  assert (H1 : good tokens p (advance p)) by chain.
  assert (H2 : good tokens (advance p)
    (snd (consume tokens (Some SPECIAL) (Some "(") None (advance p))))
    by chain.
  eapply returns_bind; [apply He; eauto with parser|]. intros p3 H3.
  assert (H4 : good tokens p3
    (snd (consume tokens (Some SPECIAL) (Some ")") None p3))) by chain.
  eapply returns_weaken;
    [apply block_or_statement_good; [eauto with parser | track; lia]|].
  intros a Ha. split; [chain | track; lia].
Qed.

Lemma parse_for_statement_good p t :
  current tokens p = Some t -> length tokens - pos p < S d ->
  returns (fun p' => good tokens p p' /\ pos p < pos p')
    (parse_for_statement tokens self_e self_s p).
Proof.
  intros Hc Hd. unfold parse_for_statement.
  assert (H1 : good tokens p (advance p)) by chain.
  assert (H2 : good tokens (advance p)
    (snd (consume tokens (Some SPECIAL) (Some "(") None (advance p))))
    by chain.
  set (p2 := snd (consume tokens (Some SPECIAL) (Some "(") None (advance p)))
    in *.
  eapply returns_bind with (P := good tokens p2).
  { destruct (match_ tokens (Some KEYWORD) None p2).
    - eapply returns_weaken; [apply parse_assignment_good; eauto with parser|].
      now intros a (Ha & _).
    - destruct (match_ tokens (Some SPECIAL) (Some ";") p2); simpl.
      + apply returns_some. chain.
      + eapply returns_bind; [apply He; eauto with parser|].
        intros q Hq. apply returns_some. chain. }
  intros p3 H3.
  eapply returns_bind;
    [apply optional_expression_good; eauto with parser|]. intros p4 H4.
  assert (H5 : good tokens p4
    (snd (consume tokens (Some SPECIAL) (Some ";") None p4))) by chain.
  eapply returns_bind;
    [apply optional_expression_good; eauto with parser|]. intros p6 H6.
  assert (H7 : good tokens p6
    (snd (consume tokens (Some SPECIAL) (Some ")") None p6))) by chain.
  eapply returns_weaken;
    [apply block_or_statement_good; [eauto with parser | track; lia]|].
  intros a Ha. split; [chain | track; lia].
Qed.

Lemma parse_statement_good p :
  pos p <= length tokens -> length tokens - pos p < S d ->
  returns (fun p' => good tokens p p'
                     /\ (is_some (current tokens p) = true -> pos p < pos p'))
    (parse_statement tokens self_e self_s p).
Proof.
  intros Hb Hd. unfold parse_statement.
  destruct (current tokens p) as [tok|] eqn:Hc.
  2:{ apply returns_some. split; [now apply good_refl | discriminate]. }
  assert (W : forall r : option Parser,
    returns (fun p' => good tokens p p' /\ pos p < pos p') r ->
    returns (fun p' => good tokens p p' /\ (is_some (Some tok) = true ->
      pos p < pos p')) r).
  { intros r Hr. eapply returns_weaken; [exact Hr|]. intros a (? & ?). auto. }
  apply W.
  destruct (String.eqb (type tok) KEYWORD && str_in (value tok) datatypes)
    eqn:Hk.
  { destruct (peek_is tokens 2 SPECIAL "(" p) eqn:Hp.
    - eapply parse_function_good; eauto.
    - eapply returns_weaken; [now apply parse_assignment_good|].
      intros a (Ha & Hlt). split; auto. apply Hlt. left.
      unfold match_, current_value_in. rewrite Hc.
      apply andb_prop in Hk. destruct Hk as (K1 & K2).
      unfold differs. rewrite K1, K2. reflexivity. }
  destruct (String.eqb (type tok) KEYWORD && String.eqb (value tok) "if");
    [eapply parse_if_statement_good; eauto|].
  destruct (String.eqb (type tok) KEYWORD && String.eqb (value tok) "while");
    [eapply parse_while_statement_good; eauto|].
  destruct (String.eqb (type tok) KEYWORD && String.eqb (value tok) "for");
    [eapply parse_for_statement_good; eauto|].
  destruct (String.eqb (type tok) KEYWORD && String.eqb (value tok) "return");
    [eapply parse_return_statement_good; eauto|].
  destruct (String.eqb (type tok) IDENTIFIER) eqn:Hi.
  { destruct (peek_is tokens 1 OPERATOR "=" p).
    - eapply returns_weaken; [now apply parse_assignment_good|].
      intros a (Ha & Hlt). split; auto. apply Hlt. right.
      unfold match_. rewrite Hc. unfold differs. rewrite Hi. reflexivity.
    - eapply returns_bind; [now apply Hmoved|]. intros p1 (H1 & Hlt).
      rewrite Hc in Hlt. specialize (Hlt eq_refl). apply returns_some.
      assert (H2 : good tokens p1
        (snd (consume tokens (Some SPECIAL) (Some ";") None p1))) by chain.
      split; [chain | track; lia]. }
  apply returns_some.
  assert (current tokens (append_error p
    ("Invalid statement starting with " ++ type tok ++ " '"
       ++ value tok ++ "'")%string) = Some tok) by exact Hc.
  split; [|track; lia].
  eapply good_trans; [apply good_append_error; auto|]. chain.
Qed.


(** ** Top level *)

Lemma parse_global_variable_good p t :
  current tokens p = Some t ->
  returns (fun p' => good tokens p p' /\ pos p < pos p')
    (parse_global_variable tokens self_e p).
Proof.
  intros Hc. unfold parse_global_variable.
  assert (H1 : good tokens p (advance p)) by chain.
  assert (H2 : good tokens (advance p)
    (snd (consume tokens (Some IDENTIFIER) None None (advance p)))) by chain.
  eapply returns_bind; [apply initializer_good; eauto with parser|].
  intros p3 H3.
  eapply returns_bind; [apply names_loop_good; eauto with parser|].
  intros p4 H4. apply returns_some.
  assert (H5 : good tokens p4
    (snd (consume tokens (Some SPECIAL) (Some ";") None p4))) by chain.
  split; [chain | track; lia].
Qed.

Lemma parse_global_declaration_good p t :
  current tokens p = Some t -> length tokens - pos p < S d ->
  returns (fun p' => good tokens p p' /\ pos p < pos p')
    (parse_global_declaration tokens self_e self_s p).
Proof.
  intros Hc Hd. unfold parse_global_declaration.
  destruct (match_ tokens (Some KEYWORD) None p) eqn:Hm; simpl.
  - destruct (current_value_in tokens datatypes p) eqn:Hv; simpl.
    + destruct (peek_is tokens 2 SPECIAL "(" p) eqn:Hp.
      * eapply parse_function_good; eauto.
        unfold match_ in Hm. unfold current_value_in in Hv.
        rewrite Hc in Hm, Hv. rewrite Hv, andb_true_r.
        unfold differs in Hm. simpl in Hm.
        destruct (String.eqb (type t) KEYWORD); [reflexivity|discriminate].
      * eapply parse_global_variable_good; eauto.
    + apply returns_some. split; [|track; lia].
      eapply good_trans; [apply good_append_error; track; lia|].
      apply good_advance_self with (t := t). exact Hc.
  - apply returns_some. split; [|track; lia].
    eapply good_trans; [apply good_append_error; track; lia|].
    apply good_advance_self with (t := t). exact Hc.
Qed.

Lemma declarations_good p :
  pos p <= length tokens -> length tokens - pos p < S d ->
  returns (fun p' => good tokens p p' /\ current tokens p' = None)
    (declarations tokens self_e self_s p).
Proof.
  intros Hb Hd. unfold declarations. eapply returns_weaken.
  - apply while_returns with (p0 := p).
    + intros q Hq Hm. destruct (is_some_current _ Hm) as (t & Hc).
      eapply parse_global_declaration_good; eauto. track. lia.
    + now apply good_refl.
    + unfold budget. lia.
  - intros a (Ha & Hn). split; auto.
    destruct (current tokens a); [discriminate | reflexivity].
Qed.

End Statements.

(** Every statement is parsed within a depth of one more than the number
    of tokens left. *)
Lemma parse_statement_at_moved d : forall p,
  pos p <= length tokens -> length tokens - pos p < d ->
  returns (moved tokens p) (parse_statement_at tokens d p).
Proof.
  induction d as [|d IH]; intros p Hb Hd; [lia|].
  simpl. apply parse_statement_good with (d := d); auto.
  apply parse_expression_moved.
Qed.

(** The loop of [parse] returns: it ends at the end of the stream. *)
Lemma structural_pass_good :
  returns (fun p => good tokens init p /\ pos p = length tokens)
    (structural_pass tokens).
Proof.
  unfold structural_pass. eapply returns_weaken.
  - apply declarations_good with (d := budget tokens).
    + apply parse_expression_moved.
    + apply parse_statement_at_moved.
    + simpl. lia.
    + unfold budget. simpl. lia.
  - intros a (Ha & Hn). split; auto.
    unfold current in Hn. apply nth_error_None in Hn.
    apply good_in_bounds in Ha. lia.
Qed.

End NewFacts.

(** * Facts about src/cpp_parser.py *)

Section OldFacts.

Variable tokens : list Token.

Import CppParser.

#[local] Arguments expect : simpl never.
#[local] Arguments add_error : simpl never.
#[local] Arguments next : simpl never.
#[local] Arguments current_token : simpl never.
#[local] Arguments peek_token : simpl never.
#[local] Arguments tok_is : simpl never.
#[local] Arguments tok_in : simpl never.
#[local] Arguments tok_type_is : simpl never.
#[local] Arguments datatype : simpl never.
#[local] Arguments append_error : simpl never.
#[local] Arguments set_main : simpl never.

(** ** Bookkeeping *)

Lemma current_token_in_bounds p t :
  current_token tokens p = Some t -> pos p < length tokens.
Proof. apply token_in_bounds. Qed.

Lemma current_token_le p t :
  current_token tokens p = Some t -> pos p <= length tokens.
Proof.
  intros H. apply current_token_in_bounds in H. lia.
Qed.

Lemma good_next q t : current_token tokens q = Some t -> good tokens q (next q).
Proof.
  intros H. eapply good_set_pos; eauto.
Qed.

Lemma good_add_error m q :
  pos q <= length tokens -> good tokens q (add_error tokens m q).
Proof.
  intros H. unfold add_error.
  destruct (current_token tokens q); now apply good_append_error.
Qed.

Lemma pos_add_error m q : pos (add_error tokens m q) = pos q.
Proof.
  unfold add_error. now destruct (current_token tokens q).
Qed.

Lemma errors_add_error m q :
  length (errors (add_error tokens m q)) = S (length (errors q)).
Proof.
  unfold add_error, append_error.
  destruct (current_token tokens q); simpl; rewrite length_app; simpl; lia.
Qed.

Lemma current_token_add_error m q :
  current_token tokens (add_error tokens m q) = current_token tokens q.
Proof.
  unfold add_error. destruct (current_token tokens q) eqn:E; exact E.
Qed.

Lemma expect_spec a b c q :
  pos q <= length tokens ->
  good tokens q (snd (expect tokens a b c q))
  /\ (fst (expect tokens a b c q) = true ->
      pos (snd (expect tokens a b c q)) = pos q + 1)
  /\ (fst (expect tokens a b c q) = false ->
      length (errors (snd (expect tokens a b c q))) = S (length (errors q))).
Proof.
  intros Hb. unfold expect.
  destruct (current_token tokens q) as [t|] eqn:Hc.
  - destruct (differs a (type t)); [|destruct (differs b (value t))];
      cbn [fst snd]; (split; [|split]); try discriminate;
      auto using good_add_error, errors_add_error.
    eapply good_next; eauto.
  - cbn [fst snd]. (split; [|split]); try discriminate;
      auto using good_add_error, errors_add_error.
Qed.

Lemma tok_is_some ty v o : tok_is ty v o = true -> exists t, o = Some t.
Proof. destruct o; [eauto | discriminate]. Qed.

Lemma tok_in_some ty l o : tok_in ty l o = true -> exists t, o = Some t.
Proof. destruct o; [eauto | discriminate]. Qed.

Ltac track :=
  cbv beta in *;
  repeat match goal with
  | H : true = true -> _ |- _ => specialize (H eq_refl)
  | H : false = false -> _ |- _ => specialize (H eq_refl)
  | H : true = false -> _ |- _ => clear H
  | H : false = true -> _ |- _ => clear H
  end;
  repeat match goal with
  | H : good _ ?a ?b |- _ =>
      lazymatch goal with
      | _ : pos a <= pos b |- _ => fail
      | _ => pose proof (good_le _ _ _ H);
             pose proof (good_in_bounds _ _ _ H);
             pose proof (good_errors_le _ _ _ H)
      end
  | H : current_token _ ?q = Some _ |- _ =>
      lazymatch goal with
      | _ : pos q < length _ |- _ => fail
      | _ => pose proof (current_token_in_bounds _ _ H)
      end
  end;
  rewrite ?pos_add_error, ?errors_add_error in *;
  unfold next, set_pos, set_main in *; cbn [pos errors fst snd] in *.

Ltac chain :=
  cbv beta in *;
  solve [ eauto 8 using good_trans, good_refl, good_next, good_add_error,
            good_in_bounds, current_token_le ].

(** Name the result of the call of [expect] at state [q], with the facts
    about it. *)
Ltac on_expect q ok q' :=
  match goal with
  | |- context [expect ?t ?a ?b ?c q] =>
      let X := fresh "X" in
      let Hq := fresh "Hq" in
      assert (Hq : pos q <= length t) by (track; lia);
      pose proof (expect_spec a b c q Hq) as X; clear Hq;
      destruct (expect t a b c q) as [ok q']; cbn [fst snd] in X;
      destruct X as (?Xg & ?Xt & ?Xf)
  end.


(** ** Expressions *)

Section Expressions.

Variable d : nat.
Variable self : Parser -> option (bool * Parser).
Hypothesis Hself : forall q, pos q <= length tokens ->
  length tokens - pos q < d ->
  returns (fun r => good tokens q (snd r)) (self q).

(** A recursive call after one token was consumed. *)
Lemma expression_after q t :
  current_token tokens q = Some t -> length tokens - pos q < S d ->
  returns (fun r => good tokens q (snd r) /\ pos q < pos (snd r))
    (self (next q)).
Proof.
  intros Hc Hd. assert (G0 : good tokens q (next q)) by chain.
  eapply returns_weaken; [apply Hself; track; lia|].
  intros a Ha. split; [chain | track; lia].
Qed.

Lemma parsed_good (r : option (bool * Parser)) q :
  returns (parsed tokens q) r -> returns (fun r => good tokens q (snd r)) r.
Proof.
  intros H. eapply returns_weaken; [exact H|]. now intros a (Ha & _).
Qed.

Lemma semicolon_token o :
  tok_is SPECIAL ";" o = true ->
  exists t, o = Some t /\ type t = SPECIAL /\ value t = ";".
Proof.
  destruct o as [t|]; [|discriminate]. unfold tok_is. intros H.
  apply andb_prop in H. destruct H as (H1 & H2).
  apply String.eqb_eq in H1, H2. eauto.
Qed.

Lemma primary_expr_good p :
  pos p <= length tokens -> length tokens - pos p < S d ->
  returns (parsed tokens p) (primary_expr tokens self p).
Proof.
  intros Hb Hd. unfold primary_expr, parsed.
  destruct (current_token tokens p) as [tok|] eqn:Hc.
  - assert (G0 : good tokens p (next p)) by chain.
    assert (Hsemi : tok_is SPECIAL ";" (Some tok) = true ->
      type tok = SPECIAL /\ value tok = ";").
    { intros H. destruct (semicolon_token _ H) as (t & E & ? & ?).
      injection E as <-. auto. }
    destruct (String.eqb (type tok) IDENTIFIER) eqn:E1.
    { apply returns_some. split; [chain|]. intros H.
      destruct (Hsemi H) as (K & _). rewrite K in E1. discriminate. }
    destruct (String.eqb (type tok) NUMBER) eqn:E2.
    { apply returns_some. split; [chain|]. intros H.
      destruct (Hsemi H) as (K & _). rewrite K in E2. discriminate. }
    destruct (String.eqb (type tok) STRING) eqn:E3.
    { apply returns_some. split; [chain|]. intros H.
      destruct (Hsemi H) as (K & _). rewrite K in E3. discriminate. }
    destruct (String.eqb (type tok) SPECIAL && String.eqb (value tok) "(")
      eqn:E4.
    + eapply returns_bind; [eapply expression_after; eauto|].
      intros [b p1] (G1 & Hlt). cbn [snd] in *.
      on_expect p1 ok p2. destruct ok; apply returns_some; cbn [snd];
        (split; [chain|]); intros H; destruct (Hsemi H) as (_ & K);
        rewrite K in E4; rewrite andb_false_r in E4; discriminate.
    + apply returns_some. cbn [snd]. split; [chain|]. intros _. track. lia.
  - apply returns_some. cbn [snd]. split; [chain | discriminate].
Qed.

Lemma argument_list_good p :
  pos p <= length tokens -> length tokens - pos p < d ->
  returns (fun r => good tokens p (snd r)) (argument_list tokens self p).
Proof.
  intros Hb Hd. unfold argument_list.
  destruct (tok_is SPECIAL ")" (current_token tokens p)).
  - apply returns_some. simpl. chain.
  - eapply returns_bind; [apply Hself; auto|].
    intros [b p1] G1. cbn [snd] in *. eapply returns_weaken.
    + apply loop_returns with (tokens := tokens) (I := good tokens p1)
        (Q := fun r => good tokens p1 (snd r)).
      * intros q Hq Hqb.
        destruct (tok_is SPECIAL "," (current_token tokens q)) eqn:Hm;
          [|exact Hq].
        destruct (tok_is_some _ _ _ Hm) as (t & Hc).
        destruct (expression_after q t) as ([b1 q1] & -> & Hg1 & Hlt); auto;
          [track; lia|]. simpl in *.
        split; [chain | track; lia].
      * chain.
      * chain.
      * unfold budget. lia.
    + intros a Ha. chain.
Qed.

(** The loop of [postfix_expr]. *)
Lemma postfix_loop_good p1 :
  pos p1 <= length tokens -> length tokens - pos p1 < S d ->
  returns (fun r => good tokens p1 (snd r))
    (loop (budget tokens)
    (fun q =>
       match current_token tokens q with
       | None => Some (Leave (true, q))
       | Some token =>
           if String.eqb (type token) SPECIAL && String.eqb (value token) "["
           then
             '(_, q1) <- self (next q) ;;
             Some (Again (snd (expect tokens (Some SPECIAL) (Some "]") None q1)))
           else if String.eqb (type token) SPECIAL
                   && String.eqb (value token) "("
           then
             '(_, q1) <- argument_list tokens self (next q) ;;
             Some (Again (snd (expect tokens (Some SPECIAL) (Some ")") None q1)))
           else if String.eqb (type token) OPERATOR
                   && str_in (value token) ["++"; "--"]
           then Some (Again (next q))
           else Some (Leave (true, q))
       end) p1).
Proof.
  intros Hb Hd.
  apply loop_returns with (tokens := tokens) (I := good tokens p1)
      (Q := fun r => good tokens p1 (snd r)).
  - intros q Hq Hqb.
    destruct (current_token tokens q) as [t|] eqn:Hc; [|exact Hq].
    destruct (String.eqb (type t) SPECIAL && String.eqb (value t) "[").
    { destruct (expression_after q t) as ([b1 q1] & -> & Hg1 & Hlt); auto;
        [track; lia|]. simpl in *.
      on_expect q1 ok q2. split; [chain | track; lia]. }
    destruct (String.eqb (type t) SPECIAL && String.eqb (value t) "(").
    { assert (G0 : good tokens q (next q)) by chain.
      destruct (argument_list_good (next q)) as ([b1 q1] & -> & Hg1);
        [track; lia ..|]. simpl in *.
      on_expect q1 ok q2. split; [chain | track; lia]. }
    destruct (String.eqb (type t) OPERATOR && _).
    { assert (G0 : good tokens q (next q)) by chain.
      split; [chain | track; lia]. }
    exact Hq.
  - chain.
  - chain.
  - unfold budget. lia.
Qed.

Lemma postfix_expr_good p :
  pos p <= length tokens -> length tokens - pos p < S d ->
  returns (parsed tokens p) (postfix_expr tokens self p).
Proof.
  intros Hb Hd. unfold postfix_expr.
  eapply returns_bind; [apply primary_expr_good; auto|].
  intros [b p1] (G1 & Hs1). cbn [snd] in *. eapply returns_weaken.
  - apply postfix_loop_good; track; lia.
  - intros a Ha. split; [chain | intros K; specialize (Hs1 K); track; lia].
Qed.

Lemma semicolon_no_operator l o :
  tok_is SPECIAL ";" o = true -> tok_in OPERATOR l o = false.
Proof.
  intros H. destruct (semicolon_token _ H) as (t & -> & K & _).
  unfold tok_in. now rewrite K.
Qed.

Lemma unary_expr_good n p :
  pos p <= length tokens -> length tokens - pos p < n ->
  length tokens - pos p < S d ->
  returns (parsed tokens p) (unary_expr tokens self n p).
Proof.
  revert p. induction n as [|n IH]; intros p Hb Hn Hd; [lia|]. simpl.
  destruct (tok_in OPERATOR _ (current_token tokens p)) eqn:Hm.
  - destruct (tok_in_some _ _ _ Hm) as (t & Hc).
    assert (G0 : good tokens p (next p)) by chain.
    eapply returns_weaken; [apply IH; track; lia|].
    intros a (Ha & _). split; [chain|]. intros K.
    rewrite (semicolon_no_operator _ _ K) in Hm. discriminate.
  - now apply postfix_expr_good.
Qed.

(** The loop of one level of the ladder of binary operators. *)
Lemma ladder_loop_good (f : Parser -> option (bool * Parser))
    (cond : option Token -> bool) :
  (forall o, cond o = true -> exists t, o = Some t) ->
  (forall q, pos q <= length tokens -> length tokens - pos q < S d ->
     returns (parsed tokens q) (f q)) ->
  forall p1, pos p1 <= length tokens -> length tokens - pos p1 < S d ->
    returns (fun r => good tokens p1 (snd r))
      (loop (budget tokens)
         (fun q =>
            if cond (current_token tokens q) then
              '(_, q1) <- f (next q) ;; Some (Again q1)
            else Some (Leave (true, q))) p1).
Proof.
  intros Hcond Hf p1 Hb Hd.
  apply loop_returns with (tokens := tokens) (I := good tokens p1)
      (Q := fun r => good tokens p1 (snd r)).
  - intros q Hq Hqb.
    destruct (cond (current_token tokens q)) eqn:Hm; [|exact Hq].
    destruct (Hcond _ Hm) as (t & Hc).
    assert (G0 : good tokens q (next q)) by chain.
    destruct (Hf (next q)) as ([b1 q1] & -> & Hg1 & _); [track; lia ..|].
    simpl in *. split; [chain | track; lia].
  - chain.
  - chain.
  - unfold budget. lia.
Qed.

(** One level of the ladder of binary operators. *)
Lemma ladder_good (f : Parser -> option (bool * Parser))
    (cond : option Token -> bool) :
  (forall o, cond o = true -> exists t, o = Some t) ->
  (forall q, pos q <= length tokens -> length tokens - pos q < S d ->
     returns (parsed tokens q) (f q)) ->
  forall p, pos p <= length tokens -> length tokens - pos p < S d ->
    returns (parsed tokens p)
      ('(_, p1) <- f p ;;
       loop (budget tokens)
         (fun q =>
            if cond (current_token tokens q) then
              '(_, q1) <- f (next q) ;; Some (Again q1)
            else Some (Leave (true, q))) p1).
Proof.
  intros Hcond Hf p Hb Hd.
  eapply returns_bind; [apply Hf; auto|].
  intros [b p1] (G1 & Hs1). cbn [snd] in *. eapply returns_weaken.
  - apply ladder_loop_good; auto; track; lia.
  - intros a Ha. split; [chain | intros K; specialize (Hs1 K); track; lia].
Qed.

Lemma multiplicative_expr_good p :
  pos p <= length tokens -> length tokens - pos p < S d ->
  returns (parsed tokens p) (multiplicative_expr tokens self p).
Proof.
  apply ladder_good with (cond := tok_in OPERATOR ["*"; "/"; "%"]).
  - apply tok_in_some.
  - intros q Hb Hd. apply unary_expr_good; auto. unfold budget. lia.
Qed.

Lemma additive_expr_good p :
  pos p <= length tokens -> length tokens - pos p < S d ->
  returns (parsed tokens p) (additive_expr tokens self p).
Proof.
  apply ladder_good with (cond := tok_in OPERATOR ["+"; "-"]).
  - apply tok_in_some.
  - apply multiplicative_expr_good.
Qed.

Lemma relational_expr_good p :
  pos p <= length tokens -> length tokens - pos p < S d ->
  returns (parsed tokens p) (relational_expr tokens self p).
Proof.
  apply ladder_good with (cond := tok_in OPERATOR ["<"; ">"; "<="; ">="]).
  - apply tok_in_some.
  - apply additive_expr_good.
Qed.

Lemma equality_expr_good p :
  pos p <= length tokens -> length tokens - pos p < S d ->
  returns (parsed tokens p) (equality_expr tokens self p).
Proof.
  apply ladder_good with (cond := tok_in OPERATOR ["=="; "!="]).
  - apply tok_in_some.
  - apply relational_expr_good.
Qed.

Lemma logical_and_expr_good p :
  pos p <= length tokens -> length tokens - pos p < S d ->
  returns (parsed tokens p) (logical_and_expr tokens self p).
Proof.
  apply ladder_good with (cond := tok_is OPERATOR "&&").
  - apply tok_is_some.
  - apply equality_expr_good.
Qed.

Lemma logical_or_expr_good p :
  pos p <= length tokens -> length tokens - pos p < S d ->
  returns (parsed tokens p) (logical_or_expr tokens self p).
Proof.
  apply ladder_good with (cond := tok_is OPERATOR "||").
  - apply tok_is_some.
  - apply logical_and_expr_good.
Qed.

End Expressions.

(** Every expression is parsed within a depth of one more than the
    number of tokens left. *)
Lemma expression_at_good d : forall p,
  pos p <= length tokens -> length tokens - pos p < d ->
  returns (parsed tokens p) (expression_at tokens d p).
Proof.
  induction d as [|d IH]; intros p Hb Hd; [lia|].
  simpl. unfold expression.
  apply logical_or_expr_good with (d := d); auto.
  intros q Hq Hdq. apply parsed_good. now apply IH.
Qed.

Lemma expression_good p :
  pos p <= length tokens ->
  returns (parsed tokens p) (expression_at tokens (budget tokens) p).
Proof.
  intros Hb. apply expression_at_good; auto. unfold budget. lia.
Qed.

(** ** Statements *)

Ltac close_ruled :=
  unfold ruled, ruled_x; cbn [fst snd];
  split; [chain | split; intros ?; try discriminate; track;
          first [lia | left; lia | right; reflexivity]].

Lemma ruled_ruled_x p (r : option (bool * Parser)) :
  returns (ruled tokens p) r -> returns (ruled_x tokens p) r.
Proof.
  intros H. eapply returns_weaken; [exact H|].
  intros a (G1 & G2 & G3). unfold ruled_x. auto.
Qed.

Section Statements.

Variable d : nat.
Variable self_e : Parser -> option (bool * Parser).
Variable self_x : Parser -> option (bool * Parser).
Hypothesis Hparsed : forall q, pos q <= length tokens ->
  returns (parsed tokens q) (self_e q).
Hypothesis Hx : forall q, pos q <= length tokens ->
  length tokens - pos q < d -> returns (ruled_x tokens q) (self_x q).

Lemma He_old q :
  pos q <= length tokens ->
  returns (fun r => good tokens q (snd r)) (self_e q).
Proof.
  intros Hb. now apply parsed_good, Hparsed.
Qed.

(** An optional expression. *)
Lemma optional_good (c : bool) q :
  pos q <= length tokens ->
  returns (good tokens q) (if c then '(_, r) <- self_e q ;; Some r else Some q).
Proof.
  intros Hb. destruct c; [|apply returns_some; chain].
  eapply returns_bind; [now apply He_old|].
  intros [b r] Hr. now apply returns_some.
Qed.

(** An optional [= expression]. *)
Lemma init_good q :
  pos q <= length tokens ->
  returns (good tokens q)
    (if tok_is OPERATOR "=" (current_token tokens q)
     then '(_, r) <- self_e (next q) ;; Some r else Some q).
Proof.
  intros Hb. destruct (tok_is _ _ _) eqn:Hm; [|apply returns_some; chain].
  destruct (tok_is_some _ _ _ Hm) as (t & Hc).
  assert (G0 : good tokens q (next q)) by chain.
  eapply returns_bind; [apply He_old; track; lia|].
  intros [b r] Hr. apply returns_some. chain.
Qed.

(** The loop over the further names of a declaration. *)
Lemma names_good q :
  pos q <= length tokens ->
  returns (fun r => good tokens q (snd r)
     /\ (fst r = false -> length (errors q) < length (errors (snd r))))
    (loop (budget tokens)
       (fun q =>
          if tok_is SPECIAL "," (current_token tokens q) then
            let '(ok1, q1) :=
              expect tokens (Some IDENTIFIER) None None (next q) in
            if negb ok1 then Some (Leave (false, q1))
            else if tok_is OPERATOR "=" (current_token tokens q1) then
              '(_, q2) <- self_e (next q1) ;; Some (Again q2)
            else Some (Again q1)
          else Some (Leave (true, q))) q).
Proof.
  intros Hb.
  apply loop_returns with (tokens := tokens) (I := good tokens q); auto.
  - intros r Hr Hrb.
    destruct (tok_is SPECIAL "," (current_token tokens r)) eqn:Hm.
    2:{ cbn [fst snd]. split; [chain | discriminate]. }
    destruct (tok_is_some _ _ _ Hm) as (t & Hc).
    assert (G0 : good tokens r (next r)) by chain.
    on_expect (next r) ok1 q1. destruct ok1; cbn [negb].
    + destruct (tok_is OPERATOR "=" (current_token tokens q1)) eqn:Hm1.
      * destruct (tok_is_some _ _ _ Hm1) as (t1 & Hc1).
        assert (G4 : good tokens q1 (next q1)) by chain.
        destruct (He_old (next q1)) as ([b2 q2] & -> & G5); [track; lia|].
        cbn [bind snd] in *. split; [chain | track; lia].
      * split; [chain | track; lia].
    + cbn [fst snd]. split; [chain | intros _; track; lia].
  - chain.
  - unfold budget. lia.
Qed.

Lemma expression_statement_ruled p :
  pos p <= length tokens ->
  returns (ruled tokens p) (expression_statement tokens self_e p).
Proof.
  intros Hb. unfold expression_statement.
  eapply returns_bind; [now apply He_old|]. intros [b p1] G1. cbn [snd] in *.
  on_expect p1 ok p2. destruct ok; apply returns_some; close_ruled.
Qed.


Lemma return_statement_ruled p t :
  current_token tokens p = Some t ->
  returns (ruled tokens p) (return_statement tokens self_e p).
Proof.
  intros Hc. unfold return_statement.
  assert (G0 : good tokens p (next p)) by chain.
  eapply returns_bind; [apply optional_good; track; lia|]. intros p2 G2.
  on_expect p2 ok p3. destruct ok; apply returns_some; close_ruled.
Qed.

Lemma assign_ruled p t :
  current_token tokens p = Some t ->
  returns (ruled tokens p) (assign tokens self_e p).
Proof.
  intros Hc. unfold assign. rewrite Hc.
  destruct (String.eqb (type t) KEYWORD && str_in (value t) datatypes).
  - assert (G0 : good tokens p (next p)) by chain.
    on_expect (next p) ok p2.
    destruct ok; cbn [negb]; [|apply returns_some; close_ruled].
    eapply returns_bind; [apply names_good; track; lia|].
    intros [go p3] (G3 & Hgo). cbn [fst snd] in *.
    destruct go; cbn [negb]; [|apply returns_some; close_ruled].
    eapply returns_bind; [apply init_good; track; lia|]. intros p4 G4.
    on_expect p4 ok2 p5. destruct ok2; apply returns_some; close_ruled.
  - on_expect p ok p2.
    destruct ok; cbn [negb]; [|apply returns_some; close_ruled].
    cbn [bind].
    eapply returns_bind; [apply init_good; track; lia|]. intros p4 G4.
    on_expect p4 ok2 p5. destruct ok2; apply returns_some; close_ruled.
Qed.

Lemma block_ruled p :
  pos p <= length tokens -> length tokens - pos p < d ->
  returns (ruled tokens p) (block tokens self_x p).
Proof.
  intros Hb Hd. unfold block. on_expect p ok p1.
  destruct ok; cbn [negb]; [|apply returns_some; close_ruled].
  eapply returns_weaken.
  - apply loop_returns with (tokens := tokens) (I := good tokens p1)
      (Q := fun r => good tokens p1 (snd r)
         /\ (fst r = false -> length (errors p1) < length (errors (snd r)))).
    + intros q Hq Hqb.
      destruct (current_token tokens q) as [t|] eqn:Hc.
      2:{ cbn [fst snd]. split; [chain | intros _; track; lia]. }
      destruct (String.eqb (type t) SPECIAL && String.eqb (value t) "}").
      { cbn [fst snd]. split; [chain | discriminate]. }
      destruct (Hx q) as ([ok1 q1] & -> & Hg & Ht & Hf); [track; lia ..|].
      cbn [bind fst snd] in *. destruct ok1; cbn [negb].
      * split; [chain | track; lia].
      * cbn [fst snd]. split; [chain|]. intros _.
        destruct Hf as [Hf| ->]; auto; track; lia.
    + chain.
    + track. lia.
    + unfold budget. lia.
  - intros [b r] (Hr & Hf). cbn [fst snd] in *. destruct b; close_ruled.
Qed.

Lemma main_named p t0 t1 :
  current_token tokens p = Some t0 ->
  tok_in KEYWORD datatypes (current_token tokens p) = true ->
  tok_is SPECIAL "(" (peek_token tokens 2 p) = true ->
  current_token tokens (next p) = Some t1 ->
  String.eqb (value t1) "main" = true ->
  declares_main tokens = true.
Proof.
  intros G0 Hk G2 G1 Hm.
  apply declares_main_at with (i := pos p).
  - now apply current_token_in_bounds in G0.
  - unfold main_at. rewrite G0 in Hk. unfold tok_in in Hk.
    unfold current_token in G0, G1. unfold next in G1. cbn [pos set_pos] in G1.
    unfold tok_is, peek_token in G2. rewrite G0, G1.
    destruct (nth_error tokens (pos p + 2)); [|discriminate].
    now rewrite Hk, Hm, G2.
Qed.

Lemma func_ruled p t0 :
  current_token tokens p = Some t0 ->
  tok_in KEYWORD datatypes (current_token tokens p) = true ->
  tok_is SPECIAL "(" (peek_token tokens 2 p) = true ->
  length tokens - pos p < S d ->
  returns (ruled tokens p) (func tokens self_x p).
Proof.
  intros Hc Hk Hp Hd. unfold func, datatype. rewrite Hk, Hc. cbn [negb].
  assert (G0 : good tokens p (next p)) by chain.
  destruct (current_token tokens (next p)) as [t1|] eqn:Hc1;
    [|apply returns_some; close_ruled].
  destruct (str_in (type t1) _); cbn [negb];
    [|apply returns_some; close_ruled].
  set (p2 := if String.eqb (value t1) "main" then set_main (next p)
             else next p).
  assert (G2 : good tokens (next p) p2 /\ pos p2 = pos p + 1
               /\ errors p2 = errors p
               /\ current_token tokens p2 = Some t1).
  { subst p2. destruct (String.eqb (value t1) "main") eqn:Hm.
    - (split; [|split; [|split]]); auto. apply good_set_main; [track; lia|].
      eapply main_named with (p := p); eauto.
    - (split; [|split; [|split]]); auto. apply good_refl. track. lia. }
  destruct G2 as (G2 & E2 & E3 & Hc2). clearbody p2.
  assert (G3 : good tokens p2 (next p2)) by chain.
  on_expect (next p2) ok1 p4.
  destruct ok1; cbn [negb]; [|apply returns_some; close_ruled].
  on_expect p4 ok2 p5.
  destruct ok2; cbn [negb]; [|apply returns_some; close_ruled].
  eapply returns_weaken; [apply block_ruled; track; lia|].
  intros [b r] (Hr & Ht & Hf). cbn [fst snd] in *. destruct b; close_ruled.
Qed.

Lemma block_or_x_good p :
  pos p <= length tokens -> length tokens - pos p < d ->
  returns (good tokens p) (block_or_x tokens self_x p).
Proof.
  intros Hb Hd. unfold block_or_x.
  destruct (tok_is SPECIAL "{" (current_token tokens p)).
  - eapply returns_bind; [now apply block_ruled|].
    intros [b q] (Hq & _). now apply returns_some.
  - eapply returns_bind; [now apply Hx|].
    intros [b q] (Hq & _). now apply returns_some.
Qed.

Lemma if_statement_ruled p t :
  current_token tokens p = Some t -> length tokens - pos p < S d ->
  returns (ruled tokens p) (if_statement tokens self_e self_x p).
Proof.
  intros Hc Hd. unfold if_statement.
  assert (G0 : good tokens p (next p)) by chain.
  on_expect (next p) ok p2.
  destruct ok; cbn [negb]; [|apply returns_some; close_ruled].
  eapply returns_bind; [apply He_old; track; lia|]. intros [b p3] G3.
  cbn [snd] in *. on_expect p3 ok1 p4.
  destruct ok1; cbn [negb]; [|apply returns_some; close_ruled].
  eapply returns_bind; [apply block_or_x_good; track; lia|]. intros p5 G5.
  destruct (tok_is KEYWORD "else" (current_token tokens p5)) eqn:Hm.
  - destruct (tok_is_some _ _ _ Hm) as (t5 & Hc5).
    assert (G6 : good tokens p5 (next p5)) by chain.
    eapply returns_bind; [apply block_or_x_good; track; lia|].
    intros p6 G6'. apply returns_some. close_ruled.
  - apply returns_some. close_ruled.
Qed.

Lemma while_statement_ruled p t :
  current_token tokens p = Some t -> length tokens - pos p < S d ->
  returns (ruled tokens p) (while_statement tokens self_e self_x p).
Proof.
  intros Hc Hd. unfold while_statement.
  assert (G0 : good tokens p (next p)) by chain.
  on_expect (next p) ok p2.
  destruct ok; cbn [negb]; [|apply returns_some; close_ruled].
  eapply returns_bind; [apply He_old; track; lia|]. intros [b p3] G3.
  cbn [snd] in *. on_expect p3 ok1 p4.
  destruct ok1; cbn [negb]; [|apply returns_some; close_ruled].
  eapply returns_bind; [apply block_or_x_good; track; lia|]. intros p5 G5.
  apply returns_some. close_ruled.
Qed.

Lemma tok_type_is_some ty o : tok_type_is ty o = true -> exists t, o = Some t.
Proof. destruct o; [eauto | discriminate]. Qed.

Lemma for_statement_ruled p t :
  current_token tokens p = Some t -> length tokens - pos p < S d ->
  returns (ruled tokens p) (for_statement tokens self_e self_x p).
Proof.
  intros Hc Hd. unfold for_statement.
  assert (G0 : good tokens p (next p)) by chain.
  on_expect (next p) ok p2.
  destruct ok; cbn [negb]; [|apply returns_some; close_ruled].
  eapply returns_bind with (P := good tokens p2).
  { destruct (tok_type_is KEYWORD (current_token tokens p2)) eqn:Hm.
    - destruct (tok_type_is_some _ _ Hm) as (t2 & Hc2).
      eapply returns_bind; [eapply assign_ruled; eauto|].
      intros [b q] (Hq & _). now apply returns_some.
    - eapply returns_bind; [apply He_old; track; lia|]. intros [b q] Hq.
      cbn [snd] in *. on_expect q ok1 q1. apply returns_some. chain. }
  intros p3 G3.
  eapply returns_bind; [apply optional_good; track; lia|]. intros p4 G4.
  on_expect p4 ok2 p5. cbn [snd].
  eapply returns_bind; [apply optional_good; track; lia|]. intros p6 G6.
  on_expect p6 ok3 p7.
  destruct ok3; cbn [negb]; [|apply returns_some; close_ruled].
  eapply returns_bind; [apply block_or_x_good; track; lia|]. intros p8 G8.
  apply returns_some. close_ruled.
Qed.

Lemma x_ruled p :
  pos p <= length tokens -> length tokens - pos p < S d ->
  returns (ruled_x tokens p) (x tokens self_e self_x p).
Proof.
  intros Hb Hd. unfold x.
  destruct (current_token tokens p) as [tok|] eqn:Hc;
    [|apply returns_some; close_ruled].
  destruct (String.eqb (type tok) KEYWORD && str_in (value tok) datatypes)
    eqn:Hk.
  { destruct (tok_is SPECIAL "(" (peek_token tokens 2 p)) eqn:Hp.
    - apply ruled_ruled_x. eapply func_ruled; eauto. now rewrite Hc.
    - apply ruled_ruled_x. eapply assign_ruled; eauto. }
  destruct (String.eqb (type tok) KEYWORD && String.eqb (value tok) "if");
    [apply ruled_ruled_x; eapply if_statement_ruled; eauto|].
  destruct (String.eqb (type tok) KEYWORD && String.eqb (value tok) "while");
    [apply ruled_ruled_x; eapply while_statement_ruled; eauto|].
  destruct (String.eqb (type tok) KEYWORD && String.eqb (value tok) "for");
    [apply ruled_ruled_x; eapply for_statement_ruled; eauto|].
  destruct (String.eqb (type tok) KEYWORD && String.eqb (value tok) "return");
    [apply ruled_ruled_x; eapply return_statement_ruled; eauto|].
  destruct (String.eqb (type tok) IDENTIFIER).
  { destruct (tok_is OPERATOR "=" (peek_token tokens 1 p)).
    - apply ruled_ruled_x. eapply assign_ruled; eauto.
    - apply ruled_ruled_x. now apply expression_statement_ruled. }
  apply returns_some. close_ruled.
Qed.

(** ** Top level *)

Lemma global_variable_ruled p t :
  current_token tokens p = Some t ->
  returns (ruled tokens p) (global_variable tokens self_e p).
Proof.
  intros Hc. unfold global_variable.
  assert (G0 : good tokens p (next p)) by chain.
  on_expect (next p) ok p2.
  destruct ok; cbn [negb]; [|apply returns_some; close_ruled].
  eapply returns_bind; [apply init_good; track; lia|]. intros p3 G3.
  eapply returns_bind; [apply names_good; track; lia|].
  intros [go p4] (G4 & Hgo). cbn [fst snd] in *.
  destruct go; cbn [negb]; [|apply returns_some; close_ruled].
  on_expect p4 ok2 p5. destruct ok2; apply returns_some; close_ruled.
Qed.

Lemma global_declaration_ruled p t :
  current_token tokens p = Some t -> length tokens - pos p < S d ->
  returns (ruled tokens p) (global_declaration tokens self_e self_x p).
Proof.
  intros Hc Hd. unfold global_declaration. rewrite Hc.
  destruct (String.eqb (type t) KEYWORD && str_in (value t) datatypes)
    eqn:Hk; cbn [negb]; [|apply returns_some; close_ruled].
  destruct (peek_token tokens 1 p) as [next_token|];
    [|apply returns_some; close_ruled].
  destruct (str_in (type next_token) _); cbn [negb];
    [|apply returns_some; close_ruled].
  destruct (tok_is SPECIAL "(" (peek_token tokens 2 p)) eqn:Hp.
  - eapply func_ruled; eauto. now rewrite Hc.
  - eapply global_variable_ruled; eauto.
Qed.

Lemma program_good p :
  pos p <= length tokens -> length tokens - pos p < S d ->
  returns (fun p' => good tokens p p'
     /\ (length (errors p') = length (errors p) ->
         current_token tokens p' = None))
    (program tokens self_e self_x p).
Proof.
  intros Hb Hd. unfold program.
  apply loop_returns with (tokens := tokens) (I := good tokens p); auto.
  - intros q Hq Hqb.
    destruct (current_token tokens q) as [t|] eqn:Hc; cbn [is_some].
    + destruct (global_declaration_ruled q t) as ([ok q1] & -> & Hg & Ht & Hf);
        auto; [track; lia|]. cbn [bind fst snd] in *.
      destruct ok; cbn [negb].
      * split; [chain | track; lia].
      * split; [chain | track; lia].
    + split; [chain | auto].
  - chain.
  - unfold budget. lia.
Qed.

End Statements.

(** Every statement is parsed within a depth of one more than the number
    of tokens left. *)
Lemma x_at_ruled d : forall p,
  pos p <= length tokens -> length tokens - pos p < d ->
  returns (ruled_x tokens p) (x_at tokens d p).
Proof.
  induction d as [|d IH]; intros p Hb Hd; [lia|].
  simpl. apply x_ruled with (d := d); auto.
  apply expression_good.
Qed.

(** [program] returns; when it has recorded nothing, it has read the
    whole stream. *)
Lemma program_pass_good :
  returns (fun p => good tokens init p
     /\ (errors p = [] -> pos p = length tokens))
    (CppParser.structural_pass tokens).
Proof.
  unfold CppParser.structural_pass. eapply returns_weaken.
  - apply program_good with (d := budget tokens).
    + apply expression_good.
    + apply x_at_ruled.
    + simpl. lia.
    + unfold budget. simpl. lia.
  - intros a (Ha & Hn). split; auto. intros E.
    rewrite E in Hn. specialize (Hn eq_refl).
    unfold current_token in Hn. apply nth_error_None in Hn.
    apply good_in_bounds in Ha. lia.
Qed.

End OldFacts.

(** * Where the two files agree *)

Section Agreement.

Variable tokens : list Token.

Import CppParser.

#[local] Arguments expect : simpl never.
#[local] Arguments add_error : simpl never.
#[local] Arguments next : simpl never.
#[local] Arguments current_token : simpl never.
#[local] Arguments peek_token : simpl never.
#[local] Arguments tok_is : simpl never.
#[local] Arguments tok_in : simpl never.
#[local] Arguments tok_type_is : simpl never.
#[local] Arguments append_error : simpl never.
#[local] Arguments set_main : simpl never.
#[local] Arguments NewParse.consume : simpl never.
#[local] Arguments NewParse.match_ : simpl never.

(** ** The primitives of one file in terms of the other *)

Lemma match_tok_is ty v p :
  ty <> "" -> v <> "" ->
  NewParse.match_ tokens (Some ty) (Some v) p
  = tok_is ty v (current_token tokens p).
Proof.
  intros Hty Hv. unfold NewParse.match_, tok_is, differs.
  change (NewParse.current tokens p) with (current_token tokens p).
  destruct (current_token tokens p) as [t|]; [|reflexivity].
  apply String.eqb_neq in Hty, Hv. rewrite Hty, Hv. simpl.
  destruct (String.eqb (type t) ty); simpl; [|reflexivity].
  destruct (String.eqb (value t) v); reflexivity.
Qed.

Lemma match_tok_type_is ty p :
  ty <> "" ->
  NewParse.match_ tokens (Some ty) None p
  = tok_type_is ty (current_token tokens p).
Proof.
  intros Hty. unfold NewParse.match_, tok_type_is, differs.
  change (NewParse.current tokens p) with (current_token tokens p).
  destruct (current_token tokens p) as [t|]; [|reflexivity].
  apply String.eqb_neq in Hty. rewrite Hty. simpl.
  destruct (String.eqb (type t) ty); reflexivity.
Qed.

Lemma match_tok_in ty l p :
  ty <> "" ->
  NewParse.match_ tokens (Some ty) None p
  && NewParse.current_value_in tokens l p
  = tok_in ty l (current_token tokens p).
Proof.
  intros Hty. rewrite match_tok_type_is by assumption.
  unfold NewParse.current_value_in, tok_type_is, tok_in.
  change (NewParse.current tokens p) with (current_token tokens p).
  now destruct (current_token tokens p).
Qed.

Lemma match_any p :
  NewParse.match_ tokens None None p = is_some (current_token tokens p).
Proof.
  unfold NewParse.match_.
  change (NewParse.current tokens p) with (current_token tokens p).
  now destruct (current_token tokens p).
Qed.

Lemma expect_match a b c p :
  fst (expect tokens a b c p) = NewParse.match_ tokens a b p.
Proof.
  unfold expect, NewParse.match_.
  change (NewParse.current tokens p) with (current_token tokens p).
  destruct (current_token tokens p) as [t|]; [|reflexivity].
  destruct (differs a (type t)); [reflexivity|].
  destruct (differs b (value t)); reflexivity.
Qed.

Lemma expect_cases a b c p :
  expect tokens a b c p = (true, next p)
  /\ NewParse.match_ tokens a b p = true
  \/ fst (expect tokens a b c p) = false
     /\ NewParse.match_ tokens a b p = false
     /\ length (errors (snd (expect tokens a b c p))) = S (length (errors p)).
Proof.
  pose proof (expect_match a b c p) as M. unfold expect in *.
  destruct (current_token tokens p) as [t|].
  - destruct (differs a (type t));
      [|destruct (differs b (value t))]; cbn [fst snd] in *;
      auto using errors_add_error.
  - cbn [fst snd] in *. auto using errors_add_error.
Qed.

Lemma consume_cases a b c p :
  NewParse.consume tokens a b c p = (true, next p)
  /\ NewParse.match_ tokens a b p = true
  \/ NewParse.match_ tokens a b p = false
     /\ length (errors (snd (NewParse.consume tokens a b c p)))
        = S (length (errors p)).
Proof.
  unfold NewParse.consume. destruct (NewParse.match_ tokens a b p).
  - left. auto.
  - right. split; auto. cbn [snd]. unfold append_error. cbn [errors].
    rewrite length_app. simpl. lia.
Qed.

(** A quiet [consume] is a step forward. *)
Lemma consume_quiet a b c p :
  length (errors (snd (NewParse.consume tokens a b c p))) = 0 ->
  snd (NewParse.consume tokens a b c p) = next p
  /\ NewParse.match_ tokens a b p = true.
Proof.
  intros H. destruct (consume_cases a b c p) as [(E & M) | (M & E)].
  - rewrite E. auto.
  - rewrite E in H. discriminate.
Qed.


Lemma good_expect a b c q :
  pos q <= length tokens -> good tokens q (snd (expect tokens a b c q)).
Proof.
  intros H. now apply expect_spec.
Qed.

(** A quiet [expect] is a step forward. *)
Lemma expect_quiet a b c p :
  length (errors (snd (expect tokens a b c p))) = 0 ->
  expect tokens a b c p = (true, next p)
  /\ NewParse.match_ tokens a b p = true.
Proof.
  intros H. destruct (expect_cases a b c p) as [(E & M) | (_ & M & E)].
  - auto.
  - rewrite E in H. discriminate.
Qed.

Lemma good_consume_at a b c q :
  pos q <= length tokens ->
  good tokens q (snd (NewParse.consume tokens a b c q)).
Proof.
  apply good_consume_self.
Qed.

(** ** Steps of the proofs *)

(** Every use of src/new_parse.py's primitives, written with those of
    src/cpp_parser.py. *)
Ltac unify_primitives :=
  change NewParse.advance with next in *;
  change (NewParse.current tokens) with (current_token tokens) in *;
  change (NewParse.peek_is tokens) with
    (fun k ty v p => tok_is ty v (peek_token tokens k p)) in *;
  cbv beta in *;
  rewrite ?match_tok_in, ?match_tok_is, ?match_tok_type_is, ?match_any in *
    by discriminate.

(** The same in the goal, once a loop body is applied to a state. *)
Ltac bridge :=
  rewrite ?match_tok_in, ?match_tok_is, ?match_tok_type_is, ?match_any
    by discriminate.

Ltac mono :=
  cbv beta in *;
  repeat match goal with
  | H : good _ ?a ?b |- _ =>
      lazymatch goal with
      | _ : pos a <= pos b |- _ => fail
      | _ => pose proof (good_le _ _ _ H);
             pose proof (good_in_bounds _ _ _ H);
             pose proof (good_errors_le _ _ _ H)
      end
  | H : current_token _ ?q = Some _ |- _ =>
      lazymatch goal with
      | _ : pos q < length _ |- _ => fail
      | _ => pose proof (current_token_in_bounds _ _ _ H)
      end
  end;
  rewrite ?pos_add_error, ?errors_add_error in *;
  unfold next, set_pos, set_main, append_error in *;
  cbn [pos errors has_main fst snd] in *;
  rewrite ?length_app in *; cbn [length] in *.

(** The facts about the result of every [expect] and [consume] in
    sight. *)
Ltac steps :=
  repeat match goal with
  | H : context [snd (NewParse.consume tokens ?a ?b ?c ?q)] |- _ =>
      lazymatch goal with
      | _ : good tokens q (snd (NewParse.consume tokens a b c q)) |- _ => fail
      | _ => assert (good tokens q (snd (NewParse.consume tokens a b c q)))
               by (apply good_consume_at; mono; lia)
      end
  | H : context [snd (expect tokens ?a ?b ?c ?q)] |- _ =>
      lazymatch goal with
      | _ : good tokens q (snd (expect tokens a b c q)) |- _ => fail
      | _ => assert (good tokens q (snd (expect tokens a b c q)))
               by (apply good_expect; mono; lia)
      end
  end.

(** Every [expect] and [consume] whose result is known to be quiet is a
    step forward. *)
Ltac quiet :=
  repeat match goal with
  | H : context [snd (NewParse.consume tokens ?a ?b ?c ?q)] |- _ =>
      let K := fresh "K" in
      assert (K : length (errors (snd (NewParse.consume tokens a b c q))) = 0)
        by (mono; lia);
      let E := fresh "E" in
      let M := fresh "M" in
      destruct (consume_quiet a b c q K) as (E & M); clear K;
      rewrite E in *; clear E
  | H : context [expect tokens ?a ?b ?c ?q] |- _ =>
      let K := fresh "K" in
      assert (K : length (errors (snd (expect tokens a b c q))) = 0)
        by (mono; lia);
      let E := fresh "E" in
      let M := fresh "M" in
      destruct (expect_quiet a b c q K) as (E & M); clear K;
      rewrite E in *; clear E; cbn [fst snd negb] in *
  end.


(** The call of [expect] in [Eo] whose answer the rule looks at: it
    succeeded, for the other answer ends the rule with a diagnostic. *)
Ltac old_expect Eo Co :=
  match type of Eo with
  | context [expect tokens ?a ?b ?c ?q] =>
      let X := fresh "X" in
      let M := fresh "M" in
      let L := fresh "L" in
      destruct (expect_cases a b c q) as [(X & M) | (X & M & L)];
      [ rewrite X in Eo; clear X; cbv beta iota zeta in Eo; cbn [negb] in Eo
      | exfalso; destruct (expect tokens a b c q) as [? ?];
        cbn [fst snd] in *; subst; cbv beta iota zeta in Eo;
        cbn [negb] in Eo; injection Eo as ? ?; subst; lia ]
  end.

(** Two results, one of each file, are the same state once both are
    known to be quiet. *)
Ltac same_by S :=
  let K := fresh "K" in
  pose proof S as K;
  match type of K with
  | length (errors ?a) = 0 -> length (errors ?b) = 0 -> _ =>
      let K1 := fresh "K" in
      let K2 := fresh "K" in
      assert (K1 : length (errors a) = 0) by (mono; lia);
      assert (K2 : length (errors b) = 0) by (mono; lia);
      specialize (K K1 K2); clear K1 K2;
      first [subst b | subst a | rewrite <- K in * | idtac]
  end.

(** ** Loops *)

Lemma loop_mono {R : Type} (out : R -> Parser)
    (body : Parser -> option (round R)) (D : Parser -> Prop) :
  (forall q q', D q -> pos q <= pos q' -> D q') ->
  (forall q, pos q <= length tokens -> D q ->
     match body q with
     | Some (Again q') => good tokens q q'
     | Some (Leave r) => good tokens q (out r)
     | None => True
     end) ->
  forall n p r, pos p <= length tokens -> D p ->
    loop n body p = Some r -> good tokens p (out r).
Proof.
  intros HD Hbody. induction n as [|n IH]; intros p r Hb Hp E;
    [discriminate|].
  simpl in E. specialize (Hbody p Hb Hp).
  destruct (body p) as [[q'|r']|]; [| |discriminate].
  - eapply good_trans; [exact Hbody|]. eapply IH; eauto.
    + eapply good_in_bounds; eauto.
    + apply (HD p q' Hp). eapply good_le; eauto.
  - now injection E as <-.
Qed.

(** Two loops, one of each file, whose rounds agree. *)
Lemma loop_same {R : Type} (out : R -> Parser)
    (bo : Parser -> option (round R)) (bn : Parser -> option (round Parser))
    (D : Parser -> Prop) :
  (forall q q', D q -> pos q <= pos q' -> D q') ->
  (forall q, pos q <= length tokens -> D q ->
     match bo q with
     | Some (Again q') => good tokens q q'
     | Some (Leave r) => good tokens q (out r)
     | None => True
     end) ->
  (forall q, pos q <= length tokens -> D q ->
     match bn q with
     | Some (Again q') => good tokens q q'
     | Some (Leave r) => good tokens q r
     | None => True
     end) ->
  (forall q, pos q <= length tokens -> D q -> length (errors q) = 0 ->
     match bo q, bn q with
     | Some (Again qo), Some (Again qn) =>
         length (errors qo) = 0 -> length (errors qn) = 0 -> qo = qn
     | Some (Leave ro), Some (Leave rn) =>
         length (errors (out ro)) = 0 -> length (errors rn) = 0 -> out ro = rn
     | Some (Again qo), Some (Leave rn) =>
         length (errors qo) = 0 -> length (errors rn) = 0 -> False
     | Some (Leave ro), Some (Again qn) =>
         length (errors (out ro)) = 0 -> length (errors qn) = 0 -> False
     | _, _ => True
     end) ->
  forall n p ro rn, pos p <= length tokens -> D p ->
    loop n bo p = Some ro -> loop n bn p = Some rn ->
    length (errors (out ro)) = 0 -> length (errors rn) = 0 -> out ro = rn.
Proof.
  intros HD Ho Hn Hstep. induction n as [|n IH];
    intros p ro rn Hb Hp Eo En Co Cn; [discriminate|].
  pose proof (loop_mono out bo D HD Ho (S n) p ro Hb Hp Eo) as Go.
  pose proof (loop_mono (fun r => r) bn D HD Hn (S n) p rn Hb Hp En) as Gn.
  assert (Cp : length (errors p) = 0)
    by (apply good_errors_le in Go; lia).
  simpl in Eo, En. specialize (Hstep p Hb Hp Cp).
  pose proof (Ho p Hb Hp) as Ho1. pose proof (Hn p Hb Hp) as Hn1.
  destruct (bo p) as [[qo|ro']|]; [| |discriminate];
    (destruct (bn p) as [[qn|rn']|]; [| |discriminate]).
  - assert (Do : D qo) by (apply (HD p qo Hp); eapply good_le; eauto).
    assert (Dn : D qn) by (apply (HD p qn Hp); eapply good_le; eauto).
    pose proof (good_in_bounds _ _ _ Ho1) as Bo.
    pose proof (good_in_bounds _ _ _ Hn1) as Bn.
    pose proof (loop_mono out bo D HD
                  Ho n qo ro Bo Do Eo) as Go'.
    pose proof (loop_mono (fun r => r) bn D HD
                  Hn n qn rn Bn Dn En) as Gn'.
    apply good_errors_le in Go', Gn'.
    assert (qo = qn) by (apply Hstep; lia). subst qn.
    eapply IH; eauto.
  - injection En as <-. exfalso.
    assert (Do : D qo) by (apply (HD p qo Hp); eapply good_le; eauto).
    pose proof (good_in_bounds _ _ _ Ho1) as Bo.
    pose proof (loop_mono out bo D HD
                  Ho n qo ro Bo Do Eo) as Go'.
    apply good_errors_le in Go'. apply Hstep; lia.
  - injection Eo as <-. exfalso.
    assert (Dn : D qn) by (apply (HD p qn Hp); eapply good_le; eauto).
    pose proof (good_in_bounds _ _ _ Hn1) as Bn.
    pose proof (loop_mono (fun r => r) bn D HD
                  Hn n qn rn Bn Dn En) as Gn'.
    apply good_errors_le in Gn'. apply Hstep; lia.
  - injection Eo as <-. injection En as <-. now apply Hstep.
Qed.

(** ** Expressions *)

Section Expressions.

Variable d : nat.
Variable eo : Parser -> option (bool * Parser).
Variable en : Parser -> option Parser.
Hypothesis Ho : forall q, pos q <= length tokens ->
  length tokens - pos q < d ->
  returns (fun r => good tokens q (snd r)) (eo q).
Hypothesis Hn : forall q, pos q <= length tokens ->
  length tokens - pos q < d -> returns (good tokens q) (en q).
Hypothesis Hs : forall q, pos q <= length tokens ->
  length tokens - pos q < d -> same (eo q) (en q).

Lemma primary_same p :
  pos p <= length tokens -> length tokens - pos p < S d ->
  same (primary_expr tokens eo p) (NewParse.parse_primary tokens en p).
Proof.
  intros Hb Hd b po pn Eo En Co Cn.
  unfold primary_expr in Eo. unfold NewParse.parse_primary in En.
  unify_primitives.
  destruct (current_token tokens p) as [tok|] eqn:Hc.
  2:{ exfalso. injection Eo as _ <-. mono. lia. }
  assert (G0 : good tokens p (next p)) by (eapply good_next; eauto).
  unfold str_in in En. cbn [existsb] in En.
  destruct (String.eqb (type tok) IDENTIFIER); cbn [orb] in En;
    [congruence|].
  destruct (String.eqb (type tok) NUMBER); cbn [orb] in En; [congruence|].
  destruct (String.eqb (type tok) STRING); cbn [orb] in En; [congruence|].
  unfold tok_is in En.
  destruct (String.eqb (type tok) SPECIAL && String.eqb (value tok) "(").
  2:{ exfalso. injection Eo as _ <-. mono. lia. }
  destruct (Ho (next p)) as ([b1 q1] & E1 & G1); [mono; lia ..|].
  destruct (Hn (next p)) as (q1' & E1' & G1'); [mono; lia ..|].
  rewrite E1 in Eo. rewrite E1' in En. cbn [bind snd] in *.
  old_expect Eo Co. injection Eo as _ <-. injection En as <-.
  steps. quiet.
  same_by (Hs (next p) ltac:(mono; lia) ltac:(mono; lia) _ _ _ E1 E1').
  reflexivity.
Qed.


Lemma deeper (k : nat) (q q' : Parser) :
  length tokens - pos q < k -> pos q <= pos q' -> length tokens - pos q' < k.
Proof.
  lia.
Qed.

(** One level of the ladder of binary operators. *)
Lemma ladder_same (k : nat) (fo : Parser -> option (bool * Parser))
    (fn : Parser -> option Parser)
    (cond_o : option Token -> bool) (cond_n : Parser -> bool) :
  (forall o, cond_o o = true -> exists t, o = Some t) ->
  (forall q, cond_n q = cond_o (current_token tokens q)) ->
  (forall q, pos q <= length tokens -> length tokens - pos q < k ->
     returns (fun r => good tokens q (snd r)) (fo q)) ->
  (forall q, pos q <= length tokens -> length tokens - pos q < k ->
     returns (good tokens q) (fn q)) ->
  (forall q, pos q <= length tokens -> length tokens - pos q < k ->
     same (fo q) (fn q)) ->
  forall p, pos p <= length tokens -> length tokens - pos p < k ->
    same
      ('(_, p1) <- fo p ;;
       loop (budget tokens)
         (fun q =>
            if cond_o (current_token tokens q) then
              '(_, q1) <- fo (next q) ;; Some (Again q1)
            else Some (Leave (true, q))) p1)
      (p1 <- fn p ;;
       while_ (NewParse.budget tokens) cond_n
         (fun q => fn (NewParse.advance q)) p1).
Proof.
  intros Hcond Hbridge Hfo Hfn Hfs p Hb Hd b po pn Eo En Co Cn.
  destruct (Hfo p Hb Hd) as ([b1 p1] & E1 & G1).
  destruct (Hfn p Hb Hd) as (p1' & E1' & G1').
  rewrite E1 in Eo. rewrite E1' in En. cbn [bind snd] in *.
  unfold while_ in En. unify_primitives.
  set (bo := fun q => if cond_o (current_token tokens q)
                      then '(_, q1) <- fo (next q) ;; Some (Again q1)
                      else Some (Leave (true, q))) in *.
  set (bn := fun q => if cond_n q then q' <- fn (next q) ;; Some (Again q')
                      else Some (Leave q)) in *.
  assert (Mo : forall q, pos q <= length tokens ->
    length tokens - pos q < k ->
    match bo q with
    | Some (Again q') => good tokens q q'
    | Some (Leave r) => good tokens q (snd r)
    | None => True
    end).
  { intros q Hq Dq. subst bo. cbv beta.
    destruct (cond_o (current_token tokens q)) eqn:Hm;
      [|now apply good_refl].
    destruct (Hcond _ Hm) as (t & Hc).
    assert (G0 : good tokens q (next q)) by (eapply good_next; eauto).
    destruct (Hfo (next q)) as ([b2 q2] & -> & G2); [mono; lia ..|].
    cbn [bind snd] in *. eapply good_trans; eauto. }
  assert (Mn : forall q, pos q <= length tokens ->
    length tokens - pos q < k ->
    match bn q with
    | Some (Again q') => good tokens q q'
    | Some (Leave r) => good tokens q r
    | None => True
    end).
  { intros q Hq Dq. subst bn. cbv beta. rewrite Hbridge.
    destruct (cond_o (current_token tokens q)) eqn:Hm;
      [|now apply good_refl].
    destruct (Hcond _ Hm) as (t & Hc).
    assert (G0 : good tokens q (next q)) by (eapply good_next; eauto).
    destruct (Hfn (next q)) as (q2 & -> & G2); [mono; lia ..|].
    cbn [bind]. eapply good_trans; eauto. }
  pose proof (loop_mono snd bo (fun q => length tokens - pos q < k)
                (deeper (k)) Mo _ _ _
                (good_in_bounds _ _ _ G1)
                ltac:(apply good_le in G1; cbn [snd] in G1; cbv beta; lia) Eo) as Lo.
  pose proof (loop_mono (fun r => r) bn
                (fun q => length tokens - pos q < k)
                (deeper (k)) Mn _ _ _
                (good_in_bounds _ _ _ G1')
                ltac:(apply good_le in G1'; cbv beta; lia) En) as Ln.
  cbn [snd] in *.
  same_by (Hfs p Hb Hd _ _ _ E1 E1').
  refine (loop_same snd bo bn (fun q => length tokens - pos q < k)
            (deeper (k)) Mo Mn _ _ _ _ _
            (good_in_bounds _ _ _ G1) _ Eo En Co Cn).
  - intros q Hq Dq Cq. subst bo bn. cbv beta. rewrite Hbridge.
    destruct (cond_o (current_token tokens q)) eqn:Hm; [|reflexivity].
    destruct (Hcond _ Hm) as (t & Hc).
    assert (G0 : good tokens q (next q)) by (eapply good_next; eauto).
    destruct (Hfo (next q)) as ([b2 q2] & E2 & G2); [mono; lia ..|].
    destruct (Hfn (next q)) as (q2' & E2' & G2'); [mono; lia ..|].
    rewrite E2, E2'. cbn [bind].
    eapply (Hfs (next q)); eauto; mono; lia.
  - apply good_le in G1. cbn [snd] in G1. cbv beta. lia.
Qed.


Lemma argument_list_same p :
  pos p <= length tokens -> length tokens - pos p < d ->
  same (argument_list tokens eo p) (NewParse.parse_argument_list tokens en p).
Proof.
  intros Hb Hd. unfold argument_list, NewParse.parse_argument_list.
  rewrite match_tok_is by discriminate.
  destruct (tok_is SPECIAL ")" (current_token tokens p)).
  - intros b po pn Eo En _ _. congruence.
  - apply ladder_same with (k := d) (cond_o := tok_is SPECIAL ",")
      (cond_n := NewParse.match_ tokens (Some SPECIAL) (Some ",")); auto.
    + apply tok_is_some.
    + intros q. now rewrite match_tok_is by discriminate.
Qed.

Lemma postfix_same p :
  pos p <= length tokens -> length tokens - pos p < S d ->
  same (postfix_expr tokens eo p) (NewParse.parse_postfix tokens en p).
Proof.
  intros Hb Hd b po pn Eo En Co Cn.
  unfold postfix_expr in Eo. unfold NewParse.parse_postfix in En.
  destruct (primary_expr_good tokens d eo Ho p Hb Hd)
    as ([b1 p1] & E1 & G1 & _).
  destruct (parse_primary_moved tokens d en Hn p Hb Hd)
    as (p1' & E1' & G1' & _).
  rewrite E1 in Eo. rewrite E1' in En. cbn [bind snd] in *.
  unify_primitives.
  match type of Eo with loop _ ?f _ = _ => set (bo := f) in * end.
  match type of En with loop _ ?f _ = _ => set (bn := f) in * end.
  assert (Mo : forall q, pos q <= length tokens ->
    length tokens - pos q < S d ->
    match bo q with
    | Some (Again q') => good tokens q q'
    | Some (Leave r) => good tokens q (snd r)
    | None => True
    end).
  { intros q Hq Dq. subst bo. cbv beta.
    destruct (current_token tokens q) as [t|] eqn:Hc; [|now apply good_refl].
    assert (G0 : good tokens q (next q)) by (eapply good_next; eauto).
    destruct (String.eqb (type t) SPECIAL && String.eqb (value t) "[").
    { destruct (Ho (next q)) as ([b2 q2] & -> & G2); [mono; lia ..|].
      cbn [bind snd] in *.
      eapply good_trans; [exact G0|]. eapply good_trans; [exact G2|].
      apply good_expect. eapply good_in_bounds; eauto. }
    destruct (String.eqb (type t) SPECIAL && String.eqb (value t) "(").
    { destruct (argument_list_good tokens d eo Ho (next q))
        as ([b2 q2] & -> & G2); [mono; lia ..|].
      cbn [bind snd] in *.
      eapply good_trans; [exact G0|]. eapply good_trans; [exact G2|].
      apply good_expect. eapply good_in_bounds; eauto. }
    destruct (String.eqb (type t) OPERATOR && _); [exact G0|].
    now apply good_refl. }
  assert (Mn : forall q, pos q <= length tokens ->
    length tokens - pos q < S d ->
    match bn q with
    | Some (Again q') => good tokens q q'
    | Some (Leave r) => good tokens q r
    | None => True
    end).
  { intros q Hq Dq. subst bn. cbv beta. bridge.
    destruct (current_token tokens q) as [t|] eqn:Hc; cbn [is_some];
      [|now apply good_refl].
    assert (G0 : good tokens q (next q)) by (eapply good_next; eauto).
    destruct (tok_is SPECIAL "[" (Some t)).
    { destruct (Hn (next q)) as (q2 & -> & G2); [mono; lia ..|].
      cbn [bind].
      eapply good_trans; [exact G0|]. eapply good_trans; [exact G2|].
      apply good_consume_at. eapply good_in_bounds; eauto. }
    destruct (tok_is SPECIAL "(" (Some t)).
    { destruct (parse_argument_list_good tokens d en Hn (next q))
        as (q2 & -> & G2); [mono; lia ..|].
      cbn [bind].
      eapply good_trans; [exact G0|]. eapply good_trans; [exact G2|].
      apply good_consume_at. eapply good_in_bounds; eauto. }
    destruct (tok_in OPERATOR _ (Some t)); [exact G0|].
    now apply good_refl. }
  pose proof (loop_mono snd bo (fun q => length tokens - pos q < S d)
                (deeper (S d)) Mo _ _ _
                (good_in_bounds _ _ _ G1)
                ltac:(apply good_le in G1; cbv beta; lia) Eo) as Lo.
  pose proof (loop_mono (fun r => r) bn
                (fun q => length tokens - pos q < S d)
                (deeper (S d)) Mn _ _ _
                (good_in_bounds _ _ _ G1')
                ltac:(apply good_le in G1'; cbv beta; lia) En) as Ln.
  cbn [snd] in *.
  same_by (primary_same p Hb Hd _ _ _ E1 E1').
  refine (loop_same snd bo bn (fun q => length tokens - pos q < S d)
            (deeper (S d)) Mo Mn _ _ _ _ _
            (good_in_bounds _ _ _ G1) _ Eo En Co Cn).
  - intros q Hq Dq Cq. subst bo bn. cbv beta. bridge.
    destruct (current_token tokens q) as [t|] eqn:Hc; cbn [is_some];
      [|reflexivity].
    assert (G0 : good tokens q (next q)) by (eapply good_next; eauto).
    unfold tok_is, tok_in.
    destruct (String.eqb (type t) SPECIAL && String.eqb (value t) "[").
    { destruct (Ho (next q)) as ([b2 q2] & E2 & G2); [mono; lia ..|].
      destruct (Hn (next q)) as (q2' & E2' & G2'); [mono; lia ..|].
      rewrite E2, E2'. cbn [bind snd] in *. intros Ko Kn.
      steps. quiet.
      same_by (Hs (next q) ltac:(mono; lia) ltac:(mono; lia) _ _ _ E2 E2').
      reflexivity. }
    destruct (String.eqb (type t) SPECIAL && String.eqb (value t) "(").
    { destruct (argument_list_good tokens d eo Ho (next q))
        as ([b2 q2] & E2 & G2); [mono; lia ..|].
      destruct (parse_argument_list_good tokens d en Hn (next q))
        as (q2' & E2' & G2'); [mono; lia ..|].
      rewrite E2, E2'. cbn [bind snd] in *. intros Ko Kn.
      steps. quiet.
      same_by (argument_list_same (next q) ltac:(mono; lia) ltac:(mono; lia)
                 _ _ _ E2 E2').
      reflexivity. }
    destruct (String.eqb (type t) OPERATOR && _); reflexivity.
  - apply good_le in G1. cbv beta. lia.
Qed.


Lemma unary_same n : forall p,
  pos p <= length tokens -> length tokens - pos p < S d ->
  same (unary_expr tokens eo n p) (NewParse.parse_unary tokens en n p).
Proof.
  induction n as [|n IH]; intros p Hb Hd; [intros b po pn Eo; discriminate|].
  cbn [unary_expr NewParse.parse_unary]. bridge.
  destruct (tok_in OPERATOR _ (current_token tokens p)) eqn:Hm.
  - destruct (tok_in_some _ _ _ Hm) as (t & Hc).
    apply current_token_in_bounds in Hc.
    apply IH; unfold NewParse.advance, set_pos; cbn [pos]; lia.
  - now apply postfix_same.
Qed.

Lemma multiplicative_same p :
  pos p <= length tokens -> length tokens - pos p < S d ->
  same (multiplicative_expr tokens eo p)
    (NewParse.parse_multiplicative tokens en p).
Proof.
  apply ladder_same with (cond_o := tok_in OPERATOR ["*"; "/"; "%"])
    (fn := NewParse.parse_unary tokens en (NewParse.budget tokens)).
  - apply tok_in_some.
  - intros q. now rewrite match_tok_in by discriminate.
  - intros q Hb Hd. apply parsed_good, (unary_expr_good tokens d eo Ho); auto.
    unfold budget. lia.
  - intros q Hb Hd. apply moved_good, (parse_unary_moved tokens d en Hn); auto.
    unfold NewParse.budget. lia.
  - intros q Hb Hd. now apply unary_same.
Qed.

Lemma additive_same p :
  pos p <= length tokens -> length tokens - pos p < S d ->
  same (additive_expr tokens eo p) (NewParse.parse_additive tokens en p).
Proof.
  apply ladder_same with (cond_o := tok_in OPERATOR ["+"; "-"])
    (fn := NewParse.parse_multiplicative tokens en).
  - apply tok_in_some.
  - intros q. now rewrite match_tok_in by discriminate.
  - intros q Hb Hd. apply parsed_good, (multiplicative_expr_good tokens d eo Ho); auto.
  - intros q Hb Hd. apply moved_good, (parse_multiplicative_moved tokens d en Hn); auto.
  - apply multiplicative_same.
Qed.

Lemma relational_same p :
  pos p <= length tokens -> length tokens - pos p < S d ->
  same (relational_expr tokens eo p) (NewParse.parse_relational tokens en p).
Proof.
  apply ladder_same with (cond_o := tok_in OPERATOR ["<"; ">"; "<="; ">="])
    (fn := NewParse.parse_additive tokens en).
  - apply tok_in_some.
  - intros q. now rewrite match_tok_in by discriminate.
  - intros q Hb Hd. apply parsed_good, (additive_expr_good tokens d eo Ho); auto.
  - intros q Hb Hd. apply moved_good, (parse_additive_moved tokens d en Hn); auto.
  - apply additive_same.
Qed.

Lemma equality_same p :
  pos p <= length tokens -> length tokens - pos p < S d ->
  same (equality_expr tokens eo p) (NewParse.parse_equality tokens en p).
Proof.
  apply ladder_same with (cond_o := tok_in OPERATOR ["=="; "!="])
    (fn := NewParse.parse_relational tokens en).
  - apply tok_in_some.
  - intros q. now rewrite match_tok_in by discriminate.
  - intros q Hb Hd. apply parsed_good, (relational_expr_good tokens d eo Ho); auto.
  - intros q Hb Hd. apply moved_good, (parse_relational_moved tokens d en Hn); auto.
  - apply relational_same.
Qed.

Lemma logical_and_same p :
  pos p <= length tokens -> length tokens - pos p < S d ->
  same (logical_and_expr tokens eo p)
    (NewParse.parse_logical_and tokens en p).
Proof.
  apply ladder_same with (cond_o := tok_is OPERATOR "&&")
    (fn := NewParse.parse_equality tokens en).
  - apply tok_is_some.
  - intros q. now rewrite match_tok_is by discriminate.
  - intros q Hb Hd. apply parsed_good, (equality_expr_good tokens d eo Ho); auto.
  - intros q Hb Hd. apply moved_good, (parse_equality_moved tokens d en Hn); auto.
  - apply equality_same.
Qed.

Lemma logical_or_same p :
  pos p <= length tokens -> length tokens - pos p < S d ->
  same (logical_or_expr tokens eo p) (NewParse.parse_logical_or tokens en p).
Proof.
  apply ladder_same with (cond_o := tok_is OPERATOR "||")
    (fn := NewParse.parse_logical_and tokens en).
  - apply tok_is_some.
  - intros q. now rewrite match_tok_is by discriminate.
  - intros q Hb Hd. apply parsed_good, (logical_and_expr_good tokens d eo Ho); auto.
  - intros q Hb Hd. apply moved_good, (parse_logical_and_moved tokens d en Hn); auto.
  - apply logical_and_same.
Qed.

End Expressions.

(** The two expression rules agree. *)
Lemma expression_at_same d : forall p,
  pos p <= length tokens -> length tokens - pos p < d ->
  same (expression_at tokens d p) (NewParse.parse_expression_at tokens d p).
Proof.
  induction d as [|d IH]; intros p Hb Hd; [lia|].
  cbn [expression_at NewParse.parse_expression_at].
  unfold expression, NewParse.parse_expression.
  apply logical_or_same with (d := d); auto.
  - intros q Hq Hdq. now apply parsed_good, expression_at_good.
  - intros q Hq Hdq. now apply moved_good, parse_expression_at_moved.
Qed.


Lemma returns_inv {A : Type} (P : A -> Prop) (a : A) :
  returns P (Some a) -> P a.
Proof.
  intros (a' & E & H). now injection E as ->.
Qed.

(** The first part of the rule in [E] returns a state for which [Q]
    holds. *)
Ltac first_part E Q tac p2 E2 G2 :=
  match type of E with
  | bind ?m _ = _ =>
      let R := fresh "R" in
      assert (R : returns Q m) by tac;
      destruct m as [p2|] eqn:E2;
      [ apply returns_inv in R; rename R into G2
      | destruct R as (? & ? & _); discriminate ];
      cbn [bind] in E
  end.

(** The rule in [E] is a call that returns a state for which [Q] holds. *)
Ltac last_part E Q tac G :=
  match type of E with
  | ?m = Some _ =>
      assert (G : returns Q m) by tac;
      rewrite E in G; apply returns_inv in G
  end.

(** ** Statements *)

Section Statements.

Variable d : nat.
Variable eo : Parser -> option (bool * Parser).
Variable en : Parser -> option Parser.
Variable xo : Parser -> option (bool * Parser).
Variable sn : Parser -> option Parser.
Hypothesis Hpo : forall q, pos q <= length tokens ->
  returns (parsed tokens q) (eo q).
Hypothesis Hpn : forall q, pos q <= length tokens ->
  returns (moved tokens q) (en q).
Hypothesis Hes : forall q, pos q <= length tokens -> same (eo q) (en q).
Hypothesis Hxo : forall q, pos q <= length tokens ->
  length tokens - pos q < d -> returns (ruled_x tokens q) (xo q).
Hypothesis Hsn : forall q, pos q <= length tokens ->
  length tokens - pos q < d ->
  returns (fun q' => good tokens q q'
     /\ (is_some (NewParse.current tokens q) = true -> pos q < pos q'))
    (sn q).
Hypothesis Hxs : forall q, pos q <= length tokens ->
  length tokens - pos q < d -> same (xo q) (sn q).

Lemma eo_good q :
  pos q <= length tokens -> returns (fun r => good tokens q (snd r)) (eo q).
Proof.
  intros Hb. now apply parsed_good, Hpo.
Qed.

Lemma en_good q : pos q <= length tokens -> returns (good tokens q) (en q).
Proof.
  intros Hb. now apply moved_good, Hpn.
Qed.

(** An optional expression before a closing token [c]: when both files
    arrive quietly at that token, they are in the same state. *)
Lemma optional_same (c : string) q p2 p2' :
  c <> "" -> pos q <= length tokens ->
  (if is_some (current_token tokens q)
      && negb (tok_is SPECIAL c (current_token tokens q))
   then '(_, r) <- eo q ;; Some r else Some q) = Some p2 ->
  (if negb (NewParse.match_ tokens (Some SPECIAL) (Some c) q)
   then en q else Some q) = Some p2' ->
  NewParse.match_ tokens (Some SPECIAL) (Some c) p2 = true ->
  length (errors p2) = 0 -> length (errors p2') = 0 ->
  p2 = p2'.
Proof.
  intros Hc Hb Eo En Mo Co Cn.
  rewrite match_tok_is in En, Mo by (assumption || discriminate).
  destruct (current_token tokens q) as [t|] eqn:Hq; cbn [is_some andb] in Eo.
  - destruct (tok_is SPECIAL c (Some t)); cbn [negb] in *; [congruence|].
    destruct (eo q) as [[b1 q1]|] eqn:E1; [|discriminate].
    cbn [bind] in Eo. injection Eo as <-.
    eapply (Hes q); eauto.
  - injection Eo as <-. rewrite Hq in Mo. discriminate.
Qed.

(** An optional [= expression]. *)
Lemma init_same q :
  pos q <= length tokens ->
  same_state
    (if tok_is OPERATOR "=" (current_token tokens q)
     then '(_, r) <- eo (next q) ;; Some r else Some q)
    (if NewParse.match_ tokens (Some OPERATOR) (Some "=") q
     then en (NewParse.advance q) else Some q).
Proof.
  intros Hb po pn Eo En Co Cn. unify_primitives.
  destruct (tok_is OPERATOR "=" (current_token tokens q)) eqn:Hm;
    [|congruence].
  destruct (tok_is_some _ _ _ Hm) as (t & Hq).
  assert (G0 : good tokens q (next q)) by (eapply good_next; eauto).
  destruct (eo_good (next q)) as ([b1 q1] & E1 & G1); [mono; lia|].
  destruct (en_good (next q)) as (q1' & E1' & G1'); [mono; lia|].
  rewrite E1 in Eo. cbn [bind] in Eo. injection Eo as <-.
  rewrite E1' in En. injection En as <-.
  eapply (Hes (next q)); eauto. mono. lia.
Qed.


Lemma anywhere (q q' : Parser) : True -> pos q <= pos q' -> True.
Proof.
  auto.
Qed.

(** The loop over the further names of a declaration. *)
Lemma names_same q :
  pos q <= length tokens ->
  same
    (loop (budget tokens)
       (fun q =>
          if tok_is SPECIAL "," (current_token tokens q) then
            let '(ok1, q1) :=
              expect tokens (Some IDENTIFIER) None None (next q) in
            if negb ok1 then Some (Leave (false, q1))
            else if tok_is OPERATOR "=" (current_token tokens q1) then
              '(_, q2) <- eo (next q1) ;; Some (Again q2)
            else Some (Again q1)
          else Some (Leave (true, q))) q)
    (while_ (NewParse.budget tokens)
       (NewParse.match_ tokens (Some SPECIAL) (Some ","))
       (fun q =>
          let q1 := snd (NewParse.consume tokens (Some IDENTIFIER) None None
                           (NewParse.advance q)) in
          if NewParse.match_ tokens (Some OPERATOR) (Some "=") q1
          then en (NewParse.advance q1) else Some q1) q).
Proof.
  intros Hb b po pn Eo En Co Cn. unfold while_ in En.
  change NewParse.advance with next in *.
  match type of Eo with loop _ ?f _ = _ => set (bo := f) in * end.
  match type of En with loop _ ?f _ = _ => set (bn := f) in * end.
  assert (Mo : forall q, pos q <= length tokens -> True ->
    match bo q with
    | Some (Again q') => good tokens q q'
    | Some (Leave r) => good tokens q (snd r)
    | None => True
    end).
  { intros r Hr _. subst bo. cbv beta.
    destruct (tok_is SPECIAL "," (current_token tokens r)) eqn:Hm;
      [|now apply good_refl].
    destruct (tok_is_some _ _ _ Hm) as (t & Hc).
    assert (G0 : good tokens r (next r)) by (eapply good_next; eauto).
    assert (G1 : good tokens (next r)
      (snd (expect tokens (Some IDENTIFIER) None None (next r))))
      by (apply good_expect; mono; lia).
    destruct (expect tokens (Some IDENTIFIER) None None (next r))
      as [ok1 q1]. cbn [snd] in *.
    destruct ok1; cbn [negb snd]; [|eapply good_trans; eauto].
    destruct (tok_is OPERATOR "=" (current_token tokens q1)) eqn:Hm1;
      [|eapply good_trans; eauto].
    destruct (tok_is_some _ _ _ Hm1) as (t1 & Hc1).
    assert (G2 : good tokens q1 (next q1)) by (eapply good_next; eauto).
    destruct (eo_good (next q1)) as ([b2 q2] & -> & G3); [mono; lia|].
    cbn [bind snd] in *.
    eapply good_trans; [exact G0|]. eapply good_trans; [exact G1|].
    eapply good_trans; eauto. }
  assert (Mn : forall q, pos q <= length tokens -> True ->
    match bn q with
    | Some (Again q') => good tokens q q'
    | Some (Leave r) => good tokens q r
    | None => True
    end).
  { intros r Hr _. subst bn. cbv beta.
    destruct (NewParse.match_ tokens (Some SPECIAL) (Some ",") r) eqn:Hm;
      [|now apply good_refl].
    rewrite match_tok_is in Hm by discriminate.
    destruct (tok_is_some _ _ _ Hm) as (t & Hc).
    assert (G0 : good tokens r (next r)) by (eapply good_next; eauto).
    assert (G1 : good tokens (next r)
      (snd (NewParse.consume tokens (Some IDENTIFIER) None None (next r))))
      by (apply good_consume_at; mono; lia).
    cbv zeta.
    destruct (initializer_good tokens en Hpn
                (snd (NewParse.consume tokens (Some IDENTIFIER) None None
                        (next r)))) as (q' & E & G2);
      [eapply good_in_bounds; eauto|].
    change NewParse.advance with next in E. rewrite E. cbn [bind].
    eapply good_trans; [exact G0|]. eapply good_trans; eauto. }
  refine (loop_same snd bo bn (fun _ => True) anywhere Mo Mn _ _ _ _ _
            Hb I Eo En Co Cn).
  intros r Hr _ Cr. subst bo bn. cbv beta.
  rewrite match_tok_is by discriminate.
  destruct (tok_is SPECIAL "," (current_token tokens r)) eqn:Hm;
    [|reflexivity].
  destruct (tok_is_some _ _ _ Hm) as (t & Hc).
  assert (G0 : good tokens r (next r)) by (eapply good_next; eauto).
  assert (G1 : good tokens (next r)
    (snd (NewParse.consume tokens (Some IDENTIFIER) None None (next r))))
    by (apply good_consume_at; mono; lia).
  cbv zeta.
  destruct (initializer_good tokens en Hpn
              (snd (NewParse.consume tokens (Some IDENTIFIER) None None
                      (next r)))) as (q' & E & G2);
    [eapply good_in_bounds; eauto|].
  change NewParse.advance with next in E. rewrite E. cbn [bind].
  destruct (expect_cases (Some IDENTIFIER) None None (next r))
    as [(X & M) | (X & M & L)].
  - rewrite X. cbn [negb].
    destruct (tok_is OPERATOR "=" (current_token tokens (next (next r))))
      eqn:Hm1.
    + destruct (tok_is_some _ _ _ Hm1) as (t1 & Hc1).
      assert (G3 : good tokens (next (next r)) (next (next (next r))))
        by (eapply good_next; eauto).
      destruct (eo_good (next (next (next r)))) as ([b2 q2] & E2 & G4);
        [mono; lia|].
      rewrite E2. cbn [bind]. intros Ko Kn.
      steps. quiet.
      rewrite match_tok_is, Hm1 in E by discriminate.
      eapply (Hes (next (next (next r)))); eauto. mono. lia.
    + intros Ko Kn. steps. quiet.
      rewrite match_tok_is, Hm1 in E by discriminate. congruence.
  - destruct (expect tokens (Some IDENTIFIER) None None (next r))
      as [ok1 q1]. cbn [fst snd] in *. subst ok1. cbn [negb snd].
    intros Ko Kn. lia.
Qed.


(** The call of [consume] in [En] at a state where the filters are known
    to pass: it is a step forward. *)
Ltac new_consume En :=
  match type of En with
  | context [snd (NewParse.consume tokens ?a ?b ?c ?q)] =>
      let X := fresh "X" in
      let M := fresh "M" in
      destruct (consume_cases a b c q) as [(X & M) | (M & X)];
      [ rewrite X in En; clear X; cbn [snd] in En
      | exfalso; unify_primitives; congruence ]
  end.

Lemma block_same p :
  pos p <= length tokens -> length tokens - pos p < d ->
  same (block tokens xo p) (NewParse.parse_block tokens sn p).
Proof.
  intros Hb Hd b po pn Eo En Co Cn.
  unfold block in Eo. unfold NewParse.parse_block in En. cbv zeta in En.
  old_expect Eo Co. new_consume En.
  assert (Hc : exists t, current_token tokens p = Some t).
  { rewrite match_tok_is in M by discriminate. eapply tok_is_some; eauto. }
  destruct Hc as (t0 & Hc).
  assert (G0 : good tokens p (next p)) by (eapply good_next; eauto).
  match type of Eo with loop _ ?f _ = _ => set (bo := f) in * end.
  match type of En with loop _ ?f _ = _ => set (bn := f) in * end.
  assert (Mo : forall q, pos q <= length tokens ->
    length tokens - pos q < d ->
    match bo q with
    | Some (Again q') => good tokens q q'
    | Some (Leave r) => good tokens q (snd r)
    | None => True
    end).
  { intros q Hq Dq. subst bo. cbv beta.
    destruct (current_token tokens q) as [t|] eqn:Hcq;
      [|now apply good_add_error].
    destruct (String.eqb (type t) SPECIAL && String.eqb (value t) "}");
      [eapply good_next; eauto|].
    destruct (Hxo q Hq Dq) as ([ok1 q1] & -> & G1 & _). cbn [bind snd] in *.
    destruct ok1; cbn [negb snd]; [exact G1|].
    eapply good_trans; [exact G1|]. apply good_add_error.
    eapply good_in_bounds; eauto. }
  assert (Mn : forall q, pos q <= length tokens ->
    length tokens - pos q < d ->
    match bn q with
    | Some (Again q') => good tokens q q'
    | Some (Leave r) => good tokens q r
    | None => True
    end).
  { intros q Hq Dq. subst bn. cbv beta.
    destruct (NewParse.match_ tokens (Some SPECIAL) (Some "}") q);
      cbn [negb]; [now apply good_consume_at|].
    destruct (NewParse.current tokens q); cbn [is_some negb];
      [|now apply good_append_error].
    destruct (Hsn q Hq Dq) as (q1 & -> & G1 & _). exact G1. }
  refine (loop_same snd bo bn (fun q => length tokens - pos q < d)
            (deeper d) Mo Mn _ _ _ _ _
            (good_in_bounds _ _ _ G0) _ Eo En Co Cn).
  - intros q Hq Dq Cq. subst bo bn. cbv beta. bridge.
    change (NewParse.current tokens q) with (current_token tokens q).
    destruct (current_token tokens q) as [t|] eqn:Hcq;
      cbn [is_some negb tok_is].
    2:{ unfold tok_is. cbn [negb]. intros Ko Kn. mono. lia. }
    unfold tok_is.
    destruct (String.eqb (type t) SPECIAL && String.eqb (value t) "}")
      eqn:Hm; cbn [negb].
    { intros Ko Kn. destruct (consume_quiet _ _ _ _ Kn) as (-> & _).
      reflexivity. }
    destruct (Hxo q Hq Dq) as ([ok1 q1] & E1 & G1 & _).
    destruct (Hsn q Hq Dq) as (q1' & E1' & G1' & _).
    rewrite E1, E1'. cbn [bind].
    destruct ok1; cbn [negb].
    + eapply Hxs; eauto.
    + cbn [snd]. intros Ko Kn. mono. lia.
  - apply good_le in G0. cbv beta. lia.
Qed.

(** A body of [if], [else], [while] or [for]. *)
Lemma body_same p :
  pos p <= length tokens -> length tokens - pos p < d ->
  same_state (block_or_x tokens xo p)
    (NewParse.block_or_statement tokens sn p).
Proof.
  intros Hb Hd po pn Eo En Co Cn.
  unfold block_or_x in Eo. unfold NewParse.block_or_statement in En.
  unify_primitives.
  destruct (tok_is SPECIAL "{" (current_token tokens p)).
  - destruct (block tokens xo p) as [[b1 q1]|] eqn:E1; [|discriminate].
    cbn [bind] in Eo. injection Eo as <-. eapply block_same; eauto.
  - destruct (xo p) as [[b1 q1]|] eqn:E1; [|discriminate].
    cbn [bind] in Eo. injection Eo as <-. eapply Hxs; eauto.
Qed.


Lemma return_same p t :
  current_token tokens p = Some t ->
  same (return_statement tokens eo p)
    (NewParse.parse_return_statement tokens en p).
Proof.
  intros Hc b po pn Eo En Co Cn.
  unfold return_statement in Eo. unfold NewParse.parse_return_statement in En.
  cbv zeta in *. change NewParse.advance with next in *.
  assert (G0 : good tokens p (next p)) by (eapply good_next; eauto).
  first_part Eo (good tokens (next p))
    ltac:(apply optional_good; [exact Hpo | mono; lia]) p2 E2 G2.
  first_part En (good tokens (next p))
    ltac:(apply optional_expression_good; [exact Hpn | mono; lia]) p2' E2' G2'.
  old_expect Eo Co. injection Eo as _ <-. injection En as <-.
  steps. quiet.
  assert (p2 = p2'); [|now subst].
  eapply (optional_same ";" (next p)); eauto; try discriminate; mono; lia.
Qed.


Lemma assign_same p t :
  current_token tokens p = Some t ->
  same (assign tokens eo p) (NewParse.parse_assignment tokens en p).
Proof.
  intros Hc b po pn Eo En Co Cn.
  unfold assign in Eo. unfold NewParse.parse_assignment in En.
  rewrite Hc in Eo. unify_primitives. rewrite Hc in En. unfold tok_in in En.
  assert (G0 : good tokens p (next p)) by (eapply good_next; eauto).
  destruct (String.eqb (type t) KEYWORD && str_in (value t) datatypes);
    cbv beta iota zeta in Eo, En.
  - old_expect Eo Co. new_consume En.
    assert (Hc1 : exists t1, current_token tokens (next p) = Some t1).
    { rewrite match_tok_type_is in M by discriminate.
      eapply tok_type_is_some; eauto. }
    destruct Hc1 as (t1 & Hc1).
    assert (G1 : good tokens (next p) (next (next p)))
      by (eapply good_next; eauto).
    first_part Eo (fun r : bool * Parser => good tokens (next (next p)) (snd r)
        /\ (fst r = false ->
            length (errors (next (next p))) < length (errors (snd r))))
      ltac:(apply names_good; [exact Hpo | mono; lia]) r3 E3 G3.
    destruct r3 as [go p3]. destruct G3 as (G3 & F3). cbn [fst snd] in *.
    destruct go; cbn [negb] in Eo.
    2:{ exfalso. injection Eo as _ <-. specialize (F3 eq_refl). lia. }
    first_part Eo (good tokens p3)
      ltac:(apply init_good; [exact Hpo | mono; lia]) p4 E4 G4.
    old_expect Eo Co. injection Eo as _ <-.
    first_part En (good tokens (next (next p)))
      ltac:(apply names_loop_good; [exact Hpn | mono; lia]) p3' E3' G3'.
    first_part En (good tokens p3')
      ltac:(apply initializer_good; [exact Hpn | mono; lia]) p4' E4' G4'.
    injection En as <-. steps. quiet.
    same_by (names_same (next (next p)) ltac:(mono; lia) _ _ _ E3 E3').
    same_by (init_same p3 ltac:(mono; lia) _ _ E4 E4').
    reflexivity.
  - old_expect Eo Co. new_consume En. cbn [bind negb] in Eo, En.
    assert (Hc1 : exists t1, current_token tokens p = Some t1) by eauto.
    first_part Eo (good tokens (next p))
      ltac:(apply init_good; [exact Hpo | mono; lia]) p4 E4 G4.
    old_expect Eo Co. injection Eo as _ <-.
    first_part En (good tokens (next p))
      ltac:(apply initializer_good; [exact Hpn | mono; lia]) p4' E4' G4'.
    injection En as <-. steps. quiet.
    same_by (init_same (next p) ltac:(mono; lia) _ _ E4 E4').
    reflexivity.
Qed.


Lemma match_current_token a b q :
  NewParse.match_ tokens a b q = true ->
  exists t, current_token tokens q = Some t.
Proof.
  apply match_current.
Qed.

(** The tokens that the passed filters show to be there. *)
Ltac present :=
  repeat match goal with
  | M : NewParse.match_ tokens ?a ?b ?q = true |- _ =>
      lazymatch goal with
      | _ : current_token tokens q = Some _ |- _ => fail
      | _ => let t := fresh "t" in
             let H := fresh "Hc" in
             destruct (match_current_token a b q M) as (t & H)
      end
  end.

Lemma func_same p t0 :
  current_token tokens p = Some t0 ->
  tok_in KEYWORD datatypes (current_token tokens p) = true ->
  length tokens - pos p < S d ->
  same (func tokens xo p) (NewParse.parse_function tokens sn p).
Proof.
  intros Hc Hk Hd b po pn Eo En Co Cn.
  unfold func, datatype in Eo. unfold NewParse.parse_function in En.
  rewrite Hk, Hc in Eo. cbv beta iota zeta in Eo, En. cbn [negb] in Eo.
  unify_primitives.
  destruct (current_token tokens (next p)) as [t1|] eqn:Hc1.
  2:{ exfalso. injection Eo as _ <-. mono. lia. }
  destruct (str_in (type t1) [IDENTIFIER; KEYWORD]); cbn [negb] in Eo.
  2:{ exfalso. injection Eo as _ <-. mono. lia. }
  set (p2 := if String.eqb (value t1) "main" then set_main (next p)
             else next p) in *.
  assert (H2 : current_token tokens p2 = Some t1 /\ pos p2 = pos p + 1
               /\ errors p2 = errors p).
  { subst p2. destruct (String.eqb (value t1) "main"); auto. }
  destruct H2 as (Hc2 & P2 & R2). clearbody p2.
  assert (Mx : NewParse.match_ tokens None None p2 = true)
    by (rewrite match_any, Hc2; reflexivity).
  new_consume En.
  old_expect Eo Co. new_consume En.
  old_expect Eo Co. new_consume En. present.
  assert (B5 : pos (next (next (next p2))) <= length tokens
               /\ length tokens - pos (next (next (next p2))) < d).
  { apply current_token_in_bounds in Hc0. apply current_token_in_bounds in Hc.
    unfold next, set_pos in *. cbn [pos] in *. lia. }
  destruct B5 as (B5 & D5).
  eapply block_same; eauto.
Qed.


Lemma while_same p t :
  current_token tokens p = Some t -> length tokens - pos p < S d ->
  same (while_statement tokens eo xo p)
    (NewParse.parse_while_statement tokens en sn p).
Proof.
  intros Hc Hd b po pn Eo En Co Cn.
  unfold while_statement in Eo. unfold NewParse.parse_while_statement in En.
  cbv zeta in *. change NewParse.advance with next in *.
  assert (G0 : good tokens p (next p)) by (eapply good_next; eauto).
  old_expect Eo Co. new_consume En. present.
  assert (G1 : good tokens (next p) (next (next p)))
    by (eapply good_next; eauto).
  first_part Eo (fun r : bool * Parser => good tokens (next (next p)) (snd r))
    ltac:(apply eo_good; mono; lia) r3 E3 G3.
  destruct r3 as [b3 p3]. cbn [snd] in *.
  old_expect Eo Co. present.
  assert (G4 : good tokens p3 (next p3)) by (eapply good_next; eauto).
  first_part Eo (good tokens (next p3))
    ltac:(apply (block_or_x_good tokens d xo Hxo); mono; lia) p5 E5 G5.
  injection Eo as _ <-.
  first_part En (good tokens (next (next p)))
    ltac:(apply en_good; mono; lia) p3' E3' G3'.
  steps.
  last_part En
    (good tokens (snd (NewParse.consume tokens (Some SPECIAL) (Some ")") None p3')))
    ltac:(apply (block_or_statement_good tokens d sn Hsn); mono; lia) G5'.
  quiet.
  same_by (Hes (next (next p)) ltac:(mono; lia) _ _ _ E3 E3').
  eapply (body_same (next p3)); eauto; mono; lia.
Qed.

Lemma if_same p t :
  current_token tokens p = Some t -> length tokens - pos p < S d ->
  same (if_statement tokens eo xo p)
    (NewParse.parse_if_statement tokens en sn p).
Proof.
  intros Hc Hd b po pn Eo En Co Cn.
  unfold if_statement in Eo. unfold NewParse.parse_if_statement in En.
  cbv zeta in *. change NewParse.advance with next in *.
  assert (G0 : good tokens p (next p)) by (eapply good_next; eauto).
  old_expect Eo Co. new_consume En. present.
  assert (G1 : good tokens (next p) (next (next p)))
    by (eapply good_next; eauto).
  first_part Eo (fun r : bool * Parser => good tokens (next (next p)) (snd r))
    ltac:(apply eo_good; mono; lia) r3 E3 G3.
  destruct r3 as [b3 p3]. cbn [snd] in *.
  old_expect Eo Co. present.
  assert (G4 : good tokens p3 (next p3)) by (eapply good_next; eauto).
  first_part Eo (good tokens (next p3))
    ltac:(apply (block_or_x_good tokens d xo Hxo); mono; lia) p5 E5 G5.
  first_part En (good tokens (next (next p)))
    ltac:(apply en_good; mono; lia) p3' E3' G3'.
  steps.
  first_part En
    (good tokens (snd (NewParse.consume tokens (Some SPECIAL) (Some ")") None p3')))
    ltac:(apply (block_or_statement_good tokens d sn Hsn); mono; lia) p5' E5' G5'.
  rewrite match_tok_is in En by discriminate.
  destruct (tok_is KEYWORD "else" (current_token tokens p5)) eqn:Ho;
    destruct (tok_is KEYWORD "else" (current_token tokens p5')) eqn:Hn.
  - destruct (tok_is_some _ _ _ Ho) as (t5 & Hc5).
    destruct (tok_is_some _ _ _ Hn) as (t5' & Hc5').
    assert (G6 : good tokens p5 (next p5)) by (eapply good_next; eauto).
    assert (G6' : good tokens p5' (next p5')) by (eapply good_next; eauto).
    first_part Eo (good tokens (next p5))
      ltac:(apply (block_or_x_good tokens d xo Hxo); mono; lia) p6 E6 G7.
    injection Eo as _ <-.
    last_part En (good tokens (next p5'))
      ltac:(apply (block_or_statement_good tokens d sn Hsn); mono; lia) G7'.
    quiet.
    same_by (Hes (next (next p)) ltac:(mono; lia) _ _ _ E3 E3').
    same_by (body_same (next p3) ltac:(mono; lia) ltac:(mono; lia)
               _ _ E5 E5').
    eapply (body_same (next p5)); eauto; mono; lia.
  - destruct (tok_is_some _ _ _ Ho) as (t5 & Hc5).
    assert (G6 : good tokens p5 (next p5)) by (eapply good_next; eauto).
    first_part Eo (good tokens (next p5))
      ltac:(apply (block_or_x_good tokens d xo Hxo); mono; lia) p6 E6 G7.
    injection Eo as _ <-. injection En as <-.
    quiet.
    same_by (Hes (next (next p)) ltac:(mono; lia) _ _ _ E3 E3').
    same_by (body_same (next p3) ltac:(mono; lia) ltac:(mono; lia)
               _ _ E5 E5').
    congruence.
  - destruct (tok_is_some _ _ _ Hn) as (t5' & Hc5').
    assert (G6' : good tokens p5' (next p5')) by (eapply good_next; eauto).
    injection Eo as _ <-.
    last_part En (good tokens (next p5'))
      ltac:(apply (block_or_statement_good tokens d sn Hsn); mono; lia) G7'.
    quiet.
    same_by (Hes (next (next p)) ltac:(mono; lia) _ _ _ E3 E3').
    same_by (body_same (next p3) ltac:(mono; lia) ltac:(mono; lia)
               _ _ E5 E5').
    congruence.
  - injection Eo as _ <-. injection En as <-.
    quiet.
    same_by (Hes (next (next p)) ltac:(mono; lia) _ _ _ E3 E3').
    eapply (body_same (next p3)); eauto; mono; lia.
Qed.


(** The first clause of [for], in src/cpp_parser.py. *)
Lemma for_init_old_good q :
  pos q <= length tokens ->
  returns (good tokens q)
    (if tok_type_is KEYWORD (current_token tokens q)
     then '(_, r) <- assign tokens eo q ;; Some r
     else
       '(_, r) <- eo q ;;
       Some (snd (expect tokens (Some SPECIAL) (Some ";") None r))).
Proof.
  intros Hb. destruct (tok_type_is KEYWORD (current_token tokens q)) eqn:Hm.
  - destruct (tok_type_is_some _ _ Hm) as (t & Hc).
    eapply returns_bind; [eapply (assign_ruled tokens eo Hpo); eauto|].
    intros [b r] (G & _). now apply returns_some.
  - eapply returns_bind; [now apply eo_good|].
    intros [b r] G. cbn [snd] in *. apply returns_some.
    eapply good_trans; [exact G|]. apply good_expect.
    eapply good_in_bounds; eauto.
Qed.

(** The first clause of [for], in src/new_parse.py. *)
Lemma for_init_new_good q :
  pos q <= length tokens ->
  returns (good tokens q)
    (if NewParse.match_ tokens (Some KEYWORD) None q
     then NewParse.parse_assignment tokens en q
     else if negb (NewParse.match_ tokens (Some SPECIAL) (Some ";") q) then
       r <- en q ;;
       Some (snd (NewParse.consume tokens (Some SPECIAL) (Some ";") None r))
     else
       Some (snd (NewParse.consume tokens (Some SPECIAL) (Some ";") None q))).
Proof.
  intros Hb. destruct (NewParse.match_ tokens (Some KEYWORD) None q).
  - eapply returns_weaken;
      [apply (parse_assignment_good tokens en Hpn); auto|].
    now intros a (G & _).
  - destruct (NewParse.match_ tokens (Some SPECIAL) (Some ";") q);
      cbn [negb].
    + apply returns_some. now apply good_consume_at.
    + eapply returns_bind; [now apply en_good|].
      intros r G. apply returns_some.
      eapply good_trans; [exact G|]. apply good_consume_at.
      eapply good_in_bounds; eauto.
Qed.

Lemma for_init_same q :
  pos q <= length tokens ->
  same_state
    (if tok_type_is KEYWORD (current_token tokens q)
     then '(_, r) <- assign tokens eo q ;; Some r
     else
       '(_, r) <- eo q ;;
       Some (snd (expect tokens (Some SPECIAL) (Some ";") None r)))
    (if NewParse.match_ tokens (Some KEYWORD) None q
     then NewParse.parse_assignment tokens en q
     else if negb (NewParse.match_ tokens (Some SPECIAL) (Some ";") q) then
       r <- en q ;;
       Some (snd (NewParse.consume tokens (Some SPECIAL) (Some ";") None r))
     else
       Some (snd (NewParse.consume tokens (Some SPECIAL) (Some ";") None q))).
Proof.
  intros Hb po pn Eo En Co Cn. unify_primitives.
  destruct (tok_type_is KEYWORD (current_token tokens q)) eqn:Hm.
  - destruct (tok_type_is_some _ _ Hm) as (t & Hc).
    destruct (assign tokens eo q) as [[b r]|] eqn:E1; [|discriminate].
    cbn [bind] in Eo. injection Eo as <-.
    eapply assign_same; eauto.
  - destruct (Hpo q Hb) as ([b1 q1] & E1 & G1 & S1).
    rewrite E1 in Eo. cbn [bind snd] in *. injection Eo as <-.
    destruct (tok_is SPECIAL ";" (current_token tokens q)) eqn:Hs;
      cbn [negb] in En.
    + exfalso. specialize (S1 eq_refl). steps. mono. lia.
    + destruct (en_good q Hb) as (q1' & E1' & G1').
      rewrite E1' in En. cbn [bind] in En. injection En as <-.
      steps. quiet.
      same_by (Hes q Hb _ _ _ E1 E1').
      reflexivity.
Qed.

Lemma for_same p t :
  current_token tokens p = Some t -> length tokens - pos p < S d ->
  same (for_statement tokens eo xo p)
    (NewParse.parse_for_statement tokens en sn p).
Proof.
  intros Hc Hd b po pn Eo En Co Cn.
  unfold for_statement in Eo. unfold NewParse.parse_for_statement in En.
  cbv zeta in *. change NewParse.advance with next in *.
  assert (G0 : good tokens p (next p)) by (eapply good_next; eauto).
  old_expect Eo Co. new_consume En. present.
  assert (G1 : good tokens (next p) (next (next p)))
    by (eapply good_next; eauto).
  first_part Eo (good tokens (next (next p)))
    ltac:(apply for_init_old_good; mono; lia) p3 E3 G3.
  first_part Eo (good tokens p3)
    ltac:(apply optional_good; [exact Hpo | mono; lia]) p4 E4 G4.
  steps.
  first_part Eo
    (good tokens (snd (expect tokens (Some SPECIAL) (Some ";") None p4)))
    ltac:(apply optional_good; [exact Hpo | mono; lia]) p6 E6 G6.
  old_expect Eo Co. present.
  assert (G7 : good tokens p6 (next p6)) by (eapply good_next; eauto).
  first_part Eo (good tokens (next p6))
    ltac:(apply (block_or_x_good tokens d xo Hxo); mono; lia) p8 E8 G8.
  injection Eo as _ <-.
  first_part En (good tokens (next (next p)))
    ltac:(apply for_init_new_good; mono; lia) p3' E3' G3'.
  first_part En (good tokens p3')
    ltac:(apply optional_expression_good; [exact Hpn | mono; lia])
    p4' E4' G4'.
  steps.
  first_part En
    (good tokens (snd (NewParse.consume tokens (Some SPECIAL) (Some ";") None p4')))
    ltac:(apply optional_expression_good; [exact Hpn | mono; lia])
    p6' E6' G6'.
  steps.
  last_part En
    (good tokens (snd (NewParse.consume tokens (Some SPECIAL) (Some ")") None p6')))
    ltac:(apply (block_or_statement_good tokens d sn Hsn); mono; lia) G8'.
  quiet.
  same_by (for_init_same (next (next p)) ltac:(mono; lia) _ _ E3 E3').
  assert (p4 = p4').
  { eapply (optional_same ";" p3); eauto; try discriminate; mono; lia. }
  subst p4'.
  assert (p6 = p6').
  { eapply (optional_same ")" (next p4)); eauto; try discriminate; mono; lia. }
  subst p6'.
  eapply (body_same (next p6)); eauto; mono; lia.
Qed.


Lemma expression_statement_same p :
  pos p <= length tokens ->
  same (expression_statement tokens eo p)
    (p1 <- en p ;;
     Some (snd (NewParse.consume tokens (Some SPECIAL) (Some ";") None p1))).
Proof.
  intros Hb b po pn Eo En Co Cn. unfold expression_statement in Eo.
  first_part Eo (fun r : bool * Parser => good tokens p (snd r))
    ltac:(now apply eo_good) r1 E1 G1.
  destruct r1 as [b1 p1]. cbn [snd] in *.
  old_expect Eo Co. injection Eo as _ <-.
  first_part En (good tokens p) ltac:(now apply en_good) p1' E1' G1'.
  injection En as <-. steps. quiet.
  same_by (Hes p Hb _ _ _ E1 E1').
  reflexivity.
Qed.

(** The statement dispatch. *)
Lemma x_same p :
  pos p <= length tokens -> length tokens - pos p < S d ->
  same (x tokens eo xo p) (NewParse.parse_statement tokens en sn p).
Proof.
  intros Hb Hd. unfold x, NewParse.parse_statement.
  change (NewParse.current tokens p) with (current_token tokens p).
  change (NewParse.peek_is tokens) with
    (fun k ty v p => tok_is ty v (peek_token tokens k p)).
  cbv beta.
  destruct (current_token tokens p) as [tok|] eqn:Hc.
  2:{ intros b po pn Eo En _ _. congruence. }
  destruct (String.eqb (type tok) KEYWORD && str_in (value tok) datatypes)
    eqn:Hk.
  { destruct (tok_is SPECIAL "(" (peek_token tokens 2 p)).
    - eapply func_same; eauto. now rewrite Hc.
    - eapply assign_same; eauto. }
  destruct (String.eqb (type tok) KEYWORD && String.eqb (value tok) "if");
    [eapply if_same; eauto|].
  destruct (String.eqb (type tok) KEYWORD && String.eqb (value tok) "while");
    [eapply while_same; eauto|].
  destruct (String.eqb (type tok) KEYWORD && String.eqb (value tok) "for");
    [eapply for_same; eauto|].
  destruct (String.eqb (type tok) KEYWORD && String.eqb (value tok) "return");
    [eapply return_same; eauto|].
  destruct (String.eqb (type tok) IDENTIFIER).
  { destruct (tok_is OPERATOR "=" (peek_token tokens 1 p)).
    - eapply assign_same; eauto.
    - now apply expression_statement_same. }
  intros b po pn Eo En Co Cn. exfalso. injection En as <-.
  unfold NewParse.advance, set_pos, append_error in Cn. cbn [errors] in Cn.
  rewrite length_app in Cn. cbn [length] in Cn. lia.
Qed.

(** ** Top level *)

Lemma global_variable_same p t :
  current_token tokens p = Some t ->
  same (global_variable tokens eo p)
    (NewParse.parse_global_variable tokens en p).
Proof.
  intros Hc b po pn Eo En Co Cn.
  unfold global_variable in Eo. unfold NewParse.parse_global_variable in En.
  cbv zeta in *. change NewParse.advance with next in *.
  assert (G0 : good tokens p (next p)) by (eapply good_next; eauto).
  old_expect Eo Co. new_consume En. present.
  assert (G1 : good tokens (next p) (next (next p)))
    by (eapply good_next; eauto).
  first_part Eo (good tokens (next (next p)))
    ltac:(apply init_good; [exact Hpo | mono; lia]) p3 E3 G3.
  first_part Eo (fun r : bool * Parser => good tokens p3 (snd r)
      /\ (fst r = false -> length (errors p3) < length (errors (snd r))))
    ltac:(apply names_good; [exact Hpo | mono; lia]) r4 E4 G4.
  destruct r4 as [go p4]. destruct G4 as (G4 & F4). cbn [fst snd] in *.
  destruct go; cbn [negb] in Eo.
  2:{ exfalso. injection Eo as _ <-. specialize (F4 eq_refl). lia. }
  old_expect Eo Co. injection Eo as _ <-.
  first_part En (good tokens (next (next p)))
    ltac:(apply initializer_good; [exact Hpn | mono; lia]) p3' E3' G3'.
  first_part En (good tokens p3')
    ltac:(apply names_loop_good; [exact Hpn | mono; lia]) p4' E4' G4'.
  injection En as <-. steps. quiet.
  same_by (init_same (next (next p)) ltac:(mono; lia) _ _ E3 E3').
  same_by (names_same p3 ltac:(mono; lia) _ _ _ E4 E4').
  reflexivity.
Qed.

Lemma global_declaration_same p t :
  current_token tokens p = Some t -> length tokens - pos p < S d ->
  same (global_declaration tokens eo xo p)
    (NewParse.parse_global_declaration tokens en sn p).
Proof.
  intros Hc Hd b po pn Eo En Co Cn.
  unfold global_declaration in Eo.
  unfold NewParse.parse_global_declaration in En.
  rewrite Hc in Eo. rewrite <- negb_andb in En. unify_primitives.
  rewrite Hc in En. unfold tok_in in En.
  destruct (String.eqb (type t) KEYWORD && str_in (value t) datatypes)
    eqn:Hk; cbn [negb] in Eo, En.
  2:{ exfalso. injection Eo as _ <-. mono. lia. }
  destruct (peek_token tokens 1 p) as [next_token|].
  2:{ exfalso. injection Eo as _ <-. mono. lia. }
  destruct (str_in (type next_token) [IDENTIFIER; KEYWORD]); cbn [negb] in Eo.
  2:{ exfalso. injection Eo as _ <-. mono. lia. }
  destruct (tok_is SPECIAL "(" (peek_token tokens 2 p)).
  - eapply func_same; eauto. now rewrite Hc.
  - eapply global_variable_same; eauto.
Qed.

(** The two top-level loops. *)
Lemma program_same p :
  pos p <= length tokens -> length tokens - pos p < S d ->
  same_state (program tokens eo xo p) (NewParse.declarations tokens en sn p).
Proof.
  intros Hb Hd po pn Eo En Co Cn.
  unfold program in Eo. unfold NewParse.declarations, while_ in En.
  match type of Eo with loop _ ?f _ = _ => set (bo := f) in * end.
  match type of En with loop _ ?f _ = _ => set (bn := f) in * end.
  assert (Mo : forall q, pos q <= length tokens ->
    length tokens - pos q < S d ->
    match bo q with
    | Some (Again q') => good tokens q q'
    | Some (Leave r) => good tokens q r
    | None => True
    end).
  { intros q Hq Dq. subst bo. cbv beta.
    destruct (current_token tokens q) as [t|] eqn:Hc; cbn [is_some];
      [|now apply good_refl].
    destruct (global_declaration_ruled tokens d eo xo Hpo Hxo q t Hc Dq)
      as ([ok q1] & -> & G1 & _). cbn [bind snd] in *.
    destruct ok; exact G1. }
  assert (Mn : forall q, pos q <= length tokens ->
    length tokens - pos q < S d ->
    match bn q with
    | Some (Again q') => good tokens q q'
    | Some (Leave r) => good tokens q r
    | None => True
    end).
  { intros q Hq Dq. subst bn. cbv beta.
    destruct (NewParse.current tokens q) as [t|] eqn:Hc; cbn [is_some];
      [|now apply good_refl].
    destruct (parse_global_declaration_good tokens d en sn Hpn Hsn q t Hc Dq)
      as (q1 & -> & G1 & _). exact G1. }
  refine (loop_same (fun r => r) bo bn (fun q => length tokens - pos q < S d)
            (deeper (S d)) Mo Mn _ _ _ _ _ Hb Hd Eo En Co Cn).
  intros q Hq Dq Cq. subst bo bn. cbv beta.
  change (NewParse.current tokens q) with (current_token tokens q).
  destruct (current_token tokens q) as [t|] eqn:Hc; cbn [is_some];
    [|reflexivity].
  destruct (global_declaration_ruled tokens d eo xo Hpo Hxo q t Hc Dq)
    as ([ok q1] & E1 & G1 & _ & F1).
  destruct (parse_global_declaration_good tokens d en sn Hpn Hsn q t Hc Dq)
    as (q1' & E1' & G1' & _).
  rewrite E1, E1'. cbn [bind fst snd] in *.
  destruct ok; cbn [negb].
  - eapply global_declaration_same; eauto.
  - intros Ko Kn. specialize (F1 eq_refl). lia.
Qed.

End Statements.

(** The two statement rules agree. *)
Lemma x_at_same d : forall p,
  pos p <= length tokens -> length tokens - pos p < d ->
  same (x_at tokens d p) (NewParse.parse_statement_at tokens d p).
Proof.
  induction d as [|d IH]; intros p Hb Hd; [lia|].
  cbn [x_at NewParse.parse_statement_at].
  apply x_same with (d := d); auto.
  - apply expression_good.
  - apply parse_expression_moved.
  - intros q Hq. apply expression_at_same; auto.
    unfold budget, NewParse.budget. lia.
  - intros q Hq Hdq. now apply x_at_ruled.
  - intros q Hq Hdq. now apply parse_statement_at_moved.
Qed.

(** The two structural passes, when both are quiet, end in the same
    state. *)
Lemma structural_pass_same po pn :
  CppParser.structural_pass tokens = Some po ->
  NewParse.structural_pass tokens = Some pn ->
  length (errors po) = 0 -> length (errors pn) = 0 -> po = pn.
Proof.
  unfold CppParser.structural_pass, NewParse.structural_pass.
  apply program_same with (d := budget tokens).
  - apply expression_good.
  - apply parse_expression_moved.
  - intros q Hq. apply expression_at_same; auto.
    unfold budget, NewParse.budget. lia.
  - intros q Hq Hdq. now apply x_at_ruled.
  - intros q Hq Hdq. now apply parse_statement_at_moved.
  - intros q Hq Hdq. now apply x_at_same.
  - cbn. lia.
  - unfold budget, NewParse.budget. cbn. lia.
Qed.

End Agreement.

(** * The claims *)

Lemma new_finish_verdict (o : pass_outcome) :
  fst (NewParse.finish o) = true <->
  errors (snd (NewParse.finish o)) = [] /\ has_main (snd (NewParse.finish o)) = true.
Proof.
  destruct o as [p|p e]; simpl.
  - destruct (has_main p) eqn:Hm; simpl.
    + destruct (errors p); simpl; split; intros H; auto; try discriminate.
      destruct H; discriminate.
    + rewrite length_app. simpl. rewrite Nat.add_comm. simpl.
      split; [discriminate|]. intros (H & _).
      destruct (errors p); discriminate.
  - split; [discriminate|]. intros (H & _). destruct (errors p); discriminate.
Qed.

Lemma errors_add_error_app tokens m p :
  exists e, errors (CppParser.add_error tokens m p) = errors p ++ [e].
Proof.
  unfold CppParser.add_error.
  destruct (CppParser.current_token tokens p); simpl; eauto.
Qed.

Lemma old_finish_verdict tokens (o : pass_outcome) :
  fst (CppParser.finish tokens o) = true <->
  errors (snd (CppParser.finish tokens o)) = []
  /\ has_main (snd (CppParser.finish tokens o)) = true.
Proof.
  destruct o as [p|p e]; unfold CppParser.finish.
  - destruct (has_main p) eqn:Hm; cbn [negb fst snd].
    + rewrite Hm. destruct (errors p); simpl; split; intros H; auto;
        try discriminate. destruct H; discriminate.
    + split; [discriminate|]. intros (H & _).
      destruct (errors_add_error_app tokens "Missing main function" p)
        as (e & E).
      rewrite E in H. destruct (errors p); discriminate.
  - cbn [fst snd]. split; [discriminate|]. intros (H & _).
    destruct (errors_add_error_app tokens ("Parser exception: " ++ e)%string p)
      as (e' & E).
    rewrite E in H. destruct (errors p); discriminate.
Qed.

Lemma new_parse_returns tokens :
  exists p, NewParse.structural_pass tokens = Some p
    /\ NewParse.parse tokens = Some (NewParse.finish (Completed p))
    /\ good tokens init p /\ pos p = length tokens.
Proof.
  destruct (structural_pass_good tokens) as (p & E & Hg & Hp).
  exists p. unfold NewParse.parse. rewrite E. auto.
Qed.

Lemma old_parse_returns tokens :
  exists p, CppParser.structural_pass tokens = Some p
    /\ CppParser.parse tokens = Some (CppParser.finish tokens (Completed p))
    /\ good tokens init p /\ (errors p = [] -> pos p = length tokens).
Proof.
  destruct (program_pass_good tokens) as (p & E & Hg & Hp).
  exists p. unfold CppParser.parse. rewrite E. auto.
Qed.

(** C1.  Whatever the token sequence, [parse] returns, and it accepts
    exactly when the diagnostics are empty and the main-flag is set; this
    holds in both files, and also for the verdict computed after a fault
    was raised during the pass. *)
Theorem accepted_iff_clean_and_main (tokens : list Token) :
  (exists r, NewParse.parse tokens = Some r
     /\ (fst r = true <-> errors (snd r) = [] /\ has_main (snd r) = true))
  /\ (exists r, CppParser.parse tokens = Some r
     /\ (fst r = true <-> errors (snd r) = [] /\ has_main (snd r) = true))
  /\ (forall o, fst (NewParse.finish o) = true <->
        errors (snd (NewParse.finish o)) = []
        /\ has_main (snd (NewParse.finish o)) = true)
  /\ (forall o, fst (CppParser.finish tokens o) = true <->
        errors (snd (CppParser.finish tokens o)) = []
        /\ has_main (snd (CppParser.finish tokens o)) = true).
Proof.
  split; [|split; [|split]].
  - destruct (new_parse_returns tokens) as (p & _ & E & _).
    eexists. split; [exact E|]. apply new_finish_verdict.
  - destruct (old_parse_returns tokens) as (p & _ & E & _).
    eexists. split; [exact E|]. apply old_finish_verdict.
  - apply new_finish_verdict.
  - apply old_finish_verdict.
Qed.

(** C2 fails in both files on a declaration inside a function whose
    first name has an initializer and is followed by a further name.
    The docstring of [parse_assignment] gives the shape
    [[datatype] id [= expr] [, id [= expr]]* ;], but [parse_assignment]
    and [assign] look for the further names before they look for the
    initializer of the first name: after [int i = 0] they expect the
    semicolon and find the comma.  On [int f ( ) { int i = 0 , j ; }],
    in which no function named [main] starts, each file records two
    diagnostics before the missing-main one.  With the initializer on
    the further name, [int f ( ) { int i , j = 0 ; }], the missing-main
    diagnostic is the only one. *)
Theorem initializer_before_further_names :
  declares_main initializer_first = false
  /\ NewParse.parse initializer_first
     = Some (false,
             mkParser 13
               ["At position 9: Expected SPECIAL CHARACTER ';', got SPECIAL CHARACTER ','";
                "Invalid statement starting with SPECIAL CHARACTER ','";
                "Missing main function"]
               false)
  /\ CppParser.parse initializer_first
     = Some (false,
             mkParser 9
               ["At token 9 (SPECIAL CHARACTER, ,): Expected ';', got ','";
                "At token 9 (SPECIAL CHARACTER, ,): Invalid statement in block";
                "At token 9 (SPECIAL CHARACTER, ,): Missing main function"]
               false)
  /\ NewParse.parse initializer_last
     = Some (false, mkParser 13 ["Missing main function"] false)
  /\ CppParser.parse initializer_last
     = Some (false,
             mkParser 13 ["At end of file: Missing main function"] false).
Proof.
  repeat split; vm_compute; reflexivity.
Qed.


Lemma new_declaration_fallback tokens self_e self_s p tok :
  NewParse.current tokens p = Some tok -> is_datatype tok = false ->
  NewParse.parse_global_declaration tokens self_e self_s p =
  Some (NewParse.advance
          (append_error p "Expected datatype for global declaration")).
Proof.
  intros Hc Hd. unfold NewParse.parse_global_declaration.
  unfold NewParse.match_, NewParse.current_value_in. rewrite Hc.
  unfold is_datatype in Hd. unfold differs. simpl.
  destruct (String.eqb (type tok) KEYWORD); simpl in *; [|reflexivity].
  now rewrite Hd.
Qed.

Lemma old_statement_fallback tokens self_e self_x p tok :
  CppParser.current_token tokens p = Some tok ->
  starts_statement tok = false ->
  CppParser.x tokens self_e self_x p = Some (false, p).
Proof.
  intros Hc Hs. unfold CppParser.x. rewrite Hc.
  unfold starts_statement, is_datatype in Hs.
  apply orb_false_elim in Hs. destruct Hs as (Hs & Hi).
  apply orb_false_elim in Hs. destruct Hs as (Hd & Hk).
  rewrite Hd, Hi.
  destruct (String.eqb (type tok) KEYWORD); simpl in *; [|reflexivity].
  apply orb_false_elim in Hk. destruct Hk as (K1 & Hk).
  apply orb_false_elim in Hk. destruct Hk as (K2 & Hk).
  apply orb_false_elim in Hk. destruct Hk as (K3 & Hk).
  apply orb_false_elim in Hk. destruct Hk as (K4 & _).
  now rewrite K1, K2, K3, K4.
Qed.

Lemma old_declaration_fallback tok rest :
  is_datatype tok = false ->
  CppParser.structural_pass (tok :: rest) =
  Some (CppParser.add_error (tok :: rest)
          "Expected datatype for global declaration" init).
Proof.
  intros Hd. unfold CppParser.structural_pass, CppParser.program.
  unfold CppParser.budget. cbn [loop length].
  unfold CppParser.global_declaration.
  change (CppParser.current_token (tok :: rest) init) with (Some tok).
  cbn [is_some]. unfold is_datatype in Hd. rewrite Hd. reflexivity.
Qed.




(** C4, as stated, fails: [advance] has no guard.  At the end of a
    stream of three tokens it moves the cursor to four. *)
Lemma advance_moves_past_the_end :
  pos (mkParser 3 [] false) <= length scenario_C
  /\ length scenario_C < pos (NewParse.advance (mkParser 3 [] false)).
Proof.
  simpl. lia.
Qed.

(** C4, amended.  The cursor stays between 0 and the number of tokens
    throughout every parse: from a state in bounds, every statement and
    every expression of either file returns in a state that is in bounds
    and not behind the one it started from ([good]), and so do the two
    structural passes; the rules are composed of steps that never move the
    cursor back, so the states in between are in bounds as well.
    [advance] itself increments without a guard, and stays in bounds
    because a token is present wherever it is called. *)
Theorem cursor_stays_in_bounds (tokens : list Token) (d : nat) (p : Parser) :
  pos p <= length tokens -> length tokens - pos p < d ->
  returns (good tokens p) (NewParse.parse_statement_at tokens d p)
  /\ returns (good tokens p) (NewParse.parse_expression_at tokens d p)
  /\ returns (fun r => good tokens p (snd r)) (CppParser.x_at tokens d p)
  /\ returns (fun r => good tokens p (snd r))
       (CppParser.expression_at tokens d p)
  /\ returns (good tokens init) (NewParse.structural_pass tokens)
  /\ returns (good tokens init) (CppParser.structural_pass tokens)
  /\ (forall q t, NewParse.current tokens q = Some t ->
        pos (NewParse.advance q) = pos q + 1
        /\ pos (NewParse.advance q) <= length tokens).
Proof.
  intros Hb Hd. split; [|split; [|split; [|split; [|split; [|split]]]]].
  - apply moved_good. now apply parse_statement_at_moved.
  - apply moved_good. now apply parse_expression_at_moved.
  - eapply returns_weaken; [now apply x_at_ruled|]. now intros r (H & _).
  - apply parsed_good. now apply expression_at_good.
  - eapply returns_weaken; [apply structural_pass_good|]. now intros r (H & _).
  - eapply returns_weaken; [apply program_pass_good|]. now intros r (H & _).
  - intros q t Hc. apply current_in_bounds in Hc. simpl. lia.
Qed.

Lemma cursor_stays_in_bounds_witness :
  returns (good scenario_A init) (NewParse.structural_pass scenario_A)
  /\ returns (good scenario_A init) (CppParser.structural_pass scenario_A).
Proof.
  assert (H0 : pos init <= length scenario_A) by (simpl; lia).
  assert (H1 : length scenario_A - pos init < 10) by (simpl; lia).
  destruct (cursor_stays_in_bounds scenario_A 10 init H0 H1)
    as (_ & _ & _ & _ & A & B & _).
  split; [exact A | exact B].
Defined.


(** C7.  [int main ( ) { return 0 ; }] is accepted with no diagnostic by
    both files, from the token list and from the token file. *)
Theorem scenario_A_is_accepted :
  NewParse.parse scenario_A = Some (true, mkParser 9 [] true)
  /\ CppParser.parse scenario_A = Some (true, mkParser 9 [] true)
  /\ NewParse.read_tokens_from_file scenario_A_lines = inr scenario_A
  /\ CppParser.read_tokens_from_file scenario_A_lines = scenario_A
  /\ NewParse.parse_cpp_tokens "text.txt" (FileLines scenario_A_lines)
     = Some (true, [])
  /\ CppParser.parse_cpp_tokens "text.txt" (FileLines scenario_A_lines)
     = Some (true, []).
Proof.
  repeat split; vm_compute; reflexivity.
Qed.

(** C8.  The expression rule reads [1 + 2 * 3] and [1 < 2 && 3 > 4] to
    the end and records nothing, in both files; a program whose body
    starts a statement with [* 3] is rejected with a diagnostic by both
    files. *)
Theorem expressions_combine_and_bare_star_is_rejected :
  NewParse.parse_expression_at sum_product (NewParse.budget sum_product) init
    = Some (mkParser 5 [] false)
  /\ CppParser.expression_at sum_product (CppParser.budget sum_product) init
    = Some (true, mkParser 5 [] false)
  /\ NewParse.parse_expression_at comparison_and
       (NewParse.budget comparison_and) init
    = Some (mkParser 7 [] false)
  /\ CppParser.expression_at comparison_and
       (CppParser.budget comparison_and) init
    = Some (true, mkParser 7 [] false)
  /\ NewParse.parse bare_star
    = Some (false,
            mkParser 9
              ["Invalid statement starting with OPERATOR '*'";
               "Invalid statement starting with NUMBER '3'";
               "Invalid statement starting with SPECIAL CHARACTER ';'"]
              true)
  /\ CppParser.parse bare_star
    = Some (false,
            mkParser 5
              ["At token 5 (OPERATOR, *): Invalid statement in block"] true).
Proof.
  repeat split; vm_compute; reflexivity.
Qed.

(** C9.  A line in angle brackets without a comma, after the lines of
    [scenario_A]: src/cpp_parser.py skips it and accepts the file;
    src/new_parse.py faults on it and the entry function answers with
    that fault. *)
Theorem bracketed_line_without_comma :
  CppParser.read_tokens_from_file (scenario_A_lines ++ ["<EOF>"]) = scenario_A
  /\ CppParser.parse_cpp_tokens "text.txt"
       (FileLines (scenario_A_lines ++ ["<EOF>"]))
     = Some (true, [])
  /\ NewParse.read_tokens_from_file (scenario_A_lines ++ ["<EOF>"])
     = inl "not enough values to unpack (expected 2, got 1)"
  /\ NewParse.parse_cpp_tokens "text.txt"
       (FileLines (scenario_A_lines ++ ["<EOF>"]))
     = Some (false, ["Error: not enough values to unpack (expected 2, got 1)"]).
Proof.
  repeat split; vm_compute; reflexivity.
Qed.

Lemma new_finish_rejects (o : pass_outcome) :
  fst (NewParse.finish o) = true \/ errors (snd (NewParse.finish o)) <> [].
Proof.
  destruct (fst (NewParse.finish o)) eqn:E; [now left | right].
  intros H. destruct (new_finish_verdict o) as (_ & K).
  destruct o as [p|p e]; simpl in *.
  - destruct (has_main p); simpl in *.
    + rewrite H in E. discriminate.
    + destruct (errors p); discriminate.
  - destruct (errors p); discriminate.
Qed.

Lemma old_finish_rejects tokens (o : pass_outcome) :
  fst (CppParser.finish tokens o) = true
  \/ errors (snd (CppParser.finish tokens o)) <> [].
Proof.
  destruct o as [p|p e]; unfold CppParser.finish.
  - destruct (has_main p); cbn [negb fst snd].
    + destruct (errors p); simpl; [now left | right; discriminate].
    + right. destruct (errors_add_error_app tokens "Missing main function" p)
        as (e & ->). destruct (errors p); discriminate.
  - right. cbn [snd].
    destruct (errors_add_error_app tokens ("Parser exception: " ++ e)%string p)
      as (e' & ->). destruct (errors p); discriminate.
Qed.

(** C10.  Whatever the path and whatever reading the file gives, the
    entry function of either file returns, and an answer that is not an
    acceptance carries at least one diagnostic; the same holds for the
    verdict computed after a fault was raised during the pass. *)
Theorem rejection_carries_a_diagnostic (filename : string) (f : file_read) :
  (exists r, NewParse.parse_cpp_tokens filename f = Some r
             /\ (fst r = true \/ snd r <> []))
  /\ (exists r, CppParser.parse_cpp_tokens filename f = Some r
                /\ (fst r = true \/ snd r <> []))
  /\ (forall o, fst (NewParse.finish o) = true
                \/ errors (snd (NewParse.finish o)) <> [])
  /\ (forall tokens o, fst (CppParser.finish tokens o) = true
                       \/ errors (snd (CppParser.finish tokens o)) <> []).
Proof.
  split; [|split; [|split]].
  - unfold NewParse.parse_cpp_tokens. destruct f as [| e | lines].
    + eexists. split; [reflexivity|]. right. discriminate.
    + eexists. split; [reflexivity|]. right. discriminate.
    + destruct (NewParse.read_tokens_from_file lines) as [e | [|t tokens]].
      * eexists. split; [reflexivity|]. right. discriminate.
      * eexists. split; [reflexivity|]. right. discriminate.
      * destruct (new_parse_returns (t :: tokens)) as (p & _ & -> & _).
        cbn [bind]. destruct (NewParse.finish (Completed p)) as [v q] eqn:E.
        eexists. split; [reflexivity|]. cbn [fst snd].
        pose proof (new_finish_rejects (Completed p)) as K.
        rewrite E in K. exact K.
  - unfold CppParser.parse_cpp_tokens. destruct f as [| e | lines].
    + eexists. split; [reflexivity|]. right. discriminate.
    + eexists. split; [reflexivity|]. right. discriminate.
    + destruct (CppParser.read_tokens_from_file lines) as [|t tokens].
      * eexists. split; [reflexivity|]. right. discriminate.
      * destruct (old_parse_returns (t :: tokens)) as (p & _ & -> & _).
        cbn [bind].
        destruct (CppParser.finish (t :: tokens) (Completed p)) as [v q] eqn:E.
        eexists. split; [reflexivity|]. cbn [fst snd].
        pose proof (old_finish_rejects (t :: tokens) (Completed p)) as K.
        rewrite E in K. exact K.
  - apply new_finish_rejects.
  - apply old_finish_rejects.
Qed.

(** C6 fails through a defect of each file.  On
    [int main ( ) { if ( a ) }] src/cpp_parser.py accepts: its statement
    rule returns [False] on the closing brace without a diagnostic and
    [if_statement] drops that answer, where [block] of the same file
    records [Invalid statement in block]; src/new_parse.py rejects.  On
    [int "main" ( ) { }] src/new_parse.py accepts: [parse_function],
    whose docstring reads [datatype id() { ... }], takes any token as the
    name of the function, a string literal here; src/cpp_parser.py asks
    for an identifier or a keyword and rejects. *)
Lemma the_two_parsers_disagree :
  verdict (CppParser.parse empty_if_body) = Some true
  /\ verdict (NewParse.parse empty_if_body) = Some false
  /\ verdict (CppParser.parse string_named_main) = Some false
  /\ verdict (NewParse.parse string_named_main) = Some true.
Proof.
  repeat split; vm_compute; reflexivity.
Qed.

Lemma clean_true (o : option Parser) p :
  o = Some p -> (clean o = true <-> length (errors p) = 0).
Proof.
  intros ->. simpl. apply Nat.eqb_eq.
Qed.

(** Where the structural passes of the two files are equally quiet the
    verdicts are equal, and where both are quiet they end in the same
    state. *)
Lemma equally_quiet_passes (tokens : list Token) :
  clean (CppParser.structural_pass tokens)
  = clean (NewParse.structural_pass tokens) ->
  verdict (CppParser.parse tokens) = verdict (NewParse.parse tokens)
  /\ (clean (CppParser.structural_pass tokens) = true ->
      CppParser.structural_pass tokens = NewParse.structural_pass tokens).
Proof.
  intros H.
  destruct (old_parse_returns tokens) as (po & Eo & Po & _).
  destruct (new_parse_returns tokens) as (pn & En & Pn & _).
  pose proof (clean_true _ _ Eo) as Ko. pose proof (clean_true _ _ En) as Kn.
  rewrite Po, Pn. unfold CppParser.finish, NewParse.finish, verdict.
  destruct (clean (CppParser.structural_pass tokens)) eqn:Co.
  - assert (Qo : length (errors po) = 0) by now apply Ko.
    assert (Qn : length (errors pn) = 0) by (apply Kn; now rewrite <- H).
    pose proof (structural_pass_same tokens po pn Eo En Qo Qn) as <-.
    split; [|intros _; congruence].
    destruct (has_main po); cbn [negb].
    + now rewrite Qo.
    + unfold append_error. cbn [errors]. rewrite length_app, Qo. reflexivity.
  - split; [|discriminate].
    assert (Qo : length (errors po) <> 0)
      by (intros Q; apply Ko in Q; discriminate).
    assert (Qn : length (errors pn) <> 0)
      by (intros Q; apply Kn in Q; rewrite <- H in Q; discriminate).
    destruct (has_main po), (has_main pn); cbn [negb];
      unfold append_error; cbn [errors]; rewrite ?length_app; cbn [length];
      repeat match goal with
      | |- context [Nat.eqb ?n 0] =>
          let E := fresh in
          destruct (Nat.eqb n 0) eqn:E; [apply Nat.eqb_eq in E; lia|]
      end; reflexivity.
Qed.

(** X20.  Where the two files agree.  When the loops of [parse] of both
    files run to their ends on the same tokens, and either both have
    recorded a diagnostic or neither has, the two files give the same
    verdict; when neither has, the two loops end in the same state:
    same cursor, same main-flag. *)
Theorem quiet_passes_end_in_the_same_state (tokens : list Token)
    (po pn : Parser) :
  CppParser.structural_pass tokens = Some po ->
  NewParse.structural_pass tokens = Some pn ->
  (errors po = [] <-> errors pn = []) ->
  fst (CppParser.finish tokens (Completed po))
  = fst (NewParse.finish (Completed pn))
  /\ (errors po = [] -> po = pn).
Proof.
  intros Eo En Q.
  assert (C : clean (CppParser.structural_pass tokens)
              = clean (NewParse.structural_pass tokens)).
  { rewrite Eo, En. cbn [clean].
    destruct (errors po) as [|x l], (errors pn) as [|y k]; cbn [length Nat.eqb];
      try reflexivity.
    - destruct Q as [Q _]. specialize (Q eq_refl). discriminate.
    - destruct Q as [_ Q]. specialize (Q eq_refl). discriminate. }
  destruct (equally_quiet_passes tokens C) as [V S].
  unfold CppParser.parse, NewParse.parse in V. rewrite Eo, En in V.
  cbn [bind verdict] in V.
  destruct (CppParser.finish tokens (Completed po)) as [a qa].
  destruct (NewParse.finish (Completed pn)) as [b qb].
  cbn [fst]. split; [congruence|].
  intros K. rewrite Eo, En in S.
  assert (T : clean (Some po) = true) by (cbn [clean]; now rewrite K).
  specialize (S T). congruence.
Qed.

Lemma quiet_passes_end_in_the_same_state_witness :
  (CppParser.structural_pass scenario_A = Some (mkParser 9 [] true)
   /\ NewParse.structural_pass scenario_A = Some (mkParser 9 [] true))
  /\ fst (CppParser.finish scenario_A (Completed (mkParser 9 [] true)))
     = fst (NewParse.finish (Completed (mkParser 9 [] true)))
  /\ (errors (mkParser 9 [] true) = [] ->
      mkParser 9 [] true = mkParser 9 [] true).
Proof.
  split; [split; vm_compute; reflexivity|].
  apply (quiet_passes_end_in_the_same_state scenario_A).
  - vm_compute. reflexivity.
  - vm_compute. reflexivity.
  - split; reflexivity.
Defined.

(** * Further properties of the two parsers *)

Lemma flag_needs_main tokens p :
  good tokens init p -> has_main p = true -> declares_main tokens = true.
Proof.
  intros (_ & _ & _ & _ & H) Hm.
  destruct (H Hm) as [K|K]; [discriminate | exact K].
Qed.

Lemma verdict_true (r : option (bool * Parser)) :
  verdict r = Some true -> exists p, r = Some (true, p).
Proof.
  destruct r as [[[|] p]|]; simpl; intros H; try discriminate. eauto.
Qed.

(** X1.  A token sequence is accepted, by either file, only if a function
    named [main] starts somewhere in it: a datatype keyword, a token whose
    lexeme is [main], an opening parenthesis. *)
Theorem accepted_program_declares_main (tokens : list Token) :
  verdict (NewParse.parse tokens) = Some true
  \/ verdict (CppParser.parse tokens) = Some true ->
  declares_main tokens = true.
Proof.
  intros [H|H]; apply verdict_true in H; destruct H as (q & E).
  - destruct (new_parse_returns tokens) as (p & _ & Ep & Hg & _).
    rewrite Ep in E.
    assert (K0 : NewParse.finish (Completed p) = (true, q)) by congruence.
    assert (K : fst (NewParse.finish (Completed p)) = true)
      by now rewrite K0.
    apply new_finish_verdict in K. destruct K as (_ & Hm).
    simpl in Hm. destruct (has_main p) eqn:Hp.
    + eapply flag_needs_main; eauto.
    + simpl in Hm. congruence.
  - destruct (old_parse_returns tokens) as (p & _ & Ep & Hg & _).
    rewrite Ep in E. unfold CppParser.finish in E.
    destruct (has_main p) eqn:Hp.
    + eapply flag_needs_main; eauto.
    + simpl in E. discriminate.
Qed.

Lemma accepted_program_declares_main_witness :
  declares_main scenario_A = true.
Proof.
  apply (accepted_program_declares_main scenario_A).
  left. vm_compute. reflexivity.
Defined.

(** X2.  Acceptance means that every token was read: when [parse] of
    either file answers [True], the cursor is at the end of the stream.
    In src/cpp_parser.py, whose top-level loop can stop early, a pass that
    stops before the end has recorded a diagnostic. *)
Theorem accepted_program_is_read_to_the_end (tokens : list Token) :
  returns (fun r => fst r = true -> pos (snd r) = length tokens)
    (NewParse.parse tokens)
  /\ returns (fun r => fst r = true -> pos (snd r) = length tokens)
       (CppParser.parse tokens)
  /\ returns (fun p => pos p < length tokens -> errors p <> [])
       (CppParser.structural_pass tokens).
Proof.
  split; [|split].
  - destruct (new_parse_returns tokens) as (p & _ & Ep & _ & Hp).
    rewrite Ep. apply returns_some. intros _.
    simpl. destruct (has_main p); simpl; exact Hp.
  - destruct (old_parse_returns tokens) as (p & _ & Ep & _ & Hp).
    rewrite Ep. apply returns_some. unfold CppParser.finish.
    destruct (has_main p); cbn [negb fst snd]; [|discriminate].
    intros H. apply Hp. destruct (errors p); [reflexivity | discriminate].
  - destruct (old_parse_returns tokens) as (p & E & _ & _ & Hp).
    rewrite E. apply returns_some. intros Hlt He.
    specialize (Hp He). lia.
Qed.

(** X3.  A token sequence whose first token is not a datatype keyword is
    rejected by both files, whatever follows. *)
Theorem program_must_start_with_a_datatype (tok : Token) (rest : list Token) :
  is_datatype tok = false ->
  verdict (NewParse.parse (tok :: rest)) = Some false
  /\ verdict (CppParser.parse (tok :: rest)) = Some false.
Proof.
  intros Hd. split.
  - set (tokens := tok :: rest).
    assert (Hc : NewParse.current tokens init = Some tok) by reflexivity.
    pose proof (new_declaration_fallback tokens
                  (NewParse.parse_expression_at tokens (NewParse.budget tokens))
                  (NewParse.parse_statement_at tokens (NewParse.budget tokens))
                  init tok Hc Hd) as E1.
    set (q1 := mkParser (pos init + 1)
                 (errors init ++ ["Expected datatype for global declaration"])
                 (has_main init)) in E1.
    assert (Hg : returns (fun p' => good tokens q1 p'
                            /\ is_some (NewParse.current tokens p') = false)
                   (while_ (length tokens)
                      (fun q => is_some (NewParse.current tokens q))
                      (NewParse.parse_global_declaration tokens
                         (NewParse.parse_expression_at tokens
                            (NewParse.budget tokens))
                         (NewParse.parse_statement_at tokens
                            (NewParse.budget tokens))) q1)).
    { apply while_returns with (p0 := q1).
      - intros q Hq Hm. destruct (is_some_current _ _ Hm) as (t & Ht).
        apply (parse_global_declaration_good tokens (NewParse.budget tokens)
                 _ _ (parse_expression_moved tokens)
                 (parse_statement_at_moved tokens (NewParse.budget tokens))
                 q t Ht).
        apply current_in_bounds in Ht. unfold NewParse.budget. lia.
      - apply good_refl. subst q1 tokens. simpl. lia.
      - subst q1 tokens. simpl. lia. }
    destruct Hg as (p & Ep & Hp & _).
    assert (Es : NewParse.structural_pass tokens = Some p).
    { unfold NewParse.structural_pass, NewParse.declarations, while_.
      unfold NewParse.budget at 1. cbn [loop]. rewrite Hc. cbn [is_some].
      rewrite E1. cbn [bind]. exact Ep. }
    unfold NewParse.parse. rewrite Es. cbn [bind verdict].
    destruct Hp as (_ & _ & (l & El) & _).
    unfold NewParse.finish. subst q1. simpl in El.
    destruct (negb (has_main p)); simpl; rewrite ?El, ?length_app; simpl;
      reflexivity.
  - unfold CppParser.parse. rewrite (old_declaration_fallback _ _ Hd).
    reflexivity.
Qed.

Lemma program_must_start_with_a_datatype_witness :
  verdict (NewParse.parse stray_semicolon) = Some false
  /\ verdict (CppParser.parse stray_semicolon) = Some false.
Proof.
  apply (program_must_start_with_a_datatype (sp ";")). reflexivity.
Defined.

(** X4.  The four token tests agree.  [consume] and [expect] of
    src/cpp_parser.py and [consume] of src/new_parse.py answer what
    [match] of src/new_parse.py answers.  When the answer is [True] all
    three move the cursor by one and change nothing else.  When it is
    [False], [consume] of src/cpp_parser.py leaves the parser as it was,
    and the two others append one diagnostic and leave the cursor. *)
Theorem token_tests_agree (tokens : list Token)
    (ty v msg : option string) (p : Parser) :
  fst (CppParser.consume tokens ty v p) = NewParse.match_ tokens ty v p
  /\ fst (CppParser.expect tokens ty v msg p) = NewParse.match_ tokens ty v p
  /\ fst (NewParse.consume tokens ty v msg p) = NewParse.match_ tokens ty v p
  /\ (NewParse.match_ tokens ty v p = true ->
      snd (CppParser.consume tokens ty v p) = set_pos p (pos p + 1)
      /\ snd (CppParser.expect tokens ty v msg p) = set_pos p (pos p + 1)
      /\ snd (NewParse.consume tokens ty v msg p) = set_pos p (pos p + 1))
  /\ (NewParse.match_ tokens ty v p = false ->
      snd (CppParser.consume tokens ty v p) = p
      /\ (exists m, snd (CppParser.expect tokens ty v msg p)
                    = append_error p m)
      /\ (exists m, snd (NewParse.consume tokens ty v msg p)
                    = append_error p m)).
Proof.
  unfold CppParser.consume, CppParser.expect, NewParse.consume,
    NewParse.match_, CppParser.add_error, CppParser.current_token,
    NewParse.current, CppParser.next, NewParse.advance.
  destruct (nth_error tokens (pos p)) as [t|] eqn:Hc.
  - destruct (differs ty (type t)); [|destruct (differs v (value t))];
      cbn [fst snd]; repeat split; intros; try discriminate; eauto;
      destruct p; reflexivity.
  - cbn [fst snd]. repeat split; intros; try discriminate; eauto.
Qed.

Section SilentFailure.

Variable tokens : list Token.

Lemma x_with_a_production d p tok :
  CppParser.current_token tokens p = Some tok ->
  starts_statement tok = true ->
  length tokens - pos p < S d ->
  returns (ruled tokens p)
    (CppParser.x tokens (CppParser.expression_at tokens (CppParser.budget tokens))
       (CppParser.x_at tokens d) p).
Proof.
  intros Hc Hs Hd.
  pose proof (expression_good tokens) as He.
  pose proof (x_at_ruled tokens d) as Hx.
  assert (Hb : pos p <= length tokens)
    by (apply current_token_le in Hc; exact Hc).
  unfold CppParser.x. rewrite Hc.
  unfold starts_statement, is_datatype in Hs.
  destruct (String.eqb (type tok) KEYWORD && str_in (value tok) datatypes)
    eqn:Hk.
  { destruct (CppParser.tok_is SPECIAL "(" (CppParser.peek_token tokens 2 p))
      eqn:Hp.
    - eapply func_ruled; eauto. rewrite Hc. exact Hk.
    - eapply assign_ruled; eauto. }
  destruct (String.eqb (type tok) KEYWORD && String.eqb (value tok) "if")
    eqn:Hif; [eapply if_statement_ruled; eauto|].
  destruct (String.eqb (type tok) KEYWORD && String.eqb (value tok) "while")
    eqn:Hw; [eapply while_statement_ruled; eauto|].
  destruct (String.eqb (type tok) KEYWORD && String.eqb (value tok) "for")
    eqn:Hf; [eapply for_statement_ruled; eauto|].
  destruct (String.eqb (type tok) KEYWORD && String.eqb (value tok) "return")
    eqn:Hr; [eapply return_statement_ruled; eauto|].
  destruct (String.eqb (type tok) IDENTIFIER) eqn:Hi.
  { destruct (CppParser.tok_is OPERATOR "=" (CppParser.peek_token tokens 1 p)).
    - eapply assign_ruled; eauto.
    - now apply expression_statement_ruled. }
  exfalso. cbn [orb] in Hs. rewrite orb_false_r in Hs.
  destruct (String.eqb (type tok) KEYWORD); cbn [andb] in *; [|discriminate].
  unfold str_in in Hs. cbn [existsb] in Hs.
  rewrite Hif, Hw, Hf, Hr in Hs. discriminate.
Qed.

End SilentFailure.

(** X5.  The statement rule [x] of src/cpp_parser.py answers [False]
    without a diagnostic in two cases only: no token is left, or the token
    is one it has no production for; the parser is then left as it was.
    On every other token [True] comes with a cursor moved forward and
    [False] with a new diagnostic. *)
Theorem x_is_silent_only_without_a_production (tokens : list Token)
    (p : Parser) :
  pos p <= length tokens ->
  returns
    (fun r =>
       match CppParser.current_token tokens p with
       | None => r = (false, p)
       | Some tok =>
           if starts_statement tok then
             (fst r = true -> pos p < pos (snd r))
             /\ (fst r = false ->
                 length (errors p) < length (errors (snd r)))
           else r = (false, p)
       end)
    (CppParser.x_at tokens (CppParser.budget tokens) p).
Proof.
  intros Hb. unfold CppParser.budget. cbn [CppParser.x_at].
  destruct (CppParser.current_token tokens p) as [tok|] eqn:Hc.
  - destruct (starts_statement tok) eqn:Hs.
    + eapply returns_weaken.
      * apply (x_with_a_production tokens (length tokens) p tok Hc Hs). lia.
      * intros r (_ & Ht & Hf). auto.
    + rewrite (old_statement_fallback _ _ _ _ _ Hc Hs).
      now apply returns_some.
  - unfold CppParser.x. rewrite Hc. now apply returns_some.
Qed.

Lemma x_is_silent_only_without_a_production_witness :
  CppParser.x_at bare_star (CppParser.budget bare_star) (mkParser 5 [] true)
  = Some (false, mkParser 5 [] true).
Proof.
  destruct (x_is_silent_only_without_a_production bare_star
              (mkParser 5 [] true)) as (r & E & H).
  - simpl. lia.
  - rewrite E. f_equal. exact H.
Defined.

(** * The readers of token files *)

Section Strings.

Lemma rstrip_keeps (s : string) (c : ascii) :
  is_space c = false ->
  rstrip (s ++ String c EmptyString) = (s ++ String c EmptyString)%string.
Proof.
  intros Hc. induction s as [|d s IH]; simpl.
  - now rewrite Hc.
  - rewrite IH. destruct s; reflexivity.
Qed.

Lemma rstrip_rstrip (s : string) : rstrip (rstrip s) = rstrip s.
Proof.
  induction s as [|c r IH]; simpl; [reflexivity|].
  destruct (rstrip r) as [|d r'] eqn:E.
  - destruct (is_space c) eqn:Hc; simpl; [reflexivity | now rewrite Hc].
  - change (rstrip (String c (String d r')) = String c (String d r')).
    cbn [rstrip] in *. rewrite IH. reflexivity.
Qed.

Lemma lstrip_head (s : string) :
  match lstrip s with
  | String c _ => is_space c = false
  | EmptyString => True
  end.
Proof.
  induction s as [|c r IH]; simpl; [exact I|].
  destruct (is_space c) eqn:Hc; [exact IH | exact Hc].
Qed.

Lemma rstrip_head (c : ascii) (r : string) :
  is_space c = false -> exists r', rstrip (String c r) = String c r'.
Proof.
  intros Hc. simpl. destruct (rstrip r); rewrite ?Hc; eauto.
Qed.

Lemma strip_strip (s : string) : strip (strip s) = strip s.
Proof.
  unfold strip. pose proof (lstrip_head s) as H.
  destruct (lstrip s) as [|c r] eqn:E; [reflexivity|].
  destruct (rstrip_head c r H) as (r' & Er).
  rewrite Er. cbn [lstrip]. rewrite H. rewrite <- Er. apply rstrip_rstrip.
Qed.

Lemma no_comma_lstrip (s : string) :
  no_comma s = true -> no_comma (lstrip s) = true.
Proof.
  induction s as [|c r IH]; simpl; [auto|].
  intros H. apply andb_prop in H. destruct H as [H1 H2].
  destruct (is_space c); [auto | simpl; now rewrite H1, H2].
Qed.

Lemma no_comma_rstrip (s : string) :
  no_comma s = true -> no_comma (rstrip s) = true.
Proof.
  induction s as [|c r IH]; simpl; [auto|].
  intros H. apply andb_prop in H. destruct H as [H1 H2].
  specialize (IH H2).
  destruct (rstrip r); [destruct (is_space c)|]; simpl in *;
    rewrite ?H1, ?IH; reflexivity.
Qed.

Lemma no_comma_strip (s : string) :
  no_comma s = true -> no_comma (strip s) = true.
Proof.
  intros H. unfold strip. now apply no_comma_rstrip, no_comma_lstrip.
Qed.

(** [split(',', 1)] cuts at the first comma. *)
Lemma split_comma_spec (s : string) :
  match split_comma s with
  | (a, Some b) =>
      no_comma a = true /\ s = (a ++ String ","%char b)%string
  | (a, None) => no_comma s = true /\ a = s
  end.
Proof.
  induction s as [|c r IH]; simpl; [auto|].
  destruct (Ascii.eqb c ","%char) eqn:Hc.
  - apply Ascii.eqb_eq in Hc. subst c. simpl. auto.
  - destruct (split_comma r) as [a [b|]]; simpl; rewrite ?Hc; simpl;
      destruct IH as [H1 H2]; split; auto; congruence.
Qed.

Lemma split_comma_app (a b : string) :
  no_comma a = true ->
  split_comma (a ++ String ","%char b) = (a, Some b).
Proof.
  induction a as [|c r IH]; simpl; [reflexivity|].
  intros H. apply andb_prop in H. destruct H as [H1 H2].
  apply negb_true_iff in H1. rewrite H1, (IH H2). reflexivity.
Qed.

Lemma split_comma_none (s : string) :
  no_comma s = true -> split_comma s = (s, None).
Proof.
  induction s as [|c r IH]; simpl; [reflexivity|].
  intros H. apply andb_prop in H. destruct H as [H1 H2].
  apply negb_true_iff in H1. rewrite H1, (IH H2). reflexivity.
Qed.

Lemma endswith_app (s : string) (c : ascii) :
  endswith (s ++ String c EmptyString) c = true.
Proof.
  induction s as [|d s IH]; simpl.
  - apply Ascii.eqb_refl.
  - destruct (s ++ String c EmptyString)%string eqn:E; [|exact IH].
    destruct s; discriminate.
Qed.

Lemma drop_last_app (s : string) (c : ascii) :
  drop_last (s ++ String c EmptyString) = s.
Proof.
  induction s as [|d s IH]; simpl; [reflexivity|].
  rewrite IH. destruct s; reflexivity.
Qed.

Lemma append_assoc (a b c : string) :
  ((a ++ b) ++ c = a ++ (b ++ c))%string.
Proof.
  induction a as [|x a IH]; simpl; [reflexivity | now rewrite IH].
Qed.

End Strings.

(** What a line holding one token gives: the text before the first comma
    and the text after it, both stripped. *)
Lemma line_of_a_token (l a b : string) :
  no_comma a = true ->
  strip l = ("<" ++ a ++ "," ++ b ++ ">")%string ->
  String.eqb (strip l) "" = false
  /\ bracketed l = true
  /\ split_comma (inner (strip l)) = (a, Some b).
Proof.
  intros Ha E. unfold bracketed. rewrite E. split; [reflexivity|]. split.
  - apply andb_true_intro. split; [reflexivity|].
    change ("<" ++ a ++ "," ++ b ++ ">")%string
      with (String "<"%char (a ++ String ","%char (b ++ ">")))%string.
    replace (String "<"%char (a ++ String ","%char (b ++ ">")))%string
      with ((String "<"%char (a ++ String ","%char b)) ++ ">")%string.
    + apply endswith_app.
    + simpl. f_equal. now rewrite append_assoc.
  - unfold inner.
    change ("<" ++ a ++ "," ++ b ++ ">")%string
      with (String "<"%char (a ++ String ","%char (b ++ ">")))%string.
    replace (a ++ String ","%char (b ++ ">"))%string
      with ((a ++ String ","%char b) ++ ">")%string
      by (now rewrite append_assoc).
    rewrite drop_last_app. now apply split_comma_app.
Qed.

Lemma new_reader_by_old_reader (lines : list string) :
  NewParse.read_tokens_from_file lines =
  if existsb commaless lines
  then inl "not enough values to unpack (expected 2, got 1)"%string
  else inr (CppParser.read_tokens_from_file lines).
Proof.
  induction lines as [|l rest IH]; [reflexivity|].
  cbn [NewParse.read_tokens_from_file CppParser.read_tokens_from_file existsb].
  unfold commaless at 1, bracketed.
  destruct (startswith (strip l) "<" && endswith (strip l) ">") eqn:Hb;
    cbn [andb orb].
  - assert (Hn : String.eqb (strip l) "" = false).
    { destruct (strip l); [discriminate | reflexivity]. }
    rewrite Hn. pose proof (split_comma_spec (inner (strip l))) as Hs.
    destruct (split_comma (inner (strip l))) as [a [b|]].
    + destruct Hs as [Ha Hs].
      assert (Hc : no_comma (inner (strip l)) = false).
      { rewrite Hs. clear. induction a as [|c a IH]; simpl.
        - reflexivity.
        - rewrite IH. apply andb_false_r. }
      rewrite Hc. cbn [orb]. rewrite IH.
      destruct (existsb commaless rest); reflexivity.
    + destruct Hs as [Hs _]. rewrite Hs. reflexivity.
  - rewrite IH. destruct (String.eqb (strip l) ""); reflexivity.
Qed.

(** X6.  On ASCII lines the two readers differ on one kind of line
    only.  When some line, stripped, is in angle brackets and has no
    comma, [read_tokens_from_file] of src/new_parse.py raises
    [ValueError]; otherwise it returns the list that
    [read_tokens_from_file] of src/cpp_parser.py returns, which never
    fails and skips such lines. *)
Theorem readers_differ_only_on_commaless_lines (lines : list string) :
  forallb ascii_text lines = true ->
  NewParse.read_tokens_from_file lines =
  if existsb commaless lines
  then inl "not enough values to unpack (expected 2, got 1)"%string
  else inr (CppParser.read_tokens_from_file lines).
Proof.
  intros _. apply new_reader_by_old_reader.
Qed.

Lemma readers_differ_only_on_commaless_lines_witness :
  NewParse.read_tokens_from_file ["<KEYWORD, int>"; "  <EOF>  "; "<x>"]
  = inl "not enough values to unpack (expected 2, got 1)"%string
  /\ NewParse.read_tokens_from_file ["<KEYWORD, int>"; "EOF"; "x>"]
     = inr (CppParser.read_tokens_from_file ["<KEYWORD, int>"; "EOF"; "x>"]).
Proof.
  split.
  - exact (readers_differ_only_on_commaless_lines
             ["<KEYWORD, int>"; "  <EOF>  "; "<x>"] eq_refl).
  - exact (readers_differ_only_on_commaless_lines
             ["<KEYWORD, int>"; "EOF"; "x>"] eq_refl).
Defined.

Lemma one_token_line (l a b : string)
    (rest : list string) :
  no_comma a = true ->
  strip l = ("<" ++ a ++ "," ++ b ++ ">")%string ->
  CppParser.read_tokens_from_file (l :: rest)
  = mkToken (strip a) (strip b) :: CppParser.read_tokens_from_file rest
  /\ NewParse.read_tokens_from_file (l :: rest)
     = match NewParse.read_tokens_from_file rest with
       | inl e => inl e
       | inr tokens => inr (mkToken (strip a) (strip b) :: tokens)
       end.
Proof.
  intros Ha E. destruct (line_of_a_token l a b Ha E) as (Hn & Hb & Hs).
  unfold bracketed in Hb.
  cbn [NewParse.read_tokens_from_file CppParser.read_tokens_from_file].
  rewrite Hn, Hb, Hs. split; reflexivity.
Qed.

(** X7.  An ASCII line that, stripped, reads [<a,b>] with no comma in
    [a] gives one token in both files: its type is [a] stripped and its
    value is [b] stripped.  So the value may hold commas and closing
    brackets, and white space around the line or around either field
    does not count. *)
Theorem bracketed_line_gives_one_token (l a b : string)
    (rest : list string) :
  ascii_text l = true ->
  no_comma a = true ->
  strip l = ("<" ++ a ++ "," ++ b ++ ">")%string ->
  CppParser.read_tokens_from_file (l :: rest)
  = mkToken (strip a) (strip b) :: CppParser.read_tokens_from_file rest
  /\ NewParse.read_tokens_from_file (l :: rest)
     = match NewParse.read_tokens_from_file rest with
       | inl e => inl e
       | inr tokens => inr (mkToken (strip a) (strip b) :: tokens)
       end.
Proof.
  intros _. apply one_token_line.
Qed.

Lemma bracketed_line_gives_one_token_witness :
  CppParser.read_tokens_from_file ["  <SPECIAL CHARACTER , ,>  "]
  = [mkToken "SPECIAL CHARACTER" ","]
  /\ NewParse.read_tokens_from_file ["  <SPECIAL CHARACTER , ,>  "]
     = inr [mkToken "SPECIAL CHARACTER" ","].
Proof.
  apply (bracketed_line_gives_one_token
           "  <SPECIAL CHARACTER , ,>  " "SPECIAL CHARACTER " " ," []);
    reflexivity.
Defined.

Lemma strip_token_line (t : Token) : strip (token_line t) = token_line t.
Proof.
  unfold strip, token_line. cbn [append lstrip].
  change (is_space "<"%char) with false. cbv iota.
  change (String "<"%char (type t ++ ", " ++ value t ++ ">"))%string
    with (String "<"%char (type t ++ String ","%char (String " "%char (value t ++ ">"))))%string.
  replace (String "<"%char (type t ++ String ","%char (String " "%char (value t ++ ">"))))%string
    with ((String "<"%char (type t ++ String ","%char (String " "%char (value t)))) ++ ">")%string.
  - now apply rstrip_keeps.
  - simpl. f_equal. now rewrite append_assoc.
Qed.

Lemma strip_leading_space (s : string) :
  strip (String " "%char s) = strip s.
Proof. reflexivity. Qed.

Lemma read_back (lines : list string) (tokens : list Token) :
  Forall storable tokens ->
  Forall2 (fun l t => strip l = token_line t) lines tokens ->
  CppParser.read_tokens_from_file lines = tokens
  /\ NewParse.read_tokens_from_file lines = inr tokens.
Proof.
  intros Hs H. induction H as [|l t lines tokens E H IH].
  - split; reflexivity.
  - inversion Hs as [|? ? (S1 & S2 & S3) Hs']. subst.
    destruct (IH Hs') as [IH1 IH2].
    destruct (one_token_line l (type t)
                (String " "%char (value t)) lines S3 E) as [B1 B2].
    rewrite B1, B2, IH1, IH2, strip_leading_space, S1, S2.
    destruct t; split; reflexivity.
Qed.

(** X8.  Writing and reading back.  When every token is storable (its
    fields neither start nor end with white space and its type has no
    comma), a file of ASCII lines that, stripped, are the lines
    [<TYPE, value>] of the tokens is read back as these tokens, by both
    files. *)
Theorem token_file_is_read_back (lines : list string) (tokens : list Token) :
  forallb ascii_text lines = true ->
  Forall storable tokens ->
  Forall2 (fun l t => strip l = token_line t) lines tokens ->
  CppParser.read_tokens_from_file lines = tokens
  /\ NewParse.read_tokens_from_file lines = inr tokens.
Proof.
  intros _. apply read_back.
Qed.

Lemma token_file_is_read_back_witness :
  CppParser.read_tokens_from_file scenario_A_lines = scenario_A
  /\ NewParse.read_tokens_from_file scenario_A_lines = inr scenario_A.
Proof.
  apply (token_file_is_read_back scenario_A_lines scenario_A).
  - reflexivity.
  - repeat constructor.
  - repeat constructor.
Defined.

(** X9.  Every token a reader returns is storable: its two fields are
    stripped and its type has no comma.  Every list of storable tokens
    being read back from its file, the token lists a reader can return
    are exactly the lists of storable tokens. *)
Theorem read_tokens_are_storable (lines : list string) :
  Forall storable (CppParser.read_tokens_from_file lines)
  /\ (forall tokens, NewParse.read_tokens_from_file lines = inr tokens ->
        Forall storable tokens).
Proof.
  assert (H : Forall storable (CppParser.read_tokens_from_file lines)).
  { induction lines as [|l rest IH]; [constructor|].
    cbn [CppParser.read_tokens_from_file].
    destruct (String.eqb (strip l) ""); [exact IH|].
    destruct (startswith (strip l) "<" && endswith (strip l) ">");
      [|exact IH].
    pose proof (split_comma_spec (inner (strip l))) as Hs.
    destruct (split_comma (inner (strip l))) as [a [b|]]; [|exact IH].
    constructor; [|exact IH].
    unfold storable. cbn [type value].
    rewrite !strip_strip. repeat split. apply no_comma_strip, Hs. }
  split; [exact H|].
  intros tokens E. rewrite new_reader_by_old_reader in E.
  destruct (existsb commaless lines); [discriminate|].
  injection E as <-. exact H.
Qed.

(** X10.  Reading is done line by line: the tokens of two files put one
    after the other are the tokens of the first followed by those of the
    second, and a file gives at most one token per line. *)
Theorem reading_is_line_by_line (l1 l2 : list string) :
  CppParser.read_tokens_from_file (l1 ++ l2)
  = CppParser.read_tokens_from_file l1 ++ CppParser.read_tokens_from_file l2
  /\ length (CppParser.read_tokens_from_file l1) <= length l1
  /\ NewParse.read_tokens_from_file (l1 ++ l2)
     = match NewParse.read_tokens_from_file l1,
             NewParse.read_tokens_from_file l2 with
       | inr t1, inr t2 => inr (t1 ++ t2)
       | inl e, _ => inl e
       | _, inl e => inl e
       end.
Proof.
  assert (A : forall l1 l2,
             CppParser.read_tokens_from_file (l1 ++ l2)
             = CppParser.read_tokens_from_file l1
               ++ CppParser.read_tokens_from_file l2).
  { clear. intros l1 l2. induction l1 as [|l rest IH]; [reflexivity|].
    cbn [app CppParser.read_tokens_from_file].
    destruct (String.eqb (strip l) ""); [exact IH|].
    destruct (startswith (strip l) "<" && endswith (strip l) ">");
      [|exact IH].
    destruct (split_comma (inner (strip l))) as [a [b|]]; [|exact IH].
    rewrite IH. reflexivity. }
  split; [apply A|]. split.
  - induction l1 as [|l rest IH]; [simpl; lia|].
    cbn [CppParser.read_tokens_from_file length].
    destruct (String.eqb (strip l) ""); [lia|].
    destruct (startswith (strip l) "<" && endswith (strip l) ">"); [|lia].
    destruct (split_comma (inner (strip l))) as [a [b|]]; simpl; lia.
  - rewrite !new_reader_by_old_reader, existsb_app, A.
    destruct (existsb commaless l1), (existsb commaless l2); reflexivity.
Qed.

(** X11.  A token file that can be read, is ASCII and has no line in
    angle brackets (an empty file, blank lines, prose) is rejected by
    both files with the one diagnostic [No tokens found in file]; no
    parser is run on it. *)
Theorem file_without_token_lines (filename : string) (lines : list string) :
  forallb ascii_text lines = true ->
  forallb (fun l => negb (bracketed l)) lines = true ->
  NewParse.parse_cpp_tokens filename (FileLines lines)
  = Some (false, ["No tokens found in file"%string])
  /\ CppParser.parse_cpp_tokens filename (FileLines lines)
     = Some (false, ["No tokens found in file"%string]).
Proof.
  intros _ H.
  assert (E : CppParser.read_tokens_from_file lines = []).
  { induction lines as [|l rest IH]; [reflexivity|].
    cbn [forallb] in H. apply andb_prop in H. destruct H as [H1 H2].
    cbn [CppParser.read_tokens_from_file].
    unfold bracketed in H1. apply negb_true_iff in H1. rewrite H1.
    destruct (String.eqb (strip l) ""); auto. }
  assert (C : existsb commaless lines = false).
  { clear E. induction lines as [|l rest IH]; [reflexivity|].
    cbn [forallb] in H. apply andb_prop in H. destruct H as [H1 H2].
    cbn [existsb]. unfold commaless at 1.
    apply negb_true_iff in H1. rewrite H1. simpl. auto. }
  unfold NewParse.parse_cpp_tokens, CppParser.parse_cpp_tokens.
  rewrite new_reader_by_old_reader, C, E. split; reflexivity.
Qed.

Lemma file_without_token_lines_witness :
  NewParse.parse_cpp_tokens "text.txt" (FileLines [""; "int main() {}"; ""])
  = Some (false, ["No tokens found in file"%string])
  /\ CppParser.parse_cpp_tokens "text.txt"
       (FileLines [""; "int main() {}"; ""])
     = Some (false, ["No tokens found in file"%string]).
Proof.
  apply (file_without_token_lines "text.txt" [""; "int main() {}"; ""]);
    reflexivity.
Defined.

(** * The expression rules read the expressions of the grammar *)

Section Suffixes.

Variable tokens : list Token.

(** [skipn i tokens] is what is left to read at cursor [i]. *)
Lemma nth_error_hd_skipn (l : list Token) (i : nat) :
  nth_error l i = hd_error (skipn i l).
Proof.
  revert l. induction i as [|i IH]; intros [|t l]; simpl; auto.
Qed.

Lemma suffix_current i p t l :
  skipn i tokens = t :: l -> NewParse.current tokens (set_pos p i) = Some t.
Proof.
  intros H. unfold NewParse.current. cbn [pos set_pos].
  now rewrite nth_error_hd_skipn, H.
Qed.

Lemma suffix_end i p :
  skipn i tokens = [] -> NewParse.current tokens (set_pos p i) = None.
Proof.
  intros H. unfold NewParse.current. cbn [pos set_pos].
  now rewrite nth_error_hd_skipn, H.
Qed.

Lemma suffix_next i t l : skipn i tokens = t :: l -> skipn (i + 1) tokens = l.
Proof.
  intros H. rewrite Nat.add_comm, <- skipn_skipn, H. reflexivity.
Qed.

Lemma suffix_skip i a b :
  skipn i tokens = a ++ b -> skipn (i + length a) tokens = b.
Proof.
  intros H. rewrite Nat.add_comm, <- skipn_skipn, H.
  rewrite skipn_app, skipn_all, Nat.sub_diag. reflexivity.
Qed.

Lemma suffix_bound i l : skipn i tokens = l -> length l <= length tokens.
Proof.
  intros <-. rewrite length_skipn. lia.
Qed.

End Suffixes.

Ltac lens := repeat (progress (cbn [length]; rewrite ?length_app; cbn [length])).

Ltac flat H :=
  repeat (progress (cbn [app] in H; rewrite <- ?app_assoc in H; cbn [app] in H)).

(** ** How sentences start *)

Lemma atom_type (t : Token) :
  str_in (type t) [IDENTIFIER; NUMBER; STRING] = true ->
  type t = IDENTIFIER \/ type t = NUMBER \/ type t = STRING.
Proof.
  unfold str_in. cbn [existsb]. intros H.
  destruct (String.eqb_spec (type t) IDENTIFIER); auto.
  destruct (String.eqb_spec (type t) NUMBER); auto.
  destruct (String.eqb_spec (type t) STRING); auto.
  discriminate.
Qed.

Lemma derives_starts n ts :
  derives n ts ->
  match n with
  | Primary | Postfix =>
      exists t l, ts = t :: l /\ starts_primary t = true
  | Unary | Binary _ =>
      exists t l, ts = t :: l /\ starts_expression t = true
  | _ => True
  end.
Proof.
  induction 1; try exact I.
  - exists t, []. split; [reflexivity|]. unfold starts_primary.
    now rewrite H.
  - eexists _, _. split; reflexivity.
  - destruct IHderives1 as (t & l & -> & Ht). eexists _, _.
    split; [reflexivity | exact Ht].
  - eexists _, _. split; [reflexivity|]. unfold starts_expression.
    cbn [type value op]. rewrite H. apply orb_true_r.
  - destruct IHderives as (t & l & -> & Ht). eexists _, _.
    split; [reflexivity|]. unfold starts_expression. now rewrite Ht.
  - assert (K : exists t l, a = t :: l /\ starts_expression t = true)
      by (destruct k; exact IHderives1).
    destruct K as (t & l & -> & Ht). eexists _, _.
    split; [reflexivity | exact Ht].
Qed.

Lemma starts_primary_cases (t : Token) :
  starts_primary t = true ->
  str_in (type t) [IDENTIFIER; NUMBER; STRING] = true
  \/ (type t = SPECIAL /\ value t = "(").
Proof.
  unfold starts_primary. intros H. apply orb_prop in H.
  destruct H as [H|H]; [now left | right].
  apply andb_prop in H. destruct H as [H1 H2].
  apply String.eqb_eq in H1, H2. auto.
Qed.

Lemma starts_expression_cases (t : Token) :
  starts_expression t = true ->
  str_in (type t) [IDENTIFIER; NUMBER; STRING] = true
  \/ (type t = SPECIAL /\ value t = "(")
  \/ (type t = OPERATOR /\ str_in (value t) prefix_operators = true).
Proof.
  unfold starts_expression. intros H. apply orb_prop in H.
  destruct H as [H|H].
  - destruct (starts_primary_cases t H); auto.
  - right. right. apply andb_prop in H. destruct H as [H1 H2].
    apply String.eqb_eq in H1. auto.
Qed.

(** ** src/new_parse.py *)

Section ReadsNew.

Variable tokens : list Token.

Import NewParse.

Lemma match_here i p t l a b :
  skipn i tokens = t :: l ->
  match_ tokens a b (set_pos p i)
  = negb (differs a (type t)) && negb (differs b (value t)).
Proof.
  intros H. unfold match_. rewrite (suffix_current tokens i p t l H).
  destruct (differs a (type t)); [reflexivity|].
  destruct (differs b (value t)); reflexivity.
Qed.

Lemma match_end i p a b :
  skipn i tokens = [] -> match_ tokens a b (set_pos p i) = false.
Proof.
  intros H. unfold match_. now rewrite (suffix_end tokens i p H).
Qed.

Lemma value_in_here i p t l vs :
  skipn i tokens = t :: l ->
  current_value_in tokens vs (set_pos p i) = str_in (value t) vs.
Proof.
  intros H. unfold current_value_in.
  now rewrite (suffix_current tokens i p t l H).
Qed.

Lemma consume_here i p t l a b c :
  skipn i tokens = t :: l ->
  negb (differs a (type t)) && negb (differs b (value t)) = true ->
  consume tokens a b c (set_pos p i) = (true, set_pos p (i + 1)).
Proof.
  intros H M. unfold consume. rewrite (match_here i p t l a b H), M.
  reflexivity.
Qed.

Lemma goes_on_here i p t l k :
  skipn i tokens = t :: l ->
  new_goes_on tokens k (set_pos p i)
  = String.eqb (type t) OPERATOR && str_in (value t) (operators k).
Proof.
  intros H. unfold new_goes_on.
  destruct k; rewrite ?(match_here i p t l _ _ H),
    ?(value_in_here i p t l _ H); unfold differs, str_in, operators, OPERATOR;
    cbn [existsb]; change (String.eqb "OPERATOR" "") with false;
    cbn [negb andb orb];
    destruct (String.eqb (type t) "OPERATOR"); cbn [negb andb orb];
    try reflexivity.
  - change (String.eqb "&&" "") with false. cbn [negb andb].
    rewrite orb_false_r. destruct (String.eqb (value t) "&&"); reflexivity.
  - change (String.eqb "||" "") with false. cbn [negb andb].
    rewrite orb_false_r. destruct (String.eqb (value t) "||"); reflexivity.
Qed.

Lemma goes_on_end i p k :
  skipn i tokens = [] -> new_goes_on tokens k (set_pos p i) = false.
Proof.
  intros H. unfold new_goes_on.
  destruct k; now rewrite (match_end i p _ _ H).
Qed.

Lemma new_binary_unfold k self p :
  new_binary tokens k self p
  = bind (new_operand tokens k self p)
      (while_ (budget tokens) (new_goes_on tokens k)
         (fun q => new_operand tokens k self (advance q))).
Proof.
  destruct k; reflexivity.
Qed.

Lemma parse_postfix_unfold self p :
  parse_postfix tokens self p
  = bind (parse_primary tokens self p)
      (loop (budget tokens) (new_suffix_round tokens self)).
Proof.
  reflexivity.
Qed.

Lemma str_in_In (x : string) (l : list string) :
  str_in x l = true -> In x l.
Proof.
  unfold str_in. intros H. apply existsb_exists in H.
  destruct H as (y & Hy & E). apply String.eqb_eq in E. now subst.
Qed.

Lemma ends_tail k ks rest : ends (k :: ks) rest = true -> ends ks rest = true.
Proof.
  destruct rest as [|t l]; [auto|]. unfold ends, continues. cbn [upto].
  intros H. apply negb_true_iff in H. apply negb_true_iff.
  apply orb_false_elim in H. destruct H as [H1 H2]. rewrite H1. cbn [orb].
  destruct (String.eqb (type t) OPERATOR); [|reflexivity]. cbn [andb] in *.
  unfold str_in in *. rewrite existsb_app in H2.
  now apply orb_false_elim in H2.
Qed.

Lemma ends_postfix ks rest : ends ks rest = true -> ends [] rest = true.
Proof.
  induction ks as [|k ks IH]; [auto|]. intros H. apply IH.
  now apply ends_tail in H.
Qed.

Lemma ends_operand k rest :
  ends (k :: tighter k) rest = true -> ends (tighter k) rest = true.
Proof. apply ends_tail. Qed.

(** An operator of level [k] lets the operand before it end. *)
Lemma ends_at_operator k o l :
  str_in o (operators k) = true -> ends (tighter k) (op o :: l) = true.
Proof.
  intros H. apply str_in_In in H.
  destruct k; cbn [operators In] in H;
    repeat (destruct H as [H|H]; [subst o; reflexivity|]); contradiction.
Qed.

Lemma ends_at_closing v l ks :
  In v [")"; "]"; ","; ";"] -> ends ks (sp v :: l) = true.
Proof.
  intros H. unfold ends, continues, continues_postfix. cbn [type value sp].
  cbn [In] in H.
  repeat (destruct H as [H|H]; [subst v; reflexivity|]); contradiction.
Qed.

Lemma suffix_round_stops i rest p self :
  skipn i tokens = rest -> ends [] rest = true ->
  new_suffix_round tokens self (set_pos p i) = Some (Leave (set_pos p i)).
Proof.
  intros E H. unfold new_suffix_round. destruct rest as [|t l].
  - now rewrite (suffix_end tokens i p E).
  - rewrite (suffix_current tokens i p t l E). cbn [is_some].
    rewrite !(match_here i p t l _ _ E), (value_in_here i p t l _ E).
    unfold ends, continues, continues_postfix in H. cbn [upto] in H.
    apply negb_true_iff in H. apply orb_false_elim in H. destruct H as [H _].
    apply orb_false_elim in H. destruct H as [H1 H2].
    unfold differs, str_in, step_operators in *. cbn [existsb] in *.
    change (String.eqb SPECIAL "") with false.
    change (String.eqb OPERATOR "") with false.
    change (String.eqb "[" "") with false.
    change (String.eqb "(" "") with false.
    cbn [negb andb orb].
    destruct (String.eqb (type t) SPECIAL); cbn [negb andb orb] in *.
    + rewrite orb_false_r in H1. apply orb_false_elim in H1.
      destruct H1 as [-> ->]. cbn [negb andb].
      destruct (String.eqb (type t) OPERATOR); cbn [negb andb] in *;
        [rewrite H2|]; reflexivity.
    + destruct (String.eqb (type t) OPERATOR); cbn [negb andb] in *;
        [rewrite H2|]; reflexivity.
Qed.

Lemma goes_on_stops i rest p k ks :
  skipn i tokens = rest -> ends (k :: ks) rest = true ->
  new_goes_on tokens k (set_pos p i) = false.
Proof.
  intros E H. destruct rest as [|t l].
  - now apply goes_on_end.
  - rewrite (goes_on_here i p t l k E).
    unfold ends, continues in H. cbn [upto] in H.
    apply negb_true_iff in H. apply orb_false_elim in H. destruct H as [_ H].
    destruct (String.eqb (type t) OPERATOR); [|reflexivity].
    cbn [andb] in *. unfold str_in in *. rewrite existsb_app in H.
    now apply orb_false_elim in H.
Qed.

Lemma advance_at (p : Parser) (i : nat) :
  advance (set_pos p i) = set_pos p (i + 1).
Proof. reflexivity. Qed.

Lemma state_eq (p : Parser) (a b : nat) :
  a = b -> Some (set_pos p a) = Some (set_pos p b).
Proof. now intros ->. Qed.

Lemma while_again (m : nat) (cond : Parser -> bool)
    (body : Parser -> option Parser) (q q' : Parser) :
  cond q = true -> body q = Some q' ->
  while_ (S m) cond body q = while_ m cond body q'.
Proof.
  intros C B. unfold while_. cbn [loop]. now rewrite C, B.
Qed.

Lemma while_leaves (m : nat) (cond : Parser -> bool)
    (body : Parser -> option Parser) (q : Parser) :
  cond q = false -> while_ (S m) cond body q = Some q.
Proof.
  intros C. unfold while_. cbn [loop]. now rewrite C.
Qed.

(** The recursive occurrence reads an expression that the rule
    [parse_logical_or] reads. *)
Lemma self_reads e :
  (forall i rest p d, skipn i tokens = e ++ rest ->
     length e <= d -> ends (LogicalOr :: tighter LogicalOr) rest = true ->
     new_binary tokens LogicalOr (parse_expression_at tokens d) (set_pos p i)
     = Some (set_pos p (i + length e))) ->
  forall i rest p d, skipn i tokens = e ++ rest ->
    length e < d -> ends (LogicalOr :: tighter LogicalOr) rest = true ->
    parse_expression_at tokens d (set_pos p i)
    = Some (set_pos p (i + length e)).
Proof.
  intros IH i rest p [|d] E Hd Hr; [lia|].
  apply (IH i rest p d E); [lia | exact Hr].
Qed.

(** From what the induction gives for the operand of level [k] to the
    rule of src/new_parse.py for that operand. *)
Ltac operand_reads k a IH :=
  assert (Op : forall i rest p d, skipn i tokens = a ++ rest ->
            length a <= d -> ends (tighter k) rest = true ->
            new_operand tokens k (parse_expression_at tokens d) (set_pos p i)
            = Some (set_pos p (i + length a)));
  [ let i := fresh "i" in let rest := fresh "rest" in
    let p := fresh "p" in let d := fresh "d" in
    let E := fresh "E" in let Hd := fresh "Hd" in let Hr := fresh "Hr" in
    let Hb := fresh "Hb" in
    intros i rest p d E Hd Hr; specialize (IH i rest p d E);
    pose proof (suffix_bound tokens i _ E) as Hb; rewrite length_app in Hb;
    destruct k; cbn [operand new_operand tighter] in *;
    apply IH; auto; unfold budget; lia
  | ].

Lemma reads_new n ts :
  derives n ts ->
  forall i rest p d, skipn i tokens = ts ++ rest ->
  match n with
  | Primary =>
      length ts <= d ->
      parse_primary tokens (parse_expression_at tokens d) (set_pos p i)
      = Some (set_pos p (i + length ts))
  | Suffixes =>
      length ts <= d -> ends [] rest = true ->
      forall m, length ts < m ->
        loop m (new_suffix_round tokens (parse_expression_at tokens d))
          (set_pos p i)
        = Some (set_pos p (i + length ts))
  | Postfix =>
      length ts <= d -> ends [] rest = true ->
      parse_postfix tokens (parse_expression_at tokens d) (set_pos p i)
      = Some (set_pos p (i + length ts))
  | Arguments =>
      length ts < d -> hd_error rest = Some (sp ")") ->
      parse_argument_list tokens (parse_expression_at tokens d) (set_pos p i)
      = Some (set_pos p (i + length ts))
  | MoreArguments =>
      length ts < d -> hd_error rest = Some (sp ")") ->
      forall m, length ts < m ->
        while_ m (match_ tokens (Some SPECIAL) (Some ","))
          (fun q => parse_expression_at tokens d (advance q)) (set_pos p i)
        = Some (set_pos p (i + length ts))
  | Unary =>
      length ts <= d -> ends [] rest = true ->
      forall m, length ts <= m ->
        parse_unary tokens (parse_expression_at tokens d) m (set_pos p i)
        = Some (set_pos p (i + length ts))
  | Binary k =>
      length ts <= d -> ends (k :: tighter k) rest = true ->
      new_binary tokens k (parse_expression_at tokens d) (set_pos p i)
      = Some (set_pos p (i + length ts))
  | Rest k =>
      length ts <= d -> ends (k :: tighter k) rest = true ->
      forall m, length ts < m ->
        while_ m (new_goes_on tokens k)
          (fun q => new_operand tokens k (parse_expression_at tokens d)
                      (advance q))
          (set_pos p i)
        = Some (set_pos p (i + length ts))
  end.
Proof.
  induction 1; intros i rest p d E.
  - (* an atom *)
    intros _. flat E. unfold parse_primary.
    rewrite (suffix_current tokens i p _ _ E), H, advance_at.
    apply state_eq. reflexivity.
  - (* a parenthesis *)
    intros Hd. flat E. revert Hd. lens. intros Hd. unfold parse_primary.
    rewrite (suffix_current tokens i p _ _ E).
    change (str_in (type (sp "(")) [IDENTIFIER; NUMBER; STRING]) with false.
    cbv iota. rewrite (match_here i p _ _ _ _ E).
    change (negb (differs (Some SPECIAL) (type (sp "(")))
            && negb (differs (Some "(") (value (sp "(")))) with true.
    cbv iota. rewrite advance_at.
    pose proof (suffix_next tokens i _ _ E) as E1.
    rewrite (self_reads e IHderives (i + 1) _ p d E1);
      [|lia | now apply ends_at_closing; cbn; auto].
    cbn [bind]. pose proof (suffix_skip tokens (i + 1) _ _ E1) as E2.
    rewrite (consume_here (i + 1 + length e) p _ _ _ _ None E2);
      [|reflexivity].
    cbn [snd]. apply state_eq. lia.
  - (* a postfix expression *)
    intros Hd Hr. flat E. revert Hd. lens. intros Hd.
    rewrite parse_postfix_unfold.
    rewrite (IHderives1 i (s ++ rest) p d E); [|lia]. cbn [bind].
    pose proof (suffix_skip tokens i _ _ E) as E1.
    rewrite (IHderives2 (i + length a) rest p d E1); auto; try lia.
    + apply state_eq. lia.
    + pose proof (suffix_bound tokens _ _ E1) as Hb. rewrite length_app in Hb.
      unfold budget. lia.
  - (* no suffix *)
    intros _ Hr [|m] Hm; [cbn in Hm; lia|]. cbn [loop].
    rewrite (suffix_round_stops i rest p _ E Hr).
    apply state_eq. cbn. lia.
  - (* a subscript *)
    intros Hd Hr [|m] Hm; [lia|]. flat E. revert Hd Hm. lens. intros Hd Hm.
    cbn [loop]. unfold new_suffix_round at 1.
    rewrite (suffix_current tokens i p _ _ E). cbn [is_some].
    rewrite (match_here i p _ _ _ _ E).
    change (negb (differs (Some SPECIAL) (type (sp "[")))
            && negb (differs (Some "[") (value (sp "[")))) with true.
    cbv iota. rewrite advance_at.
    pose proof (suffix_next tokens i _ _ E) as E1.
    rewrite (self_reads e IHderives1 (i + 1) _ p d E1);
      [|lia | now apply ends_at_closing; cbn; auto].
    cbn [bind]. pose proof (suffix_skip tokens (i + 1) _ _ E1) as E2.
    rewrite (consume_here (i + 1 + length e) p _ _ _ _ None E2);
      [|reflexivity].
    cbn [snd]. pose proof (suffix_next tokens _ _ _ E2) as E3.
    rewrite (IHderives2 _ rest p d E3); auto; try lia.
    apply state_eq. lia.
  - (* a call *)
    intros Hd Hr [|m] Hm; [lia|]. flat E. revert Hd Hm. lens. intros Hd Hm.
    cbn [loop]. unfold new_suffix_round at 1.
    rewrite (suffix_current tokens i p _ _ E). cbn [is_some].
    rewrite !(match_here i p _ _ _ _ E).
    change (negb (differs (Some SPECIAL) (type (sp "(")))
            && negb (differs (Some "[") (value (sp "(")))) with false.
    change (negb (differs (Some SPECIAL) (type (sp "(")))
            && negb (differs (Some "(") (value (sp "(")))) with true.
    cbv iota. rewrite advance_at.
    pose proof (suffix_next tokens i _ _ E) as E1.
    rewrite (IHderives1 (i + 1) _ p d E1); [|lia | reflexivity].
    cbn [bind]. pose proof (suffix_skip tokens (i + 1) _ _ E1) as E2.
    rewrite (consume_here (i + 1 + length a) p _ _ _ _ None E2);
      [|reflexivity].
    cbn [snd]. pose proof (suffix_next tokens _ _ _ E2) as E3.
    rewrite (IHderives2 _ rest p d E3); auto; try lia.
    apply state_eq. lia.
  - (* a step operator *)
    intros Hd Hr [|m] Hm; [lia|]. flat E. revert Hd Hm. lens. intros Hd Hm.
    cbn [loop]. unfold new_suffix_round at 1.
    rewrite (suffix_current tokens i p _ _ E). cbn [is_some].
    rewrite !(match_here i p _ _ _ _ E), (value_in_here i p _ _ _ E).
    cbn [value op]. unfold step_operators in H. rewrite H.
    change (negb (differs (Some SPECIAL) (type (op o)))) with false.
    change (negb (differs (Some OPERATOR) (type (op o)))) with true.
    cbn [andb differs negb]. cbv iota.
    rewrite advance_at.
    pose proof (suffix_next tokens i _ _ E) as E1.
    rewrite (IHderives _ rest p d E1); auto; try lia.
    apply state_eq. lia.
  - (* no argument *)
    intros _ Hr. flat E. unfold parse_argument_list.
    destruct rest as [|t l]; [discriminate|]. cbn [hd_error] in Hr.
    injection Hr as ->. rewrite (match_here i p _ _ _ _ E).
    change (negb (differs (Some SPECIAL) (type (sp ")")))
            && negb (differs (Some ")") (value (sp ")")))) with true.
    cbv iota. destruct p. apply state_eq. cbn. lia.
  - (* arguments *)
    intros Hd Hr. flat E. revert Hd. lens. intros Hd.
    unfold parse_argument_list.
    destruct (derives_starts _ _ H) as (t & l & -> & Ht).
    assert (M : match_ tokens (Some SPECIAL) (Some ")") (set_pos p i) = false).
    { flat E. rewrite (match_here i p _ _ _ _ E).
      unfold differs. change (String.eqb SPECIAL "") with false.
      change (String.eqb ")" "") with false. cbn [negb andb].
      destruct (starts_expression_cases t Ht) as [K|[(K1 & K2)|(K1 & K2)]].
      - destruct (atom_type t K) as [K1|[K1|K1]]; rewrite K1; reflexivity.
      - rewrite K1, K2. reflexivity.
      - rewrite K1. reflexivity. }
    rewrite M.
    assert (F : ends (LogicalOr :: tighter LogicalOr) (m ++ rest) = true).
    { inversion H0; subst.
      - destruct rest as [|t' l']; [discriminate|]. cbn [hd_error] in Hr.
        injection Hr as ->. cbn [app]. apply ends_at_closing; cbn; auto.
      - cbn [app]. apply ends_at_closing; cbn; auto. }
    rewrite (self_reads _ IHderives1 i _ p d E); [|cbn [length] in *; lia|exact F].
    cbn [bind]. pose proof (suffix_skip tokens i _ _ E) as E1.
    rewrite (IHderives2 _ rest p d E1); auto; try lia.
    + apply state_eq. lia.
    + pose proof (suffix_bound tokens _ _ E1) as Hb. rewrite length_app in Hb.
      unfold budget. lia.
  - (* no further argument *)
    intros _ Hr [|m] Hm; [cbn in Hm; lia|]. flat E.
    destruct rest as [|t l]; [discriminate|]. cbn [hd_error] in Hr.
    injection Hr as ->. rewrite while_leaves.
    + apply state_eq. cbn. lia.
    + now rewrite (match_here i p _ _ _ _ E).
  - (* a further argument *)
    intros Hd Hr [|m'] Hm; [lia|]. flat E. revert Hd Hm. lens. intros Hd Hm.
    assert (F : ends (LogicalOr :: tighter LogicalOr) (m ++ rest) = true).
    { inversion H0; subst.
      - destruct rest as [|t' l']; [discriminate|]. cbn [hd_error] in Hr.
        injection Hr as ->. cbn [app]. apply ends_at_closing; cbn; auto.
      - cbn [app]. apply ends_at_closing; cbn; auto. }
    pose proof (suffix_next tokens i _ _ E) as E1.
    rewrite (while_again m' _ _ _ (set_pos p (i + 1 + length e))).
    + pose proof (suffix_skip tokens (i + 1) _ _ E1) as E2.
      rewrite (IHderives2 _ rest p d E2); auto; try lia.
      apply state_eq. lia.
    + now rewrite (match_here i p _ _ _ _ E).
    + rewrite advance_at.
      apply (self_reads e IHderives1 (i + 1) _ p d E1); [lia | exact F].
  - (* a prefix operator *)
    intros Hd Hr [|m] Hm; [cbn in Hm; lia|]. flat E. revert Hd Hm. lens.
    intros Hd Hm. cbn [parse_unary].
    rewrite (match_here i p _ _ _ _ E), (value_in_here i p _ _ _ E).
    cbn [value op]. unfold prefix_operators in H. rewrite H.
    change (negb (differs (Some OPERATOR) (type (op o)))) with true.
    cbn [andb differs negb]. cbv iota.
    rewrite advance_at.
    pose proof (suffix_next tokens i _ _ E) as E1.
    rewrite (IHderives _ rest p d E1); auto; try lia.
    apply state_eq. lia.
  - (* a postfix expression as a unary expression *)
    intros Hd Hr m Hm.
    destruct (derives_starts _ _ H) as (t & l & -> & Ht).
    destruct m as [|m]; [cbn in Hm; lia|]. cbn [parse_unary].
    assert (M : match_ tokens (Some OPERATOR) None (set_pos p i) = false).
    { flat E. rewrite (match_here i p _ _ _ _ E).
      unfold differs. change (String.eqb OPERATOR "") with false.
      cbn [negb andb].
      destruct (starts_primary_cases t Ht) as [K|(K1 & K2)].
      - destruct (atom_type t K) as [K1|[K1|K1]]; rewrite K1; reflexivity.
      - rewrite K1. reflexivity. }
    rewrite M. cbn [andb]. cbv iota.
    apply (IHderives i rest p d E); auto.
  - (* a binary expression *)
    intros Hd Hr. flat E. revert Hd. lens. intros Hd.
    rewrite new_binary_unfold.
    assert (F : ends (tighter k) (r ++ rest) = true).
    { inversion H0; subst.
      - cbn [app]. now apply ends_operand.
      - cbn [app]. now apply ends_at_operator. }
    operand_reads k a IHderives1.
    rewrite (Op i _ p d E); [|lia|exact F].
    cbn [bind]. pose proof (suffix_skip tokens i _ _ E) as E1.
    rewrite (IHderives2 _ rest p d E1); auto; try lia.
    + apply state_eq. lia.
    + pose proof (suffix_bound tokens _ _ E1) as Hb. rewrite length_app in Hb.
      unfold budget. lia.
  - (* no further operand *)
    intros _ Hr [|m] Hm; [cbn in Hm; lia|]. flat E.
    rewrite while_leaves.
    + apply state_eq. cbn. lia.
    + eapply goes_on_stops; eauto.
  - (* an operator and an operand *)
    intros Hd Hr [|m] Hm; [lia|]. flat E. revert Hd Hm. lens. intros Hd Hm.
    assert (F : ends (tighter k) (r ++ rest) = true).
    { inversion H1; subst.
      - cbn [app]. now apply ends_operand.
      - cbn [app]. now apply ends_at_operator. }
    operand_reads k a IHderives1.
    pose proof (suffix_next tokens i _ _ E) as E1.
    rewrite (while_again m _ _ _ (set_pos p (i + 1 + length a))).
    + pose proof (suffix_skip tokens (i + 1) _ _ E1) as E2.
      rewrite (IHderives2 _ rest p d E2); auto; try lia.
      apply state_eq. lia.
    + rewrite (goes_on_here i p _ _ k E). cbn [type value op]. now rewrite H.
    + rewrite advance_at.
      apply (Op (i + 1) _ p d E1); [lia | exact F].
Qed.

End ReadsNew.

(** ** Building sentences *)

Lemma binary_of_operand k a : derives (operand k) a -> derives (Binary k) a.
Proof.
  intros H. rewrite <- (app_nil_r a). apply d_binary; [exact H|].
  apply d_no_rest.
Qed.

Lemma unary_is_expression a : derives Unary a -> derives Expression a.
Proof.
  intros H. unfold Expression.
  apply (binary_of_operand LogicalOr), (binary_of_operand LogicalAnd),
    (binary_of_operand Equality), (binary_of_operand Relational),
    (binary_of_operand Additive), (binary_of_operand Multiplicative), H.
Qed.

Lemma atom_is_unary t :
  str_in (type t) [IDENTIFIER; NUMBER; STRING] = true -> derives Unary [t].
Proof.
  intros H. apply d_unary. change [t] with ([t] ++ []).
  apply d_postfix; [now apply d_atom | apply d_no_suffix].
Qed.

Lemma additive_is_expression a :
  derives (Binary Additive) a -> derives Expression a.
Proof.
  intros H. unfold Expression.
  apply (binary_of_operand LogicalOr), (binary_of_operand LogicalAnd),
    (binary_of_operand Equality), (binary_of_operand Relational), H.
Qed.

(** [1 + 2 * 3] is a sum whose second operand is a product. *)
Lemma sum_product_is_expression : derives Expression sum_product.
Proof.
  apply additive_is_expression.
  apply (d_binary Additive [num "1"] [op "+"; num "2"; op "*"; num "3"]).
  - apply (binary_of_operand Multiplicative). now apply atom_is_unary.
  - apply (d_rest Additive "+" [num "2"; op "*"; num "3"] []);
      [reflexivity | | apply d_no_rest].
    apply (d_binary Multiplicative [num "2"] [op "*"; num "3"]).
    + now apply atom_is_unary.
    + apply (d_rest Multiplicative "*" [num "3"] []);
        [reflexivity | | apply d_no_rest].
      now apply atom_is_unary.
Qed.

Lemma state_at (p : Parser) : set_pos p (pos p) = p.
Proof. now destruct p. Qed.

Lemma new_expression_reads (tokens e rest : list Token)
    (p : Parser) :
  derives Expression e ->
  skipn (pos p) tokens = e ++ rest ->
  ends_expression rest = true ->
  NewParse.parse_expression_at tokens (NewParse.budget tokens) p
  = Some (set_pos p (pos p + length e)).
Proof.
  intros H E Hr. rewrite <- (state_at p) at 1.
  pose proof (suffix_bound tokens _ _ E) as Hb. rewrite length_app in Hb.
  apply (reads_new tokens _ _ H (pos p) rest p (length tokens) E);
    [lia | exact Hr].
Qed.

(** X12.  [parse_expression] of src/new_parse.py records nothing on an
    expression of the grammar.  When the tokens left at the cursor start
    with an expression [e], and what follows [e] is nothing or a token
    that cannot carry an expression on, a call of the rule that returns
    (the interpreter raises [RecursionError] when [e] is nested too
    deeply for its stack) returns with the cursor right after [e], the
    diagnostics and the main-flag being as they were. *)
Theorem new_parse_reads_every_expression (tokens e rest : list Token)
    (p p' : Parser) :
  derives Expression e ->
  skipn (pos p) tokens = e ++ rest ->
  ends_expression rest = true ->
  NewParse.parse_expression_at tokens (NewParse.budget tokens) p = Some p' ->
  p' = set_pos p (pos p + length e).
Proof.
  intros D E F R. rewrite (new_expression_reads tokens e rest p D E F) in R.
  now injection R.
Qed.

Lemma new_parse_reads_every_expression_witness :
  NewParse.parse_expression_at sum_product (NewParse.budget sum_product) init
  = Some (mkParser 5 [] false)
  /\ mkParser 5 [] false = set_pos init (pos init + length sum_product).
Proof.
  split; [vm_compute; reflexivity|].
  apply (new_parse_reads_every_expression sum_product sum_product [] init).
  - exact sum_product_is_expression.
  - reflexivity.
  - reflexivity.
  - vm_compute. reflexivity.
Defined.

(** ** src/cpp_parser.py *)

Section ReadsOld.

Variable tokens : list Token.

Import CppParser.

Lemma old_current i p t l :
  skipn i tokens = t :: l -> current_token tokens (set_pos p i) = Some t.
Proof. apply suffix_current. Qed.

Lemma old_end i p :
  skipn i tokens = [] -> current_token tokens (set_pos p i) = None.
Proof. apply suffix_end. Qed.

Lemma next_at (p : Parser) (i : nat) : next (set_pos p i) = set_pos p (i + 1).
Proof. reflexivity. Qed.

Lemma expect_here i p t l a b c :
  skipn i tokens = t :: l ->
  negb (differs a (type t)) && negb (differs b (value t)) = true ->
  expect tokens a b c (set_pos p i) = (true, set_pos p (i + 1)).
Proof.
  intros H M. unfold expect. rewrite (old_current i p t l H).
  apply andb_prop in M. destruct M as [M1 M2].
  apply negb_true_iff in M1, M2. now rewrite M1, M2.
Qed.

Lemma old_goes_on_here i p t l k :
  skipn i tokens = t :: l ->
  old_goes_on tokens k (set_pos p i)
  = String.eqb (type t) OPERATOR && str_in (value t) (operators k).
Proof.
  intros H. unfold old_goes_on.
  destruct k; rewrite (old_current i p t l H); unfold tok_in, tok_is;
    try reflexivity; unfold str_in, operators; cbn [existsb];
    now rewrite orb_false_r.
Qed.

Lemma old_goes_on_end i p k :
  skipn i tokens = [] -> old_goes_on tokens k (set_pos p i) = false.
Proof.
  intros H. unfold old_goes_on. destruct k; now rewrite (old_end i p H).
Qed.

Lemma old_goes_on_stops i rest p k ks :
  skipn i tokens = rest -> ends (k :: ks) rest = true ->
  old_goes_on tokens k (set_pos p i) = false.
Proof.
  intros E H. destruct rest as [|t l].
  - now apply old_goes_on_end.
  - rewrite (old_goes_on_here i p t l k E).
    unfold ends, continues in H. cbn [upto] in H.
    apply negb_true_iff in H. apply orb_false_elim in H. destruct H as [_ H].
    destruct (String.eqb (type t) OPERATOR); [|reflexivity].
    cbn [andb] in *. unfold str_in in *. rewrite existsb_app in H.
    now apply orb_false_elim in H.
Qed.

Lemma old_binary_unfold k self p :
  old_binary tokens k self p
  = bind (old_operand tokens k self p)
      (fun r => loop (budget tokens) (old_binary_round tokens k self) (snd r)).
Proof.
  destruct k; cbn [old_binary old_operand];
    [unfold multiplicative_expr | unfold additive_expr
    | unfold relational_expr | unfold equality_expr
    | unfold logical_and_expr | unfold logical_or_expr];
    match goal with
    | |- _ = bind ?m _ => destruct m as [[b q]|]; reflexivity
    end.
Qed.

Lemma postfix_expr_unfold self p :
  postfix_expr tokens self p
  = bind (primary_expr tokens self p)
      (fun r => loop (budget tokens) (old_suffix_round tokens self) (snd r)).
Proof.
  unfold postfix_expr.
  destruct (primary_expr tokens self p) as [[b q]|]; reflexivity.
Qed.

Lemma argument_list_unfold self p :
  argument_list tokens self p
  = if tok_is SPECIAL ")" (current_token tokens p) then Some (true, p)
    else bind (self p)
           (fun r => loop (budget tokens) (old_argument_round tokens self)
                       (snd r)).
Proof.
  unfold argument_list.
  destruct (tok_is SPECIAL ")" (current_token tokens p)); [reflexivity|].
  destruct (self p) as [[b q]|]; reflexivity.
Qed.

Lemma old_suffix_round_stops i rest p self :
  skipn i tokens = rest -> ends [] rest = true ->
  old_suffix_round tokens self (set_pos p i)
  = Some (Leave (true, set_pos p i)).
Proof.
  intros E H. unfold old_suffix_round. destruct rest as [|t l].
  - now rewrite (old_end i p E).
  - rewrite (old_current i p t l E).
    unfold ends, continues, continues_postfix in H. cbn [upto] in H.
    apply negb_true_iff in H. apply orb_false_elim in H. destruct H as [H _].
    apply orb_false_elim in H. destruct H as [H1 H2].
    unfold str_in, step_operators in *. cbn [existsb] in *.
    rewrite H2.
    destruct (String.eqb (type t) SPECIAL); cbn [andb] in *; [|reflexivity].
    rewrite orb_false_r in H1. apply orb_false_elim in H1.
    destruct H1 as [-> ->]. reflexivity.
Qed.

Lemma result_eq (p : Parser) (a b : nat) :
  a = b -> Some (true, set_pos p a) = Some (true, set_pos p b).
Proof. now intros ->. Qed.

Ltac old_operand_reads k a IH :=
  assert (Op : forall i rest p d, skipn i tokens = a ++ rest ->
            length a <= d -> ends (tighter k) rest = true ->
            old_operand tokens k (expression_at tokens d) (set_pos p i)
            = Some (true, set_pos p (i + length a)));
  [ let i := fresh "i" in let rest := fresh "rest" in
    let p := fresh "p" in let d := fresh "d" in
    let E := fresh "E" in let Hd := fresh "Hd" in let Hr := fresh "Hr" in
    let Hb := fresh "Hb" in
    intros i rest p d E Hd Hr; specialize (IH i rest p d E);
    pose proof (suffix_bound tokens i _ E) as Hb; rewrite length_app in Hb;
    destruct k; cbn [operand old_operand tighter] in *;
    apply IH; auto; unfold budget; lia
  | ].

Lemma old_self_reads e :
  (forall i rest p d, skipn i tokens = e ++ rest ->
     length e <= d -> ends (LogicalOr :: tighter LogicalOr) rest = true ->
     old_binary tokens LogicalOr (expression_at tokens d) (set_pos p i)
     = Some (true, set_pos p (i + length e))) ->
  forall i rest p d, skipn i tokens = e ++ rest ->
    length e < d -> ends (LogicalOr :: tighter LogicalOr) rest = true ->
    expression_at tokens d (set_pos p i)
    = Some (true, set_pos p (i + length e)).
Proof.
  intros IH i rest p [|d] E Hd Hr; [lia|].
  apply (IH i rest p d E); [lia | exact Hr].
Qed.

Lemma reads_old n ts :
  derives n ts ->
  forall i rest p d, skipn i tokens = ts ++ rest ->
  match n with
  | Primary =>
      length ts <= d ->
      primary_expr tokens (expression_at tokens d) (set_pos p i)
      = Some (true, set_pos p (i + length ts))
  | Suffixes =>
      length ts <= d -> ends [] rest = true ->
      forall m, length ts < m ->
        loop m (old_suffix_round tokens (expression_at tokens d))
          (set_pos p i)
        = Some (true, set_pos p (i + length ts))
  | Postfix =>
      length ts <= d -> ends [] rest = true ->
      postfix_expr tokens (expression_at tokens d) (set_pos p i)
      = Some (true, set_pos p (i + length ts))
  | Arguments =>
      length ts < d -> hd_error rest = Some (sp ")") ->
      argument_list tokens (expression_at tokens d) (set_pos p i)
      = Some (true, set_pos p (i + length ts))
  | MoreArguments =>
      length ts < d -> hd_error rest = Some (sp ")") ->
      forall m, length ts < m ->
        loop m (old_argument_round tokens (expression_at tokens d))
          (set_pos p i)
        = Some (true, set_pos p (i + length ts))
  | Unary =>
      length ts <= d -> ends [] rest = true ->
      forall m, length ts <= m ->
        unary_expr tokens (expression_at tokens d) m (set_pos p i)
        = Some (true, set_pos p (i + length ts))
  | Binary k =>
      length ts <= d -> ends (k :: tighter k) rest = true ->
      old_binary tokens k (expression_at tokens d) (set_pos p i)
      = Some (true, set_pos p (i + length ts))
  | Rest k =>
      length ts <= d -> ends (k :: tighter k) rest = true ->
      forall m, length ts < m ->
        loop m (old_binary_round tokens k (expression_at tokens d))
          (set_pos p i)
        = Some (true, set_pos p (i + length ts))
  end.
Proof.
  induction 1; intros i rest p d E.
  - (* an atom *)
    intros _. flat E. unfold primary_expr.
    rewrite (old_current i p _ _ E), next_at.
    destruct (atom_type t H) as [K|[K|K]]; rewrite K; apply result_eq;
      reflexivity.
  - (* a parenthesis *)
    intros Hd. flat E. revert Hd. lens. intros Hd. unfold primary_expr.
    rewrite (old_current i p _ _ E). cbn [type value sp].
    change (String.eqb SPECIAL IDENTIFIER) with false.
    change (String.eqb SPECIAL NUMBER) with false.
    change (String.eqb SPECIAL STRING) with false.
    change (String.eqb SPECIAL SPECIAL && String.eqb "(" "(") with true.
    cbv iota. rewrite next_at.
    pose proof (suffix_next tokens i _ _ E) as E1.
    rewrite (old_self_reads e IHderives (i + 1) _ p d E1);
      [|lia | now apply ends_at_closing; cbn; auto].
    cbn [bind]. pose proof (suffix_skip tokens (i + 1) _ _ E1) as E2.
    rewrite (expect_here (i + 1 + length e) p _ _ _ _ None E2);
      [|reflexivity].
    cbn [negb]. apply result_eq. lia.
  - (* a postfix expression *)
    intros Hd Hr. flat E. revert Hd. lens. intros Hd.
    rewrite postfix_expr_unfold.
    rewrite (IHderives1 i (s ++ rest) p d E); [|lia]. cbn [bind snd].
    pose proof (suffix_skip tokens i _ _ E) as E1.
    rewrite (IHderives2 (i + length a) rest p d E1); auto; try lia.
    + apply result_eq. lia.
    + pose proof (suffix_bound tokens _ _ E1) as Hb. rewrite length_app in Hb.
      unfold budget. lia.
  - (* no suffix *)
    intros _ Hr [|m] Hm; [cbn in Hm; lia|]. cbn [loop].
    rewrite (old_suffix_round_stops i rest p _ E Hr).
    apply result_eq. cbn. lia.
  - (* a subscript *)
    intros Hd Hr [|m] Hm; [lia|]. flat E. revert Hd Hm. lens. intros Hd Hm.
    cbn [loop]. unfold old_suffix_round at 1.
    rewrite (old_current i p _ _ E). cbn [type value sp].
    change (String.eqb SPECIAL SPECIAL && String.eqb "[" "[") with true.
    cbv iota. rewrite next_at.
    pose proof (suffix_next tokens i _ _ E) as E1.
    rewrite (old_self_reads e IHderives1 (i + 1) _ p d E1);
      [|lia | now apply ends_at_closing; cbn; auto].
    cbn [bind]. pose proof (suffix_skip tokens (i + 1) _ _ E1) as E2.
    rewrite (expect_here (i + 1 + length e) p _ _ _ _ None E2);
      [|reflexivity].
    cbn [snd]. pose proof (suffix_next tokens _ _ _ E2) as E3.
    rewrite (IHderives2 _ rest p d E3); auto; try lia.
    apply result_eq. lia.
  - (* a call *)
    intros Hd Hr [|m] Hm; [lia|]. flat E. revert Hd Hm. lens. intros Hd Hm.
    cbn [loop]. unfold old_suffix_round at 1.
    rewrite (old_current i p _ _ E). cbn [type value sp].
    change (String.eqb SPECIAL SPECIAL && String.eqb "(" "[") with false.
    change (String.eqb SPECIAL SPECIAL && String.eqb "(" "(") with true.
    cbv iota. rewrite next_at.
    pose proof (suffix_next tokens i _ _ E) as E1.
    rewrite (IHderives1 (i + 1) _ p d E1); [|lia | reflexivity].
    cbn [bind]. pose proof (suffix_skip tokens (i + 1) _ _ E1) as E2.
    rewrite (expect_here (i + 1 + length a) p _ _ _ _ None E2);
      [|reflexivity].
    cbn [snd]. pose proof (suffix_next tokens _ _ _ E2) as E3.
    rewrite (IHderives2 _ rest p d E3); auto; try lia.
    apply result_eq. lia.
  - (* a step operator *)
    intros Hd Hr [|m] Hm; [lia|]. flat E. revert Hd Hm. lens. intros Hd Hm.
    cbn [loop]. unfold old_suffix_round at 1.
    rewrite (old_current i p _ _ E). cbn [type value op].
    unfold step_operators in H. rewrite H.
    change (String.eqb OPERATOR SPECIAL) with false.
    change (String.eqb OPERATOR OPERATOR) with true.
    cbn [andb]. cbv iota. rewrite next_at.
    pose proof (suffix_next tokens i _ _ E) as E1.
    rewrite (IHderives _ rest p d E1); auto; try lia.
    apply result_eq. lia.
  - (* no argument *)
    intros _ Hr. flat E. rewrite argument_list_unfold.
    destruct rest as [|t l]; [discriminate|]. cbn [hd_error] in Hr.
    injection Hr as ->. rewrite (old_current i p _ _ E).
    change (tok_is SPECIAL ")" (Some (sp ")"))) with true.
    cbv iota. apply result_eq. cbn. lia.
  - (* arguments *)
    intros Hd Hr. flat E. revert Hd. lens. intros Hd.
    rewrite argument_list_unfold.
    destruct (derives_starts _ _ H) as (t & l & -> & Ht).
    assert (M : tok_is SPECIAL ")" (current_token tokens (set_pos p i))
                = false).
    { flat E. rewrite (old_current i p _ _ E). unfold tok_is.
      destruct (starts_expression_cases t Ht) as [K|[(K1 & K2)|(K1 & K2)]].
      - destruct (atom_type t K) as [K1|[K1|K1]]; rewrite K1; reflexivity.
      - rewrite K1, K2. reflexivity.
      - rewrite K1. reflexivity. }
    rewrite M.
    assert (F : ends (LogicalOr :: tighter LogicalOr) (m ++ rest) = true).
    { inversion H0; subst.
      - destruct rest as [|t' l']; [discriminate|]. cbn [hd_error] in Hr.
        injection Hr as ->. cbn [app]. apply ends_at_closing; cbn; auto.
      - cbn [app]. apply ends_at_closing; cbn; auto. }
    rewrite (old_self_reads _ IHderives1 i _ p d E);
      [|cbn [length] in *; lia|exact F].
    cbn [bind snd]. pose proof (suffix_skip tokens i _ _ E) as E1.
    rewrite (IHderives2 _ rest p d E1); auto; try lia.
    + apply result_eq. lia.
    + pose proof (suffix_bound tokens _ _ E1) as Hb. rewrite length_app in Hb.
      unfold budget. lia.
  - (* no further argument *)
    intros _ Hr [|m] Hm; [cbn in Hm; lia|]. flat E.
    destruct rest as [|t l]; [discriminate|]. cbn [hd_error] in Hr.
    injection Hr as ->. cbn [loop]. unfold old_argument_round.
    rewrite (old_current i p _ _ E).
    change (tok_is SPECIAL "," (Some (sp ")"))) with false.
    cbv iota. apply result_eq. cbn. lia.
  - (* a further argument *)
    intros Hd Hr [|m'] Hm; [lia|]. flat E. revert Hd Hm. lens. intros Hd Hm.
    assert (F : ends (LogicalOr :: tighter LogicalOr) (m ++ rest) = true).
    { inversion H0; subst.
      - destruct rest as [|t' l']; [discriminate|]. cbn [hd_error] in Hr.
        injection Hr as ->. cbn [app]. apply ends_at_closing; cbn; auto.
      - cbn [app]. apply ends_at_closing; cbn; auto. }
    pose proof (suffix_next tokens i _ _ E) as E1.
    cbn [loop]. unfold old_argument_round at 1.
    rewrite (old_current i p _ _ E).
    change (tok_is SPECIAL "," (Some (sp ","))) with true.
    cbv iota. rewrite next_at.
    rewrite (old_self_reads e IHderives1 (i + 1) _ p d E1); [|lia | exact F].
    cbn [bind]. pose proof (suffix_skip tokens (i + 1) _ _ E1) as E2.
    rewrite (IHderives2 _ rest p d E2); auto; try lia.
    apply result_eq. lia.
  - (* a prefix operator *)
    intros Hd Hr [|m] Hm; [cbn in Hm; lia|]. flat E. revert Hd Hm. lens.
    intros Hd Hm. cbn [unary_expr].
    rewrite (old_current i p _ _ E). unfold tok_in. cbn [type value op].
    unfold prefix_operators in H. rewrite H.
    change (String.eqb OPERATOR OPERATOR) with true.
    cbn [andb]. cbv iota. rewrite next_at.
    pose proof (suffix_next tokens i _ _ E) as E1.
    rewrite (IHderives _ rest p d E1); auto; try lia.
    apply result_eq. lia.
  - (* a postfix expression as a unary expression *)
    intros Hd Hr m Hm.
    destruct (derives_starts _ _ H) as (t & l & -> & Ht).
    destruct m as [|m]; [cbn in Hm; lia|]. cbn [unary_expr].
    assert (M : tok_in OPERATOR ["+"; "-"; "++"; "--"; "!"]
                  (current_token tokens (set_pos p i)) = false).
    { flat E. rewrite (old_current i p _ _ E). unfold tok_in.
      destruct (starts_primary_cases t Ht) as [K|(K1 & K2)].
      - destruct (atom_type t K) as [K1|[K1|K1]]; rewrite K1; reflexivity.
      - rewrite K1. reflexivity. }
    rewrite M. apply (IHderives i rest p d E); auto.
  - (* a binary expression *)
    intros Hd Hr. flat E. revert Hd. lens. intros Hd.
    rewrite old_binary_unfold.
    assert (F : ends (tighter k) (r ++ rest) = true).
    { inversion H0; subst.
      - cbn [app]. now apply ends_operand.
      - cbn [app]. now apply ends_at_operator. }
    old_operand_reads k a IHderives1.
    rewrite (Op i _ p d E); [|lia|exact F].
    cbn [bind snd]. pose proof (suffix_skip tokens i _ _ E) as E1.
    rewrite (IHderives2 _ rest p d E1); auto; try lia.
    + apply result_eq. lia.
    + pose proof (suffix_bound tokens _ _ E1) as Hb. rewrite length_app in Hb.
      unfold budget. lia.
  - (* no further operand *)
    intros _ Hr [|m] Hm; [cbn in Hm; lia|]. flat E.
    cbn [loop]. unfold old_binary_round.
    rewrite (old_goes_on_stops i rest p k _ E Hr).
    apply result_eq. cbn. lia.
  - (* an operator and an operand *)
    intros Hd Hr [|m] Hm; [lia|]. flat E. revert Hd Hm. lens. intros Hd Hm.
    assert (F : ends (tighter k) (r ++ rest) = true).
    { inversion H1; subst.
      - cbn [app]. now apply ends_operand.
      - cbn [app]. now apply ends_at_operator. }
    old_operand_reads k a IHderives1.
    pose proof (suffix_next tokens i _ _ E) as E1.
    cbn [loop]. unfold old_binary_round at 1.
    rewrite (old_goes_on_here i p _ _ k E). cbn [type value op]. rewrite H.
    change (String.eqb OPERATOR OPERATOR) with true. cbn [andb]. cbv iota.
    rewrite next_at, (Op (i + 1) _ p d E1); [|lia | exact F].
    cbn [bind]. pose proof (suffix_skip tokens (i + 1) _ _ E1) as E2.
    rewrite (IHderives2 _ rest p d E2); auto; try lia.
    apply result_eq. lia.
Qed.

End ReadsOld.

Lemma old_expression_reads (tokens e rest : list Token)
    (p : Parser) :
  derives Expression e ->
  skipn (pos p) tokens = e ++ rest ->
  ends_expression rest = true ->
  CppParser.expression_at tokens (CppParser.budget tokens) p
  = Some (true, set_pos p (pos p + length e)).
Proof.
  intros H E Hr. rewrite <- (state_at p) at 1.
  pose proof (suffix_bound tokens _ _ E) as Hb. rewrite length_app in Hb.
  apply (reads_old tokens _ _ H (pos p) rest p (length tokens) E);
    [lia | exact Hr].
Qed.

(** X13.  [expression] of src/cpp_parser.py records nothing on an
    expression of the grammar.  When the tokens left at the cursor start
    with an expression [e], and what follows [e] is nothing or a token
    that cannot carry an expression on, a call of the rule that returns
    (the interpreter raises [RecursionError] when [e] is nested too
    deeply for its stack) returns [True] with the cursor right after
    [e], the diagnostics and the main-flag being as they were. *)
Theorem cpp_parser_reads_every_expression (tokens e rest : list Token)
    (p : Parser) (r : bool * Parser) :
  derives Expression e ->
  skipn (pos p) tokens = e ++ rest ->
  ends_expression rest = true ->
  CppParser.expression_at tokens (CppParser.budget tokens) p = Some r ->
  r = (true, set_pos p (pos p + length e)).
Proof.
  intros D E F R. rewrite (old_expression_reads tokens e rest p D E F) in R.
  now injection R.
Qed.

Lemma cpp_parser_reads_every_expression_witness :
  CppParser.expression_at sum_product (CppParser.budget sum_product) init
  = Some (true, mkParser 5 [] false)
  /\ (true, mkParser 5 [] false)
     = (true, set_pos init (pos init + length sum_product)).
Proof.
  split; [vm_compute; reflexivity|].
  apply (cpp_parser_reads_every_expression sum_product sum_product [] init).
  - exact sum_product_is_expression.
  - reflexivity.
  - reflexivity.
  - vm_compute. reflexivity.
Defined.

(** * The statement rules read the programs of the grammar *)

Lemma nth_error_skipn_at (l : list Token) (i k : nat) :
  nth_error l (i + k) = nth_error (skipn i l) k.
Proof.
  revert l. induction i as [|i IH]; intros l; [reflexivity|].
  destruct l as [|t l]; [now destruct k | apply IH].
Qed.

Lemma ends_expression_closing v l :
  In v [")"; "]"; ","; ";"] -> ends_expression (sp v :: l) = true.
Proof. apply ends_at_closing. Qed.

Ltac closing := apply ends_expression_closing; cbn [In]; auto.

Ltac flags :=
  repeat match goal with
  | |- Some _ = Some _ => f_equal
  | |- (_, _) = (_, _) => f_equal
  | |- mkParser _ _ _ = mkParser _ _ _ => f_equal
  end;
  try (lens; lia);
  try (rewrite ?orb_false_r, ?orb_true_r, ?orb_assoc; reflexivity).

(** ** How sentences start and go on *)

(** The token after an expression that is one identifier, number or
    string is not part of it; inside a longer expression that starts with
    one, the second token is a suffix or a binary operator. *)
Lemma after_an_atom n ts :
  derives n ts ->
  match n with
  | Suffixes =>
      ts = [] \/ exists t l, ts = t :: l /\ continues_postfix t = true
  | Rest k =>
      ts = [] \/ exists o l, ts = op o :: l /\ str_in o (operators k) = true
  | Primary =>
      (exists t, ts = [t]) \/ (exists l, ts = sp "(" :: l)
  | Postfix | Unary | Binary _ =>
      forall t t' l, ts = t :: t' :: l ->
        str_in (type t) [IDENTIFIER; NUMBER; STRING] = true ->
        continues (LogicalOr :: tighter LogicalOr) t' = true
  | _ => True
  end.
Proof.
  induction 1; try exact I.
  - left. eauto.
  - right. eauto.
  - (* a postfix expression *)
    intros t t' l E Ht. destruct IHderives1 as [(t0 & ->)|(l0 & ->)].
    + cbn [app] in E. injection E as -> E.
      destruct IHderives2 as [->|(t1 & l1 & -> & K)]; [discriminate|].
      injection E as -> _. unfold continues. now rewrite K.
    + cbn [app] in E. injection E as <- _. discriminate.
  - now left.
  - right. eexists _, _. split; reflexivity.
  - right. eexists _, _. split; reflexivity.
  - right. eexists _, _. split; [reflexivity|].
    unfold continues_postfix. cbn [type value op]. rewrite H.
    apply orb_true_r.
  - (* a prefix operator *)
    intros t t' l E Ht. injection E as <- _. discriminate.
  - exact IHderives.
  - (* a binary expression *)
    intros t t' l E Ht.
    assert (Ka : forall t t' l, a = t :: t' :: l ->
              str_in (type t) [IDENTIFIER; NUMBER; STRING] = true ->
              continues (LogicalOr :: tighter LogicalOr) t' = true)
      by (destruct k; exact IHderives1).
    assert (Na : exists t0 l0, a = t0 :: l0).
    { pose proof (derives_starts _ _ H) as K.
      destruct k; cbn [operand] in K; destruct K as (t0 & l0 & -> & _);
        eauto. }
    destruct Na as (t0 & [|t1 l1] & ->).
    + cbn [app] in E. injection E as -> E.
      destruct IHderives2 as [->|(o & l1 & -> & K)]; [discriminate|].
      injection E as <- _. apply str_in_In in K.
      destruct k; cbn [operators In] in K;
        repeat (destruct K as [K|K]; [subst o; reflexivity|]); contradiction.
    + cbn [app] in E. injection E as -> -> _. eapply Ka; eauto.
  - now left.
  - right. eauto.
Qed.

(** A statement starts with a token the statement dispatch has a
    production for. *)
Lemma sentence_head ph ts :
  sentence ph ts ->
  match ph with
  | Statement _ _ | Declaration | Function _ =>
      exists t l, ts = t :: l /\ starts_statement t = true
  | Block _ => exists l, ts = sp "{" :: l
  | _ => True
  end.
Proof.
  assert (D : forall d, str_in d datatypes = true ->
             starts_statement (kw d) = true).
  { intros d Hd. unfold starts_statement, is_datatype. cbn [type value kw].
    now rewrite Hd. }
  induction 1; try exact I; try exact IHsentence;
    try (eexists _, _; split; [reflexivity|]; auto; reflexivity).
  eexists. reflexivity.
Qed.

(** What a token that starts a statement is not. *)
Lemma starts_statement_is_not t :
  starts_statement t = true ->
  String.eqb (type t) SPECIAL = false
  /\ String.eqb (type t) KEYWORD && String.eqb (value t) "else" = false.
Proof.
  unfold starts_statement, is_datatype. intros H.
  destruct (String.eqb_spec (type t) KEYWORD) as [K|K].
  - rewrite K. split; [reflexivity|]. cbn [andb orb] in *.
    destruct (String.eqb_spec (value t) "else") as [V|V]; [|reflexivity].
    rewrite V, K in H. discriminate.
  - cbn [andb orb] in H. apply String.eqb_eq in H. rewrite H.
    split; reflexivity.
Qed.

(** Decide the tests on tokens that are known. *)
Ltac tests :=
  cbn [type value kw ident num sp op];
  repeat match goal with
  | |- context [String.eqb ?a ?b] =>
      let v := eval vm_compute in (String.eqb a b) in
      match v with
      | true => change (String.eqb a b) with true
      | false => change (String.eqb a b) with false
      end
  | |- context [differs ?a ?b] =>
      let v := eval vm_compute in (differs a b) in
      match v with
      | true => change (differs a b) with true
      | false => change (differs a b) with false
      end
  | |- context [str_in ?a ?b] =>
      let v := eval vm_compute in (str_in a b) in
      match v with
      | true => change (str_in a b) with true
      | false => change (str_in a b) with false
      end
  end;
  cbn [andb orb negb].

(** ** src/new_parse.py *)

Section ProgramsNew.

Variable tokens : list Token.

Import NewParse.

#[local] Notation "'EXPR'" := (parse_expression_at tokens (budget tokens)).

Lemma cur_at i er hm t l :
  skipn i tokens = t :: l -> current tokens (mkParser i er hm) = Some t.
Proof. exact (suffix_current tokens i (mkParser i er hm) t l). Qed.

Lemma cur_end i er hm :
  skipn i tokens = [] -> current tokens (mkParser i er hm) = None.
Proof. exact (suffix_end tokens i (mkParser i er hm)). Qed.

Lemma match_at i er hm t l a b :
  skipn i tokens = t :: l ->
  match_ tokens a b (mkParser i er hm)
  = negb (differs a (type t)) && negb (differs b (value t)).
Proof. exact (match_here tokens i (mkParser i er hm) t l a b). Qed.

Lemma match_none i er hm a b :
  skipn i tokens = [] -> match_ tokens a b (mkParser i er hm) = false.
Proof. exact (match_end tokens i (mkParser i er hm) a b). Qed.

Lemma value_at i er hm t l vs :
  skipn i tokens = t :: l ->
  current_value_in tokens vs (mkParser i er hm) = str_in (value t) vs.
Proof. exact (value_in_here tokens i (mkParser i er hm) t l vs). Qed.

Lemma consume_at i er hm t l a b c :
  skipn i tokens = t :: l ->
  negb (differs a (type t)) && negb (differs b (value t)) = true ->
  consume tokens a b c (mkParser i er hm) = (true, mkParser (i + 1) er hm).
Proof. exact (consume_here tokens i (mkParser i er hm) t l a b c). Qed.

Lemma peek_at i er hm k ty v :
  peek_is tokens k ty v (mkParser i er hm)
  = match nth_error (skipn i tokens) k with
    | Some tok => String.eqb (type tok) ty && String.eqb (value tok) v
    | None => false
    end.
Proof.
  unfold peek_is, peek. cbn [pos]. now rewrite nth_error_skipn_at.
Qed.

Lemma expr_at e rest i er hm :
  derives Expression e -> skipn i tokens = e ++ rest ->
  ends_expression rest = true ->
  EXPR (mkParser i er hm) = Some (mkParser (i + length e) er hm).
Proof.
  intros H Es Hr.
  exact (new_expression_reads tokens e rest (mkParser i er hm) H Es Hr).
Qed.

(** An expression does not start with a closing token, an operator [=]
    or a keyword. *)
Lemma expression_head e v :
  derives Expression e ->
  exists t l, e = t :: l
    /\ String.eqb (type t) KEYWORD = false
    /\ (String.eqb (type t) SPECIAL && String.eqb (value t) v = true ->
        v = "(")
    /\ (String.eqb (type t) OPERATOR && String.eqb (value t) "=" = false).
Proof.
  intros H. destruct (derives_starts _ _ H) as (t & l & -> & Ht).
  exists t, l. split; [reflexivity|].
  destruct (starts_expression_cases t Ht) as [K|[(K1 & K2)|(K1 & K2)]].
  - destruct (atom_type t K) as [K1|[K1|K1]]; rewrite K1;
      (split; [reflexivity|]; split; [discriminate | reflexivity]).
  - rewrite K1, K2. split; [reflexivity|]. split; [|reflexivity].
    intros Hv. apply andb_prop in Hv. destruct Hv as [_ Hv].
    symmetry. now apply String.eqb_eq.
  - rewrite K1. split; [reflexivity|]. split; [discriminate|].
    apply str_in_In in K2. cbn [prefix_operators In] in K2.
    repeat (destruct K2 as [K2|K2]; [rewrite <- K2; reflexivity|]).
    contradiction.
Qed.

(** Nothing, or [= expr], before a comma or a semicolon. *)
Lemma initializer_new it v l i er hm :
  initializer it -> skipn i tokens = it ++ sp v :: l ->
  In v [","; ";"] ->
  (if match_ tokens (Some OPERATOR) (Some "=") (mkParser i er hm)
   then EXPR (advance (mkParser i er hm)) else Some (mkParser i er hm))
  = Some (mkParser (i + length it) er hm).
Proof.
  intros H Es Hv. destruct H as [|e He].
  - cbn [app] in Es. rewrite (match_at i er hm _ _ _ _ Es).
    cbn. flags.
  - flat Es. rewrite (match_at i er hm _ _ _ _ Es). cbn [type value op].
    change (negb (differs (Some OPERATOR) OPERATOR)
            && negb (differs (Some "=") "=")) with true.
    cbv iota. unfold advance, set_pos. cbn [pos errors has_main].
    pose proof (suffix_next tokens i _ _ Es) as E1.
    assert (F : ends_expression (sp v :: l) = true)
      by (destruct Hv as [<-|[<-|[]]]; closing).
    rewrite (expr_at e _ (i + 1) er hm He E1 F). cbn [length]. flags.
Qed.

(** Nothing, or an expression, before the closing token [v]. *)
Lemma optional_new e v l i er hm :
  optional_expression e -> skipn i tokens = e ++ sp v :: l ->
  In v [";"; ")"] ->
  (if negb (match_ tokens (Some SPECIAL) (Some v) (mkParser i er hm))
   then EXPR (mkParser i er hm) else Some (mkParser i er hm))
  = Some (mkParser (i + length e) er hm).
Proof.
  intros H Es Hv. destruct H as [|e He].
  - cbn [app] in Es. rewrite (match_at i er hm _ _ _ _ Es).
    cbn [type value sp]. destruct Hv as [<-|[<-|[]]]; cbn; flags.
  - destruct (expression_head e v He) as (t & r & -> & _ & Hs & _).
    assert (M : match_ tokens (Some SPECIAL) (Some v) (mkParser i er hm)
                = false).
    { flat Es. rewrite (match_at i er hm _ _ _ _ Es).
      unfold differs. change (String.eqb SPECIAL "") with false.
      assert (Hn : String.eqb v "" = false)
        by (destruct Hv as [<-|[<-|[]]]; reflexivity).
      rewrite Hn. cbn [negb andb]. rewrite !negb_involutive.
      destruct (String.eqb (type t) SPECIAL && String.eqb (value t) v) eqn:K;
        [|reflexivity].
      specialize (Hs eq_refl). subst v.
      destruct Hv as [Hv|[Hv|[]]]; discriminate. }
    rewrite M. cbn [negb]. apply (expr_at _ _ i er hm He Es).
    destruct Hv as [<-|[<-|[]]]; closing.
Qed.

Lemma advance_state i er hm :
  advance (mkParser i er hm) = mkParser (i + 1) er hm.
Proof. reflexivity. Qed.

(** The further names of a declaration, before its semicolon. *)
Lemma names_new ns :
  more_names ns ->
  forall i er hm l n, skipn i tokens = ns ++ sp ";" :: l ->
    length ns < n ->
    while_ n (match_ tokens (Some SPECIAL) (Some ","))
      (new_name_round tokens EXPR) (mkParser i er hm)
    = Some (mkParser (i + length ns) er hm).
Proof.
  induction 1 as [|x it r Hit Hr IH]; intros i er hm l n Es Hn.
  - destruct n as [|n]; [cbn in Hn; lia|]. cbn [app] in Es.
    rewrite while_leaves; [flags|].
    rewrite (match_at i er hm _ _ _ _ Es). tests. reflexivity.
  - destruct n as [|n]; [lia|]. flat Es. revert Hn. lens. intros Hn.
    pose proof (suffix_next tokens i _ _ Es) as E1.
    pose proof (suffix_next tokens _ _ _ E1) as E2.
    pose proof (suffix_skip tokens _ _ _ E2) as E3.
    rewrite (while_again n _ _ _ (mkParser (i + 1 + 1 + length it) er hm)).
    + rewrite (IH _ er hm l n E3); [flags | lia].
    + rewrite (match_at i er hm _ _ _ _ Es). tests. reflexivity.
    + unfold new_name_round. rewrite advance_state.
      rewrite (consume_at (i + 1) er hm _ _ _ _ None E1); [|tests; reflexivity].
      cbn [snd]. destruct Hr as [|y it' r' Hit' Hr'].
      * cbn [app] in E2.
        apply (initializer_new it ";" l _ er hm Hit E2). cbn [In]. auto.
      * cbn [app] in E2.
        apply (initializer_new it "," _ _ er hm Hit E2). cbn [In]. auto.
Qed.

Lemma else_absent i er hm rest :
  skipn i tokens = rest -> not_else rest = true ->
  match_ tokens (Some KEYWORD) (Some "else") (mkParser i er hm) = false.
Proof.
  intros Es H. destruct rest as [|t l].
  - now apply match_none.
  - rewrite (match_at i er hm _ _ _ _ Es). unfold not_else in H.
    apply negb_true_iff in H. unfold differs. tests.
    rewrite !negb_involutive. exact H.
Qed.

Lemma goes_on_is_not_assign ks t :
  continues ks t = true ->
  String.eqb (type t) OPERATOR && String.eqb (value t) "=" = false.
Proof.
  intros H.
  destruct (String.eqb_spec (type t) OPERATOR) as [K1|K1]; [|reflexivity].
  destruct (String.eqb_spec (value t) "=") as [K2|K2]; [|reflexivity].
  exfalso. unfold continues, continues_postfix in H. rewrite K1, K2 in H.
  assert (F : str_in "=" (upto ks) = false).
  { clear. induction ks as [|k ks IH]; [reflexivity|].
    cbn [upto]. unfold str_in in *. rewrite existsb_app, IH.
    destruct k; reflexivity. }
  rewrite F in H. discriminate.
Qed.

Lemma statements_head m ss rest :
  sentence (Statements m) ss -> hd_error rest = Some (sp "}") ->
  not_else (ss ++ rest) = true.
Proof.
  intros H Hr. inversion H; subst.
  - destruct rest as [|t l]; [discriminate|]. cbn [hd_error] in Hr.
    injection Hr as ->. reflexivity.
  - match goal with
    | Hs : sentence (Statement _ _) _ |- _ =>
        destruct (sentence_head _ _ Hs) as (t & l & -> & Ht)
    end.
    cbn [app not_else]. apply negb_true_iff.
    apply (starts_statement_is_not t Ht).
Qed.

Lemma sentences_new ph ts :
  sentence ph ts ->
  forall i er hm rest d, skipn i tokens = ts ++ rest ->
  match ph with
  | Statement o m =>
      length ts <= d -> (o = true -> not_else rest = true) ->
      parse_statement_at tokens (S d) (mkParser i er hm)
      = Some (mkParser (i + length ts) er (hm || m))
  | Body o m =>
      length ts < d -> (o = true -> not_else rest = true) ->
      block_or_statement tokens (parse_statement_at tokens d)
        (mkParser i er hm)
      = Some (mkParser (i + length ts) er (hm || m))
  | Block m =>
      length ts <= d ->
      parse_block tokens (parse_statement_at tokens d) (mkParser i er hm)
      = Some (mkParser (i + length ts) er (hm || m))
  | Statements m =>
      length ts < d -> hd_error rest = Some (sp "}") ->
      forall n, length ts < n ->
        loop n (new_block_round tokens (parse_statement_at tokens d))
          (mkParser i er hm)
        = Some (mkParser (i + length ts + 1) er (hm || m))
  | Function m =>
      length ts <= d ->
      parse_function tokens (parse_statement_at tokens d) (mkParser i er hm)
      = Some (mkParser (i + length ts) er (hm || m))
  | Declaration =>
      parse_assignment tokens EXPR (mkParser i er hm)
      = Some (mkParser (i + length ts) er hm)
  | ForInit =>
      (if match_ tokens (Some KEYWORD) None (mkParser i er hm)
       then parse_assignment tokens EXPR (mkParser i er hm)
       else if negb (match_ tokens (Some SPECIAL) (Some ";")
                       (mkParser i er hm))
       then q <- EXPR (mkParser i er hm) ;;
            Some (snd (consume tokens (Some SPECIAL) (Some ";") None q))
       else Some (snd (consume tokens (Some SPECIAL) (Some ";") None
                        (mkParser i er hm))))
      = Some (mkParser (i + length ts) er hm)
  end.
Proof.
  induction 1; intros i er hm rest dp Es.
  - (* a declaration of one name *)
    flat Es. unfold parse_assignment.
    rewrite (match_at i er hm _ _ _ _ Es), (value_at i er hm _ _ _ Es).
    tests. rewrite H. cbv iota. rewrite advance_state.
    pose proof (suffix_next tokens i _ _ Es) as E1.
    pose proof (suffix_next tokens _ _ _ E1) as E2.
    pose proof (suffix_skip tokens _ _ _ E2) as E3.
    rewrite (consume_at (i + 1) er hm _ _ _ _ None E1); [|tests; reflexivity].
    cbn [snd]. unfold budget at 1. rewrite while_leaves.
    + cbn [bind]. rewrite (initializer_new it ";" rest _ er hm H0 E2);
        [|cbn [In]; auto].
      cbn [bind].
      rewrite (consume_at _ er hm _ _ _ _ None E3); [|tests; reflexivity].
      cbn [snd]. flags.
    + destruct H0 as [|e He]; cbn [app] in E2;
        rewrite (match_at _ er hm _ _ _ _ E2); tests; reflexivity.
  - (* a declaration of several names *)
    flat Es. unfold parse_assignment.
    rewrite (match_at i er hm _ _ _ _ Es), (value_at i er hm _ _ _ Es).
    tests. rewrite H. cbv iota. rewrite advance_state.
    pose proof (suffix_next tokens i _ _ Es) as E1.
    pose proof (suffix_next tokens _ _ _ E1) as E2.
    pose proof (suffix_skip tokens _ _ _ E2) as E3.
    rewrite (consume_at (i + 1) er hm _ _ _ _ None E1); [|tests; reflexivity].
    cbn [snd].
    match goal with
    | |- context [while_ ?n ?c ?f ?q] =>
        change (while_ n c f q) with (while_ n c (new_name_round tokens EXPR) q)
    end.
    rewrite (names_new ns H0 _ er hm rest (budget tokens) E2).
    + cbn [bind]. rewrite (match_at _ er hm _ _ _ _ E3). tests.
      cbn [bind].
      rewrite (consume_at _ er hm _ _ _ _ None E3); [|tests; reflexivity].
      cbn [snd]. flags.
    + pose proof (suffix_bound tokens _ _ E2) as Hb.
      rewrite length_app in Hb. unfold budget. lia.
  - (* a declaration as a statement *)
    intros Hd _. cbn [parse_statement_at]. unfold parse_statement.
    pose proof Es as Es0.
    inversion H; subst; flat Es; rewrite (cur_at i er hm _ _ Es); tests;
      match goal with
      | Hdt : str_in _ datatypes = true |- _ => rewrite Hdt
      end;
      cbn [andb]; cbv iota; rewrite peek_at, Es; cbn [nth_error].
    + match goal with Hit : initializer _ |- _ => destruct Hit end;
        cbn [app nth_error]; tests;
        rewrite (IHsentence i er hm rest dp Es0); flags.
    + match goal with Hns : more_names _ |- _ => destruct Hns end;
        cbn [app nth_error]; tests;
        rewrite (IHsentence i er hm rest dp Es0); flags.
  - (* an assignment *)
    intros Hd _. flat Es. cbn [parse_statement_at]. unfold parse_statement.
    rewrite (cur_at i er hm _ _ Es). tests. cbv iota.
    rewrite peek_at, Es. cbn [nth_error]. tests. cbv iota.
    unfold parse_assignment.
    rewrite (match_at i er hm _ _ _ _ Es). tests. cbv iota.
    pose proof (suffix_next tokens i _ _ Es) as E1.
    pose proof (suffix_next tokens _ _ _ E1) as E2.
    pose proof (suffix_skip tokens _ _ _ E2) as E3.
    rewrite (consume_at i er hm _ _ _ _ None Es); [|tests; reflexivity].
    cbn [snd bind]. rewrite (match_at _ er hm _ _ _ _ E1). tests. cbv iota.
    rewrite advance_state, (expr_at e _ _ er hm H E2); [|closing].
    cbn [bind].
    rewrite (consume_at _ er hm _ _ _ _ None E3); [|tests; reflexivity].
    cbn [snd]. flags.
  - (* an expression statement *)
    intros Hd _. cbn [parse_statement_at]. unfold parse_statement.
    assert (Es' : skipn i tokens = (ident x :: l) ++ sp ";" :: rest)
      by (rewrite Es; cbn [app]; now rewrite <- app_assoc).
    flat Es. rewrite (cur_at i er hm _ _ Es). tests. cbv iota.
    assert (P : peek_is tokens 1 OPERATOR "=" (mkParser i er hm) = false).
    { rewrite peek_at, Es. cbn [nth_error]. destruct l as [|t' l'].
      - reflexivity.
      - cbn [app hd_error]. eapply goes_on_is_not_assign.
        eapply (after_an_atom _ _ H); reflexivity. }
    rewrite P. rewrite (expr_at _ _ i er hm H Es'); [|closing].
    cbn [bind]. pose proof (suffix_skip tokens _ _ _ Es') as E3.
    rewrite (consume_at _ er hm _ _ _ _ None E3); [|tests; reflexivity].
    cbn [snd]. revert Hd. lens. intros Hd. flags.
  - (* return *)
    intros Hd _. flat Es. cbn [parse_statement_at]. unfold parse_statement.
    rewrite (cur_at i er hm _ _ Es). tests. cbv iota.
    unfold parse_return_statement. cbv zeta. rewrite advance_state.
    pose proof (suffix_next tokens i _ _ Es) as E1.
    pose proof (suffix_skip tokens _ _ _ E1) as E2.
    rewrite (optional_new e ";" rest _ er hm H E1); [|cbn [In]; auto].
    cbn [bind].
    rewrite (consume_at _ er hm _ _ _ _ None E2); [|tests; reflexivity].
    cbn [snd]. flags.
  - (* if *)
    intros Hd Hr. specialize (Hr eq_refl). flat Es. revert Hd. lens.
    intros Hd. cbn [parse_statement_at]. unfold parse_statement.
    rewrite (cur_at i er hm _ _ Es). tests. cbv iota.
    unfold parse_if_statement. cbv zeta. rewrite advance_state.
    pose proof (suffix_next tokens i _ _ Es) as E1.
    pose proof (suffix_next tokens _ _ _ E1) as E2.
    pose proof (suffix_skip tokens _ _ _ E2) as E3.
    pose proof (suffix_next tokens _ _ _ E3) as E4.
    pose proof (suffix_skip tokens _ _ _ E4) as E5.
    rewrite (consume_at _ er hm _ _ _ _ None E1); [|tests; reflexivity].
    cbn [snd]. rewrite (expr_at c _ _ er hm H E2); [|closing]. cbn [bind].
    rewrite (consume_at _ er hm _ _ _ _ None E3); [|tests; reflexivity].
    cbn [snd]. rewrite (IHsentence _ er hm rest dp E4); [|lia|auto].
    cbn [bind]. rewrite (else_absent _ _ _ rest E5 Hr). flags.
  - (* if and else *)
    intros Hd Hr. flat Es. revert Hd. lens. intros Hd.
    cbn [parse_statement_at]. unfold parse_statement.
    rewrite (cur_at i er hm _ _ Es). tests. cbv iota.
    unfold parse_if_statement. cbv zeta. rewrite advance_state.
    pose proof (suffix_next tokens i _ _ Es) as E1.
    pose proof (suffix_next tokens _ _ _ E1) as E2.
    pose proof (suffix_skip tokens _ _ _ E2) as E3.
    pose proof (suffix_next tokens _ _ _ E3) as E4.
    pose proof (suffix_skip tokens _ _ _ E4) as E5.
    pose proof (suffix_next tokens _ _ _ E5) as E6.
    rewrite (consume_at _ er hm _ _ _ _ None E1); [|tests; reflexivity].
    cbn [snd]. rewrite (expr_at c _ _ er hm H E2); [|closing]. cbn [bind].
    rewrite (consume_at _ er hm _ _ _ _ None E3); [|tests; reflexivity].
    cbn [snd]. rewrite (IHsentence1 _ er hm _ dp E4); [|lia|discriminate].
    cbn [bind]. rewrite (match_at _ er _ _ _ _ _ E5). tests. cbv iota.
    rewrite advance_state, (IHsentence2 _ er _ rest dp E6); [|lia|auto].
    flags.
  - (* while *)
    intros Hd Hr. flat Es. revert Hd. lens. intros Hd.
    cbn [parse_statement_at]. unfold parse_statement.
    rewrite (cur_at i er hm _ _ Es). tests. cbv iota.
    unfold parse_while_statement. cbv zeta. rewrite advance_state.
    pose proof (suffix_next tokens i _ _ Es) as E1.
    pose proof (suffix_next tokens _ _ _ E1) as E2.
    pose proof (suffix_skip tokens _ _ _ E2) as E3.
    pose proof (suffix_next tokens _ _ _ E3) as E4.
    rewrite (consume_at _ er hm _ _ _ _ None E1); [|tests; reflexivity].
    cbn [snd]. rewrite (expr_at c _ _ er hm H E2); [|closing]. cbn [bind].
    rewrite (consume_at _ er hm _ _ _ _ None E3); [|tests; reflexivity].
    cbn [snd]. rewrite (IHsentence _ er hm rest dp E4); [|lia|auto].
    flags.
  - (* for *)
    intros Hd Hr. flat Es. revert Hd. lens. intros Hd.
    cbn [parse_statement_at]. unfold parse_statement.
    rewrite (cur_at i er hm _ _ Es). tests. cbv iota.
    unfold parse_for_statement. cbv zeta. rewrite advance_state.
    pose proof (suffix_next tokens i _ _ Es) as E1.
    pose proof (suffix_next tokens _ _ _ E1) as E2.
    pose proof (suffix_skip tokens _ _ _ E2) as E3.
    pose proof (suffix_skip tokens _ _ _ E3) as E4.
    pose proof (suffix_next tokens _ _ _ E4) as E5.
    pose proof (suffix_skip tokens _ _ _ E5) as E6.
    pose proof (suffix_next tokens _ _ _ E6) as E7.
    rewrite (consume_at _ er hm _ _ _ _ None E1); [|tests; reflexivity].
    cbn [snd]. rewrite (IHsentence1 _ er hm _ dp E2). cbn [bind].
    rewrite (optional_new c ";" _ _ er hm H0 E3); [|cbn [In]; auto].
    cbn [bind].
    rewrite (consume_at _ er hm _ _ _ _ None E4); [|tests; reflexivity].
    cbn [snd]. rewrite (optional_new u ")" _ _ er hm H1 E5); [|cbn [In]; auto].
    cbn [bind].
    rewrite (consume_at _ er hm _ _ _ _ None E6); [|tests; reflexivity].
    cbn [snd]. rewrite (IHsentence2 _ er hm rest dp E7); [|lia|auto].
    flags.
  - (* a nested function *)
    intros Hd _. cbn [parse_statement_at]. unfold parse_statement.
    pose proof Es as Es0.
    inversion H; subst. flat Es. rewrite (cur_at i er hm _ _ Es). tests.
    match goal with
    | Hdt : str_in _ datatypes = true |- _ => rewrite Hdt
    end.
    cbn [andb]. cbv iota. rewrite peek_at, Es. cbn [nth_error]. tests.
    cbv iota. rewrite (IHsentence i er hm rest dp Es0 Hd). flags.
  - (* a declaration at the head of a for *)
    pose proof Es as Es0.
    inversion H; subst; flat Es; rewrite (match_at i er hm _ _ _ _ Es); tests;
      apply (IHsentence i er hm rest dp Es0).
  - (* an expression at the head of a for *)
    destruct (expression_head e ";" H) as (t & l & -> & Hk & Hs & _).
    assert (Es' : skipn i tokens = (t :: l) ++ sp ";" :: rest)
      by (rewrite Es; now rewrite <- app_assoc).
    assert (K : String.eqb (type t) SPECIAL && String.eqb (value t) ";"
                = false).
    { destruct (String.eqb (type t) SPECIAL && String.eqb (value t) ";");
        [|reflexivity]. specialize (Hs eq_refl). discriminate. }
    flat Es. rewrite !(match_at i er hm _ _ _ _ Es). unfold differs. tests.
    rewrite Hk. cbn [negb andb]. rewrite !negb_involutive, K.
    cbn [negb]. rewrite (expr_at _ _ i er hm H Es'); [|closing].
    cbn [bind]. pose proof (suffix_skip tokens _ _ _ Es') as E3.
    rewrite (consume_at _ er hm _ _ _ _ None E3); [|tests; reflexivity].
    cbn [snd]. flags.
  - (* a block as a body *)
    intros Hd _. unfold block_or_statement.
    inversion H; subst.
    pose proof Es as Es'. flat Es'.
    rewrite (match_at i er hm _ _ _ _ Es'). tests.
    apply (IHsentence i er hm rest dp Es). lia.
  - (* a statement as a body *)
    intros Hd Hr. unfold block_or_statement.
    destruct (sentence_head _ _ H) as (t & l & -> & Ht).
    destruct (starts_statement_is_not t Ht) as [Hs _].
    pose proof Es as Es'. flat Es'.
    rewrite (match_at i er hm _ _ _ _ Es'). unfold differs. tests.
    rewrite Hs. cbn [negb andb].
    destruct dp as [|dp]; [lia|].
    apply (IHsentence i er hm rest dp Es); [lia | exact Hr].
  - (* a block *)
    intros Hd. flat Es. revert Hd. lens. intros Hd. unfold parse_block.
    rewrite (consume_at i er hm _ _ _ _ None Es); [|tests; reflexivity].
    cbn [snd]. pose proof (suffix_next tokens i _ _ Es) as E1.
    match goal with
    | |- context [loop ?n ?f ?q] =>
        change (loop n f q)
          with (loop n (new_block_round tokens (parse_statement_at tokens dp))
                  q)
    end.
    rewrite (IHsentence _ er hm _ dp E1); [flags | lia | reflexivity |].
    pose proof (suffix_bound tokens _ _ E1) as Hb. rewrite length_app in Hb.
    unfold budget. lia.
  - (* no statement *)
    intros _ Hr [|n] Hn; [cbn in Hn; lia|]. cbn [app] in Es.
    destruct rest as [|t l]; [discriminate|]. cbn [hd_error] in Hr.
    injection Hr as ->. cbn [loop]. unfold new_block_round.
    rewrite (match_at i er hm _ _ _ _ Es). tests.
    rewrite (consume_at i er hm _ _ _ _ None Es); [|tests; reflexivity].
    cbn [snd]. flags.
  - (* a statement and further statements *)
    intros Hd Hr [|n] Hn; [lia|].
    destruct (sentence_head _ _ H) as (t & l & -> & Ht).
    destruct (starts_statement_is_not t Ht) as [Hs _].
    pose proof (statements_head _ _ _ H0 Hr) as Hne.
    assert (Es' : skipn i tokens = (t :: l) ++ ss ++ rest)
      by (rewrite Es; now rewrite <- app_assoc).
    pose proof Es as Es2. flat Es2. revert Hd Hn. lens. intros Hd Hn.
    cbn [loop]. unfold new_block_round at 1.
    rewrite (match_at i er hm _ _ _ _ Es2), (cur_at i er hm _ _ Es2).
    unfold differs. tests. rewrite Hs. cbn [negb andb is_some].
    destruct dp as [|dp]; [lia|].
    rewrite (IHsentence1 i er hm _ dp Es'); [|cbn [length]; lia|auto].
    cbn [bind]. pose proof (suffix_skip tokens _ _ _ Es') as E1.
    rewrite (IHsentence2 _ er _ rest (S dp) E1); [flags| cbn [length] in *; lia
      | exact Hr | cbn [length] in *; lia].
  - (* a function *)
    intros Hd. flat Es. revert Hd. lens. intros Hd. unfold parse_function.
    cbv zeta. rewrite advance_state.
    pose proof (suffix_next tokens i _ _ Es) as E1.
    pose proof (suffix_next tokens _ _ _ E1) as E2.
    pose proof (suffix_next tokens _ _ _ E2) as E3.
    pose proof (suffix_next tokens _ _ _ E3) as E4.
    rewrite (cur_at _ er hm _ _ E1).
    destruct (String.eqb (value name) "main") eqn:Hm.
    + unfold set_main. cbn [pos errors has_main].
      rewrite (consume_at _ er _ _ _ _ _ None E1); [|reflexivity].
      cbn [snd].
      rewrite (consume_at _ er _ _ _ _ _ None E2); [|tests; reflexivity].
      cbn [snd].
      rewrite (consume_at _ er _ _ _ _ _ None E3); [|tests; reflexivity].
      cbn [snd]. rewrite (IHsentence _ er _ rest dp E4); [|lia].
      cbn [orb]. flags.
    + rewrite (consume_at _ er _ _ _ _ _ None E1); [|reflexivity].
      cbn [snd].
      rewrite (consume_at _ er _ _ _ _ _ None E2); [|tests; reflexivity].
      cbn [snd].
      rewrite (consume_at _ er _ _ _ _ _ None E3); [|tests; reflexivity].
      cbn [snd]. rewrite (IHsentence _ er _ rest dp E4); [|lia].
      cbn [orb]. flags.
Qed.

Lemma program_new m ts :
  top_level m ts ->
  forall i er hm n, skipn i tokens = ts -> length ts < n ->
    while_ n (fun q => is_some (current tokens q))
      (parse_global_declaration tokens EXPR
         (parse_statement_at tokens (budget tokens)))
      (mkParser i er hm)
    = Some (mkParser (i + length ts) er (hm || m)).
Proof.
  induction 1 as [|f m1 r m2 Hf Hr IH|d x it ns r m Hd Hit Hns Hr IH];
    intros i er hm n Es Hn.
  - destruct n as [|n]; [cbn in Hn; lia|]. rewrite while_leaves; [flags|].
    now rewrite (cur_end i er hm Es).
  - destruct n as [|n]; [lia|]. pose proof Es as Es0.
    inversion Hf; subst.
    pose proof (suffix_bound tokens _ _ Es) as Hb.
    pose proof (suffix_skip tokens _ _ _ Es) as E1.
    flat Es. revert Hn Hb. lens. intros Hn Hb.
    rewrite (while_again n _ _ _
               (mkParser (i + length (kw d :: name :: sp "(" :: sp ")" :: b))
                  er (hm || (String.eqb (value name) "main" || m)))).
    + rewrite (IH _ er _ n E1); [flags | cbn [length] in *; lia].
    + now rewrite (cur_at i er hm _ _ Es).
    + unfold parse_global_declaration.
      rewrite (match_at i er hm _ _ _ _ Es), (value_at i er hm _ _ _ Es).
      tests.
      match goal with
      | Hdt : str_in _ datatypes = true |- _ => rewrite Hdt
      end.
      cbn [negb orb]. rewrite peek_at, Es. cbn [nth_error]. tests.
      apply (sentences_new _ _ Hf i er hm r (budget tokens) Es0).
      unfold budget. cbn [length]. lia.
  - destruct n as [|n]; [lia|]. flat Es. revert Hn. lens. intros Hn.
    pose proof (suffix_next tokens i _ _ Es) as E1.
    pose proof (suffix_next tokens _ _ _ E1) as E2.
    pose proof (suffix_skip tokens _ _ _ E2) as E3.
    pose proof (suffix_skip tokens _ _ _ E3) as E4.
    pose proof (suffix_next tokens _ _ _ E4) as E5.
    rewrite (while_again n _ _ _
               (mkParser (i + 1 + 1 + length it + length ns + 1) er hm)).
    + rewrite (IH _ er _ n E5); [flags | lia].
    + now rewrite (cur_at i er hm _ _ Es).
    + unfold parse_global_declaration.
      rewrite (match_at i er hm _ _ _ _ Es), (value_at i er hm _ _ _ Es).
      tests. rewrite Hd. cbn [negb orb].
      assert (P : peek_is tokens 2 SPECIAL "(" (mkParser i er hm) = false).
      { rewrite peek_at, Es. cbn [nth_error].
        destruct Hit; [destruct Hns|]; reflexivity. }
      rewrite P. unfold parse_global_variable. cbv zeta.
      rewrite advance_state.
      rewrite (consume_at _ er hm _ _ _ _ None E1); [|tests; reflexivity].
      cbn [snd].
      assert (I : (if match_ tokens (Some OPERATOR) (Some "=")
                        (mkParser (i + 1 + 1) er hm)
                   then EXPR (advance (mkParser (i + 1 + 1) er hm))
                   else Some (mkParser (i + 1 + 1) er hm))
                  = Some (mkParser (i + 1 + 1 + length it) er hm)).
      { destruct Hns as [|y it' r' Hit' Hr'].
        - cbn [app] in E2.
          apply (initializer_new it ";" r _ er hm Hit E2). cbn [In]. auto.
        - cbn [app] in E2.
          apply (initializer_new it "," _ _ er hm Hit E2). cbn [In]. auto. }
      rewrite I. cbn [bind].
      match goal with
      | |- context [while_ ?k ?c ?f ?q] =>
          change (while_ k c f q)
            with (while_ k c (new_name_round tokens EXPR) q)
      end.
      rewrite (names_new ns Hns _ er hm r (budget tokens) E3).
      * cbn [bind].
        rewrite (consume_at _ er hm _ _ _ _ None E4); [|tests; reflexivity].
        reflexivity.
      * pose proof (suffix_bound tokens _ _ E3) as Hb.
        rewrite length_app in Hb. unfold budget. lia.
Qed.

End ProgramsNew.

Lemma new_program_pass m tokens :
  top_level m tokens ->
  NewParse.structural_pass tokens = Some (mkParser (length tokens) [] m).
Proof.
  intros H. unfold NewParse.structural_pass, NewParse.declarations.
  apply (program_new tokens m tokens H 0 [] false); [reflexivity|].
  unfold NewParse.budget. lia.
Qed.

(** ** src/cpp_parser.py *)

Section ProgramsOld.

Variable tokens : list Token.

Import CppParser.

#[local] Notation "'EXPR'" := (expression_at tokens (budget tokens)).

Lemma token_at i er hm t l :
  skipn i tokens = t :: l -> current_token tokens (mkParser i er hm) = Some t.
Proof. exact (suffix_current tokens i (mkParser i er hm) t l). Qed.

Lemma token_end i er hm :
  skipn i tokens = [] -> current_token tokens (mkParser i er hm) = None.
Proof. exact (suffix_end tokens i (mkParser i er hm)). Qed.

Lemma expect_at i er hm t l a b c :
  skipn i tokens = t :: l ->
  negb (differs a (type t)) && negb (differs b (value t)) = true ->
  expect tokens a b c (mkParser i er hm) = (true, mkParser (i + 1) er hm).
Proof. exact (expect_here tokens i (mkParser i er hm) t l a b c). Qed.

Lemma peek_token_at i er hm k :
  peek_token tokens k (mkParser i er hm) = nth_error (skipn i tokens) k.
Proof.
  unfold peek_token. cbn [pos]. now rewrite nth_error_skipn_at.
Qed.

Lemma next_state i er hm : next (mkParser i er hm) = mkParser (i + 1) er hm.
Proof. reflexivity. Qed.

Lemma old_expr_at e rest i er hm :
  derives Expression e -> skipn i tokens = e ++ rest ->
  ends_expression rest = true ->
  EXPR (mkParser i er hm) = Some (true, mkParser (i + length e) er hm).
Proof.
  intros H Es Hr.
  exact (old_expression_reads tokens e rest (mkParser i er hm) H Es Hr).
Qed.

(** Nothing, or [= expr], before a comma or a semicolon. *)
Lemma initializer_old it v l i er hm :
  initializer it -> skipn i tokens = it ++ sp v :: l ->
  In v [","; ";"] ->
  (if tok_is OPERATOR "=" (current_token tokens (mkParser i er hm))
   then '(_, q) <- EXPR (next (mkParser i er hm)) ;; Some q
   else Some (mkParser i er hm))
  = Some (mkParser (i + length it) er hm).
Proof.
  intros H Es Hv. destruct H as [|e He].
  - cbn [app] in Es. rewrite (token_at i er hm _ _ Es). unfold tok_is.
    tests. flags.
  - flat Es. rewrite (token_at i er hm _ _ Es). unfold tok_is. tests.
    rewrite next_state. pose proof (suffix_next tokens i _ _ Es) as E1.
    assert (F : ends_expression (sp v :: l) = true)
      by (destruct Hv as [<-|[<-|[]]]; closing).
    rewrite (old_expr_at e _ (i + 1) er hm He E1 F). cbn [bind]. flags.
Qed.

(** Nothing, or an expression, before the closing token [v]. *)
Lemma optional_old e v l i er hm :
  optional_expression e -> skipn i tokens = e ++ sp v :: l ->
  In v [";"; ")"] ->
  (if is_some (current_token tokens (mkParser i er hm))
      && negb (tok_is SPECIAL v (current_token tokens (mkParser i er hm)))
   then '(_, q) <- EXPR (mkParser i er hm) ;; Some q
   else Some (mkParser i er hm))
  = Some (mkParser (i + length e) er hm).
Proof.
  intros H Es Hv. destruct H as [|e He].
  - cbn [app] in Es. rewrite (token_at i er hm _ _ Es). unfold tok_is.
    cbn [type value sp is_some]. tests. rewrite String.eqb_refl. cbn. flags.
  - destruct (expression_head e v He) as (t & r & -> & _ & Hs & _).
    assert (K : String.eqb (type t) SPECIAL && String.eqb (value t) v = false).
    { destruct (String.eqb (type t) SPECIAL && String.eqb (value t) v);
        [|reflexivity]. specialize (Hs eq_refl). subst v.
      destruct Hv as [Hv|[Hv|[]]]; discriminate. }
    pose proof Es as Es'. flat Es'. rewrite (token_at i er hm _ _ Es').
    unfold tok_is. rewrite K. cbn [is_some negb andb].
    assert (F : ends_expression (sp v :: l) = true)
      by (destruct Hv as [<-|[<-|[]]]; closing).
    rewrite (old_expr_at _ _ i er hm He Es F). reflexivity.
Qed.

(** The further names of a declaration, before its semicolon. *)
Lemma names_old ns :
  more_names ns ->
  forall i er hm l n, skipn i tokens = ns ++ sp ";" :: l ->
    length ns < n ->
    loop n (old_name_round tokens EXPR) (mkParser i er hm)
    = Some (true, mkParser (i + length ns) er hm).
Proof.
  induction 1 as [|x it r Hit Hr IH]; intros i er hm l n Es Hn.
  - destruct n as [|n]; [cbn in Hn; lia|]. cbn [app] in Es.
    cbn [loop]. unfold old_name_round. rewrite (token_at i er hm _ _ Es).
    unfold tok_is. tests. flags.
  - destruct n as [|n]; [lia|]. flat Es. revert Hn. lens. intros Hn.
    pose proof (suffix_next tokens i _ _ Es) as E1.
    pose proof (suffix_next tokens _ _ _ E1) as E2.
    pose proof (suffix_skip tokens _ _ _ E2) as E3.
    cbn [loop]. unfold old_name_round at 1.
    rewrite (token_at i er hm _ _ Es). unfold tok_is at 1. tests.
    rewrite next_state.
    rewrite (expect_at (i + 1) er hm _ _ _ _ None E1); [|tests; reflexivity].
    cbn [negb].
    assert (I : (if tok_is OPERATOR "="
                      (current_token tokens (mkParser (i + 1 + 1) er hm))
                 then '(_, q) <- EXPR (next (mkParser (i + 1 + 1) er hm)) ;;
                      Some q
                 else Some (mkParser (i + 1 + 1) er hm))
                = Some (mkParser (i + 1 + 1 + length it) er hm)).
    { destruct Hr as [|y it' r' Hit' Hr'].
      - cbn [app] in E2.
        apply (initializer_old it ";" l _ er hm Hit E2). cbn [In]. auto.
      - cbn [app] in E2.
        apply (initializer_old it "," _ _ er hm Hit E2). cbn [In]. auto. }
    destruct (tok_is OPERATOR "="
                (current_token tokens (mkParser (i + 1 + 1) er hm))).
    + destruct (EXPR (next (mkParser (i + 1 + 1) er hm))) as [[b q]|];
        [|discriminate]. cbn [bind] in *. injection I as ->.
      rewrite (IH _ er hm l n E3); [flags | lia].
    + injection I as I. rewrite I.
      rewrite (IH _ er hm l n E3); [flags | lia].
Qed.

Lemma else_absent_old i er hm rest :
  skipn i tokens = rest -> not_else rest = true ->
  tok_is KEYWORD "else" (current_token tokens (mkParser i er hm)) = false.
Proof.
  intros Es H. destruct rest as [|t l].
  - now rewrite (token_end i er hm Es).
  - rewrite (token_at i er hm _ _ Es). unfold not_else in H.
    now apply negb_true_iff in H.
Qed.

Lemma sentences_old ph ts :
  sentence ph ts ->
  forall i er hm rest d, skipn i tokens = ts ++ rest ->
  match ph with
  | Statement o m =>
      length ts <= d -> (o = true -> not_else rest = true) ->
      x_at tokens (S d) (mkParser i er hm)
      = Some (true, mkParser (i + length ts) er (hm || m))
  | Body o m =>
      length ts < d -> (o = true -> not_else rest = true) ->
      block_or_x tokens (x_at tokens d) (mkParser i er hm)
      = Some (mkParser (i + length ts) er (hm || m))
  | Block m =>
      length ts <= d ->
      block tokens (x_at tokens d) (mkParser i er hm)
      = Some (true, mkParser (i + length ts) er (hm || m))
  | Statements m =>
      length ts < d -> hd_error rest = Some (sp "}") ->
      forall n, length ts < n ->
        loop n (old_block_round tokens (x_at tokens d)) (mkParser i er hm)
        = Some (true, mkParser (i + length ts + 1) er (hm || m))
  | Function m =>
      length ts <= d ->
      func tokens (x_at tokens d) (mkParser i er hm)
      = Some (true, mkParser (i + length ts) er (hm || m))
  | Declaration =>
      assign tokens EXPR (mkParser i er hm)
      = Some (true, mkParser (i + length ts) er hm)
  | ForInit =>
      (if tok_type_is KEYWORD (current_token tokens (mkParser i er hm))
       then '(_, q) <- assign tokens EXPR (mkParser i er hm) ;; Some q
       else '(_, q) <- EXPR (mkParser i er hm) ;;
            Some (snd (expect tokens (Some SPECIAL) (Some ";") None q)))
      = Some (mkParser (i + length ts) er hm)
  end.
Proof.
  induction 1; intros i er hm rest dp Es.
  - (* a declaration of one name *)
    flat Es. unfold assign. rewrite (token_at i er hm _ _ Es). tests.
    rewrite H. cbv iota. rewrite next_state.
    pose proof (suffix_next tokens i _ _ Es) as E1.
    pose proof (suffix_next tokens _ _ _ E1) as E2.
    pose proof (suffix_skip tokens _ _ _ E2) as E3.
    rewrite (expect_at (i + 1) er hm _ _ _ _ None E1); [|tests; reflexivity].
    cbn [negb]. unfold budget at 1. cbn [loop].
    assert (C : tok_is SPECIAL ","
                  (current_token tokens (mkParser (i + 1 + 1) er hm)) = false).
    { destruct H0 as [|e He]; cbn [app] in E2;
        rewrite (token_at _ er hm _ _ E2); reflexivity. }
    rewrite C. cbn [bind negb].
    rewrite (initializer_old it ";" rest _ er hm H0 E2); [|cbn [In]; auto].
    cbn [bind].
    rewrite (expect_at _ er hm _ _ _ _ None E3); [|tests; reflexivity].
    cbn [negb]. flags.
  - (* a declaration of several names *)
    flat Es. unfold assign. rewrite (token_at i er hm _ _ Es). tests.
    rewrite H. cbv iota. rewrite next_state.
    pose proof (suffix_next tokens i _ _ Es) as E1.
    pose proof (suffix_next tokens _ _ _ E1) as E2.
    pose proof (suffix_skip tokens _ _ _ E2) as E3.
    rewrite (expect_at (i + 1) er hm _ _ _ _ None E1); [|tests; reflexivity].
    cbn [negb].
    match goal with
    | |- context [loop ?n ?f ?q] =>
        change (loop n f q) with (loop n (old_name_round tokens EXPR) q)
    end.
    rewrite (names_old ns H0 _ er hm rest (budget tokens) E2).
    + cbn [bind negb]. rewrite (token_at _ er hm _ _ E3). unfold tok_is.
      tests. cbn [bind].
      rewrite (expect_at _ er hm _ _ _ _ None E3); [|tests; reflexivity].
      cbn [negb]. flags.
    + pose proof (suffix_bound tokens _ _ E2) as Hb.
      rewrite length_app in Hb. unfold budget. lia.
  - (* a declaration as a statement *)
    intros Hd _. cbn [x_at]. unfold x. pose proof Es as Es0.
    inversion H; subst; flat Es; rewrite (token_at i er hm _ _ Es); tests;
      match goal with
      | Hdt : str_in _ datatypes = true |- _ => rewrite Hdt
      end;
      cbn [andb]; cbv iota; rewrite peek_token_at, Es; cbn [nth_error].
    + match goal with Hit : initializer _ |- _ => destruct Hit end;
        cbn [app nth_error]; unfold tok_is; tests;
        rewrite (IHsentence i er hm rest dp Es0); flags.
    + match goal with Hns : more_names _ |- _ => destruct Hns end;
        cbn [app nth_error]; unfold tok_is; tests;
        rewrite (IHsentence i er hm rest dp Es0); flags.
  - (* an assignment *)
    intros Hd _. flat Es. cbn [x_at]. unfold x.
    rewrite (token_at i er hm _ _ Es). tests. cbv iota.
    rewrite peek_token_at, Es. cbn [nth_error]. unfold tok_is at 1. tests.
    cbv iota. unfold assign.
    rewrite (token_at i er hm _ _ Es). tests. cbv iota.
    pose proof (suffix_next tokens i _ _ Es) as E1.
    pose proof (suffix_next tokens _ _ _ E1) as E2.
    pose proof (suffix_skip tokens _ _ _ E2) as E3.
    rewrite (expect_at i er hm _ _ _ _ None Es); [|tests; reflexivity].
    cbn [negb bind]. rewrite (token_at _ er hm _ _ E1). unfold tok_is. tests.
    rewrite next_state, (old_expr_at e _ _ er hm H E2); [|closing].
    cbn [bind].
    rewrite (expect_at _ er hm _ _ _ _ None E3); [|tests; reflexivity].
    cbn [negb]. flags.
  - (* an expression statement *)
    intros Hd _. cbn [x_at]. unfold x.
    assert (Es' : skipn i tokens = (ident x0 :: l) ++ sp ";" :: rest)
      by (rewrite Es; cbn [app]; now rewrite <- app_assoc).
    flat Es. rewrite (token_at i er hm _ _ Es). tests. cbv iota.
    assert (P : tok_is OPERATOR "=" (peek_token tokens 1 (mkParser i er hm))
                = false).
    { rewrite peek_token_at, Es. cbn [nth_error]. destruct l as [|t' l'].
      - reflexivity.
      - cbn [app hd_error]. eapply goes_on_is_not_assign.
        eapply (after_an_atom _ _ H); reflexivity. }
    rewrite P. unfold expression_statement.
    rewrite (old_expr_at _ _ i er hm H Es'); [|closing].
    cbn [bind]. pose proof (suffix_skip tokens _ _ _ Es') as E3.
    rewrite (expect_at _ er hm _ _ _ _ None E3); [|tests; reflexivity].
    cbn [negb]. revert Hd. lens. intros Hd. flags.
  - (* return *)
    intros Hd _. flat Es. cbn [x_at]. unfold x.
    rewrite (token_at i er hm _ _ Es). tests. cbv iota.
    unfold return_statement. cbv zeta. rewrite next_state.
    pose proof (suffix_next tokens i _ _ Es) as E1.
    pose proof (suffix_skip tokens _ _ _ E1) as E2.
    rewrite (optional_old e ";" rest _ er hm H E1); [|cbn [In]; auto].
    cbn [bind].
    rewrite (expect_at _ er hm _ _ _ _ None E2); [|tests; reflexivity].
    cbn [negb]. flags.
  - (* if *)
    intros Hd Hr. specialize (Hr eq_refl). flat Es. revert Hd. lens.
    intros Hd. cbn [x_at]. unfold x.
    rewrite (token_at i er hm _ _ Es). tests. cbv iota.
    unfold if_statement. cbv zeta. rewrite next_state.
    pose proof (suffix_next tokens i _ _ Es) as E1.
    pose proof (suffix_next tokens _ _ _ E1) as E2.
    pose proof (suffix_skip tokens _ _ _ E2) as E3.
    pose proof (suffix_next tokens _ _ _ E3) as E4.
    pose proof (suffix_skip tokens _ _ _ E4) as E5.
    rewrite (expect_at _ er hm _ _ _ _ None E1); [|tests; reflexivity].
    cbn [negb]. rewrite (old_expr_at c _ _ er hm H E2); [|closing].
    cbn [bind].
    rewrite (expect_at _ er hm _ _ _ _ None E3); [|tests; reflexivity].
    cbn [negb]. rewrite (IHsentence _ er hm rest dp E4); [|lia|auto].
    cbn [bind]. rewrite (else_absent_old _ _ _ rest E5 Hr). flags.
  - (* if and else *)
    intros Hd Hr. flat Es. revert Hd. lens. intros Hd.
    cbn [x_at]. unfold x.
    rewrite (token_at i er hm _ _ Es). tests. cbv iota.
    unfold if_statement. cbv zeta. rewrite next_state.
    pose proof (suffix_next tokens i _ _ Es) as E1.
    pose proof (suffix_next tokens _ _ _ E1) as E2.
    pose proof (suffix_skip tokens _ _ _ E2) as E3.
    pose proof (suffix_next tokens _ _ _ E3) as E4.
    pose proof (suffix_skip tokens _ _ _ E4) as E5.
    pose proof (suffix_next tokens _ _ _ E5) as E6.
    rewrite (expect_at _ er hm _ _ _ _ None E1); [|tests; reflexivity].
    cbn [negb]. rewrite (old_expr_at c _ _ er hm H E2); [|closing].
    cbn [bind].
    rewrite (expect_at _ er hm _ _ _ _ None E3); [|tests; reflexivity].
    cbn [negb]. rewrite (IHsentence1 _ er hm _ dp E4); [|lia|discriminate].
    cbn [bind]. rewrite (token_at _ er _ _ _ E5). unfold tok_is. tests.
    rewrite next_state, (IHsentence2 _ er _ rest dp E6); [|lia|auto].
    cbn [bind]. flags.
  - (* while *)
    intros Hd Hr. flat Es. revert Hd. lens. intros Hd.
    cbn [x_at]. unfold x.
    rewrite (token_at i er hm _ _ Es). tests. cbv iota.
    unfold while_statement. cbv zeta. rewrite next_state.
    pose proof (suffix_next tokens i _ _ Es) as E1.
    pose proof (suffix_next tokens _ _ _ E1) as E2.
    pose proof (suffix_skip tokens _ _ _ E2) as E3.
    pose proof (suffix_next tokens _ _ _ E3) as E4.
    rewrite (expect_at _ er hm _ _ _ _ None E1); [|tests; reflexivity].
    cbn [negb]. rewrite (old_expr_at c _ _ er hm H E2); [|closing].
    cbn [bind].
    rewrite (expect_at _ er hm _ _ _ _ None E3); [|tests; reflexivity].
    cbn [negb]. rewrite (IHsentence _ er hm rest dp E4); [|lia|auto].
    cbn [bind]. flags.
  - (* for *)
    intros Hd Hr. flat Es. revert Hd. lens. intros Hd.
    cbn [x_at]. unfold x.
    rewrite (token_at i er hm _ _ Es). tests. cbv iota.
    unfold for_statement. cbv zeta. rewrite next_state.
    pose proof (suffix_next tokens i _ _ Es) as E1.
    pose proof (suffix_next tokens _ _ _ E1) as E2.
    pose proof (suffix_skip tokens _ _ _ E2) as E3.
    pose proof (suffix_skip tokens _ _ _ E3) as E4.
    pose proof (suffix_next tokens _ _ _ E4) as E5.
    pose proof (suffix_skip tokens _ _ _ E5) as E6.
    pose proof (suffix_next tokens _ _ _ E6) as E7.
    rewrite (expect_at _ er hm _ _ _ _ None E1); [|tests; reflexivity].
    cbn [negb]. rewrite (IHsentence1 _ er hm _ dp E2). cbn [bind].
    rewrite (optional_old c ";" _ _ er hm H0 E3); [|cbn [In]; auto].
    cbn [bind].
    rewrite (expect_at _ er hm _ _ _ _ None E4); [|tests; reflexivity].
    cbn [snd]. rewrite (optional_old u ")" _ _ er hm H1 E5); [|cbn [In]; auto].
    cbn [bind].
    rewrite (expect_at _ er hm _ _ _ _ None E6); [|tests; reflexivity].
    cbn [negb]. rewrite (IHsentence2 _ er hm rest dp E7); [|lia|auto].
    cbn [bind]. flags.
  - (* a nested function *)
    intros Hd _. cbn [x_at]. unfold x. pose proof Es as Es0.
    inversion H; subst. flat Es. rewrite (token_at i er hm _ _ Es). tests.
    match goal with
    | Hdt : str_in _ datatypes = true |- _ => rewrite Hdt
    end.
    cbn [andb]. cbv iota. rewrite peek_token_at, Es. cbn [nth_error].
    unfold tok_is. tests.
    rewrite (IHsentence i er hm rest dp Es0 Hd). flags.
  - (* a declaration at the head of a for *)
    pose proof Es as Es0.
    inversion H; subst; flat Es; rewrite (token_at i er hm _ _ Es);
      unfold tok_type_is; tests;
      rewrite (IHsentence i er hm rest dp Es0); reflexivity.
  - (* an expression at the head of a for *)
    destruct (expression_head e ";" H) as (t & l & -> & Hk & Hs & _).
    assert (Es' : skipn i tokens = (t :: l) ++ sp ";" :: rest)
      by (rewrite Es; now rewrite <- app_assoc).
    flat Es. rewrite (token_at i er hm _ _ Es). unfold tok_type_is.
    rewrite Hk. rewrite (old_expr_at _ _ i er hm H Es'); [|closing].
    cbn [bind]. pose proof (suffix_skip tokens _ _ _ Es') as E3.
    rewrite (expect_at _ er hm _ _ _ _ None E3); [|tests; reflexivity].
    cbn [snd]. flags.
  - (* a block as a body *)
    intros Hd _. unfold block_or_x.
    inversion H; subst.
    pose proof Es as Es'. flat Es'.
    rewrite (token_at i er hm _ _ Es'). unfold tok_is. tests.
    rewrite (IHsentence i er hm rest dp Es); [|lia]. cbn [bind]. flags.
  - (* a statement as a body *)
    intros Hd Hr. unfold block_or_x.
    destruct (sentence_head _ _ H) as (t & l & -> & Ht).
    destruct (starts_statement_is_not t Ht) as [Hs _].
    pose proof Es as Es'. flat Es'.
    rewrite (token_at i er hm _ _ Es'). unfold tok_is.
    rewrite Hs. cbn [andb].
    destruct dp as [|dp]; [lia|].
    rewrite (IHsentence i er hm rest dp Es); [|lia | exact Hr].
    cbn [bind]. flags.
  - (* a block *)
    intros Hd. flat Es. revert Hd. lens. intros Hd. unfold block.
    rewrite (expect_at i er hm _ _ _ _ None Es); [|tests; reflexivity].
    cbn [negb]. pose proof (suffix_next tokens i _ _ Es) as E1.
    match goal with
    | |- context [loop ?n ?f ?q] =>
        change (loop n f q)
          with (loop n (old_block_round tokens (x_at tokens dp)) q)
    end.
    rewrite (IHsentence _ er hm _ dp E1); [flags | lia | reflexivity |].
    pose proof (suffix_bound tokens _ _ E1) as Hb. rewrite length_app in Hb.
    unfold budget. lia.
  - (* no statement *)
    intros _ Hr [|n] Hn; [cbn in Hn; lia|]. cbn [app] in Es.
    destruct rest as [|t l]; [discriminate|]. cbn [hd_error] in Hr.
    injection Hr as ->. cbn [loop]. unfold old_block_round.
    rewrite (token_at i er hm _ _ Es). tests. rewrite next_state. flags.
  - (* a statement and further statements *)
    intros Hd Hr [|n] Hn; [lia|].
    destruct (sentence_head _ _ H) as (t & l & -> & Ht).
    destruct (starts_statement_is_not t Ht) as [Hs _].
    pose proof (statements_head _ _ _ H0 Hr) as Hne.
    assert (Es' : skipn i tokens = (t :: l) ++ ss ++ rest)
      by (rewrite Es; now rewrite <- app_assoc).
    pose proof Es as Es2. flat Es2. revert Hd Hn. lens. intros Hd Hn.
    cbn [loop]. unfold old_block_round at 1.
    rewrite (token_at i er hm _ _ Es2). rewrite Hs. cbn [andb].
    destruct dp as [|dp]; [lia|].
    rewrite (IHsentence1 i er hm _ dp Es'); [|cbn [length]; lia|auto].
    cbn [bind negb]. pose proof (suffix_skip tokens _ _ _ Es') as E1.
    rewrite (IHsentence2 _ er _ rest (S dp) E1); [flags| cbn [length] in *; lia
      | exact Hr | cbn [length] in *; lia].
  - (* a function *)
    intros Hd. flat Es. revert Hd. lens. intros Hd. unfold func.
    rewrite (token_at i er hm _ _ Es). unfold datatype.
    rewrite (token_at i er hm _ _ Es). unfold tok_in. tests. rewrite H.
    cbn [negb]. rewrite next_state.
    pose proof (suffix_next tokens i _ _ Es) as E1.
    pose proof (suffix_next tokens _ _ _ E1) as E2.
    pose proof (suffix_next tokens _ _ _ E2) as E3.
    pose proof (suffix_next tokens _ _ _ E3) as E4.
    rewrite (token_at _ er hm _ _ E1). rewrite H0. cbn [negb].
    destruct (String.eqb (value name) "main") eqn:Hm.
    + unfold set_main. cbn [pos errors has_main]. rewrite next_state.
      rewrite (expect_at _ er _ _ _ _ _ None E2); [|tests; reflexivity].
      cbn [negb].
      rewrite (expect_at _ er _ _ _ _ _ None E3); [|tests; reflexivity].
      cbn [negb]. rewrite (IHsentence _ er _ rest dp E4); [|lia].
      cbn [orb]. flags.
    + rewrite next_state.
      rewrite (expect_at _ er _ _ _ _ _ None E2); [|tests; reflexivity].
      cbn [negb].
      rewrite (expect_at _ er _ _ _ _ _ None E3); [|tests; reflexivity].
      cbn [negb]. rewrite (IHsentence _ er _ rest dp E4); [|lia].
      cbn [orb]. flags.
Qed.

Lemma program_old m ts :
  top_level m ts ->
  forall i er hm n, skipn i tokens = ts -> length ts < n ->
    loop n (old_program_round tokens EXPR (x_at tokens (budget tokens)))
      (mkParser i er hm)
    = Some (mkParser (i + length ts) er (hm || m)).
Proof.
  induction 1 as [|f m1 r m2 Hf Hr IH|d x0 it ns r m Hd Hit Hns Hr IH];
    intros i er hm n Es Hn.
  - destruct n as [|n]; [cbn in Hn; lia|]. cbn [loop].
    unfold old_program_round. rewrite (token_end i er hm Es). cbn [is_some].
    flags.
  - destruct n as [|n]; [lia|]. pose proof Es as Es0.
    inversion Hf; subst.
    pose proof (suffix_bound tokens _ _ Es) as Hb.
    pose proof (suffix_skip tokens _ _ _ Es) as E1.
    flat Es. revert Hn Hb. lens. intros Hn Hb.
    cbn [loop]. unfold old_program_round at 1.
    rewrite (token_at i er hm _ _ Es). cbn [is_some].
    unfold global_declaration. rewrite (token_at i er hm _ _ Es). tests.
    match goal with
    | Hdt : str_in _ datatypes = true |- _ => rewrite Hdt
    end.
    cbn [negb]. rewrite !peek_token_at, Es. cbn [nth_error].
    match goal with
    | Hn : str_in (type _) [IDENTIFIER; KEYWORD] = true |- _ => rewrite Hn
    end.
    cbn [negb]. unfold tok_is. tests.
    rewrite (sentences_old _ _ Hf i er hm r (budget tokens) Es0);
      [|unfold budget; cbn [length]; lia].
    cbn [bind negb]. rewrite (IH _ er _ n E1); [flags | cbn [length] in *; lia].
  - destruct n as [|n]; [lia|]. flat Es. revert Hn. lens. intros Hn.
    pose proof (suffix_next tokens i _ _ Es) as E1.
    pose proof (suffix_next tokens _ _ _ E1) as E2.
    pose proof (suffix_skip tokens _ _ _ E2) as E3.
    pose proof (suffix_skip tokens _ _ _ E3) as E4.
    pose proof (suffix_next tokens _ _ _ E4) as E5.
    cbn [loop]. unfold old_program_round at 1.
    rewrite (token_at i er hm _ _ Es). cbn [is_some].
    unfold global_declaration. rewrite (token_at i er hm _ _ Es). tests.
    rewrite Hd. cbn [negb].
    assert (P : tok_is SPECIAL "(" (peek_token tokens 2 (mkParser i er hm))
                = false).
    { rewrite peek_token_at, Es. cbn [nth_error].
      destruct Hit; [destruct Hns|]; reflexivity. }
    rewrite P, peek_token_at, Es. cbn [nth_error]. tests.
    unfold global_variable. cbv zeta. rewrite next_state.
    rewrite (expect_at _ er hm _ _ _ _ None E1); [|tests; reflexivity].
    cbn [negb].
    assert (I : (if tok_is OPERATOR "="
                      (current_token tokens (mkParser (i + 1 + 1) er hm))
                 then '(_, q) <- EXPR (next (mkParser (i + 1 + 1) er hm)) ;;
                      Some q
                 else Some (mkParser (i + 1 + 1) er hm))
                = Some (mkParser (i + 1 + 1 + length it) er hm)).
    { destruct Hns as [|y it' r' Hit' Hr'].
      - cbn [app] in E2.
        apply (initializer_old it ";" r _ er hm Hit E2). cbn [In]. auto.
      - cbn [app] in E2.
        apply (initializer_old it "," _ _ er hm Hit E2). cbn [In]. auto. }
    rewrite I. cbn [bind].
    match goal with
    | |- context [loop ?k ?f ?q] =>
        change (loop k f q) with (loop k (old_name_round tokens EXPR) q)
    end.
    rewrite (names_old ns Hns _ er hm r (budget tokens) E3).
    + cbn [bind negb].
      rewrite (expect_at _ er hm _ _ _ _ None E4); [|tests; reflexivity].
      cbn [negb bind]. rewrite (IH _ er _ n E5); [flags | lia].
    + pose proof (suffix_bound tokens _ _ E3) as Hb.
      rewrite length_app in Hb. unfold budget. lia.
Qed.

End ProgramsOld.

Lemma old_program_pass m tokens :
  top_level m tokens ->
  CppParser.structural_pass tokens = Some (mkParser (length tokens) [] m).
Proof.
  intros H. unfold CppParser.structural_pass, CppParser.program.
  apply (program_old tokens m tokens H 0 [] false); [reflexivity|].
  unfold CppParser.budget. lia.
Qed.

(** ** Sentences of the scenarios *)

Lemma atom_is_expression t :
  str_in (type t) [IDENTIFIER; NUMBER; STRING] = true ->
  derives Expression [t].
Proof.
  intros H. now apply unary_is_expression, atom_is_unary.
Qed.

(** [int main ( ) { return 0 ; }] is a program with a function [main]. *)
Lemma scenario_A_is_a_program : top_level true scenario_A.
Proof.
  apply (p_function scenario_A true [] false); [|apply p_end].
  apply (s_function "int" (ident "main")
           [sp "{"; kw "return"; num "0"; sp ";"; sp "}"] false);
    try reflexivity.
  apply (s_block [kw "return"; num "0"; sp ";"] false).
  apply (s_statements [kw "return"; num "0"; sp ";"] false false [] false);
    [|apply s_no_statement].
  apply (s_return [num "0"]). apply o_some. now apply atom_is_expression.
Qed.

Lemma statement_runs (tokens ts rest : list Token)
    (o m : bool) (p : Parser) :
  sentence (Statement o m) ts ->
  skipn (pos p) tokens = ts ++ rest ->
  (o = true -> not_else rest = true) ->
  NewParse.parse_statement_at tokens (NewParse.budget tokens) p
  = Some (mkParser (pos p + length ts) (errors p) (has_main p || m))
  /\ CppParser.x_at tokens (CppParser.budget tokens) p
     = Some (true, mkParser (pos p + length ts) (errors p) (has_main p || m)).
Proof.
  intros H Es Hr. destruct p as [i er hm]. cbn [pos errors has_main] in *.
  pose proof (suffix_bound tokens _ _ Es) as Hb. rewrite length_app in Hb.
  split.
  - apply (sentences_new tokens _ _ H i er hm rest (length tokens) Es);
      [lia | exact Hr].
  - apply (sentences_old tokens _ _ H i er hm rest (length tokens) Es);
      [lia | exact Hr].
Qed.

(** X14.  Neither file records a diagnostic on a statement of the
    grammar [sentence].  This grammar holds only statements that both
    files read: it has no declaration inside a function whose first name
    has an initializer and is followed by further names (both files
    record a diagnostic there), no [for] whose first part is empty
    (src/cpp_parser.py records a diagnostic there), no statement that
    starts with another token than a keyword or an identifier, and no
    function with parameters.  When the tokens left at the cursor
    start with such a statement, and no [else] follows a statement that
    ends with an [if] without [else], a call of the statement rule that
    returns (the interpreter raises [RecursionError] when the statement
    is nested too deeply for its stack) returns with the cursor right
    after the statement and with no new diagnostic; the main-flag is
    raised exactly when the statement holds a function named [main].
    [x] of src/cpp_parser.py answers [True]. *)
Theorem statements_of_the_grammar_are_read (tokens ts rest : list Token)
    (o m : bool) (p : Parser) :
  sentence (Statement o m) ts ->
  skipn (pos p) tokens = ts ++ rest ->
  (o = true -> not_else rest = true) ->
  (forall p',
     NewParse.parse_statement_at tokens (NewParse.budget tokens) p = Some p' ->
     p' = mkParser (pos p + length ts) (errors p) (has_main p || m))
  /\ (forall r,
        CppParser.x_at tokens (CppParser.budget tokens) p = Some r ->
        r = (true,
             mkParser (pos p + length ts) (errors p) (has_main p || m))).
Proof.
  intros H Es Hr. destruct (statement_runs tokens ts rest o m p H Es Hr)
    as [A B].
  split; [intros p' R | intros r R]; congruence.
Qed.

Lemma statements_of_the_grammar_are_read_witness :
  (NewParse.parse_statement_at scenario_A (NewParse.budget scenario_A)
     (mkParser 5 [] true)
   = Some (mkParser 8 [] true)
   /\ CppParser.x_at scenario_A (CppParser.budget scenario_A)
        (mkParser 5 [] true)
      = Some (true, mkParser 8 [] true))
  /\ mkParser 8 [] true = mkParser (5 + 3) [] (true || false)
  /\ (true, mkParser 8 [] true)
     = (true, mkParser (5 + 3) [] (true || false)).
Proof.
  split; [split; vm_compute; reflexivity|].
  destruct (statements_of_the_grammar_are_read scenario_A
              [kw "return"; num "0"; sp ";"] [sp "}"] false false
              (mkParser 5 [] true)) as [A B].
  - apply (s_return [num "0"]). apply o_some. now apply atom_is_expression.
  - reflexivity.
  - discriminate.
  - split; [apply A | apply B]; vm_compute; reflexivity.
Defined.

Lemma program_verdicts (tokens : list Token)
    (m : bool) :
  top_level m tokens ->
  NewParse.parse tokens
  = Some (m, mkParser (length tokens)
               (if m then [] else ["Missing main function"%string]) m)
  /\ CppParser.parse tokens
     = Some (m, mkParser (length tokens)
                  (if m then []
                   else ["At end of file: Missing main function"%string]) m).
Proof.
  intros H. unfold NewParse.parse, CppParser.parse.
  rewrite (new_program_pass m tokens H), (old_program_pass m tokens H).
  cbn [bind NewParse.finish CppParser.finish has_main].
  destruct m; cbn [negb]; split; try reflexivity.
  unfold CppParser.add_error, CppParser.current_token. cbn [pos].
  assert (K : nth_error tokens (length tokens) = None)
    by (apply nth_error_None; lia).
  rewrite K. reflexivity.
Qed.

(** X15.  Programs of the grammar [top_level]: the sequences of
    functions and of declarations of global variables that both files
    read, with the statements of [sentence] in the functions.  On such a
    program, when the loop in the [try] block of [parse] runs to its end
    (a [RecursionError] raised on deep nesting ends it before), it has
    read the whole stream and recorded nothing, and [parse] then accepts
    a program that holds a function named [main] with no diagnostic, and
    rejects one that holds none with the missing-main diagnostic
    alone. *)
Theorem programs_of_the_grammar_are_accepted (tokens : list Token)
    (m : bool) :
  top_level m tokens ->
  (forall p, NewParse.structural_pass tokens = Some p ->
     p = mkParser (length tokens) [] m
     /\ NewParse.finish (Completed p)
        = (m, mkParser (length tokens)
                (if m then [] else ["Missing main function"%string]) m))
  /\ (forall p, CppParser.structural_pass tokens = Some p ->
        p = mkParser (length tokens) [] m
        /\ CppParser.finish tokens (Completed p)
           = (m, mkParser (length tokens)
                   (if m then []
                    else ["At end of file: Missing main function"%string])
                   m)).
Proof.
  intros H. destruct (program_verdicts tokens m H) as [V1 V2].
  unfold NewParse.parse, CppParser.parse in V1, V2.
  rewrite (new_program_pass m tokens H) in V1.
  rewrite (old_program_pass m tokens H) in V2.
  cbn [bind] in V1, V2.
  split; intros p E.
  - rewrite (new_program_pass m tokens H) in E. injection E as <-.
    split; [reflexivity | congruence].
  - rewrite (old_program_pass m tokens H) in E. injection E as <-.
    split; [reflexivity | congruence].
Qed.

Lemma programs_of_the_grammar_are_accepted_witness :
  (NewParse.structural_pass scenario_A = Some (mkParser 9 [] true)
   /\ CppParser.structural_pass scenario_A = Some (mkParser 9 [] true))
  /\ NewParse.finish (Completed (mkParser 9 [] true))
     = (true, mkParser 9 [] true)
  /\ CppParser.finish scenario_A (Completed (mkParser 9 [] true))
     = (true, mkParser 9 [] true).
Proof.
  split; [split; vm_compute; reflexivity|].
  destruct (programs_of_the_grammar_are_accepted scenario_A true
              scenario_A_is_a_program) as [A B].
  split.
  - apply (A (mkParser 9 [] true)). vm_compute. reflexivity.
  - apply (B (mkParser 9 [] true)). vm_compute. reflexivity.
Defined.

(** X16.  From the token file to the verdict.  Take a file of ASCII
    lines that, stripped, are the lines [<TYPE, value>] of the tokens of
    a program of the grammar [top_level] that holds a function named
    [main], the tokens being storable.  When the loop of [parse] runs to
    its end on these tokens (no [RecursionError] on deep nesting),
    [parse_cpp_tokens] of both files accepts the file with an empty list
    of diagnostics. *)
Theorem token_file_of_a_program_is_accepted (filename : string)
    (lines : list string) (tokens : list Token) :
  top_level true tokens ->
  Forall storable tokens ->
  forallb ascii_text lines = true ->
  Forall2 (fun l t => strip l = token_line t) lines tokens ->
  (forall p, NewParse.structural_pass tokens = Some p ->
     NewParse.parse_cpp_tokens filename (FileLines lines) = Some (true, []))
  /\ (forall p, CppParser.structural_pass tokens = Some p ->
        CppParser.parse_cpp_tokens filename (FileLines lines)
        = Some (true, [])).
Proof.
  intros H Hs _ Hl.
  cut (NewParse.parse_cpp_tokens filename (FileLines lines) = Some (true, [])
       /\ CppParser.parse_cpp_tokens filename (FileLines lines)
          = Some (true, [])).
  { intros [A B]. split; intros p _; assumption. }
  destruct (read_back lines tokens Hs Hl) as [R1 R2].
  destruct (program_verdicts tokens true H) as [P1 P2].
  unfold NewParse.parse_cpp_tokens, CppParser.parse_cpp_tokens.
  rewrite R1, R2. destruct tokens as [|t l]; [inversion H|].
  - match goal with
    | K : ?a || ?b = true, Hf : sentence (Function _) _ |- _ =>
        inversion Hf; subst; discriminate
    end.
  - rewrite P1, P2. split; reflexivity.
Qed.

Lemma token_file_of_a_program_is_accepted_witness :
  NewParse.parse_cpp_tokens "text.txt" (FileLines scenario_A_lines)
  = Some (true, [])
  /\ CppParser.parse_cpp_tokens "text.txt" (FileLines scenario_A_lines)
     = Some (true, []).
Proof.
  destruct (token_file_of_a_program_is_accepted "text.txt" scenario_A_lines
              scenario_A) as [A B].
  - exact scenario_A_is_a_program.
  - repeat constructor.
  - reflexivity.
  - repeat constructor.
  - split.
    + apply (A (mkParser 9 [] true)). vm_compute. reflexivity.
    + apply (B (mkParser 9 [] true)). vm_compute. reflexivity.
Defined.

(** * What the expression rules read without a diagnostic is an expression *)

Lemma skipn_nth (l : list Token) (i : nat) (t : Token) :
  nth_error l i = Some t -> skipn i l = t :: skipn (i + 1) l.
Proof.
  revert l. induction i as [|i IH]; intros [|x l] H; try discriminate.
  - injection H as ->. reflexivity.
  - cbn [skipn Nat.add]. now apply IH.
Qed.

Lemma token_eta (t : Token) (ty v : string) :
  String.eqb (type t) ty = true -> String.eqb (value t) v = true ->
  t = mkToken ty v.
Proof.
  intros H1 H2. apply String.eqb_eq in H1, H2. destruct t. cbn in *.
  now subst.
Qed.

Section Quiet.

Variable tokens : list Token.

Lemma quiet_refl q : quiet q q.
Proof. reflexivity. Qed.

(** A quiet run is made of quiet steps. *)
Lemma quiet_split p q r :
  good tokens p q -> good tokens q r -> quiet p r -> quiet p q /\ quiet q r.
Proof.
  intros (_ & _ & (l1 & E1) & _) (_ & _ & (l2 & E2) & _) Q. unfold quiet in *.
  rewrite E2, E1, <- app_assoc in Q.
  rewrite <- (app_nil_r (errors p)) in Q at 2.
  apply app_inv_head in Q. apply app_eq_nil in Q. destruct Q as [-> ->].
  rewrite E2, E1, !app_nil_r. auto.
Qed.

Lemma not_quiet_after_error p q m :
  good tokens p q -> quiet p (append_error q m) -> False.
Proof.
  intros (_ & _ & (l & E) & _) Q. unfold quiet in Q. cbn [errors append_error] in Q.
  rewrite E, <- app_assoc in Q.
  rewrite <- (app_nil_r (errors p)) in Q at 2.
  apply app_inv_head in Q. apply app_eq_nil in Q. destruct Q as [_ Q].
  discriminate.
Qed.

Lemma reads_position n q q' :
  pos q <= length tokens -> pos q' <= length tokens ->
  reads tokens n q q' ->
  exists ts, derives n ts /\ skipn (pos q) tokens = ts ++ skipn (pos q') tokens
    /\ pos q' = pos q + length ts.
Proof.
  intros Hb Hb' (ts & D & E). exists ts. split; [exact D|]. split; [exact E|].
  apply (f_equal (@length Token)) in E.
  rewrite length_app, !length_skipn in E. lia.
Qed.

End Quiet.

(** ** src/new_parse.py *)

Section SoundNew.

Variable tokens : list Token.

Import NewParse.

#[local] Arguments consume : simpl never.
#[local] Arguments match_ : simpl never.
#[local] Arguments current : simpl never.
#[local] Arguments advance : simpl never.
#[local] Arguments append_error : simpl never.
#[local] Arguments current_value_in : simpl never.

Lemma here q t :
  current tokens q = Some t ->
  skipn (pos q) tokens = t :: skipn (pos (advance q)) tokens.
Proof.
  intros H. now apply skipn_nth.
Qed.

Lemma good_step q t : current tokens q = Some t -> good tokens q (advance q).
Proof.
  intros H. apply good_set_pos with (t := t). exact H.
Qed.

(** What a successful [match] tells about the current token. *)
Lemma match_both ty v q :
  ty <> "" -> v <> "" ->
  match_ tokens (Some ty) (Some v) q = true ->
  current tokens q = Some (mkToken ty v).
Proof.
  intros Hty Hv H. unfold match_, differs in H.
  destruct (current tokens q) as [t|]; [|discriminate].
  apply String.eqb_neq in Hty, Hv. rewrite Hty, Hv in H. cbn [negb andb] in H.
  destruct (String.eqb (type t) ty) eqn:E1; [|discriminate].
  destruct (String.eqb (value t) v) eqn:E2; [|discriminate].
  f_equal. now apply token_eta.
Qed.

Lemma match_operator l q :
  match_ tokens (Some OPERATOR) None q && current_value_in tokens l q = true ->
  exists o, current tokens q = Some (op o) /\ str_in o l = true.
Proof.
  intros H. apply andb_prop in H. destruct H as [H1 H2].
  unfold match_, differs, current_value_in in *.
  destruct (current tokens q) as [t|]; [|discriminate].
  change (String.eqb OPERATOR "") with false in H1. cbn [negb andb] in H1.
  destruct (String.eqb (type t) OPERATOR) eqn:E1; [|discriminate].
  exists (value t). split; [|exact H2]. f_equal.
  apply token_eta; [exact E1 | apply String.eqb_refl].
Qed.

Lemma goes_on_operator k q :
  new_goes_on tokens k q = true ->
  exists o, current tokens q = Some (op o) /\ str_in o (operators k) = true.
Proof.
  intros H. destruct k; cbn [new_goes_on operators] in *;
    try (now apply match_operator).
  - exists "&&". split; [|reflexivity].
    apply (match_both OPERATOR "&&"); [discriminate | discriminate | exact H].
  - exists "||". split; [|reflexivity].
    apply (match_both OPERATOR "||"); [discriminate | discriminate | exact H].
Qed.

(** A quiet [consume] has matched and moved the cursor by one. *)
Lemma consume_is_quiet a b c p q :
  good tokens p q -> quiet p (snd (consume tokens a b c q)) ->
  match_ tokens a b q = true /\ snd (consume tokens a b c q) = advance q.
Proof.
  intros G Q. unfold consume in *. destruct (match_ tokens a b q); [auto|].
  cbn [snd] in Q. exfalso. eapply not_quiet_after_error; eauto.
Qed.

(** The loop of a binary level stops where no operator of the level
    stands. *)
Lemma stops_at k ks q :
  pos q <= length tokens ->
  ends ks (skipn (pos q) tokens) = true ->
  new_goes_on tokens k q = false ->
  ends (k :: ks) (skipn (pos q) tokens) = true.
Proof.
  intros Hb He Hg.
  destruct (skipn (pos q) tokens) as [|t l] eqn:E; [reflexivity|].
  assert (Hq : q = set_pos q (pos q)) by now destruct q.
  rewrite Hq, (goes_on_here tokens (pos q) q t l k E) in Hg.
  unfold ends, continues in *. cbn [upto].
  apply negb_true_iff in He. apply negb_true_iff.
  apply orb_false_elim in He. destruct He as [He1 He2]. rewrite He1.
  cbn [orb]. destruct (String.eqb (type t) OPERATOR); [|reflexivity].
  cbn [andb] in *. unfold str_in in *. rewrite existsb_app, Hg, He2.
  reflexivity.
Qed.

(** The loop of [parse_postfix] leaves where no suffix starts. *)
Lemma suffix_round_leaves self q r :
  new_suffix_round tokens self q = Some (Leave r) ->
  r = q /\ ends [] (skipn (pos q) tokens) = true.
Proof.
  unfold new_suffix_round. intros H.
  destruct (current tokens q) as [t|] eqn:Hc; cbn [is_some] in H.
  - rewrite (here q t Hc).
    unfold match_, current_value_in, differs in H. rewrite Hc in H.
    change (String.eqb SPECIAL "") with false in H.
    change (String.eqb OPERATOR "") with false in H.
    change (String.eqb "[" "") with false in H.
    change (String.eqb "(" "") with false in H.
    cbn [negb andb] in H.
    unfold ends, continues, continues_postfix, str_in, step_operators.
    cbn [upto existsb].
    destruct (String.eqb (type t) SPECIAL) eqn:E1; cbn [negb andb orb] in *.
    + destruct (String.eqb (value t) "[") eqn:E2; cbn [negb] in H.
      { destruct (self (advance q)); discriminate. }
      destruct (String.eqb (value t) "(") eqn:E3; cbn [negb] in H.
      { destruct (parse_argument_list tokens self (advance q)); discriminate. }
      destruct (String.eqb (type t) OPERATOR) eqn:E4; cbn [negb andb orb] in *.
      * apply String.eqb_eq in E1, E4. rewrite E1 in E4. discriminate.
      * injection H as <-. auto.
    + destruct (String.eqb (type t) OPERATOR) eqn:E4; cbn [negb andb orb] in *.
      * unfold str_in in H. cbn [existsb] in H.
        destruct (String.eqb (value t) "++"
                  || (String.eqb (value t) "--" || false)) eqn:E5;
          [discriminate|]. injection H as <-. auto.
      * injection H as <-. auto.
  - injection H as <-. split; [reflexivity|].
    unfold current in Hc. apply nth_error_None in Hc.
    rewrite skipn_all2; [reflexivity | lia].
Qed.

Lemma current_bound q t : current tokens q = Some t -> pos q < length tokens.
Proof. apply token_in_bounds. Qed.

Ltac bounds :=
  repeat match goal with
  | H : good _ ?a ?b |- _ =>
      lazymatch goal with
      | _ : pos a <= pos b |- _ => fail
      | _ => pose proof (good_le _ _ _ H);
             pose proof (good_in_bounds _ _ _ H)
      end
  | H : current _ ?q = Some _ |- _ =>
      lazymatch goal with
      | _ : pos q < length _ |- _ => fail
      | _ => pose proof (current_bound _ _ H)
      end
  end;
  unfold advance, set_pos in *; cbn [pos] in *.

Lemma reads_nothing n q : derives n [] -> reads tokens n q q.
Proof.
  intros H. exists []. split; [exact H | reflexivity].
Qed.

Section Rules.

Variable d : nat.
Variable self : Parser -> option Parser.
Hypothesis Hself : forall q, pos q <= length tokens ->
  length tokens - pos q < d -> returns (good tokens q) (self q).
Hypothesis Hsound : forall q q', pos q <= length tokens ->
  length tokens - pos q < d -> self q = Some q' -> quiet q q' ->
  reads tokens Expression q q'
  /\ ends_expression (skipn (pos q') tokens) = true.

Lemma self_is_good q q' :
  pos q <= length tokens -> length tokens - pos q < d ->
  self q = Some q' -> good tokens q q'.
Proof.
  intros Hb Hd E. destruct (Hself q Hb Hd) as (a & Ea & G). congruence.
Qed.

(** An expression between two tokens that are consumed: [( e )] and
    [[ e ]]. *)
Lemma bracket_sound (o c : string) q q1 :
  o <> "" -> c <> "" ->
  pos q <= length tokens -> length tokens - pos q < S d ->
  match_ tokens (Some SPECIAL) (Some o) q = true ->
  self (advance q) = Some q1 ->
  good tokens q (snd (consume tokens (Some SPECIAL) (Some c) None q1))
  /\ pos q < pos (snd (consume tokens (Some SPECIAL) (Some c) None q1))
  /\ (quiet q (snd (consume tokens (Some SPECIAL) (Some c) None q1)) ->
      exists e, derives Expression e
        /\ skipn (pos q) tokens
           = (sp o :: e ++ [sp c])
             ++ skipn (pos (snd (consume tokens (Some SPECIAL) (Some c)
                                   None q1))) tokens).
Proof.
  intros Ho Hc Hb Hd M E.
  pose proof (match_both SPECIAL o q ltac:(discriminate) Ho M) as C.
  pose proof (good_step q _ C) as G0.
  assert (G1 : good tokens (advance q) q1)
    by (apply self_is_good; auto; bounds; lia).
  assert (G2 : good tokens q1
                 (snd (consume tokens (Some SPECIAL) (Some c) None q1)))
    by (apply good_consume, good_refl; bounds; lia).
  assert (G : good tokens q q1) by (eapply good_trans; eauto).
  split; [eapply good_trans; eauto|]. split; [bounds; lia|].
  intros Q. destruct (consume_is_quiet _ _ _ _ _ G Q) as (M2 & E2).
  rewrite E2 in *.
  pose proof (match_both SPECIAL c q1 ltac:(discriminate) Hc M2) as C2.
  assert (Q1 : quiet (advance q) q1).
  { unfold quiet in *. cbn [errors advance set_pos] in *. exact Q. }
  destruct (Hsound (advance q) q1) as ((e & De & Ee) & _); auto;
    [bounds; lia..|].
  exists e. split; [exact De|].
  rewrite (here q _ C), Ee, (here q1 _ C2). cbn [app].
  now rewrite <- app_assoc.
Qed.

Lemma primary_sound p p' :
  pos p <= length tokens -> length tokens - pos p < S d ->
  parse_primary tokens self p = Some p' -> quiet p p' ->
  reads tokens Primary p p'.
Proof.
  intros Hb Hd E Q. unfold parse_primary in E.
  destruct (current tokens p) as [tok|] eqn:C.
  - destruct (str_in (type tok) [IDENTIFIER; NUMBER; STRING]) eqn:A.
    + injection E as <-. exists [tok]. split; [now apply d_atom|].
      apply (here p tok C).
    + destruct (match_ tokens (Some SPECIAL) (Some "(") p) eqn:M.
      * destruct (self (advance p)) as [p1|] eqn:E1; [|discriminate].
        cbn [bind] in E. injection E as <-.
        destruct (bracket_sound "(" ")" p p1) as (_ & _ & R); auto;
          try discriminate.
        destruct (R Q) as (e & De & Ee).
        exists (sp "(" :: e ++ [sp ")"]). split; [now apply d_parenthesis|].
        exact Ee.
      * injection E as <-. exfalso.
        apply (not_quiet_after_error tokens p p
                 ("Unexpected token in expression: " ++ type tok ++ " '"
                    ++ value tok ++ "'")%string); [now apply good_refl|].
        exact Q.
  - injection E as <-. exfalso.
    apply (not_quiet_after_error tokens p p
             "Unexpected end of file in expression"); [now apply good_refl|].
    exact Q.
Qed.

(** The loop over the further arguments of a call. *)
Lemma more_arguments_sound n : forall q q',
  pos q <= length tokens -> length tokens - pos q < S d ->
  while_ n (match_ tokens (Some SPECIAL) (Some ","))
    (fun q => self (advance q)) q = Some q' ->
  good tokens q q' /\ (quiet q q' -> reads tokens MoreArguments q q').
Proof.
  induction n as [|n IH]; intros q q' Hb Hd E; [discriminate|].
  unfold while_ in E. cbn [loop] in E.
  destruct (match_ tokens (Some SPECIAL) (Some ",") q) eqn:M.
  - pose proof (match_both SPECIAL "," q ltac:(discriminate)
                  ltac:(discriminate) M) as C.
    pose proof (good_step q _ C) as G0.
    destruct (self (advance q)) as [q1|] eqn:E1; [|discriminate].
    cbn [bind] in E.
    assert (G1 : good tokens (advance q) q1)
      by (apply self_is_good; auto; bounds; lia).
    destruct (IH q1 q') as (G2 & R2); [bounds; lia..|exact E|].
    assert (G : good tokens q q1) by (eapply good_trans; eauto).
    split; [eapply good_trans; eauto|]. intros Q.
    destruct (quiet_split tokens q q1 q' G G2 Q) as (Q1 & Q2).
    destruct (Hsound (advance q) q1) as ((e & De & Ee) & _); auto;
      [bounds; lia..|].
    destruct (R2 Q2) as (m & Dm & Em).
    exists (sp "," :: e ++ m). split; [now apply d_more|].
    rewrite (here q _ C), Ee, Em. cbn [app]. now rewrite <- app_assoc.
  - injection E as <-. split; [now apply good_refl|]. intros _.
    apply reads_nothing, d_no_more.
Qed.

Lemma argument_list_sound p p' :
  pos p <= length tokens -> length tokens - pos p < d ->
  parse_argument_list tokens self p = Some p' ->
  good tokens p p' /\ (quiet p p' -> reads tokens Arguments p p').
Proof.
  intros Hb Hd E. unfold parse_argument_list in E.
  destruct (match_ tokens (Some SPECIAL) (Some ")") p).
  - injection E as <-. split; [now apply good_refl|]. intros _.
    apply reads_nothing, d_no_argument.
  - destruct (self p) as [p1|] eqn:E1; [|discriminate]. cbn [bind] in E.
    assert (G1 : good tokens p p1) by (apply self_is_good; auto).
    destruct (more_arguments_sound (budget tokens) p1 p') as (G2 & R2);
      [bounds; lia..|exact E|].
    split; [eapply good_trans; eauto|]. intros Q.
    destruct (quiet_split tokens p p1 p' G1 G2 Q) as (Q1 & Q2).
    destruct (Hsound p p1) as ((e & De & Ee) & _); auto.
    destruct (R2 Q2) as (m & Dm & Em).
    exists (e ++ m). split; [now apply d_arguments|].
    rewrite Ee, Em. now rewrite <- app_assoc.
Qed.

(** One suffix. *)
Lemma suffix_round_again q q1 :
  pos q <= length tokens -> length tokens - pos q < S d ->
  new_suffix_round tokens self q = Some (Again q1) ->
  good tokens q q1 /\ pos q < pos q1
  /\ (quiet q q1 ->
      exists one, skipn (pos q) tokens = one ++ skipn (pos q1) tokens
        /\ forall s, derives Suffixes s -> derives Suffixes (one ++ s)).
Proof.
  intros Hb Hd R. unfold new_suffix_round in R.
  destruct (current tokens q) as [t|] eqn:C; [|discriminate].
  cbn [is_some] in R.
  destruct (match_ tokens (Some SPECIAL) (Some "[") q) eqn:M1.
  { destruct (self (advance q)) as [q2|] eqn:E2; [|discriminate].
    cbn [bind] in R. injection R as <-.
    destruct (bracket_sound "[" "]" q q2) as (G & Hlt & R); auto;
      try discriminate.
    split; [exact G|]. split; [exact Hlt|]. intros Q.
    destruct (R Q) as (e & De & Ee).
    exists (sp "[" :: e ++ [sp "]"]). split; [exact Ee|].
    intros s Ds. cbn [app]. rewrite <- app_assoc. now apply d_subscript. }
  destruct (match_ tokens (Some SPECIAL) (Some "(") q) eqn:M2.
  { pose proof (good_step q _ C) as G0.
    destruct (parse_argument_list tokens self (advance q)) as [q2|] eqn:E2;
      [|discriminate].
    cbn [bind] in R. injection R as <-.
    destruct (argument_list_sound (advance q) q2) as (G1 & R1);
      [bounds; lia..|exact E2|].
    assert (G2 : good tokens q2
                   (snd (consume tokens (Some SPECIAL) (Some ")") None q2)))
      by (apply good_consume, good_refl; bounds; lia).
    assert (G : good tokens q q2) by (eapply good_trans; eauto).
    split; [eapply good_trans; eauto|]. split; [bounds; lia|]. intros Q.
    destruct (consume_is_quiet _ _ _ _ _ G Q) as (M3 & E3).
    rewrite E3 in *.
    pose proof (match_both SPECIAL ")" q2 ltac:(discriminate)
                  ltac:(discriminate) M3) as C3.
    pose proof (match_both SPECIAL "(" q ltac:(discriminate)
                  ltac:(discriminate) M2) as C2.
    assert (Q1 : quiet (advance q) q2).
    { unfold quiet in *. cbn [errors advance set_pos] in *. exact Q. }
    destruct (R1 Q1) as (a & Da & Ea).
    exists (sp "(" :: a ++ [sp ")"]). split.
    - rewrite (here q _ C2), Ea, (here q2 _ C3). cbn [app].
      now rewrite <- app_assoc.
    - intros s Ds. cbn [app]. rewrite <- app_assoc. now apply d_call. }
  destruct (match_ tokens (Some OPERATOR) None q
            && current_value_in tokens ["++"; "--"] q) eqn:M3;
    [|discriminate].
  injection R as <-. destruct (match_operator _ _ M3) as (o & Co & Ho).
  split; [now apply good_step with (t := t)|]. split; [bounds; lia|].
  intros _. exists [op o]. split; [apply (here q _ Co)|].
  intros s Ds. now apply d_step.
Qed.

Lemma suffixes_sound n : forall q q',
  pos q <= length tokens -> length tokens - pos q < S d ->
  loop n (new_suffix_round tokens self) q = Some q' ->
  good tokens q q'
  /\ (quiet q q' ->
      reads tokens Suffixes q q'
      /\ ends [] (skipn (pos q') tokens) = true).
Proof.
  induction n as [|n IH]; intros q q' Hb Hd E; [discriminate|].
  cbn [loop] in E.
  destruct (new_suffix_round tokens self q) as [[q1|r]|] eqn:R;
    [| |discriminate].
  - destruct (suffix_round_again q q1 Hb Hd R) as (G1 & Hlt & R1).
    destruct (IH q1 q') as (G2 & R2); [bounds; lia..|exact E|].
    split; [eapply good_trans; eauto|]. intros Q.
    destruct (quiet_split tokens q q1 q' G1 G2 Q) as (Q1 & Q2).
    destruct (R1 Q1) as (one & E1 & K). destruct (R2 Q2) as ((s & Ds & Es) & F).
    split; [|exact F]. exists (one ++ s). split; [now apply K|].
    rewrite E1, Es. now rewrite <- app_assoc.
  - injection E as <-. destruct (suffix_round_leaves self q r R) as (-> & F).
    split; [now apply good_refl|]. intros _. split; [|exact F].
    apply reads_nothing, d_no_suffix.
Qed.

Lemma postfix_sound p p' :
  pos p <= length tokens -> length tokens - pos p < S d ->
  parse_postfix tokens self p = Some p' -> quiet p p' ->
  reads tokens Postfix p p' /\ ends [] (skipn (pos p') tokens) = true.
Proof.
  intros Hb Hd E Q. rewrite parse_postfix_unfold in E.
  destruct (parse_primary_moved tokens d self Hself p Hb Hd)
    as (p1 & E1 & (G1 & _)).
  rewrite E1 in E. cbn [bind] in E.
  destruct (suffixes_sound (budget tokens) p1 p') as (G2 & R2);
    [bounds; lia..|exact E|].
  destruct (quiet_split tokens p p1 p' G1 G2 Q) as (Q1 & Q2).
  destruct (primary_sound p p1 Hb Hd E1 Q1) as (a & Da & Ea).
  destruct (R2 Q2) as ((s & Ds & Es) & F). split; [|exact F].
  exists (a ++ s). split; [now apply d_postfix|].
  rewrite Ea, Es. now rewrite <- app_assoc.
Qed.

Lemma unary_sound n : forall p p',
  pos p <= length tokens -> length tokens - pos p < S d ->
  parse_unary tokens self n p = Some p' -> quiet p p' ->
  reads tokens Unary p p' /\ ends [] (skipn (pos p') tokens) = true.
Proof.
  induction n as [|n IH]; intros p p' Hb Hd E Q; [discriminate|].
  cbn [parse_unary] in E.
  destruct (match_ tokens (Some OPERATOR) None p
            && current_value_in tokens ["+"; "-"; "++"; "--"; "!"] p) eqn:M.
  - destruct (match_operator _ _ M) as (o & C & Ho).
    pose proof (good_step p _ C) as G0.
    destruct (IH (advance p) p') as ((u & Du & Eu) & F);
      [bounds; lia..|exact E|exact Q|].
    split; [|exact F]. exists (op o :: u). split; [now apply d_prefix|].
    rewrite (here p _ C), Eu. reflexivity.
  - destruct (postfix_sound p p' Hb Hd E Q) as ((a & Da & Ea) & F).
    split; [|exact F]. exists a. split; [now apply d_unary | exact Ea].
Qed.

(** One level of the ladder of binary operators. *)
Lemma level_sound (k : level) (f : Parser -> option Parser) :
  (forall q, pos q <= length tokens -> length tokens - pos q < S d ->
     returns (moved tokens q) (f q)) ->
  (forall q q', pos q <= length tokens -> length tokens - pos q < S d ->
     f q = Some q' -> quiet q q' ->
     reads tokens (operand k) q q'
     /\ ends (tighter k) (skipn (pos q') tokens) = true) ->
  forall p p', pos p <= length tokens -> length tokens - pos p < S d ->
    bind (f p)
      (while_ (budget tokens) (new_goes_on tokens k)
         (fun q => f (advance q))) = Some p' ->
    quiet p p' ->
    reads tokens (Binary k) p p'
    /\ ends (k :: tighter k) (skipn (pos p') tokens) = true.
Proof.
  intros Hf Hs.
  assert (L : forall n q q', pos q <= length tokens ->
            length tokens - pos q < S d ->
            while_ n (new_goes_on tokens k) (fun q => f (advance q)) q
            = Some q' ->
            good tokens q q'
            /\ (quiet q q' ->
                ends (tighter k) (skipn (pos q) tokens) = true ->
                reads tokens (Rest k) q q'
                /\ ends (k :: tighter k) (skipn (pos q') tokens) = true)).
  { induction n as [|n IH]; intros q q' Hb Hd E; [discriminate|].
    unfold while_ in E. cbn [loop] in E.
    destruct (new_goes_on tokens k q) eqn:M.
    - destruct (goes_on_operator k q M) as (o & C & Ho).
      pose proof (good_step q _ C) as G0.
      destruct (Hf (advance q)) as (q1 & E1 & (G1 & _)); [bounds; lia..|].
      rewrite E1 in E. cbn [bind] in E.
      assert (G : good tokens q q1) by (eapply good_trans; eauto).
      destruct (IH q1 q') as (G2 & R2); [bounds; lia..|exact E|].
      split; [eapply good_trans; eauto|]. intros Q _.
      destruct (quiet_split tokens q q1 q' G G2 Q) as (Q1 & Q2).
      destruct (Hs (advance q) q1) as ((a & Da & Ea) & Fa); auto;
        [bounds; lia..|].
      destruct (R2 Q2 Fa) as ((r & Dr & Er) & Fr). split; [|exact Fr].
      exists (op o :: a ++ r). split; [now apply d_rest|].
      rewrite (here q _ C), Ea, Er. cbn [app]. now rewrite <- app_assoc.
    - injection E as <-. split; [now apply good_refl|]. intros _ F. split.
      + apply reads_nothing, d_no_rest.
      + now apply stops_at. }
  intros p p' Hb Hd E Q.
  destruct (Hf p Hb Hd) as (p1 & E1 & (G1 & _)). rewrite E1 in E.
  cbn [bind] in E.
  destruct (L (budget tokens) p1 p') as (G2 & R2); [bounds; lia..|exact E|].
  destruct (quiet_split tokens p p1 p' G1 G2 Q) as (Q1 & Q2).
  destruct (Hs p p1 Hb Hd E1 Q1) as ((a & Da & Ea) & Fa).
  destruct (R2 Q2 Fa) as ((r & Dr & Er) & Fr). split; [|exact Fr].
  exists (a ++ r). split; [now apply d_binary|].
  rewrite Ea, Er. now rewrite <- app_assoc.
Qed.

Lemma new_binary_moved k q :
  pos q <= length tokens -> length tokens - pos q < S d ->
  returns (moved tokens q) (new_binary tokens k self q).
Proof.
  intros Hb Hd. destruct k; cbn [new_binary].
  - now apply parse_multiplicative_moved with (d := d).
  - now apply parse_additive_moved with (d := d).
  - now apply parse_relational_moved with (d := d).
  - now apply parse_equality_moved with (d := d).
  - now apply parse_logical_and_moved with (d := d).
  - now apply parse_logical_or_moved with (d := d).
Qed.

Lemma new_operand_moved k q :
  pos q <= length tokens -> length tokens - pos q < S d ->
  returns (moved tokens q) (new_operand tokens k self q).
Proof.
  intros Hb Hd. destruct k; cbn [new_operand];
    try (now apply new_binary_moved).
  apply parse_unary_moved with (d := d); auto. unfold budget. lia.
Qed.

Lemma binary_from_operand k :
  (forall q q', pos q <= length tokens -> length tokens - pos q < S d ->
     new_operand tokens k self q = Some q' -> quiet q q' ->
     reads tokens (operand k) q q'
     /\ ends (tighter k) (skipn (pos q') tokens) = true) ->
  forall p p', pos p <= length tokens -> length tokens - pos p < S d ->
    new_binary tokens k self p = Some p' -> quiet p p' ->
    reads tokens (Binary k) p p'
    /\ ends (k :: tighter k) (skipn (pos p') tokens) = true.
Proof.
  intros Hs p p' Hb Hd E Q. rewrite new_binary_unfold in E.
  apply (level_sound k (new_operand tokens k self)); auto.
  intros q Hq Hdq. now apply new_operand_moved.
Qed.

Lemma binary_sound k : forall p p',
  pos p <= length tokens -> length tokens - pos p < S d ->
  new_binary tokens k self p = Some p' -> quiet p p' ->
  reads tokens (Binary k) p p'
  /\ ends (k :: tighter k) (skipn (pos p') tokens) = true.
Proof.
  assert (S0 := binary_from_operand Multiplicative
                  (fun q q' Hb Hd => unary_sound (budget tokens) q q' Hb Hd)).
  assert (S1 := binary_from_operand Additive S0).
  assert (S2 := binary_from_operand Relational S1).
  assert (S3 := binary_from_operand Equality S2).
  assert (S4 := binary_from_operand LogicalAnd S3).
  assert (S5 := binary_from_operand LogicalOr S4).
  destruct k; assumption.
Qed.

End Rules.

Lemma expression_at_sound d : forall p p',
  pos p <= length tokens -> length tokens - pos p < d ->
  parse_expression_at tokens d p = Some p' -> quiet p p' ->
  reads tokens Expression p p'
  /\ ends_expression (skipn (pos p') tokens) = true.
Proof.
  induction d as [|d IH]; intros p p' Hb Hd E Q; [lia|].
  apply (binary_sound d (parse_expression_at tokens d)) with (p := p); auto.
  intros q Hq Hdq. apply moved_good. now apply parse_expression_at_moved.
Qed.

End SoundNew.

Lemma new_expression_sound tokens p p' :
  pos p <= length tokens ->
  NewParse.parse_expression_at tokens (NewParse.budget tokens) p = Some p' ->
  errors p' = errors p ->
  exists e rest,
    derives Expression e /\ skipn (pos p) tokens = e ++ rest
    /\ ends_expression rest = true
    /\ p' = set_pos p (pos p + length e).
Proof.
  intros Hb E Q.
  destruct (expression_at_sound tokens (NewParse.budget tokens) p p')
    as ((e & De & Ee) & F); auto; [unfold NewParse.budget; lia|].
  exists e, (skipn (pos p') tokens). repeat split; auto.
  pose proof (new_expression_reads tokens e _ p De Ee F) as K. congruence.
Qed.

(** X17.  [parse_expression] of src/new_parse.py is quiet on
    expressions only.  When the rule returns without a new diagnostic,
    the tokens it has read are an expression of the grammar, the token
    it stopped at cannot carry an expression on, and nothing but the
    cursor has changed. *)
Theorem new_parse_is_quiet_on_expressions_only (tokens : list Token)
    (p p' : Parser) :
  pos p <= length tokens ->
  NewParse.parse_expression_at tokens (NewParse.budget tokens) p = Some p' ->
  errors p' = errors p ->
  exists e rest,
    derives Expression e /\ skipn (pos p) tokens = e ++ rest
    /\ ends_expression rest = true
    /\ p' = set_pos p (pos p + length e).
Proof.
  apply new_expression_sound.
Qed.

Lemma new_parse_is_quiet_on_expressions_only_witness :
  exists e rest,
    derives Expression e /\ skipn 0 comparison_and = e ++ rest
    /\ ends_expression rest = true
    /\ mkParser 7 [] false = set_pos init (0 + length e).
Proof.
  apply (new_parse_is_quiet_on_expressions_only comparison_and init
           (mkParser 7 [] false)).
  - cbn. lia.
  - vm_compute. reflexivity.
  - reflexivity.
Defined.

(** ** src/cpp_parser.py *)

Section SoundOld.

Variable tokens : list Token.

Import CppParser.

#[local] Arguments expect : simpl never.
#[local] Arguments current_token : simpl never.
#[local] Arguments next : simpl never.
#[local] Arguments add_error : simpl never.
#[local] Arguments append_error : simpl never.

Lemma old_here q t :
  current_token tokens q = Some t ->
  skipn (pos q) tokens = t :: skipn (pos (next q)) tokens.
Proof.
  intros H. now apply skipn_nth.
Qed.

Lemma tok_is_current ty v q :
  tok_is ty v (current_token tokens q) = true ->
  current_token tokens q = Some (mkToken ty v).
Proof.
  unfold tok_is. destruct (current_token tokens q) as [t|]; [|discriminate].
  intros H. apply andb_prop in H. destruct H as [H1 H2]. f_equal.
  now apply token_eta.
Qed.

Lemma tok_in_current l q :
  tok_in OPERATOR l (current_token tokens q) = true ->
  exists o, current_token tokens q = Some (op o) /\ str_in o l = true.
Proof.
  unfold tok_in. destruct (current_token tokens q) as [t|]; [|discriminate].
  intros H. apply andb_prop in H. destruct H as [H1 H2].
  exists (value t). split; [|exact H2]. f_equal.
  apply token_eta; [exact H1 | apply String.eqb_refl].
Qed.

Lemma old_goes_on_operator k q :
  old_goes_on tokens k q = true ->
  exists o, current_token tokens q = Some (op o)
    /\ str_in o (operators k) = true.
Proof.
  intros H. destruct k; cbn [old_goes_on operators] in *;
    try (now apply tok_in_current).
  - exists "&&". split; [|reflexivity]. now apply tok_is_current.
  - exists "||". split; [|reflexivity]. now apply tok_is_current.
Qed.

Lemma not_quiet_after_add_error p q m :
  good tokens p q -> quiet p (add_error tokens m q) -> False.
Proof.
  intros G Q. unfold add_error in Q.
  destruct (current_token tokens q);
    eapply not_quiet_after_error; eauto.
Qed.

(** A quiet [expect] has found its token and moved the cursor by one. *)
Lemma expect_is_quiet ty v c p q :
  ty <> "" -> v <> "" ->
  good tokens p q ->
  quiet p (snd (expect tokens (Some ty) (Some v) c q)) ->
  expect tokens (Some ty) (Some v) c q = (true, next q)
  /\ current_token tokens q = Some (mkToken ty v).
Proof.
  intros Hty Hv G Q. unfold expect, differs in *.
  apply String.eqb_neq in Hty, Hv. rewrite Hty, Hv in *.
  cbn [negb andb] in *.
  destruct (current_token tokens q) as [t|].
  - destruct (String.eqb (type t) ty) eqn:E1; cbn [negb] in *.
    + destruct (String.eqb (value t) v) eqn:E2; cbn [negb] in *.
      * split; [reflexivity|]. f_equal. now apply token_eta.
      * cbn [snd] in Q. exfalso. eapply not_quiet_after_add_error; eauto.
    + cbn [snd] in Q. exfalso. eapply not_quiet_after_add_error; eauto.
  - cbn [snd] in Q. exfalso. eapply not_quiet_after_add_error; eauto.
Qed.

Lemma expect_stays_good a b c q :
  pos q <= length tokens -> good tokens q (snd (expect tokens a b c q)).
Proof.
  intros Hb. now apply expect_spec.
Qed.

(** The loop of a binary level stops where no operator of the level
    stands. *)
Lemma old_stops_at k ks q :
  pos q <= length tokens ->
  ends ks (skipn (pos q) tokens) = true ->
  old_goes_on tokens k q = false ->
  ends (k :: ks) (skipn (pos q) tokens) = true.
Proof.
  intros Hb He Hg.
  destruct (skipn (pos q) tokens) as [|t l] eqn:E; [reflexivity|].
  assert (Hq : q = set_pos q (pos q)) by now destruct q.
  rewrite Hq, (old_goes_on_here tokens (pos q) q t l k E) in Hg.
  unfold ends, continues in *. cbn [upto].
  apply negb_true_iff in He. apply negb_true_iff.
  apply orb_false_elim in He. destruct He as [He1 He2]. rewrite He1.
  cbn [orb]. destruct (String.eqb (type t) OPERATOR); [|reflexivity].
  cbn [andb] in *. unfold str_in in *. rewrite existsb_app, Hg, He2.
  reflexivity.
Qed.

(** The loop of [postfix_expr] leaves where no suffix starts. *)
Lemma old_suffix_round_leaves self q r :
  old_suffix_round tokens self q = Some (Leave r) ->
  r = (true, q) /\ ends [] (skipn (pos q) tokens) = true.
Proof.
  unfold old_suffix_round. intros H.
  destruct (current_token tokens q) as [t|] eqn:Hc.
  - rewrite (old_here q t Hc).
    unfold ends, continues, continues_postfix, str_in, step_operators.
    cbn [upto existsb].
    destruct (String.eqb (type t) SPECIAL) eqn:E1; cbn [negb andb orb] in *.
    + destruct (String.eqb (value t) "[") eqn:E2; cbn [negb] in H.
      { destruct (self (next q)) as [[b q1]|]; discriminate. }
      destruct (String.eqb (value t) "(") eqn:E3; cbn [negb] in H.
      { destruct (argument_list tokens self (next q)) as [[b q1]|];
          discriminate. }
      destruct (String.eqb (type t) OPERATOR) eqn:E4; cbn [negb andb orb] in *.
      * apply String.eqb_eq in E1, E4. rewrite E1 in E4. discriminate.
      * injection H as <-. auto.
    + destruct (String.eqb (type t) OPERATOR) eqn:E4; cbn [negb andb orb] in *.
      * unfold str_in in H. cbn [existsb] in H.
        destruct (String.eqb (value t) "++"
                  || (String.eqb (value t) "--" || false)) eqn:E5;
          [discriminate|]. injection H as <-. auto.
      * injection H as <-. auto.
  - injection H as <-. split; [reflexivity|].
    unfold current_token in Hc. apply nth_error_None in Hc.
    rewrite skipn_all2; [reflexivity | lia].
Qed.

Ltac old_bounds :=
  repeat match goal with
  | H : good _ ?a ?b |- _ =>
      lazymatch goal with
      | _ : pos a <= pos b |- _ => fail
      | _ => pose proof (good_le _ _ _ H);
             pose proof (good_in_bounds _ _ _ H)
      end
  | H : current_token _ ?q = Some _ |- _ =>
      lazymatch goal with
      | _ : pos q < length _ |- _ => fail
      | _ => pose proof (current_token_in_bounds _ _ _ H)
      end
  end;
  unfold next, set_pos in *; cbn [pos] in *.

Section Rules.

Variable d : nat.
Variable self : Parser -> option (bool * Parser).
Hypothesis Hself : forall q, pos q <= length tokens ->
  length tokens - pos q < d ->
  returns (fun r => good tokens q (snd r)) (self q).
Hypothesis Hsound : forall q r, pos q <= length tokens ->
  length tokens - pos q < d -> self q = Some r -> quiet q (snd r) ->
  reads tokens Expression q (snd r)
  /\ ends_expression (skipn (pos (snd r)) tokens) = true.

Lemma old_self_is_good q r :
  pos q <= length tokens -> length tokens - pos q < d ->
  self q = Some r -> good tokens q (snd r).
Proof.
  intros Hb Hd E. destruct (Hself q Hb Hd) as (a & Ea & G). congruence.
Qed.

(** An expression between two tokens that are consumed: [( e )] and
    [[ e ]]. *)
Lemma old_bracket_sound (o c : string) q b q1 :
  o <> "" -> c <> "" ->
  pos q <= length tokens -> length tokens - pos q < S d ->
  current_token tokens q = Some (sp o) ->
  self (next q) = Some (b, q1) ->
  good tokens q (snd (expect tokens (Some SPECIAL) (Some c) None q1))
  /\ pos q < pos (snd (expect tokens (Some SPECIAL) (Some c) None q1))
  /\ (quiet q (snd (expect tokens (Some SPECIAL) (Some c) None q1)) ->
      fst (expect tokens (Some SPECIAL) (Some c) None q1) = true
      /\ exists e, derives Expression e
        /\ skipn (pos q) tokens
           = (sp o :: e ++ [sp c])
             ++ skipn (pos (snd (expect tokens (Some SPECIAL) (Some c)
                                   None q1))) tokens).
Proof.
  intros Ho Hc Hb Hd C E.
  pose proof (good_next tokens q _ C) as G0.
  assert (G1 : good tokens (next q) q1).
  { apply (old_self_is_good (next q) (b, q1)); auto; old_bounds; lia. }
  assert (G2 : good tokens q1
                 (snd (expect tokens (Some SPECIAL) (Some c) None q1)))
    by (apply expect_stays_good; old_bounds; lia).
  assert (G : good tokens q q1) by (eapply good_trans; eauto).
  split; [eapply good_trans; eauto|]. split; [old_bounds; lia|].
  intros Q.
  destruct (expect_is_quiet SPECIAL c None q q1) as (E2 & C2); auto;
    [discriminate|].
  rewrite E2 in *. cbn [fst snd] in *. split; [reflexivity|].
  assert (Q1 : quiet (next q) q1).
  { unfold quiet in *. cbn [errors next set_pos] in *. exact Q. }
  destruct (Hsound (next q) (b, q1)) as ((e & De & Ee) & _); auto;
    [old_bounds; lia..|].
  cbn [snd] in Ee. exists e. split; [exact De|].
  rewrite (old_here q _ C), Ee, (old_here q1 _ C2). cbn [app].
  now rewrite <- app_assoc.
Qed.

Lemma old_primary_sound p r :
  pos p <= length tokens -> length tokens - pos p < S d ->
  primary_expr tokens self p = Some r -> quiet p (snd r) ->
  reads tokens Primary p (snd r).
Proof.
  intros Hb Hd E Q. unfold primary_expr in E.
  destruct (current_token tokens p) as [tok|] eqn:C.
  - assert (Atom : str_in (type tok) [IDENTIFIER; NUMBER; STRING] = true ->
              Some (true, next p) = Some r -> reads tokens Primary p (snd r)).
    { intros A K. injection K as <-. exists [tok].
      split; [now apply d_atom|]. apply (old_here p tok C). }
    destruct (String.eqb (type tok) IDENTIFIER) eqn:T1.
    { apply Atom; [|exact E]. unfold str_in. cbn [existsb]. now rewrite T1. }
    destruct (String.eqb (type tok) NUMBER) eqn:T2.
    { apply Atom; [|exact E]. unfold str_in. cbn [existsb].
      now rewrite T2, orb_true_r. }
    destruct (String.eqb (type tok) STRING) eqn:T3.
    { apply Atom; [|exact E]. unfold str_in. cbn [existsb].
      now rewrite T3, !orb_true_r. }
    destruct (String.eqb (type tok) SPECIAL && String.eqb (value tok) "(")
      eqn:M.
    + apply andb_prop in M. destruct M as [M1 M2].
      assert (C1 : current_token tokens p = Some (sp "("))
        by (rewrite C; f_equal; now apply token_eta).
      destruct (self (next p)) as [[b p1]|] eqn:E1; [|discriminate].
      cbn [bind] in E.
      destruct (old_bracket_sound "(" ")" p b p1) as (_ & _ & R); auto;
        try discriminate.
      destruct (expect tokens (Some SPECIAL) (Some ")") None p1)
        as [ok p2] eqn:X.
      assert (Er : snd r = p2) by (destruct ok; injection E as <-; reflexivity).
      rewrite Er in *. cbn [fst snd] in R.
      destruct (R Q) as (_ & e & De & Ee).
      exists (sp "(" :: e ++ [sp ")"]). split; [now apply d_parenthesis|].
      exact Ee.
    + injection E as <-. cbn [snd] in Q. exfalso.
      eapply (not_quiet_after_add_error p p); [now apply good_refl|exact Q].
  - injection E as <-. cbn [snd] in Q. exfalso.
    eapply (not_quiet_after_add_error p p); [now apply good_refl|exact Q].
Qed.

(** The loop over the further arguments of a call. *)
Lemma old_more_arguments_sound n : forall q r,
  pos q <= length tokens -> length tokens - pos q < S d ->
  loop n (old_argument_round tokens self) q = Some r ->
  good tokens q (snd r)
  /\ (quiet q (snd r) -> reads tokens MoreArguments q (snd r)).
Proof.
  induction n as [|n IH]; intros q r Hb Hd E; [discriminate|].
  cbn [loop] in E. unfold old_argument_round in E at 1.
  destruct (tok_is SPECIAL "," (current_token tokens q)) eqn:M.
  - pose proof (tok_is_current _ _ _ M) as C.
    pose proof (good_next tokens q _ C) as G0.
    destruct (self (next q)) as [[b q1]|] eqn:E1; [|discriminate].
    cbn [bind] in E.
    assert (G1 : good tokens (next q) q1).
    { apply (old_self_is_good (next q) (b, q1)); auto; old_bounds; lia. }
    destruct (IH q1 r) as (G2 & R2); [old_bounds; lia..|exact E|].
    assert (G : good tokens q q1) by (eapply good_trans; eauto).
    split; [eapply good_trans; eauto|]. intros Q.
    destruct (quiet_split tokens q q1 (snd r) G G2 Q) as (Q1 & Q2).
    destruct (Hsound (next q) (b, q1)) as ((e & De & Ee) & _); auto;
      [old_bounds; lia..|].
    cbn [snd] in Ee. destruct (R2 Q2) as (m & Dm & Em).
    exists (sp "," :: e ++ m). split; [now apply d_more|].
    rewrite (old_here q _ C), Ee, Em. cbn [app]. now rewrite <- app_assoc.
  - cbn [bind] in E. injection E as <-. cbn [snd].
    split; [now apply good_refl|]. intros _.
    apply reads_nothing, d_no_more.
Qed.

Lemma old_argument_list_sound p r :
  pos p <= length tokens -> length tokens - pos p < d ->
  argument_list tokens self p = Some r ->
  good tokens p (snd r)
  /\ (quiet p (snd r) -> reads tokens Arguments p (snd r)).
Proof.
  intros Hb Hd E. rewrite argument_list_unfold in E.
  destruct (tok_is SPECIAL ")" (current_token tokens p)).
  - injection E as <-. cbn [snd]. split; [now apply good_refl|]. intros _.
    apply reads_nothing, d_no_argument.
  - destruct (self p) as [[b p1]|] eqn:E1; [|discriminate].
    cbn [bind snd] in E.
    assert (G1 : good tokens p p1)
      by (apply (old_self_is_good p (b, p1)); auto).
    destruct (old_more_arguments_sound (budget tokens) p1 r) as (G2 & R2);
      [old_bounds; lia..|exact E|].
    split; [eapply good_trans; eauto|]. intros Q.
    destruct (quiet_split tokens p p1 (snd r) G1 G2 Q) as (Q1 & Q2).
    destruct (Hsound p (b, p1)) as ((e & De & Ee) & _); auto.
    cbn [snd] in Ee. destruct (R2 Q2) as (m & Dm & Em).
    exists (e ++ m). split; [now apply d_arguments|].
    rewrite Ee, Em. now rewrite <- app_assoc.
Qed.

(** One suffix. *)
Lemma old_suffix_round_again q q1 :
  pos q <= length tokens -> length tokens - pos q < S d ->
  old_suffix_round tokens self q = Some (Again q1) ->
  good tokens q q1 /\ pos q < pos q1
  /\ (quiet q q1 ->
      exists one, skipn (pos q) tokens = one ++ skipn (pos q1) tokens
        /\ forall s, derives Suffixes s -> derives Suffixes (one ++ s)).
Proof.
  intros Hb Hd R. unfold old_suffix_round in R.
  destruct (current_token tokens q) as [t|] eqn:C; [|discriminate].
  destruct (String.eqb (type t) SPECIAL && String.eqb (value t) "[") eqn:M1.
  { apply andb_prop in M1. destruct M1 as [T1 T2].
    assert (C1 : current_token tokens q = Some (sp "["))
      by (rewrite C; f_equal; now apply token_eta).
    destruct (self (next q)) as [[b q2]|] eqn:E2; [|discriminate].
    cbn [bind] in R. injection R as <-.
    destruct (old_bracket_sound "[" "]" q b q2) as (G & Hlt & R); auto;
      try discriminate.
    split; [exact G|]. split; [exact Hlt|]. intros Q.
    destruct (R Q) as (_ & e & De & Ee).
    exists (sp "[" :: e ++ [sp "]"]). split; [exact Ee|].
    intros s Ds. cbn [app]. rewrite <- app_assoc. now apply d_subscript. }
  destruct (String.eqb (type t) SPECIAL && String.eqb (value t) "(") eqn:M2.
  { apply andb_prop in M2. destruct M2 as [T1 T2].
    assert (C2 : current_token tokens q = Some (sp "("))
      by (rewrite C; f_equal; now apply token_eta).
    pose proof (good_next tokens q _ C) as G0.
    destruct (argument_list tokens self (next q)) as [[b q2]|] eqn:E2;
      [|discriminate].
    cbn [bind] in R. injection R as <-.
    destruct (old_argument_list_sound (next q) (b, q2)) as (G1 & R1);
      [old_bounds; lia..|exact E2|]. cbn [snd] in G1, R1.
    assert (G2 : good tokens q2
                   (snd (expect tokens (Some SPECIAL) (Some ")") None q2)))
      by (apply expect_stays_good; old_bounds; lia).
    assert (G : good tokens q q2) by (eapply good_trans; eauto).
    split; [eapply good_trans; eauto|]. split; [old_bounds; lia|]. intros Q.
    destruct (expect_is_quiet SPECIAL ")" None q q2) as (E3 & C3); auto;
      [discriminate..|].
    rewrite E3 in *. cbn [snd] in *.
    assert (Q1 : quiet (next q) q2).
    { unfold quiet in *. cbn [errors next set_pos] in *. exact Q. }
    destruct (R1 Q1) as (a & Da & Ea).
    exists (sp "(" :: a ++ [sp ")"]). split.
    - rewrite (old_here q _ C2), Ea, (old_here q2 _ C3). cbn [app].
      now rewrite <- app_assoc.
    - intros s Ds. cbn [app]. rewrite <- app_assoc. now apply d_call. }
  destruct (String.eqb (type t) OPERATOR && str_in (value t) ["++"; "--"])
    eqn:M3; [|discriminate].
  injection R as <-. apply andb_prop in M3. destruct M3 as [T1 T2].
  assert (Co : current_token tokens q = Some (op (value t))).
  { rewrite C. f_equal. apply token_eta; [exact T1 | apply String.eqb_refl]. }
  split; [now apply good_next with (t := t)|]. split; [old_bounds; lia|].
  intros _. exists [op (value t)]. split; [apply (old_here q _ Co)|].
  intros s Ds. now apply d_step.
Qed.

Lemma old_suffixes_sound n : forall q r,
  pos q <= length tokens -> length tokens - pos q < S d ->
  loop n (old_suffix_round tokens self) q = Some r ->
  good tokens q (snd r)
  /\ (quiet q (snd r) ->
      fst r = true /\ reads tokens Suffixes q (snd r)
      /\ ends [] (skipn (pos (snd r)) tokens) = true).
Proof.
  induction n as [|n IH]; intros q r Hb Hd E; [discriminate|].
  cbn [loop] in E.
  destruct (old_suffix_round tokens self q) as [[q1|r0]|] eqn:R;
    [| |discriminate].
  - destruct (old_suffix_round_again q q1 Hb Hd R) as (G1 & Hlt & R1).
    destruct (IH q1 r) as (G2 & R2); [old_bounds; lia..|exact E|].
    split; [eapply good_trans; eauto|]. intros Q.
    destruct (quiet_split tokens q q1 (snd r) G1 G2 Q) as (Q1 & Q2).
    destruct (R1 Q1) as (one & E1 & K).
    destruct (R2 Q2) as (B & (s & Ds & Es) & F).
    split; [exact B|]. split; [|exact F].
    exists (one ++ s). split; [now apply K|].
    rewrite E1, Es. now rewrite <- app_assoc.
  - injection E as <-.
    destruct (old_suffix_round_leaves self q r0 R) as (-> & F). cbn [fst snd].
    split; [now apply good_refl|]. intros _. split; [reflexivity|].
    split; [|exact F]. apply reads_nothing, d_no_suffix.
Qed.

Lemma old_postfix_sound p r :
  pos p <= length tokens -> length tokens - pos p < S d ->
  postfix_expr tokens self p = Some r -> quiet p (snd r) ->
  fst r = true /\ reads tokens Postfix p (snd r)
  /\ ends [] (skipn (pos (snd r)) tokens) = true.
Proof.
  intros Hb Hd E Q. rewrite postfix_expr_unfold in E.
  destruct (primary_expr_good tokens d self Hself p Hb Hd)
    as ([b p1] & E1 & (G1 & _)).
  rewrite E1 in E. cbn [bind snd] in E, G1.
  destruct (old_suffixes_sound (budget tokens) p1 r) as (G2 & R2);
    [old_bounds; unfold budget; lia..|exact E|].
  destruct (quiet_split tokens p p1 (snd r) G1 G2 Q) as (Q1 & Q2).
  destruct (old_primary_sound p (b, p1) Hb Hd E1 Q1) as (a & Da & Ea).
  cbn [snd] in Ea.
  destruct (R2 Q2) as (B & (s & Ds & Es) & F).
  split; [exact B|]. split; [|exact F].
  exists (a ++ s). split; [now apply d_postfix|].
  rewrite Ea, Es. now rewrite <- app_assoc.
Qed.

Lemma old_unary_sound n : forall p r,
  pos p <= length tokens -> length tokens - pos p < S d ->
  unary_expr tokens self n p = Some r -> quiet p (snd r) ->
  fst r = true /\ reads tokens Unary p (snd r)
  /\ ends [] (skipn (pos (snd r)) tokens) = true.
Proof.
  induction n as [|n IH]; intros p r Hb Hd E Q; [discriminate|].
  cbn [unary_expr] in E.
  destruct (tok_in OPERATOR ["+"; "-"; "++"; "--"; "!"]
              (current_token tokens p)) eqn:M.
  - destruct (tok_in_current _ _ M) as (o & C & Ho).
    pose proof (good_next tokens p _ C) as G0.
    destruct (IH (next p) r) as (B & (u & Du & Eu) & F);
      [old_bounds; lia..|exact E|exact Q|].
    split; [exact B|]. split; [|exact F].
    exists (op o :: u). split; [now apply d_prefix|].
    rewrite (old_here p _ C), Eu. reflexivity.
  - destruct (old_postfix_sound p r Hb Hd E Q) as (B & (a & Da & Ea) & F).
    split; [exact B|]. split; [|exact F].
    exists a. split; [now apply d_unary | exact Ea].
Qed.

Lemma old_binary_parsed k q :
  pos q <= length tokens -> length tokens - pos q < S d ->
  returns (parsed tokens q) (old_binary tokens k self q).
Proof.
  intros Hb Hd. destruct k; cbn [old_binary].
  - now apply multiplicative_expr_good with (d := d).
  - now apply additive_expr_good with (d := d).
  - now apply relational_expr_good with (d := d).
  - now apply equality_expr_good with (d := d).
  - now apply logical_and_expr_good with (d := d).
  - now apply logical_or_expr_good with (d := d).
Qed.

Lemma old_operand_parsed k q :
  pos q <= length tokens -> length tokens - pos q < S d ->
  returns (parsed tokens q) (old_operand tokens k self q).
Proof.
  intros Hb Hd. destruct k; cbn [old_operand];
    try (now apply old_binary_parsed).
  apply unary_expr_good with (d := d); auto. unfold budget. lia.
Qed.

(** One level of the ladder of binary operators. *)
Lemma old_binary_from_operand k :
  (forall q r, pos q <= length tokens -> length tokens - pos q < S d ->
     old_operand tokens k self q = Some r -> quiet q (snd r) ->
     fst r = true /\ reads tokens (operand k) q (snd r)
     /\ ends (tighter k) (skipn (pos (snd r)) tokens) = true) ->
  forall p r, pos p <= length tokens -> length tokens - pos p < S d ->
    old_binary tokens k self p = Some r -> quiet p (snd r) ->
    fst r = true /\ reads tokens (Binary k) p (snd r)
    /\ ends (k :: tighter k) (skipn (pos (snd r)) tokens) = true.
Proof.
  intros Hs.
  assert (L : forall n q r, pos q <= length tokens ->
            length tokens - pos q < S d ->
            loop n (old_binary_round tokens k self) q = Some r ->
            good tokens q (snd r)
            /\ (quiet q (snd r) ->
                ends (tighter k) (skipn (pos q) tokens) = true ->
                fst r = true /\ reads tokens (Rest k) q (snd r)
                /\ ends (k :: tighter k) (skipn (pos (snd r)) tokens)
                   = true)).
  { induction n as [|n IH]; intros q r Hb Hd E; [discriminate|].
    cbn [loop] in E. unfold old_binary_round in E at 1.
    destruct (old_goes_on tokens k q) eqn:M.
    - destruct (old_goes_on_operator k q M) as (o & C & Ho).
      pose proof (good_next tokens q _ C) as G0.
      destruct (old_operand_parsed k (next q)) as ([b q1] & E1 & (G1 & _));
        [old_bounds; lia..|].
      rewrite E1 in E. cbn [bind snd] in E, G1.
      assert (G : good tokens q q1) by (eapply good_trans; eauto).
      destruct (IH q1 r) as (G2 & R2); [old_bounds; lia..|exact E|].
      split; [eapply good_trans; eauto|]. intros Q _.
      destruct (quiet_split tokens q q1 (snd r) G G2 Q) as (Q1 & Q2).
      destruct (Hs (next q) (b, q1)) as (_ & (a & Da & Ea) & Fa); auto;
        [old_bounds; lia..|].
      cbn [snd] in Ea, Fa.
      destruct (R2 Q2 Fa) as (B & (s & Ds & Es) & Fr).
      split; [exact B|]. split; [|exact Fr].
      exists (op o :: a ++ s). split; [now apply d_rest|].
      rewrite (old_here q _ C), Ea, Es. cbn [app]. now rewrite <- app_assoc.
    - cbn [bind] in E. injection E as <-. cbn [fst snd].
      split; [now apply good_refl|]. intros _ F. split; [reflexivity|]. split.
      + apply reads_nothing, d_no_rest.
      + now apply old_stops_at. }
  intros p r Hb Hd E Q. rewrite old_binary_unfold in E.
  destruct (old_operand_parsed k p Hb Hd) as ([b p1] & E1 & (G1 & _)).
  rewrite E1 in E. cbn [bind snd] in E, G1.
  destruct (L (budget tokens) p1 r) as (G2 & R2);
    [old_bounds; lia..|exact E|].
  destruct (quiet_split tokens p p1 (snd r) G1 G2 Q) as (Q1 & Q2).
  destruct (Hs p (b, p1) Hb Hd E1 Q1) as (_ & (a & Da & Ea) & Fa).
  cbn [snd] in Ea, Fa.
  destruct (R2 Q2 Fa) as (B & (s & Ds & Es) & Fr).
  split; [exact B|]. split; [|exact Fr].
  exists (a ++ s). split; [now apply d_binary|].
  rewrite Ea, Es. now rewrite <- app_assoc.
Qed.

Lemma old_binary_sound k : forall p r,
  pos p <= length tokens -> length tokens - pos p < S d ->
  old_binary tokens k self p = Some r -> quiet p (snd r) ->
  fst r = true /\ reads tokens (Binary k) p (snd r)
  /\ ends (k :: tighter k) (skipn (pos (snd r)) tokens) = true.
Proof.
  assert (S0 := old_binary_from_operand Multiplicative
                  (fun q r Hb Hd => old_unary_sound (budget tokens) q r Hb Hd)).
  assert (S1 := old_binary_from_operand Additive S0).
  assert (S2 := old_binary_from_operand Relational S1).
  assert (S3 := old_binary_from_operand Equality S2).
  assert (S4 := old_binary_from_operand LogicalAnd S3).
  assert (S5 := old_binary_from_operand LogicalOr S4).
  destruct k; assumption.
Qed.

End Rules.

Lemma old_expression_at_sound d : forall p r,
  pos p <= length tokens -> length tokens - pos p < d ->
  expression_at tokens d p = Some r -> quiet p (snd r) ->
  fst r = true /\ reads tokens Expression p (snd r)
  /\ ends_expression (skipn (pos (snd r)) tokens) = true.
Proof.
  induction d as [|d IH]; intros p r Hb Hd E Q; [lia|].
  apply (old_binary_sound d (expression_at tokens d) ) with (k := LogicalOr)
                                                            (p := p); auto.
  - intros q Hq Hdq. apply parsed_good. now apply expression_at_good.
  - intros q r0 Hq Hdq E0 Q0. now apply IH.
Qed.

End SoundOld.

Lemma old_expression_sound tokens p r :
  pos p <= length tokens ->
  CppParser.expression_at tokens (CppParser.budget tokens) p = Some r ->
  errors (snd r) = errors p ->
  exists e rest,
    derives Expression e /\ skipn (pos p) tokens = e ++ rest
    /\ ends_expression rest = true
    /\ r = (true, set_pos p (pos p + length e)).
Proof.
  intros Hb E Q.
  destruct (old_expression_at_sound tokens (CppParser.budget tokens) p r)
    as (_ & (e & De & Ee) & F); auto; [unfold CppParser.budget; lia|].
  exists e, (skipn (pos (snd r)) tokens). repeat split; auto.
  pose proof (old_expression_reads tokens e _ p De Ee F) as K. congruence.
Qed.

(** X18.  [expression] of src/cpp_parser.py is quiet on expressions
    only.  When the rule returns without a new diagnostic, the tokens it
    has read are an expression of the grammar, the token it stopped at
    cannot carry an expression on, the value returned is [True] and
    nothing but the cursor has changed. *)
Theorem cpp_parser_is_quiet_on_expressions_only (tokens : list Token)
    (p : Parser) (r : bool * Parser) :
  pos p <= length tokens ->
  CppParser.expression_at tokens (CppParser.budget tokens) p = Some r ->
  errors (snd r) = errors p ->
  exists e rest,
    derives Expression e /\ skipn (pos p) tokens = e ++ rest
    /\ ends_expression rest = true
    /\ r = (true, set_pos p (pos p + length e)).
Proof.
  apply old_expression_sound.
Qed.

Lemma cpp_parser_is_quiet_on_expressions_only_witness :
  exists e rest,
    derives Expression e /\ skipn 0 sum_product = e ++ rest
    /\ ends_expression rest = true
    /\ (true, mkParser 5 [] false) = (true, set_pos init (0 + length e)).
Proof.
  apply (cpp_parser_is_quiet_on_expressions_only sum_product init
           (true, mkParser 5 [] false)).
  - cbn. lia.
  - vm_compute. reflexivity.
  - reflexivity.
Defined.

(** ** Both files *)

Lemma quiet_together tokens p p' :
  pos p <= length tokens ->
  NewParse.parse_expression_at tokens (NewParse.budget tokens) p = Some p'
  /\ errors p' = errors p
  <-> CppParser.expression_at tokens (CppParser.budget tokens) p
      = Some (true, p')
      /\ errors p' = errors p.
Proof.
  intros Hb. split; intros (E & Q); (split; [|exact Q]).
  - destruct (new_expression_sound tokens p p' Hb E Q)
      as (e & rest & De & Ee & F & ->).
    now apply old_expression_reads with (rest := rest).
  - destruct (old_expression_sound tokens p (true, p') Hb E Q)
      as (e & rest & De & Ee & F & K).
    injection K as ->.
    now apply new_expression_reads with (rest := rest).
Qed.

(** X19.  The expression rules of the two files are quiet together.
    From a state whose cursor is in bounds, [parse_expression] of
    src/new_parse.py returns the state [p'] without a new diagnostic
    exactly when [expression] of src/cpp_parser.py returns [True] and
    the same state [p'] without a new diagnostic. *)
Theorem expression_rules_are_quiet_together (tokens : list Token)
    (p p' : Parser) :
  pos p <= length tokens ->
  NewParse.parse_expression_at tokens (NewParse.budget tokens) p = Some p'
  /\ errors p' = errors p
  <-> CppParser.expression_at tokens (CppParser.budget tokens) p
      = Some (true, p')
      /\ errors p' = errors p.
Proof.
  apply quiet_together.
Qed.

Lemma expression_rules_are_quiet_together_witness :
  NewParse.parse_expression_at sum_product (NewParse.budget sum_product) init
  = Some (mkParser 5 [] false)
  /\ errors (mkParser 5 [] false) = errors init
  <-> CppParser.expression_at sum_product (CppParser.budget sum_product) init
      = Some (true, mkParser 5 [] false)
      /\ errors (mkParser 5 [] false) = errors init.
Proof.
  apply (expression_rules_are_quiet_together sum_product init
           (mkParser 5 [] false)).
  cbn. lia.
Defined.
